(** * BOUT++ coordinates: differential geometry on a staggered, decomposed mesh

    Shallow embedding of [src/mesh/coordinates.cxx]: the boundary-aware
    interpolation helpers of its anonymous namespace, the metric inversion,
    the Jacobian, the connection coefficients, the staggered and corner
    builders and the parallel operators, followed by the properties of the
    specification that are settled on them. *)

From Stdlib Require Import ZArith List Bool String Lia Reals Lra.
From Stdlib Require Import PrimFloat Uint63 SpecFloat FloatOps FloatAxioms.
From Stdlib Require Import FunctionalExtensionality.
From stdpp Require Import base gmap.

Set Warnings "-inexact-float".

Local Open Scope string_scope.
Local Open Scope Z_scope.

(** ** BoutReal

    [BoutReal] is a C++ [double].  The code is embedded once, over the
    operations it uses; the instance [binary64] is the IEEE type the program
    runs on, the instance [exact] is real arithmetic without rounding, in
    which the algebraic laws of the metric are stated. *)

Class BoutRealOps (T : Type) : Type := {
  radd : T -> T -> T;
  rsub : T -> T -> T;
  rmul : T -> T -> T;
  rdiv : T -> T -> T;
  rneg : T -> T;
  rsqrt : T -> T;
  rabs : T -> T;
  rltb : T -> T -> bool;
  rleb : T -> T -> bool;
  reqb : T -> T -> bool;
  rfinite : T -> bool;
  (* the literals of the source *)
  r0 : T; r1 : T; r0_5 : T; r2 : T; r3 : T; r9 : T; r16 : T;
  r1em8 : T; r1em10 : T;
  BoutNaN : T
}.

Declare Scope bout_scope.
Delimit Scope bout_scope with B.
Infix "+" := radd : bout_scope.
Infix "-" := rsub : bout_scope.
Infix "*" := rmul : bout_scope.
Infix "/" := rdiv : bout_scope.
Infix "<?" := rltb : bout_scope.
Infix "<=?" := rleb : bout_scope.

(** The type the program is compiled with. *)
#[export] Instance binary64 : BoutRealOps float := {|
  radd := PrimFloat.add; rsub := PrimFloat.sub;
  rmul := PrimFloat.mul; rdiv := PrimFloat.div;
  rneg := PrimFloat.opp;
  rsqrt := PrimFloat.sqrt; rabs := PrimFloat.abs;
  rltb := PrimFloat.ltb; rleb := PrimFloat.leb; reqb := PrimFloat.eqb;
  rfinite := fun x => negb (PrimFloat.is_nan x || PrimFloat.is_infinity x);
  r0 := 0%float; r1 := 1%float; r0_5 := 0.5%float; r2 := 2%float;
  r3 := 3%float; r9 := 9%float; r16 := 16%float;
  r1em8 := 1e-8%float; r1em10 := 1e-10%float;
  BoutNaN := PrimFloat.nan
|}.

(** Arithmetic without rounding.  Every real is finite; the not-a-number
    sentinel has no counterpart and is never read in this instance.
    Division is the total division of the library's real numbers, with
    [x / 0 = 0], where the program produces an infinity or a NaN: the
    laws stated in this instance are laws of real arithmetic, and where a
    statement divides by a value of the data it assumes that value not to
    be zero. *)
Definition Rltb (x y : R) : bool := if Rlt_dec x y then true else false.
Definition Rleb (x y : R) : bool := if Rle_dec x y then true else false.
Definition Reqb (x y : R) : bool := if Req_dec_T x y then true else false.

#[export] Instance exact : BoutRealOps R := {|
  radd := Rplus; rsub := Rminus; rmul := Rmult; rdiv := Rdiv;
  rneg := Ropp;
  rsqrt := R_sqrt.sqrt; rabs := Rabs;
  rltb := Rltb; rleb := Rleb; reqb := Reqb;
  rfinite := fun _ => true;
  r0 := 0%R; r1 := 1%R; r0_5 := (1/2)%R; r2 := 2%R; r3 := 3%R;
  r9 := 9%R; r16 := 16%R;
  r1em8 := (/ 100000000)%R; r1em10 := (/ 10000000000)%R;
  BoutNaN := 0%R
|}.

(** ** Errors

    Every fatal condition of the source is a thrown [BoutException]; an
    [ASSERT1] that fails throws as well (builds with [CHECK >= 1]). *)

Inductive Result (A : Type) : Type :=
| Ok (a : A)
| Throw (msg : string).
Arguments Ok {A} a.
Arguments Throw {A} msg.

Definition rbind {A B} (m : Result A) (k : A -> Result B) : Result B :=
  match m with
  | Ok a => k a
  | Throw msg => Throw msg
  end.

Notation "x <- m ;; k" := (rbind m (fun x => k))
  (at level 100, m at next level, right associativity).
Notation "m ;;; k" := (rbind m (fun _ => k))
  (at level 100, right associativity).

Definition ASSERT1 (cond : bool) (what : string) : Result unit :=
  if cond then Ok tt else Throw (String.append "Assertion failed: " what).

Definition succeeds {A} (m : Result A) : bool :=
  match m with Ok _ => true | Throw _ => false end.

(** A [for] loop whose body may throw. *)
Fixpoint foldM {A B} (body : B -> A -> Result B) (l : list A) (b : B)
    : Result B :=
  match l with
  | [] => Ok b
  | a :: l' => b' <- body b a ;; foldM body l' b'
  end.

Definition not_enough_x : string :=
  "Not enough points in the x-direction on this processor for extrapolation needed to use staggered grids. Increase number of x-guard cells MXG or decrease number of processors in the x-direction NXPE.".
Definition not_enough_y : string :=
  "Not enough points in the y-direction on this processor for extrapolation needed to use staggered grids. Increase number of y-guard cells MYG or decrease number of processors in the y-direction NYPE.".

(** ** Locations and regions *)

Inductive CELL_LOC : Set :=
| CELL_DEFAULT | CELL_CENTRE | CELL_XLOW | CELL_YLOW | CELL_ZLOW | CELL_VSHIFT.

Definition CELL_LOC_eqb (a b : CELL_LOC) : bool :=
  match a, b with
  | CELL_DEFAULT, CELL_DEFAULT | CELL_CENTRE, CELL_CENTRE
  | CELL_XLOW, CELL_XLOW | CELL_YLOW, CELL_YLOW
  | CELL_ZLOW, CELL_ZLOW | CELL_VSHIFT, CELL_VSHIFT => true
  | _, _ => false
  end.

Inductive REGION : Set := RGN_ALL | RGN_NOBNDRY.

(** [for (int i = lo; i < hi; i++)] visits [range lo hi] in this order. *)
Definition range (lo hi : Z) : list Z :=
  map (fun k => lo + Z.of_nat k) (seq 0 (Z.to_nat (hi - lo))).

(** [for (int j = hi; j > lo; j--)] visits [range_down hi lo]. *)
Definition range_down (hi lo : Z) : list Z :=
  map (fun k => hi - Z.of_nat k) (seq 0 (Z.to_nat (hi - lo))).

Inductive DIFF_METHOD : Set :=
| DIFF_DEFAULT | DIFF_U1 | DIFF_U2 | DIFF_C2 | DIFF_W2 | DIFF_W3 | DIFF_C4
| DIFF_U3 | DIFF_FFT | DIFF_SPLIT | DIFF_S2.

(** ** Fields, mesh and geometry object *)

Section Embedding.

Context {T : Type} {ops : BoutRealOps T}.

(** A [Field2D] as a value: its data, addressed as [f(x, y)], and its
    location tag.  (The sharing of the data block between copies is the
    subject of the store model further down.) *)
Record Field2D : Type := mkField2D {
  fval :> Z -> Z -> T;
  getLocation : CELL_LOC
}.

Definition setLocation (f : Field2D) (l : CELL_LOC) : Field2D :=
  mkField2D (fval f) l.

(** [result(x, y) = v] *)
Definition assign (f : Field2D) (x y : Z) (v : T) : Field2D :=
  mkField2D (fun x' y' => if (x' =? x) && (y' =? y) then v else f x' y')
            (getLocation f).

(** [Field2D(v, mesh)], a constant field at cell centre. *)
Definition Field2D_const (v : T) : Field2D := mkField2D (fun _ _ => v) CELL_CENTRE.

(** Field arithmetic is pointwise (tensor-field container, an external
    collaborator); the result carries the location of the field operand,
    the left one for two fields.  Whether the container refuses operands
    with different location tags is not part of the sources at hand and is
    not modelled: the arithmetic below acts on the values. *)
Definition fmap2 (op : T -> T -> T) (a b : Field2D) : Field2D :=
  mkField2D (fun x y => op (a x y) (b x y)) (getLocation a).
Definition fmap1 (op : T -> T) (a : Field2D) : Field2D :=
  mkField2D (fun x y => op (a x y)) (getLocation a).

Definition fadd := fmap2 radd.
Definition fsub := fmap2 rsub.
Definition fmul := fmap2 rmul.
Definition fdiv := fmap2 rdiv.
Definition fneg := fmap1 rneg.
Definition fsqrt := fmap1 rsqrt.
Definition fabs := fmap1 rabs.
(** [k * f], [k / f] and [f - k] for a scalar [k]. *)
Definition smul (k : T) (f : Field2D) : Field2D := fmap1 (rmul k) f.
Definition sdiv (k : T) (f : Field2D) : Field2D := fmap1 (rdiv k) f.
Definition fsubs (f : Field2D) (k : T) : Field2D := fmap1 (fun v => rsub v k) f.

Declare Scope field_scope.
Delimit Scope field_scope with fld.
Bind Scope field_scope with Field2D.
Infix "+" := fadd : field_scope.
Infix "-" := fsub : field_scope.
Infix "*" := fmul : field_scope.
Infix "/" := fdiv : field_scope.
Notation "k *. f" := (smul k f) (at level 40, left associativity) : field_scope.
Notation "k /. f" := (sdiv k f) (at level 40, left associativity) : field_scope.

(** One boundary region of the mesh: its outward normal [(bx, by)], its
    width in cells, and the positions its 1-D traversal
    ([first] / [isDone] / [next1d]) visits, in order. *)
Record BoundaryRegion : Type := mkBoundaryRegion {
  bndry_bx : Z;
  bndry_by : Z;
  bndry_width : Z;
  bndry_positions : list (Z * Z)
}.

(** What this file consumes from the mesh, the decomposition and the
    differencing engine.  Grid sizes are C [int]s; they stay far inside
    the [int] range and are kept as [Z]. *)
Record Mesh : Type := mkMesh {
  GlobalNx : Z; GlobalNy : Z;
  LocalNx : Z; LocalNy : Z; LocalNz : Z;
  xstart : Z; xend : Z; ystart : Z; yend : Z;
  getBoundaries : list BoundaryRegion;
  hasBranchCut : bool;
  hasBranchCutDown : Z -> bool;
  hasBranchCutUp : Z -> bool;
  IncIntShear : bool;
  (* halo exchange of one field *)
  communicate : Field2D -> Field2D;
  (* index-space derivatives *)
  indexDDX : Field2D -> CELL_LOC -> DIFF_METHOD -> REGION -> Field2D;
  indexDDY : Field2D -> CELL_LOC -> DIFF_METHOD -> REGION -> Field2D;
  (* the interpolation stencil run by [interp_to] over a region *)
  interp_to : Field2D -> CELL_LOC -> REGION -> Field2D;
  (* [interp(s)] on the stencil [s.mm], [s.m], [s.p], [s.pp] *)
  interp : T -> T -> T -> T -> T;
  (* the grid file: a named quantity, or not found *)
  get : string -> option Field2D;
  (* the root option [non_uniform], when set *)
  Options_non_uniform : option bool
}.

Definition region (m : Mesh) (rgn : REGION) : list (Z * Z) :=
  match rgn with
  | RGN_ALL => list_prod (range 0 (LocalNx m)) (range 0 (LocalNy m))
  | RGN_NOBNDRY =>
      list_prod (range (xstart m) (xend m + 1)) (range (ystart m) (yend m + 1))
  end.

(** Field reductions of the container.  [finite(f, rgn)] holds when every
    value of the region is finite.  [min(f)] starts from the first value of
    its region and keeps a value whenever it is smaller.  The region [min]
    ranges over by default is declared outside this file: it is the
    parameter [rgn_min]. *)
Definition finite (m : Mesh) (f : Field2D) (rgn : REGION) : bool :=
  forallb (fun p => rfinite (f (fst p) (snd p))) (region m rgn).

Definition min_over (pts : list (Z * Z)) (f : Field2D) : T :=
  match pts with
  | [] => f 0 0
  | p :: ps =>
      fold_left (fun acc q => if (f (fst q) (snd q) <? acc)%B
                              then f (fst q) (snd q) else acc)
                ps (f (fst p) (snd p))
  end.

Variable rgn_min : REGION.

Definition min (m : Mesh) (f : Field2D) : T := min_over (region m rgn_min) f.

(** The geometry object: one per mesh and location. *)
Record Coordinates : Type := mkCoordinates {
  localmesh : Mesh;
  location : CELL_LOC;
  dx : Field2D;
  dy : Field2D;
  dz : T;
  nz : Z;
  non_uniform : bool;
  d1_dx : Field2D;
  d1_dy : Field2D;
  J : Field2D;
  Bxy : Field2D;
  g11 : Field2D;
  g22 : Field2D;
  g33 : Field2D;
  g12 : Field2D;
  g13 : Field2D;
  g23 : Field2D;
  g_11 : Field2D;
  g_22 : Field2D;
  g_33 : Field2D;
  g_12 : Field2D;
  g_13 : Field2D;
  g_23 : Field2D;
  G1_11 : Field2D;
  G1_22 : Field2D;
  G1_33 : Field2D;
  G1_12 : Field2D;
  G1_13 : Field2D;
  G1_23 : Field2D;
  G2_11 : Field2D;
  G2_22 : Field2D;
  G2_33 : Field2D;
  G2_12 : Field2D;
  G2_13 : Field2D;
  G2_23 : Field2D;
  G3_11 : Field2D;
  G3_22 : Field2D;
  G3_33 : Field2D;
  G3_12 : Field2D;
  G3_13 : Field2D;
  G3_23 : Field2D;
  G1 : Field2D;
  G2 : Field2D;
  G3 : Field2D;
  ShiftTorsion : Field2D;
  IntShiftTorsion : Field2D;
  zShift : Field2D;
  ShiftAngle : list T
}.

(** Assignment of the six covariant components. *)
Definition set_covariant (c : Coordinates) (g_11' : Field2D) (g_22' : Field2D) (g_33' : Field2D) (g_12' : Field2D) (g_13' : Field2D) (g_23' : Field2D) : Coordinates :=
  {| localmesh := localmesh c;
     location := location c;
     dx := dx c;
     dy := dy c;
     dz := dz c;
     nz := nz c;
     non_uniform := non_uniform c;
     d1_dx := d1_dx c;
     d1_dy := d1_dy c;
     J := J c;
     Bxy := Bxy c;
     g11 := g11 c;
     g22 := g22 c;
     g33 := g33 c;
     g12 := g12 c;
     g13 := g13 c;
     g23 := g23 c;
     g_11 := g_11';
     g_22 := g_22';
     g_33 := g_33';
     g_12 := g_12';
     g_13 := g_13';
     g_23 := g_23';
     G1_11 := G1_11 c;
     G1_22 := G1_22 c;
     G1_33 := G1_33 c;
     G1_12 := G1_12 c;
     G1_13 := G1_13 c;
     G1_23 := G1_23 c;
     G2_11 := G2_11 c;
     G2_22 := G2_22 c;
     G2_33 := G2_33 c;
     G2_12 := G2_12 c;
     G2_13 := G2_13 c;
     G2_23 := G2_23 c;
     G3_11 := G3_11 c;
     G3_22 := G3_22 c;
     G3_33 := G3_33 c;
     G3_12 := G3_12 c;
     G3_13 := G3_13 c;
     G3_23 := G3_23 c;
     G1 := G1 c;
     G2 := G2 c;
     G3 := G3 c;
     ShiftTorsion := ShiftTorsion c;
     IntShiftTorsion := IntShiftTorsion c;
     zShift := zShift c;
     ShiftAngle := ShiftAngle c |}.

(** Assignment of the six contravariant components. *)
Definition set_contravariant (c : Coordinates) (g11' : Field2D) (g22' : Field2D) (g33' : Field2D) (g12' : Field2D) (g13' : Field2D) (g23' : Field2D) : Coordinates :=
  {| localmesh := localmesh c;
     location := location c;
     dx := dx c;
     dy := dy c;
     dz := dz c;
     nz := nz c;
     non_uniform := non_uniform c;
     d1_dx := d1_dx c;
     d1_dy := d1_dy c;
     J := J c;
     Bxy := Bxy c;
     g11 := g11';
     g22 := g22';
     g33 := g33';
     g12 := g12';
     g13 := g13';
     g23 := g23';
     g_11 := g_11 c;
     g_22 := g_22 c;
     g_33 := g_33 c;
     g_12 := g_12 c;
     g_13 := g_13 c;
     g_23 := g_23 c;
     G1_11 := G1_11 c;
     G1_22 := G1_22 c;
     G1_33 := G1_33 c;
     G1_12 := G1_12 c;
     G1_13 := G1_13 c;
     G1_23 := G1_23 c;
     G2_11 := G2_11 c;
     G2_22 := G2_22 c;
     G2_33 := G2_33 c;
     G2_12 := G2_12 c;
     G2_13 := G2_13 c;
     G2_23 := G2_23 c;
     G3_11 := G3_11 c;
     G3_22 := G3_22 c;
     G3_33 := G3_33 c;
     G3_12 := G3_12 c;
     G3_13 := G3_13 c;
     G3_23 := G3_23 c;
     G1 := G1 c;
     G2 := G2 c;
     G3 := G3 c;
     ShiftTorsion := ShiftTorsion c;
     IntShiftTorsion := IntShiftTorsion c;
     zShift := zShift c;
     ShiftAngle := ShiftAngle c |}.

(** Assignment of [J] and [Bxy]. *)
Definition set_J_Bxy (c : Coordinates) (J' : Field2D) (Bxy' : Field2D) : Coordinates :=
  {| localmesh := localmesh c;
     location := location c;
     dx := dx c;
     dy := dy c;
     dz := dz c;
     nz := nz c;
     non_uniform := non_uniform c;
     d1_dx := d1_dx c;
     d1_dy := d1_dy c;
     J := J';
     Bxy := Bxy';
     g11 := g11 c;
     g22 := g22 c;
     g33 := g33 c;
     g12 := g12 c;
     g13 := g13 c;
     g23 := g23 c;
     g_11 := g_11 c;
     g_22 := g_22 c;
     g_33 := g_33 c;
     g_12 := g_12 c;
     g_13 := g_13 c;
     g_23 := g_23 c;
     G1_11 := G1_11 c;
     G1_22 := G1_22 c;
     G1_33 := G1_33 c;
     G1_12 := G1_12 c;
     G1_13 := G1_13 c;
     G1_23 := G1_23 c;
     G2_11 := G2_11 c;
     G2_22 := G2_22 c;
     G2_33 := G2_33 c;
     G2_12 := G2_12 c;
     G2_13 := G2_13 c;
     G2_23 := G2_23 c;
     G3_11 := G3_11 c;
     G3_22 := G3_22 c;
     G3_33 := G3_33 c;
     G3_12 := G3_12 c;
     G3_13 := G3_13 c;
     G3_23 := G3_23 c;
     G1 := G1 c;
     G2 := G2 c;
     G3 := G3 c;
     ShiftTorsion := ShiftTorsion c;
     IntShiftTorsion := IntShiftTorsion c;
     zShift := zShift c;
     ShiftAngle := ShiftAngle c |}.

(** Assignment of the 18 connection coefficients and the 3 contracted terms. *)
Definition set_connection (c : Coordinates) (G1_11' : Field2D) (G1_22' : Field2D) (G1_33' : Field2D) (G1_12' : Field2D) (G1_13' : Field2D) (G1_23' : Field2D) (G2_11' : Field2D) (G2_22' : Field2D) (G2_33' : Field2D) (G2_12' : Field2D) (G2_13' : Field2D) (G2_23' : Field2D) (G3_11' : Field2D) (G3_22' : Field2D) (G3_33' : Field2D) (G3_12' : Field2D) (G3_13' : Field2D) (G3_23' : Field2D) (G1' : Field2D) (G2' : Field2D) (G3' : Field2D) : Coordinates :=
  {| localmesh := localmesh c;
     location := location c;
     dx := dx c;
     dy := dy c;
     dz := dz c;
     nz := nz c;
     non_uniform := non_uniform c;
     d1_dx := d1_dx c;
     d1_dy := d1_dy c;
     J := J c;
     Bxy := Bxy c;
     g11 := g11 c;
     g22 := g22 c;
     g33 := g33 c;
     g12 := g12 c;
     g13 := g13 c;
     g23 := g23 c;
     g_11 := g_11 c;
     g_22 := g_22 c;
     g_33 := g_33 c;
     g_12 := g_12 c;
     g_13 := g_13 c;
     g_23 := g_23 c;
     G1_11 := G1_11';
     G1_22 := G1_22';
     G1_33 := G1_33';
     G1_12 := G1_12';
     G1_13 := G1_13';
     G1_23 := G1_23';
     G2_11 := G2_11';
     G2_22 := G2_22';
     G2_33 := G2_33';
     G2_12 := G2_12';
     G2_13 := G2_13';
     G2_23 := G2_23';
     G3_11 := G3_11';
     G3_22 := G3_22';
     G3_33 := G3_33';
     G3_12 := G3_12';
     G3_13 := G3_13';
     G3_23 := G3_23';
     G1 := G1';
     G2 := G2';
     G3 := G3';
     ShiftTorsion := ShiftTorsion c;
     IntShiftTorsion := IntShiftTorsion c;
     zShift := zShift c;
     ShiftAngle := ShiftAngle c |}.

(** Assignment of the non-uniform mesh corrections. *)
Definition set_non_uniform (c : Coordinates) (non_uniform' : bool) (d1_dx' : Field2D) (d1_dy' : Field2D) : Coordinates :=
  {| localmesh := localmesh c;
     location := location c;
     dx := dx c;
     dy := dy c;
     dz := dz c;
     nz := nz c;
     non_uniform := non_uniform';
     d1_dx := d1_dx';
     d1_dy := d1_dy';
     J := J c;
     Bxy := Bxy c;
     g11 := g11 c;
     g22 := g22 c;
     g33 := g33 c;
     g12 := g12 c;
     g13 := g13 c;
     g23 := g23 c;
     g_11 := g_11 c;
     g_22 := g_22 c;
     g_33 := g_33 c;
     g_12 := g_12 c;
     g_13 := g_13 c;
     g_23 := g_23 c;
     G1_11 := G1_11 c;
     G1_22 := G1_22 c;
     G1_33 := G1_33 c;
     G1_12 := G1_12 c;
     G1_13 := G1_13 c;
     G1_23 := G1_23 c;
     G2_11 := G2_11 c;
     G2_22 := G2_22 c;
     G2_33 := G2_33 c;
     G2_12 := G2_12 c;
     G2_13 := G2_13 c;
     G2_23 := G2_23 c;
     G3_11 := G3_11 c;
     G3_22 := G3_22 c;
     G3_33 := G3_33 c;
     G3_12 := G3_12 c;
     G3_13 := G3_13 c;
     G3_23 := G3_23 c;
     G1 := G1 c;
     G2 := G2 c;
     G3 := G3 c;
     ShiftTorsion := ShiftTorsion c;
     IntShiftTorsion := IntShiftTorsion c;
     zShift := zShift c;
     ShiftAngle := ShiftAngle c |}.

(** Assignment of the grid spacings. *)
Definition set_spacing (c : Coordinates) (dx' : Field2D) (dy' : Field2D) (dz' : T) (nz' : Z) : Coordinates :=
  {| localmesh := localmesh c;
     location := location c;
     dx := dx';
     dy := dy';
     dz := dz';
     nz := nz';
     non_uniform := non_uniform c;
     d1_dx := d1_dx c;
     d1_dy := d1_dy c;
     J := J c;
     Bxy := Bxy c;
     g11 := g11 c;
     g22 := g22 c;
     g33 := g33 c;
     g12 := g12 c;
     g13 := g13 c;
     g23 := g23 c;
     g_11 := g_11 c;
     g_22 := g_22 c;
     g_33 := g_33 c;
     g_12 := g_12 c;
     g_13 := g_13 c;
     g_23 := g_23 c;
     G1_11 := G1_11 c;
     G1_22 := G1_22 c;
     G1_33 := G1_33 c;
     G1_12 := G1_12 c;
     G1_13 := G1_13 c;
     G1_23 := G1_23 c;
     G2_11 := G2_11 c;
     G2_22 := G2_22 c;
     G2_33 := G2_33 c;
     G2_12 := G2_12 c;
     G2_13 := G2_13 c;
     G2_23 := G2_23 c;
     G3_11 := G3_11 c;
     G3_22 := G3_22 c;
     G3_33 := G3_33 c;
     G3_12 := G3_12 c;
     G3_13 := G3_13 c;
     G3_23 := G3_23 c;
     G1 := G1 c;
     G2 := G2 c;
     G3 := G3 c;
     ShiftTorsion := ShiftTorsion c;
     IntShiftTorsion := IntShiftTorsion c;
     zShift := zShift c;
     ShiftAngle := ShiftAngle c |}.

(** Assignment of the shift bookkeeping. *)
Definition set_shift (c : Coordinates) (zShift' : Field2D) (ShiftAngle' : list T) : Coordinates :=
  {| localmesh := localmesh c;
     location := location c;
     dx := dx c;
     dy := dy c;
     dz := dz c;
     nz := nz c;
     non_uniform := non_uniform c;
     d1_dx := d1_dx c;
     d1_dy := d1_dy c;
     J := J c;
     Bxy := Bxy c;
     g11 := g11 c;
     g22 := g22 c;
     g33 := g33 c;
     g12 := g12 c;
     g13 := g13 c;
     g23 := g23 c;
     g_11 := g_11 c;
     g_22 := g_22 c;
     g_33 := g_33 c;
     g_12 := g_12 c;
     g_13 := g_13 c;
     g_23 := g_23 c;
     G1_11 := G1_11 c;
     G1_22 := G1_22 c;
     G1_33 := G1_33 c;
     G1_12 := G1_12 c;
     G1_13 := G1_13 c;
     G1_23 := G1_23 c;
     G2_11 := G2_11 c;
     G2_22 := G2_22 c;
     G2_33 := G2_33 c;
     G2_12 := G2_12 c;
     G2_13 := G2_13 c;
     G2_23 := G2_23 c;
     G3_11 := G3_11 c;
     G3_22 := G3_22 c;
     G3_33 := G3_33 c;
     G3_12 := G3_12 c;
     G3_13 := G3_13 c;
     G3_23 := G3_23 c;
     G1 := G1 c;
     G2 := G2 c;
     G3 := G3 c;
     ShiftTorsion := ShiftTorsion c;
     IntShiftTorsion := IntShiftTorsion c;
     zShift := zShift';
     ShiftAngle := ShiftAngle' |}.

(** Assignment of the torsion fields. *)
Definition set_torsion (c : Coordinates) (ShiftTorsion' : Field2D) (IntShiftTorsion' : Field2D) : Coordinates :=
  {| localmesh := localmesh c;
     location := location c;
     dx := dx c;
     dy := dy c;
     dz := dz c;
     nz := nz c;
     non_uniform := non_uniform c;
     d1_dx := d1_dx c;
     d1_dy := d1_dy c;
     J := J c;
     Bxy := Bxy c;
     g11 := g11 c;
     g22 := g22 c;
     g33 := g33 c;
     g12 := g12 c;
     g13 := g13 c;
     g23 := g23 c;
     g_11 := g_11 c;
     g_22 := g_22 c;
     g_33 := g_33 c;
     g_12 := g_12 c;
     g_13 := g_13 c;
     g_23 := g_23 c;
     G1_11 := G1_11 c;
     G1_22 := G1_22 c;
     G1_33 := G1_33 c;
     G1_12 := G1_12 c;
     G1_13 := G1_13 c;
     G1_23 := G1_23 c;
     G2_11 := G2_11 c;
     G2_22 := G2_22 c;
     G2_33 := G2_33 c;
     G2_12 := G2_12 c;
     G2_13 := G2_13 c;
     G2_23 := G2_23 c;
     G3_11 := G3_11 c;
     G3_22 := G3_22 c;
     G3_33 := G3_33 c;
     G3_12 := G3_12 c;
     G3_13 := G3_13 c;
     G3_23 := G3_23 c;
     G1 := G1 c;
     G2 := G2 c;
     G3 := G3 c;
     ShiftTorsion := ShiftTorsion';
     IntShiftTorsion := IntShiftTorsion';
     zShift := zShift c;
     ShiftAngle := ShiftAngle c |}.


(** *** Operators of the geometry object (lines 950-967) *)

Definition DDX (c : Coordinates) (f : Field2D) (loc : CELL_LOC)
    (method : DIFF_METHOD) (rgn : REGION) : Result Field2D :=
  ASSERT1 (CELL_LOC_eqb (location c) loc || CELL_LOC_eqb loc CELL_DEFAULT)
          "location == loc || loc == CELL_DEFAULT" ;;;
  Ok (indexDDX (localmesh c) f loc method rgn / dx c)%fld.

Definition DDY (c : Coordinates) (f : Field2D) (loc : CELL_LOC)
    (method : DIFF_METHOD) (rgn : REGION) : Result Field2D :=
  ASSERT1 (CELL_LOC_eqb (location c) loc || CELL_LOC_eqb loc CELL_DEFAULT)
          "location == loc || loc == CELL_DEFAULT" ;;;
  Ok (indexDDY (localmesh c) f loc method rgn / dy c)%fld.

Definition DDZ (c : Coordinates) (f : Field2D) (loc : CELL_LOC)
    (method : DIFF_METHOD) (rgn : REGION) : Result Field2D :=
  ASSERT1 (CELL_LOC_eqb (location c) loc || CELL_LOC_eqb loc CELL_DEFAULT)
          "location == loc || loc == CELL_DEFAULT" ;;;
  Ok (setLocation (Field2D_const r0) (location c)).

(** The calls [DDX(f)], [DDY(f)], [DDZ(f)] with the declared default
    arguments ([CELL_DEFAULT], [DIFF_DEFAULT], [RGN_NOBNDRY]): the assertion
    holds trivially, the call returns its field. *)
Definition DDX_ (c : Coordinates) (f : Field2D) : Field2D :=
  (indexDDX (localmesh c) f CELL_DEFAULT DIFF_DEFAULT RGN_NOBNDRY / dx c)%fld.
Definition DDY_ (c : Coordinates) (f : Field2D) : Field2D :=
  (indexDDY (localmesh c) f CELL_DEFAULT DIFF_DEFAULT RGN_NOBNDRY / dy c)%fld.
Definition DDZ_ (c : Coordinates) (f : Field2D) : Field2D :=
  setLocation (Field2D_const r0) (location c).

(** *** Metric inversion (lines 790-914) *)

Record Matrix3 : Type := mkMatrix3 {
  a00 : T; a01 : T; a02 : T;
  a10 : T; a11 : T; a12 : T;
  a20 : T; a21 : T; a22 : T
}.

(** Modelled from the spec: [invert3x3] (utils.hxx) is not part of the
    sources at hand.  Section 4.1: the symmetric matrix is inverted by
    direct 3x3 adjugate / determinant inversion, and the call fails when the
    matrix is singular.  The result is the return code with the matrix
    overwritten by its inverse. *)
Definition invert3x3 (a : Matrix3) : Z * Matrix3 :=
  let A := (a11 a * a22 a - a12 a * a21 a)%B in
  let B := (a12 a * a20 a - a10 a * a22 a)%B in
  let C := (a10 a * a21 a - a11 a * a20 a)%B in
  let det := (a00 a * A + a01 a * B + a02 a * C)%B in
  if reqb det r0 then (1, a)
  else
    let D := (a02 a * a21 a - a01 a * a22 a)%B in
    let E := (a00 a * a22 a - a02 a * a20 a)%B in
    let F := (a01 a * a20 a - a00 a * a21 a)%B in
    let G := (a01 a * a12 a - a02 a * a11 a)%B in
    let H := (a02 a * a10 a - a00 a * a12 a)%B in
    let I := (a00 a * a11 a - a01 a * a10 a)%B in
    let detinv := (r1 / det)%B in
    (0, mkMatrix3 (detinv * A)%B (detinv * D)%B (detinv * G)%B
                  (detinv * B)%B (detinv * E)%B (detinv * H)%B
                  (detinv * C)%B (detinv * F)%B (detinv * I)%B).

(** The symmetric matrix assembled at one point from six components. *)
Definition symmetric (m11 m22 m33 m12 m13 m23 : T) : Matrix3 :=
  mkMatrix3 m11 m12 m13
            m12 m22 m23
            m13 m23 m33.

(** The double loop of [calcCovariant] over [jx], [jy]; it returns at the
    first singular point.  (The two residual norms are only written to the
    log.) *)
Fixpoint calcCovariant_loop (pts : list (Z * Z)) (c : Coordinates)
    : Z * Coordinates :=
  match pts with
  | [] => (0, c)
  | (jx, jy) :: rest =>
      let a := symmetric (g11 c jx jy) (g22 c jx jy) (g33 c jx jy)
                         (g12 c jx jy) (g13 c jx jy) (g23 c jx jy) in
      let '(err, a) := invert3x3 a in
      if negb (err =? 0) then (1, c)
      else
        calcCovariant_loop rest
          (set_covariant c
             (assign (g_11 c) jx jy (a00 a)) (assign (g_22 c) jx jy (a11 a))
             (assign (g_33 c) jx jy (a22 a)) (assign (g_12 c) jx jy (a01 a))
             (assign (g_13 c) jx jy (a02 a)) (assign (g_23 c) jx jy (a12 a)))
  end.

Definition calcCovariant (c : Coordinates) : Z * Coordinates :=
  let l := location c in
  let c := set_covariant c
             (setLocation (g_11 c) l) (setLocation (g_22 c) l)
             (setLocation (g_33 c) l) (setLocation (g_12 c) l)
             (setLocation (g_13 c) l) (setLocation (g_23 c) l) in
  calcCovariant_loop (region (localmesh c) RGN_ALL) c.

Fixpoint calcContravariant_loop (pts : list (Z * Z)) (c : Coordinates)
    : Z * Coordinates :=
  match pts with
  | [] => (0, c)
  | (jx, jy) :: rest =>
      let a := symmetric (g_11 c jx jy) (g_22 c jx jy) (g_33 c jx jy)
                         (g_12 c jx jy) (g_13 c jx jy) (g_23 c jx jy) in
      let '(err, a) := invert3x3 a in
      if negb (err =? 0) then (1, c)
      else
        calcContravariant_loop rest
          (set_contravariant c
             (assign (g11 c) jx jy (a00 a)) (assign (g22 c) jx jy (a11 a))
             (assign (g33 c) jx jy (a22 a)) (assign (g12 c) jx jy (a01 a))
             (assign (g13 c) jx jy (a02 a)) (assign (g23 c) jx jy (a12 a)))
  end.

Definition calcContravariant (c : Coordinates) : Z * Coordinates :=
  calcContravariant_loop (region (localmesh c) RGN_ALL) c.

(** *** Jacobian and normalisation (lines 916-943) *)

Definition jacobian_det (c : Coordinates) : Field2D :=
  (g11 c * g22 c * g33 c + r2 *. g12 c * g13 c * g23 c - g11 c * g23 c * g23 c
   - g22 c * g13 c * g13 c - g33 c * g12 c * g12 c)%fld.

Definition jacobian (c : Coordinates) : Result Coordinates :=
  let m := localmesh c in
  let g := jacobian_det c in
  if (min m g <? r0)%B
  then Throw "The determinant of g^ij is somewhere less than 0.0"
  else
    let J' := (r1 /. fsqrt g)%fld in
    if negb (finite m J' RGN_NOBNDRY)
    then Throw "ERROR: Jacobian not finite everywhere!"
    else if (min m (fabs J') <? r1em10)%B
    then Throw "ERROR: Jacobian becomes very small"
    else if (min m (g_22 c) <? r0)%B
    then Throw "g_22 is somewhere less than 0.0"
    else Ok (set_J_Bxy c J' (fsqrt (g_22 c) / J')%fld).

(** *** Connection coefficients (lines 631-788) *)

(** The fatal preconditions checked first. *)
Definition geometry_checks (c : Coordinates) : Result unit :=
  let m := localmesh c in
  let fin f := finite m f RGN_NOBNDRY in
  if (min m (fabs (dx c)) <? r1em8)%B then Throw "dx magnitude less than 1e-8"
  else if (min m (fabs (dy c)) <? r1em8)%B then Throw "dy magnitude less than 1e-8"
  else if (rabs (dz c) <? r1em8)%B then Throw "dz magnitude less than 1e-8"
  else if negb (fin (g11 c)) || negb (fin (g22 c)) || negb (fin (g33 c))
  then Throw "ERROR: Diagonal metrics are not finite!"
  else if (min m (g11 c) <=? r0)%B || (min m (g22 c) <=? r0)%B
          || (min m (g33 c) <=? r0)%B
  then Throw "ERROR: Diagonal metrics are negative!"
  else if negb (fin (g12 c)) || negb (fin (g13 c)) || negb (fin (g23 c))
  then Throw "ERROR: Off-diagonal metrics are not finite!"
  else if negb (fin (g_11 c)) || negb (fin (g_22 c)) || negb (fin (g_33 c))
  then Throw "ERROR: Diagonal g_ij metrics are not finite!"
  else if (min m (g_11 c) <=? r0)%B || (min m (g_22 c) <=? r0)%B
          || (min m (g_33 c) <=? r0)%B
  then Throw "ERROR: Diagonal g_ij metrics are negative!"
  else if negb (fin (g_12 c)) || negb (fin (g_13 c)) || negb (fin (g_23 c))
  then Throw "ERROR: Off-diagonal g_ij metrics are not finite!"
  else Ok tt.

(** The 18 coefficients and the 3 contracted terms, as assigned at lines
    670-730, before the halo exchange. *)
Definition geometry_connection (c : Coordinates) : Coordinates :=
  let DDX := DDX_ c in
  let DDY := DDY_ c in
  let DDZ := DDZ_ c in
  let J := J c in
  let g11 := g11 c in let g22 := g22 c in let g33 := g33 c in
  let g12 := g12 c in let g13 := g13 c in let g23 := g23 c in
  let g_11 := g_11 c in let g_22 := g_22 c in let g_33 := g_33 c in
  let g_12 := g_12 c in let g_13 := g_13 c in let g_23 := g_23 c in
  set_connection c
    (* G1_11 *)
    (r0_5 *. g11 * DDX g_11 + g12 * (DDX g_12 - r0_5 *. DDY g_11)
     + g13 * (DDX g_13 - r0_5 *. DDZ g_11))%fld
    (* G1_22 *)
    (g11 * (DDY g_12 - r0_5 *. DDX g_22) + r0_5 *. g12 * DDY g_22
     + g13 * (DDY g_23 - r0_5 *. DDZ g_22))%fld
    (* G1_33 *)
    (g11 * (DDZ g_13 - r0_5 *. DDX g_33) + g12 * (DDZ g_23 - r0_5 *. DDY g_33)
     + r0_5 *. g13 * DDZ g_33)%fld
    (* G1_12 *)
    (r0_5 *. g11 * DDY g_11 + r0_5 *. g12 * DDX g_22
     + r0_5 *. g13 * (DDY g_13 + DDX g_23 - DDZ g_12))%fld
    (* G1_13 *)
    (r0_5 *. g11 * DDZ g_11 + r0_5 *. g12 * (DDZ g_12 + DDX g_23 - DDY g_13)
     + r0_5 *. g13 * DDX g_33)%fld
    (* G1_23 *)
    (r0_5 *. g11 * (DDZ g_12 + DDY g_13 - DDX g_23)
     + r0_5 *. g12 * (DDZ g_22 + DDY g_23 - DDY g_23)
     + r0_5 *. g13 * DDY g_33)%fld
    (* G2_11 *)
    (r0_5 *. g12 * DDX g_11 + g22 * (DDX g_12 - r0_5 *. DDY g_11)
     + g23 * (DDX g_13 - r0_5 *. DDZ g_11))%fld
    (* G2_22: the source differentiates g23 here, line 689 *)
    (g12 * (DDY g_12 - r0_5 *. DDX g_22) + r0_5 *. g22 * DDY g_22
     + g23 * (DDY g23 - r0_5 *. DDZ g_22))%fld
    (* G2_33 *)
    (g12 * (DDZ g_13 - r0_5 *. DDX g_33) + g22 * (DDZ g_23 - r0_5 *. DDY g_33)
     + r0_5 *. g23 * DDZ g_33)%fld
    (* G2_12 *)
    (r0_5 *. g12 * DDY g_11 + r0_5 *. g22 * DDX g_22
     + r0_5 *. g23 * (DDY g_13 + DDX g_23 - DDZ g_12))%fld
    (* G2_13 *)
    (r0_5 *. g12 * (DDZ g_11 + DDX g_13 - DDX g_13)
     + r0_5 *. g22 * (DDZ g_12 + DDX g_23 - DDY g_13)
     + r0_5 *. g23 * DDX g_33)%fld
    (* G2_23 *)
    (r0_5 *. g12 * (DDZ g_12 + DDY g_13 - DDX g_23) + r0_5 *. g22 * DDZ g_22
     + r0_5 *. g23 * DDY g_33)%fld
    (* G3_11 *)
    (r0_5 *. g13 * DDX g_11 + g23 * (DDX g_12 - r0_5 *. DDY g_11)
     + g33 * (DDX g_13 - r0_5 *. DDZ g_11))%fld
    (* G3_22 *)
    (g13 * (DDY g_12 - r0_5 *. DDX g_22) + r0_5 *. g23 * DDY g_22
     + g33 * (DDY g_23 - r0_5 *. DDZ g_22))%fld
    (* G3_33 *)
    (g13 * (DDZ g_13 - r0_5 *. DDX g_33) + g23 * (DDZ g_23 - r0_5 *. DDY g_33)
     + r0_5 *. g33 * DDZ g_33)%fld
    (* G3_12 *)
    (r0_5 *. g13 * DDY g_11 + r0_5 *. g23 * DDX g_22
     + r0_5 *. g33 * (DDY g_13 + DDX g_23 - DDZ g_12))%fld
    (* G3_13 *)
    (r0_5 *. g13 * DDZ g_11 + r0_5 *. g23 * (DDZ g_12 + DDX g_23 - DDY g_13)
     + r0_5 *. g33 * DDX g_33)%fld
    (* G3_23 *)
    (r0_5 *. g13 * (DDZ g_12 + DDY g_13 - DDX g_23) + r0_5 *. g23 * DDZ g_22
     + r0_5 *. g33 * DDY g_33)%fld
    (* G1, G2, G3 *)
    ((DDX (J * g11) + DDY (J * g12) + DDZ (J * g13)) / J)%fld
    ((DDX (J * g12) + DDY (J * g22) + DDZ (J * g23)) / J)%fld
    ((DDX (J * g13) + DDY (J * g23) + DDZ (J * g33)) / J)%fld.

(** [localmesh->communicate(com)]: one batched exchange of the 21 fields. *)
Definition geometry_communicate (c : Coordinates) : Coordinates :=
  let com := communicate (localmesh c) in
  set_connection c
    (com (G1_11 c)) (com (G1_22 c)) (com (G1_33 c))
    (com (G1_12 c)) (com (G1_13 c)) (com (G1_23 c))
    (com (G2_11 c)) (com (G2_22 c)) (com (G2_33 c))
    (com (G2_12 c)) (com (G2_13 c)) (com (G2_23 c))
    (com (G3_11 c)) (com (G3_22 c)) (com (G3_33 c))
    (com (G3_12 c)) (com (G3_13 c)) (com (G3_23 c))
    (com (G1 c)) (com (G2 c)) (com (G3 c)).

(** Corrections for non-uniform meshes (lines 767-785). *)
Definition geometry_non_uniform (c : Coordinates) : Coordinates :=
  let m := localmesh c in
  let nu := match Options_non_uniform m with Some b => b | None => true end in
  let d1_dx' :=
    match get m "d2x" with
    | None => indexDDX m (r1 /. dx c)%fld CELL_DEFAULT DIFF_DEFAULT RGN_NOBNDRY
    | Some d2x => (fneg d2x / (dx c * dx c))%fld
    end in
  let d1_dy' :=
    match get m "d2y" with
    | None => indexDDY m (r1 /. dy c)%fld CELL_DEFAULT DIFF_DEFAULT RGN_NOBNDRY
    | Some d2y => (fneg d2y / (dy c * dy c))%fld
    end in
  set_non_uniform c nu d1_dx' d1_dy'.

Definition geometry (c : Coordinates) : Result Coordinates :=
  geometry_checks c ;;;
  Ok (geometry_non_uniform (geometry_communicate (geometry_connection c))).

(** *** Boundary-aware interpolation (lines 27-132) *)

(** Lines 48-52. *)
Definition extrap_start (loc : CELL_LOC) (b : BoundaryRegion) : Z :=
  if CELL_LOC_eqb loc CELL_XLOW && (bndry_bx b >? 0) then 1
  else if CELL_LOC_eqb loc CELL_YLOW && (bndry_by b >? 0) then 1
  else 0.

(** Lines 58-63: the boundary point [interp_to] misses. *)
Definition interpolate_bndry_point (f result : Field2D) (b : BoundaryRegion)
    (x y : Z) : Field2D :=
  let bx := bndry_bx b in
  let bY := bndry_by b in
  assign result x y
    ((r9 * (f (x - bx)%Z (y - bY)%Z + f x y)
      - f (x - 2 * bx)%Z (y - 2 * bY)%Z
      - f (x + bx)%Z (y + bY)%Z) / r16)%B.

(** Line 67. *)
Definition enough_points (m : Mesh) (b : BoundaryRegion) : bool :=
  (negb (bndry_bx b =? 0) && (GlobalNx m - 2 * bndry_width b >=? 3))
  || (negb (bndry_by b =? 0) && (GlobalNy m - 2 * bndry_width b >=? 3)).

(** Lines 81-85, one pass of the loop over [i]. *)
Definition extrapolate_cubic_step (b : BoundaryRegion) (x y : Z)
    (result : Field2D) (i : Z) : Field2D :=
  let bx := bndry_bx b in
  let bY := bndry_by b in
  let xi := x + i * bx in
  let yi := y + i * bY in
  assign result xi yi
    (r3 * result (xi - bx)%Z (yi - bY)%Z
     - r3 * result (xi - 2 * bx)%Z (yi - 2 * bY)%Z
     + result (xi - 3 * bx)%Z (yi - 3 * bY)%Z)%B.

(** Lines 88-90, one pass of the loop over [i]. *)
Definition extrapolate_constant_step (b : BoundaryRegion) (x y : Z)
    (result : Field2D) (i : Z) : Field2D :=
  let bx := bndry_bx b in
  let bY := bndry_by b in
  assign result (x + i * bx) (y + i * bY) (result (x - bx) (y - bY)).

(** Lines 54-91: the body of the traversal at the position [(x, y)]. *)
Definition extrapolate_at (m : Mesh) (loc : CELL_LOC) (f : Field2D)
    (b : BoundaryRegion) (result : Field2D) (p : Z * Z) : Result Field2D :=
  let '(x, y) := p in
  let start := extrap_start loc b in
  let result :=
    if start >? 0 then interpolate_bndry_point f result b x y else result in
  if enough_points m b then
    if negb (bndry_bx b =? 0) && (LocalNx m =? 1) && (bndry_width b =? 1)
    then Throw not_enough_x
    else if negb (bndry_by b =? 0) && (LocalNy m =? 1) && (bndry_width b =? 1)
    then Throw not_enough_y
    else Ok (fold_left (extrapolate_cubic_step b x y)
                       (range start (bndry_width b)) result)
  else Ok (fold_left (extrapolate_constant_step b x y)
                     (range start (bndry_width b)) result).

(** Lines 47-93. *)
Definition extrapolate_boundaries (m : Mesh) (loc : CELL_LOC) (f : Field2D)
    (result : Field2D) : Result Field2D :=
  foldM (fun result b =>
           foldM (extrapolate_at m loc f b) (bndry_positions b) result)
        (getBoundaries m) result.

(** Lines 95-119. *)
Definition extrapolate_branch_cut (m : Mesh) (loc : CELL_LOC) (f : Field2D)
    (result : Field2D) : Field2D :=
  let firstjup := if CELL_LOC_eqb loc CELL_YLOW then yend m + 1 else yend m in
  fold_left
    (fun result i =>
       let result :=
         if hasBranchCutDown m i then
           fold_left
             (fun result j =>
                assign result i j
                  (r3 * result i (j + 1)%Z - r3 * result i (j + 2)%Z
                   + result i (j + 3)%Z)%B)
             (range_down (ystart m - 1) 0) result
         else result in
       if hasBranchCutUp m i then
         let result :=
           if CELL_LOC_eqb loc CELL_YLOW then
             let j := yend m in
             assign result i j
               ((r9 * (f i (j - 1)%Z + f i j) - f i (j - 2)%Z
                 - f i (j + 1)%Z) / r16)%B
           else result in
         fold_left
           (fun result j =>
              assign result i j
                (r3 * result i (j - 1)%Z - r3 * result i (j - 2)%Z
                 + result i (j - 3)%Z)%B)
           (range firstjup (LocalNy m)) result
       else result)
    (range (xstart m) (xend m + 1)) result.

(** Lines 121-129. *)
Definition set_corner_guard_cells (m : Mesh) (result : Field2D) : Field2D :=
  fold_left
    (fun result i =>
       fold_left
         (fun result j =>
            let result := assign result i j BoutNaN in
            let result := assign result i (LocalNy m - 1 - j) BoutNaN in
            let result := assign result (LocalNx m - 1 - i) j BoutNaN in
            assign result (LocalNx m - 1 - i) (LocalNy m - 1 - j) BoutNaN)
         (range 0 (ystart m)) result)
    (range 0 (xstart m)) result.

(** The function on field values.  [result.allocate()] gives the result a
    data block of its own; that no write below reaches [f] is proved on
    the store model. *)
Definition interpolateAndExtrapolate (m : Mesh) (f : Field2D)
    (loc : CELL_LOC) (extrap_at_branch_cut : bool) : Result Field2D :=
  let result := interp_to m f loc RGN_NOBNDRY in
  let result := communicate m result in
  result <- extrapolate_boundaries m loc f result ;;
  let result :=
    if extrap_at_branch_cut then extrapolate_branch_cut m loc f result
    else result in
  Ok (set_corner_guard_cells m result).

(** *** Interpolation to the XY corner (lines 134-207) *)

(** Lines 151-174: the outer x-boundary columns of [result] moved one point
    inwards into [temp_for_xguards], and its y-guard cells extrapolated. *)
Definition shift_outer_x_inwards (m : Mesh) (result temp : Field2D) : Field2D :=
  fold_left
    (fun temp b =>
       if bndry_bx b >? 0 then
         let temp :=
           fold_left
             (fun temp p =>
                fold_left
                  (fun temp i => assign temp (i - 1) (snd p) (result i (snd p)))
                  (range (xend m - 1) (LocalNx m)) temp)
             (bndry_positions b) temp in
         fold_left
           (fun temp i =>
              let temp :=
                fold_left
                  (fun temp j =>
                     assign temp i j
                       (r3 * temp i (j + 1)%Z - r3 * temp i (j + 2)%Z
                        + temp i (j + 3)%Z)%B)
                  (range_down (ystart m - 1) (-1)) temp in
              fold_left
                (fun temp j =>
                   assign temp i j
                     (r3 * temp i (j - 1)%Z - r3 * temp i (j - 2)%Z
                      + temp i (j - 3)%Z)%B)
                (range (yend m + 1) (LocalNy m)) temp)
           (range (xend m - 2) (xend m + 1)) temp
       else temp)
    (getBoundaries m) temp.

(** Lines 186-195: the columns copied back into the outer x guard cells. *)
Definition copy_outer_x_back (m : Mesh) (result temp : Field2D) : Field2D :=
  fold_left
    (fun result b =>
       if bndry_bx b >? 0 then
         fold_left
           (fun result p =>
              fold_left
                (fun result i => assign result i (snd p) (temp (i - 1) (snd p)))
                (range (xend m - 1) (LocalNx m)) result)
           (bndry_positions b) result
       else result)
    (getBoundaries m) result.

Definition interpXLOWToXYCorner (m : Mesh) (f : Field2D)
    (extrap_at_branch_cut : bool) : Result Field2D :=
  ASSERT1 ((xstart m >? 1) && (ystart m >? 1))
          "localmesh->xstart > 1 && localmesh->ystart > 1" ;;;
  let result := f in
  ASSERT1 (CELL_LOC_eqb (getLocation result) CELL_XLOW)
          "result.getLocation() == CELL_XLOW" ;;;
  let temp_for_xguards := Field2D_const r0 in
  let temp_for_xguards := shift_outer_x_inwards m result temp_for_xguards in
  let temp_for_xguards := communicate m temp_for_xguards in
  let result := setLocation result CELL_CENTRE in
  let temp_for_xguards := setLocation temp_for_xguards CELL_CENTRE in
  result <- interpolateAndExtrapolate m result CELL_YLOW extrap_at_branch_cut ;;
  temp_for_xguards <-
    interpolateAndExtrapolate m temp_for_xguards CELL_YLOW extrap_at_branch_cut ;;
  let result := copy_outer_x_back m result temp_for_xguards in
  Ok (setLocation result CELL_CENTRE).

(** *** Builders (lines 390-576) *)

(** [new Coordinates(mesh)]: no field holds data yet; a field without data
    reads as the not-a-number sentinel. *)
Definition Field2D_unset : Field2D := Field2D_const BoutNaN.

Definition Coordinates_new (m : Mesh) : Coordinates :=
  let u := Field2D_unset in
  mkCoordinates m CELL_CENTRE u u r0 0 true u u u u
    u u u u u u  u u u u u u
    u u u u u u  u u u u u u  u u u u u u
    u u u  u u u [].

(** [ShiftAngle[x]] of a [std::vector].  An index past the end is outside
    what [operator[]] defines; the model reads [r0] there, and statements
    about the entries read assume the index in range. *)
Definition vec_at (v : list T) (x : Z) : T := nth (Z.to_nat x) v r0.

(** Lines 433-447 (and 364-378, 525-538): the correction of [zShift] for
    the discontinuity at the branch cut. *)
Definition correct_zShift (m : Mesh) (zShift : Field2D) (ShiftAngle : list T)
    : Field2D :=
  match ShiftAngle with
  | [] => zShift
  | _ =>
      fold_left
        (fun z x =>
           let z :=
             if hasBranchCutDown m x then
               fold_left (fun z y => assign z x y (z x y - vec_at ShiftAngle x)%B)
                         (range 0 (ystart m)) z
             else z in
           if hasBranchCutUp m x then
             fold_left (fun z y => assign z x y (z x y + vec_at ShiftAngle x)%B)
                       (range (yend m + 1) (LocalNy m)) z
           else z)
        (range 0 (LocalNx m)) zShift
  end.

(** Lines 413-428. *)
Definition interpolate_ShiftAngle (m : Mesh) (loc : CELL_LOC)
    (ShiftAngle_in : list T) : list T :=
  match ShiftAngle_in with
  | [] => []
  | _ =>
      if CELL_LOC_eqb loc CELL_XLOW then
        fold_left
          (fun v x =>
             <[ Z.to_nat x :=
                  interp m (vec_at ShiftAngle_in (x - 2))
                           (vec_at ShiftAngle_in (x - 1))
                           (vec_at ShiftAngle_in x)
                           (vec_at ShiftAngle_in (x + 1)) ]> v)
          (range (xstart m) (xend m + 1))
          (repeat r0 (Z.to_nat (LocalNx m)))
      else ShiftAngle_in
  end.

(** Lines 449-458 and 540-549. *)
Definition check_interpolated_metric (c : Coordinates) : Result unit :=
  let m := localmesh c in
  let fin f := finite m f RGN_NOBNDRY in
  if negb (fin (g11 c)) || negb (fin (g22 c)) || negb (fin (g33 c))
  then Throw "ERROR: Interpolated diagonal metrics are not finite!"
  else if (min m (g11 c) <=? r0)%B || (min m (g22 c) <=? r0)%B
          || (min m (g33 c) <=? r0)%B
  then Throw "ERROR: Interpolated diagonal metrics are negative!"
  else if negb (fin (g12 c)) || negb (fin (g13 c)) || negb (fin (g23 c))
  then Throw "ERROR: Interpolated off-diagonal metrics are not finite!"
  else Ok tt.

(** Lines 460-474 and 551-565: covariant components, Jacobian and
    connection coefficients recomputed from the interpolated metric. *)
Definition derive_geometry (c : Coordinates) : Result Coordinates :=
  let '(err, c) := calcCovariant c in
  if negb (err =? 0) then Throw "Error in calcCovariant call"
  else
    c <- jacobian c ;;
    geometry c.

(** Lines 430-447: the shift field of the staggered geometry. *)
Definition staggered_zShift (m : Mesh) (loc : CELL_LOC) (zShift_in : Field2D)
    (ShiftAngle : list T) : Result Field2D :=
  zShift <- interpolateAndExtrapolate m zShift_in loc false ;;
  let zShift := communicate m zShift in
  Ok (correct_zShift m zShift ShiftAngle).

Definition getCoordinatesStaggered (mesh_in : Mesh) (loc : CELL_LOC)
    (coords_in : Coordinates) : Result Coordinates :=
  let result := Coordinates_new mesh_in in
  let location' := loc in
  dx' <- interpolateAndExtrapolate mesh_in (dx coords_in) location' false ;;
  dy' <- interpolateAndExtrapolate mesh_in (dy coords_in) location' false ;;
  let bc := hasBranchCut mesh_in in
  g11' <- interpolateAndExtrapolate mesh_in (g11 coords_in) location' bc ;;
  g22' <- interpolateAndExtrapolate mesh_in (g22 coords_in) location' bc ;;
  g33' <- interpolateAndExtrapolate mesh_in (g33 coords_in) location' bc ;;
  g12' <- interpolateAndExtrapolate mesh_in (g12 coords_in) location' bc ;;
  g13' <- interpolateAndExtrapolate mesh_in (g13 coords_in) location' bc ;;
  g23' <- interpolateAndExtrapolate mesh_in (g23 coords_in) location' bc ;;
  let ShiftAngle' :=
    interpolate_ShiftAngle mesh_in location' (ShiftAngle coords_in) in
  zShift' <- staggered_zShift mesh_in location' (zShift coords_in) ShiftAngle' ;;
  let result :=
    mkCoordinates mesh_in location' dx' dy' (dz coords_in) (LocalNz mesh_in)
      (non_uniform result) (d1_dx result) (d1_dy result) (J result) (Bxy result)
      g11' g22' g33' g12' g13' g23'
      (g_11 result) (g_22 result) (g_33 result)
      (g_12 result) (g_13 result) (g_23 result)
      (G1_11 result) (G1_22 result) (G1_33 result)
      (G1_12 result) (G1_13 result) (G1_23 result)
      (G2_11 result) (G2_22 result) (G2_33 result)
      (G2_12 result) (G2_13 result) (G2_23 result)
      (G3_11 result) (G3_22 result) (G3_33 result)
      (G3_12 result) (G3_13 result) (G3_23 result)
      (G1 result) (G2 result) (G3 result)
      (ShiftTorsion result) (IntShiftTorsion result) zShift' ShiftAngle' in
  check_interpolated_metric result ;;;
  result <- derive_geometry result ;;
  ShiftTorsion' <-
    interpolateAndExtrapolate mesh_in (ShiftTorsion coords_in) location' false ;;
  IntShiftTorsion' <-
    (if IncIntShear mesh_in
     then interpolateAndExtrapolate mesh_in (IntShiftTorsion coords_in)
                                    location' true
     else Ok (IntShiftTorsion result)) ;;
  Ok (set_torsion result ShiftTorsion' IntShiftTorsion').

(** Lines 487-576.  [coords_xlow] is [mesh_in->getCoordinates(CELL_XLOW)]. *)
Definition getCoordinatesXYCorner (mesh_in : Mesh) (coords_xlow : Coordinates)
    : Result Coordinates :=
  let result := Coordinates_new mesh_in in
  dx' <- interpXLOWToXYCorner mesh_in (dx coords_xlow) false ;;
  dy' <- interpXLOWToXYCorner mesh_in (dy coords_xlow) false ;;
  let bc := hasBranchCut mesh_in in
  g11' <- interpXLOWToXYCorner mesh_in (g11 coords_xlow) bc ;;
  g22' <- interpXLOWToXYCorner mesh_in (g22 coords_xlow) bc ;;
  g33' <- interpXLOWToXYCorner mesh_in (g33 coords_xlow) bc ;;
  g12' <- interpXLOWToXYCorner mesh_in (g12 coords_xlow) bc ;;
  g13' <- interpXLOWToXYCorner mesh_in (g13 coords_xlow) bc ;;
  g23' <- interpXLOWToXYCorner mesh_in (g23 coords_xlow) bc ;;
  let ShiftAngle' := ShiftAngle coords_xlow in
  zShift' <- interpXLOWToXYCorner mesh_in (zShift coords_xlow) false ;;
  let zShift' := communicate mesh_in zShift' in
  let zShift' := correct_zShift mesh_in zShift' ShiftAngle' in
  let result :=
    mkCoordinates mesh_in (location result) dx' dy' (dz coords_xlow)
      (LocalNz mesh_in)
      (non_uniform result) (d1_dx result) (d1_dy result) (J result) (Bxy result)
      g11' g22' g33' g12' g13' g23'
      (g_11 result) (g_22 result) (g_33 result)
      (g_12 result) (g_13 result) (g_23 result)
      (G1_11 result) (G1_22 result) (G1_33 result)
      (G1_12 result) (G1_13 result) (G1_23 result)
      (G2_11 result) (G2_22 result) (G2_33 result)
      (G2_12 result) (G2_13 result) (G2_23 result)
      (G3_11 result) (G3_22 result) (G3_33 result)
      (G3_12 result) (G3_13 result) (G3_23 result)
      (G1 result) (G2 result) (G3 result)
      (ShiftTorsion result) (IntShiftTorsion result) zShift' ShiftAngle' in
  check_interpolated_metric result ;;;
  result <- derive_geometry result ;;
  ShiftTorsion' <- interpXLOWToXYCorner mesh_in (ShiftTorsion coords_xlow) bc ;;
  IntShiftTorsion' <-
    (if IncIntShear mesh_in
     then interpXLOWToXYCorner mesh_in (IntShiftTorsion coords_xlow) false
     else Ok (IntShiftTorsion result)) ;;
  Ok (set_torsion result ShiftTorsion' IntShiftTorsion').

(** *** Parallel operators (lines 974-1049) *)

(** A [Field3D] as a value, with its [yup] / [ydown] fields: absent, the
    field itself ([&f.yup() == &f]), or two distinct fields. *)
Inductive YupYdown : Type :=
| NoYupYdown
| YupYdownSelf
| YupYdownFields (yup ydown : Z -> Z -> Z -> T).

Record Field3D : Type := mkField3D {
  f3val :> Z -> Z -> Z -> T;
  getLocation3 : CELL_LOC;
  yupydown : YupYdown
}.

Definition hasYupYdown (f : Field3D) : bool :=
  match yupydown f with NoYupYdown => false | _ => true end.

(** [f / b] and [b * f] for a [Field3D] [f] and a [Field2D] [b]. *)
Definition f3div (f : Field3D) (b : Field2D) : Field3D :=
  mkField3D (fun x y z => (f x y z / b x y)%B) (getLocation3 f) NoYupYdown.
Definition f3mul_l (b : Field2D) (f : Field3D) : Field3D :=
  mkField3D (fun x y z => (b x y * f x y z)%B) (getLocation3 f) NoYupYdown.
Definition f3div_r (f : Field3D) (b : Field2D) : Field3D :=
  mkField3D (fun x y z => (f x y z / b x y)%B) (getLocation3 f) (yupydown f).

(** The mesh keeps one geometry object per location. *)
Variable mesh_getCoordinates : CELL_LOC -> Coordinates.

(** Modelled from the spec: [Field::getCoordinates()] is not part of the
    sources at hand.  Section 4.8: the normalisation is the one "evaluated
    at the argument's location"; the field asks its mesh for the geometry
    object of its own location tag. *)
Definition getCoordinates (f : Field2D) : Coordinates :=
  mesh_getCoordinates (getLocation f).
Definition getCoordinates3 (f : Field3D) : Coordinates :=
  mesh_getCoordinates (getLocation3 f).

(** The free function [::DDY] of the differencing engine on a [Field3D]. *)
Variable DDY_Field3D : Field3D -> CELL_LOC -> DIFF_METHOD -> Field3D.

Definition Grad_par (c : Coordinates) (var : Field2D) (outloc : CELL_LOC)
    (method : DIFF_METHOD) : Result Field2D :=
  ASSERT1 (CELL_LOC_eqb (location c) outloc
           || (CELL_LOC_eqb outloc CELL_DEFAULT
               && CELL_LOC_eqb (location c) (getLocation var)))
          "location == outloc || (outloc == CELL_DEFAULT && location == var.getLocation())" ;;;
  d <- DDY c var outloc method RGN_NOBNDRY ;;
  Ok (d / fsqrt (g_22 c))%fld.

Definition Grad_par3 (c : Coordinates) (var : Field3D) (outloc : CELL_LOC)
    (method : DIFF_METHOD) : Result Field3D :=
  ASSERT1 (CELL_LOC_eqb (location c) outloc || CELL_LOC_eqb outloc CELL_DEFAULT)
          "location == outloc || outloc == CELL_DEFAULT" ;;;
  Ok (f3div_r (DDY_Field3D var outloc method) (fsqrt (g_22 c))).

Definition Div_par (c : Coordinates) (f : Field2D) (outloc : CELL_LOC)
    (method : DIFF_METHOD) : Result Field2D :=
  ASSERT1 (CELL_LOC_eqb (location c) outloc || CELL_LOC_eqb outloc CELL_DEFAULT)
          "location == outloc || outloc == CELL_DEFAULT" ;;;
  let Bxy_floc := Bxy (getCoordinates f) in
  g <- Grad_par c (f / Bxy_floc)%fld outloc method ;;
  Ok (Bxy c * g)%fld.

Definition Div_par3 (c : Coordinates) (f : Field3D) (outloc : CELL_LOC)
    (method : DIFF_METHOD) : Result Field3D :=
  ASSERT1 (CELL_LOC_eqb (location c) outloc || CELL_LOC_eqb outloc CELL_DEFAULT)
          "location == outloc || outloc == CELL_DEFAULT" ;;;
  let Bxy_floc := Bxy (getCoordinates3 f) in
  if negb (hasYupYdown f) then
    g <- Grad_par3 c (f3div f Bxy_floc) outloc method ;;
    Ok (f3mul_l (Bxy c) g)
  else
    let f_B := f3div f Bxy_floc in
    let f_B :=
      match yupydown f with
      | YupYdownFields up down =>
          mkField3D (f3val f_B) (getLocation3 f_B)
            (YupYdownFields (fun x y z => (up x y z / Bxy_floc x y)%B)
                            (fun x y z => (down x y z / Bxy_floc x y)%B))
      | _ => mkField3D (f3val f_B) (getLocation3 f_B) YupYdownSelf
      end in
    g <- Grad_par3 c f_B outloc method ;;
    Ok (f3mul_l (Bxy c) g).

(** ** The store of field data

    A [Field2D] object holds a reference-counted data block; a copy shares
    the block, and [f(x, y) = v] writes through to every object that shares
    it.  The functions of the anonymous namespace are embedded a second
    time on this store, statement by statement, to settle what they may
    overwrite. *)

Record Block : Type := mkBlock {
  refs : nat;
  bdata : Z -> Z -> T
}.

Record Field2D_obj : Type := mkObj {
  data : positive;
  tag : CELL_LOC
}.

Abbreviation Store := (gmap positive Block).

Definition St (A : Type) : Type := Store -> Result A * Store.

Definition st_ret {A} (a : A) : St A := fun h => (Ok a, h).
Definition st_throw {A} (msg : string) : St A := fun h => (Throw msg, h).
Definition st_bind {A B} (c : St A) (k : A -> St B) : St B :=
  fun h =>
    match c h with
    | (Ok a, h') => k a h'
    | (Throw msg, h') => (Throw msg, h')
    end.

Notation "x <~ c ;; k" := (st_bind c (fun x => k))
  (at level 100, c at next level, right associativity).
Notation "c ;;~ k" := (st_bind c (fun _ => k))
  (at level 100, right associativity).

Fixpoint st_for {A} (l : list A) (body : A -> St unit) : St unit :=
  match l with
  | [] => st_ret tt
  | a :: l' => body a ;;~ st_for l' body
  end.

Definition no_data : string := "Field2D: data not allocated".

(** [f(x, y)] read. *)
Definition rd (o : Field2D_obj) (x y : Z) : St T :=
  fun h =>
    match h !! data o with
    | Some b => (Ok (bdata b x y), h)
    | None => (Throw no_data, h)
    end.

(** [f(x, y) = v]: the write goes to the block, whoever shares it. *)
Definition wr (o : Field2D_obj) (x y : Z) (v : T) : St unit :=
  fun h =>
    match h !! data o with
    | Some b =>
        (Ok tt,
         <[ data o :=
              mkBlock (refs b)
                (fun x' y' => if (x' =? x) && (y' =? y) then v
                              else bdata b x' y') ]> h)
    | None => (Throw no_data, h)
    end.

(** Copy construction [Field2D result = f]: one more owner of the block. *)
Definition copy (o : Field2D_obj) : St Field2D_obj :=
  fun h =>
    match h !! data o with
    | Some b => (Ok o, <[ data o := mkBlock (S (refs b)) (bdata b) ]> h)
    | None => (Ok o, h)
    end.

(** [result.allocate()]: a block shared with another object is left to the
    others and replaced by a private copy; a private block is kept. *)
Definition allocate (o : Field2D_obj) : St Field2D_obj :=
  fun h =>
    match h !! data o with
    | Some b =>
        if (1 <? refs b)%nat then
          let k := fresh (dom h) in
          (Ok (mkObj k (tag o)),
           <[ k := mkBlock 1 (bdata b) ]>
             (<[ data o := mkBlock (refs b - 1) (bdata b) ]> h))
        else (Ok o, h)
    | None =>
        let k := fresh (dom h) in
        (Ok (mkObj k (tag o)), <[ k := mkBlock 1 (fun _ _ => BoutNaN) ]> h)
    end.

(** A new field object holding the values of [v]. *)
Definition new_field (v : Field2D) : St Field2D_obj :=
  fun h =>
    let k := fresh (dom h) in
    (Ok (mkObj k (getLocation v)), <[ k := mkBlock 1 (fval v) ]> h).

(** The values an object currently holds. *)
Definition value_of (o : Field2D_obj) : St Field2D :=
  fun h =>
    match h !! data o with
    | Some b => (Ok (mkField2D (bdata b) (tag o)), h)
    | None => (Throw no_data, h)
    end.

(** [result.setLocation(l)] changes the tag of the object only. *)
Definition setLocation_obj (o : Field2D_obj) (l : CELL_LOC) : Field2D_obj :=
  mkObj (data o) l.

(** [interp_to] returns its argument as it is when no interpolation is
    needed (the returned object then shares the block of [f]) and a new
    field otherwise.  When that happens is decided outside this file. *)
Variable interp_to_returns_argument : Field2D -> CELL_LOC -> bool.

Definition interp_to_st (m : Mesh) (f : Field2D_obj) (loc : CELL_LOC)
    (rgn : REGION) : St Field2D_obj :=
  v <~ value_of f ;;
  if interp_to_returns_argument v loc then copy f
  else new_field (interp_to m v loc rgn).

(** [localmesh->communicate(result)] overwrites guard cells of [result]. *)
Definition communicate_st (m : Mesh) (o : Field2D_obj) : St unit :=
  fun h =>
    match h !! data o with
    | Some b =>
        (Ok tt,
         <[ data o :=
              mkBlock (refs b)
                (fval (communicate m (mkField2D (bdata b) (tag o)))) ]> h)
    | None => (Throw no_data, h)
    end.

(** Lines 54-91 on the store. *)
Definition extrapolate_at_st (m : Mesh) (loc : CELL_LOC) (f : Field2D_obj)
    (b : BoundaryRegion) (result : Field2D_obj) (p : Z * Z) : St unit :=
  let '(x, y) := p in
  let bx := bndry_bx b in
  let bY := bndry_by b in
  let start := extrap_start loc b in
  (if start >? 0 then
     v1 <~ rd f (x - bx) (y - bY) ;;
     v2 <~ rd f x y ;;
     v3 <~ rd f (x - 2 * bx) (y - 2 * bY) ;;
     v4 <~ rd f (x + bx) (y + bY) ;;
     wr result x y ((r9 * (v1 + v2) - v3 - v4) / r16)%B
   else st_ret tt) ;;~
  if enough_points m b then
    if negb (bndry_bx b =? 0) && (LocalNx m =? 1) && (bndry_width b =? 1)
    then st_throw not_enough_x
    else if negb (bndry_by b =? 0) && (LocalNy m =? 1) && (bndry_width b =? 1)
    then st_throw not_enough_y
    else
      st_for (range start (bndry_width b))
        (fun i =>
           let xi := x + i * bx in
           let yi := y + i * bY in
           v1 <~ rd result (xi - bx) (yi - bY) ;;
           v2 <~ rd result (xi - 2 * bx) (yi - 2 * bY) ;;
           v3 <~ rd result (xi - 3 * bx) (yi - 3 * bY) ;;
           wr result xi yi (r3 * v1 - r3 * v2 + v3)%B)
  else
    st_for (range start (bndry_width b))
      (fun i =>
         v <~ rd result (x - bx) (y - bY) ;;
         wr result (x + i * bx) (y + i * bY) v).

(** Lines 95-119 on the store. *)
Definition extrapolate_branch_cut_st (m : Mesh) (loc : CELL_LOC)
    (f result : Field2D_obj) : St unit :=
  let firstjup := if CELL_LOC_eqb loc CELL_YLOW then yend m + 1 else yend m in
  st_for (range (xstart m) (xend m + 1))
    (fun i =>
       (if hasBranchCutDown m i then
          st_for (range_down (ystart m - 1) 0)
            (fun j =>
               v1 <~ rd result i (j + 1) ;;
               v2 <~ rd result i (j + 2) ;;
               v3 <~ rd result i (j + 3) ;;
               wr result i j (r3 * v1 - r3 * v2 + v3)%B)
        else st_ret tt) ;;~
       if hasBranchCutUp m i then
         (if CELL_LOC_eqb loc CELL_YLOW then
            let j := yend m in
            v1 <~ rd f i (j - 1) ;;
            v2 <~ rd f i j ;;
            v3 <~ rd f i (j - 2) ;;
            v4 <~ rd f i (j + 1) ;;
            wr result i j ((r9 * (v1 + v2) - v3 - v4) / r16)%B
          else st_ret tt) ;;~
         st_for (range firstjup (LocalNy m))
           (fun j =>
              v1 <~ rd result i (j - 1) ;;
              v2 <~ rd result i (j - 2) ;;
              v3 <~ rd result i (j - 3) ;;
              wr result i j (r3 * v1 - r3 * v2 + v3)%B)
       else st_ret tt).

(** Lines 121-129 on the store. *)
Definition set_corner_guard_cells_st (m : Mesh) (result : Field2D_obj)
    : St unit :=
  st_for (range 0 (xstart m))
    (fun i =>
       st_for (range 0 (ystart m))
         (fun j =>
            wr result i j BoutNaN ;;~
            wr result i (LocalNy m - 1 - j) BoutNaN ;;~
            wr result (LocalNx m - 1 - i) j BoutNaN ;;~
            wr result (LocalNx m - 1 - i) (LocalNy m - 1 - j) BoutNaN)).

(** Lines 47-131 on the store: everything after [communicate(result)]. *)
Definition fill_guard_cells_st (m : Mesh) (loc : CELL_LOC)
    (extrap_at_branch_cut : bool) (f result : Field2D_obj) : St unit :=
  st_for (getBoundaries m)
    (fun b =>
       st_for (bndry_positions b) (extrapolate_at_st m loc f b result)) ;;~
  (if extrap_at_branch_cut then extrapolate_branch_cut_st m loc f result
   else st_ret tt) ;;~
  set_corner_guard_cells_st m result.

(** Lines 27-132 on the store. *)
Definition interpolateAndExtrapolate_st (m : Mesh) (f : Field2D_obj)
    (loc : CELL_LOC) (extrap_at_branch_cut : bool) : St Field2D_obj :=
  result <~ interp_to_st m f loc RGN_NOBNDRY ;;
  result <~ allocate result ;;
  communicate_st m result ;;~
  fill_guard_cells_st m loc extrap_at_branch_cut f result ;;~
  st_ret result.

(** Lines 142-143 on the store: [Field2D result = f; result.allocate();]. *)
Definition private_copy_st (f : Field2D_obj) : St Field2D_obj :=
  result <~ copy f ;;
  allocate result.

End Embedding.

(** ** Notions the properties are stated with *)

Section Notions.

Context {T : Type} {ops : BoutRealOps T}.

(** The determinant of the contravariant metric at one point, as the
    specification writes it. *)
Definition det_at (c : Coordinates) (x y : Z) : T :=
  (g11 c x y * g22 c x y * g33 c x y
   + r2 * g12 c x y * g13 c x y * g23 c x y
   - g11 c x y * g23 c x y * g23 c x y
   - g22 c x y * g13 c x y * g13 c x y
   - g33 c x y * g12 c x y * g12 c x y)%B.

(** [f < k] at some point of [pts]. *)
Definition below (pts : list (Z * Z)) (f : Z -> Z -> T) (k : T) : bool :=
  existsb (fun p => (f (fst p) (snd p) <? k)%B) pts.

(** The points of the local grid, guard cells included. *)
Definition on_grid (m : @Mesh T) (x y : Z) : Prop :=
  0 <= x < LocalNx m /\ 0 <= y < LocalNy m.

(** The interior is not empty and lies on the grid. *)
Definition mesh_wf (m : @Mesh T) : Prop :=
  0 <= xstart m <= xend m /\ xend m < LocalNx m /\
  0 <= ystart m <= yend m /\ yend m < LocalNy m.

Definition identity_contravariant (c : @Coordinates T) : Prop :=
  forall x y, on_grid (localmesh c) x y ->
    g11 c x y = r1 /\ g22 c x y = r1 /\ g33 c x y = r1 /\
    g12 c x y = r0 /\ g13 c x y = r0 /\ g23 c x y = r0.

Definition identity_covariant (c : @Coordinates T) : Prop :=
  forall x y, on_grid (localmesh c) x y ->
    g_11 c x y = r1 /\ g_22 c x y = r1 /\ g_33 c x y = r1 /\
    g_12 c x y = r0 /\ g_13 c x y = r0 /\ g_23 c x y = r0.

(** The matrices assembled at one point by the two inversion loops. *)
Definition contravariant_at (c : @Coordinates T) (x y : Z) : Matrix3 :=
  symmetric (g11 c x y) (g22 c x y) (g33 c x y)
            (g12 c x y) (g13 c x y) (g23 c x y).

Definition covariant_at (c : @Coordinates T) (x y : Z) : Matrix3 :=
  symmetric (g_11 c x y) (g_22 c x y) (g_33 c x y)
            (g_12 c x y) (g_13 c x y) (g_23 c x y).

(** The index derivatives of the differencing engine vanish, over the
    grid, on a field that is constant 0 or 1 over the grid. *)
Definition annihilates_constants (m : @Mesh T) : Prop :=
  forall (f : @Field2D T) (v : T), v = r0 \/ v = r1 ->
    (forall x y, on_grid m x y -> f x y = v) ->
    forall x y, on_grid m x y ->
      indexDDX m f CELL_DEFAULT DIFF_DEFAULT RGN_NOBNDRY x y = r0
      /\ indexDDY m f CELL_DEFAULT DIFF_DEFAULT RGN_NOBNDRY x y = r0.

(** The halo exchange returns a field that is zero over the grid as it
    is: the neighbours hold the same flat geometry. *)
Definition exchange_keeps_zero (m : @Mesh T) : Prop :=
  forall f : @Field2D T,
    (forall x y, on_grid m x y -> f x y = r0) ->
    forall x y, on_grid m x y -> communicate m f x y = r0.

Definition unit_spacing (c : @Coordinates T) : Prop :=
  (forall x y, on_grid (localmesh c) x y -> dx c x y = r1 /\ dy c x y = r1)
  /\ dz c = r1.

(** All 18 connection coefficients and the 3 contracted terms vanish at
    the point [(x, y)]. *)
Definition connection_vanishes_at (c : @Coordinates T) (x y : Z) : Prop :=
  G1_11 c x y = r0 /\ G1_22 c x y = r0 /\ G1_33 c x y = r0 /\
  G1_12 c x y = r0 /\ G1_13 c x y = r0 /\ G1_23 c x y = r0 /\
  G2_11 c x y = r0 /\ G2_22 c x y = r0 /\ G2_33 c x y = r0 /\
  G2_12 c x y = r0 /\ G2_13 c x y = r0 /\ G2_23 c x y = r0 /\
  G3_11 c x y = r0 /\ G3_22 c x y = r0 /\ G3_33 c x y = r0 /\
  G3_12 c x y = r0 /\ G3_13 c x y = r0 /\ G3_23 c x y = r0 /\
  G1 c x y = r0 /\ G2 c x y = r0 /\ G3 c x y = r0.

(** *** The closed form of the connection coefficients

    The specification's closed form, for all index triples at once:
    [Gamma^k_ij = 1/2 g^kl (d_i g_lj + d_j g_li - d_l g_ij)], every partial
    derivative taken of a covariant component. *)
Inductive Idx : Set := I1 | I2 | I3.

Definition upper (c : @Coordinates T) (k l : Idx) : @Field2D T :=
  match k, l with
  | I1, I1 => g11 c | I2, I2 => g22 c | I3, I3 => g33 c
  | I1, I2 | I2, I1 => g12 c
  | I1, I3 | I3, I1 => g13 c
  | I2, I3 | I3, I2 => g23 c
  end.

Definition lower (c : @Coordinates T) (i j : Idx) : @Field2D T :=
  match i, j with
  | I1, I1 => g_11 c | I2, I2 => g_22 c | I3, I3 => g_33 c
  | I1, I2 | I2, I1 => g_12 c
  | I1, I3 | I3, I1 => g_13 c
  | I2, I3 | I3, I2 => g_23 c
  end.

Definition partial (c : @Coordinates T) (i : Idx) (f : @Field2D T)
    : @Field2D T :=
  match i with
  | I1 => DDX_ c f
  | I2 => DDY_ c f
  | I3 => DDZ_ c f
  end.

Definition christoffel_term (c : @Coordinates T) (k i j l : Idx) (x y : Z) : T :=
  (upper c k l x y
   * (partial c i (lower c l j) x y + partial c j (lower c l i) x y
      - partial c l (lower c i j) x y))%B.

Definition christoffel (c : @Coordinates T) (k i j : Idx) (x y : Z) : T :=
  (r0_5 * (christoffel_term c k i j I1 x y + christoffel_term c k i j I2 x y
           + christoffel_term c k i j I3 x y))%B.

(** The stored coefficient [Gk_ij]. *)
Definition stored (c : @Coordinates T) (k i j : Idx) : @Field2D T :=
  match k, i, j with
  | I1, I1, I1 => G1_11 c | I1, I2, I2 => G1_22 c | I1, I3, I3 => G1_33 c
  | I1, I1, I2 | I1, I2, I1 => G1_12 c
  | I1, I1, I3 | I1, I3, I1 => G1_13 c
  | I1, I2, I3 | I1, I3, I2 => G1_23 c
  | I2, I1, I1 => G2_11 c | I2, I2, I2 => G2_22 c | I2, I3, I3 => G2_33 c
  | I2, I1, I2 | I2, I2, I1 => G2_12 c
  | I2, I1, I3 | I2, I3, I1 => G2_13 c
  | I2, I2, I3 | I2, I3, I2 => G2_23 c
  | I3, I1, I1 => G3_11 c | I3, I2, I2 => G3_22 c | I3, I3, I3 => G3_33 c
  | I3, I1, I2 | I3, I2, I1 => G3_12 c
  | I3, I1, I3 | I3, I3, I1 => G3_13 c
  | I3, I2, I3 | I3, I3, I2 => G3_23 c
  end.

(** The value of a field in the layer [i] along the normal of the
    boundary [b] through the position [(x, y)]: layer 0 is the position
    itself, negative layers lie towards the interior. *)
Definition at_layer (r : @Field2D T) (b : BoundaryRegion) (x y i : Z) : T :=
  r (x + i * bndry_bx b) (y + i * bndry_by b).

(** [result[n] = 3 result[n-1] - 3 result[n-2] + result[n-3]] *)
Definition cubic_rule (r : @Field2D T) (b : BoundaryRegion) (x y n : Z) : Prop :=
  at_layer r b x y n
  = (r3 * at_layer r b x y (n - 1) - r3 * at_layer r b x y (n - 2)
     + at_layer r b x y (n - 3))%B.

(** The symmetric four-point average of the source field at [(x, y)]. *)
Definition four_point_average (f : @Field2D T) (b : BoundaryRegion) (x y : Z)
    : T :=
  ((r9 * (at_layer f b x y (-1) + at_layer f b x y 0)
    - at_layer f b x y (-2) - at_layer f b x y 1) / r16)%B.

(** The target location is offset along the normal of [b], and [b] is the
    boundary on the upper side: the test of lines 49-52. *)
Definition offset_matches (loc : CELL_LOC) (b : BoundaryRegion) : Prop :=
  (loc = CELL_XLOW /\ bndry_bx b > 0) \/ (loc = CELL_YLOW /\ bndry_by b > 0).

(** The tests of lines 68 and 74. *)
Definition single_point_x (m : @Mesh T) (b : BoundaryRegion) : Prop :=
  bndry_bx b <> 0 /\ LocalNx m = 1 /\ bndry_width b = 1.
Definition single_point_y (m : @Mesh T) (b : BoundaryRegion) : Prop :=
  bndry_by b <> 0 /\ LocalNy m = 1 /\ bndry_width b = 1.

(** The points the processor holds along the normal of [b] once the guard
    width is removed on both sides. *)
Definition local_interior_points (m : @Mesh T) (b : BoundaryRegion) : Z :=
  if bndry_bx b =? 0 then LocalNy m - 2 * bndry_width b
  else LocalNx m - 2 * bndry_width b.

(** The interior points of the local grid in the two in-surface
    directions. *)
Definition interior_points_x (m : @Mesh T) : Z := xend m - xstart m + 1.
Definition interior_points_y (m : @Mesh T) : Z := yend m - ystart m + 1.

(** The shift field as the sentence under test describes it: interpolated,
    halo-exchanged and corrected by the shift angle, with no extrapolation
    into the boundary guard cells. *)
Definition zShift_without_extrapolation (m : @Mesh T) (loc : CELL_LOC)
    (zShift_in : @Field2D T) (ShiftAngle : list T) : @Field2D T :=
  correct_zShift m
    (communicate m (communicate m (interp_to m zShift_in loc RGN_NOBNDRY)))
    ShiftAngle.

(** [f / b] for a [Field3D] with its [yup] and [ydown] fields divided
    as well. *)
Definition f3_over (f : @Field3D T) (b : @Field2D T) : @Field3D T :=
  mkField3D (fun x y z => (f x y z / b x y)%B) (getLocation3 f)
    match yupydown f with
    | NoYupYdown => NoYupYdown
    | YupYdownSelf => YupYdownSelf
    | YupYdownFields up down =>
        YupYdownFields (fun x y z => (up x y z / b x y)%B)
                       (fun x y z => (down x y z / b x y)%B)
    end.

(** A computation keeps the values of the block [k]. *)
Definition keeps {A} (k : positive) (c : @St T A) : Prop :=
  forall (h : gmap positive (@Block T)) b,
    h !! k = Some b ->
    exists b', snd (c h) !! k = Some b' /\ bdata b' = bdata b.

(** The statements [c] on the store, reading the block [kf] of the source
    field [f] and writing the block [kr] of the result, do what the
    function [F] does on the value of the result. *)
Definition simulates (kf kr : positive) (f : @Field2D T) (c : @St T unit)
    (F : @Field2D T -> Result (@Field2D T)) : Prop :=
  forall (h : gmap positive (@Block T)) bf br (R : @Field2D T),
    h !! kf = Some bf -> bdata bf = fval f ->
    h !! kr = Some br -> bdata br = fval R ->
    match F R with
    | Ok R' => c h = (Ok tt, <[ kr := mkBlock (refs br) (fval R') ]> h)
    | Throw e => exists h', c h = (Throw e, h')
    end.

End Notions.

(** ** A single-processor mesh in binary64

    Seven by seven points, two guard cells on every side, four boundary
    regions of width two, second-order central differences, a halo exchange
    without neighbours, and the four-point stencil for [interp_to]. *)

Definition fz (z : Z) : float :=
  if z <? 0 then PrimFloat.opp (PrimFloat.of_uint63 (Uint63.of_Z (- z)))
  else PrimFloat.of_uint63 (Uint63.of_Z z).

Definition out_loc (f : @Field2D float) (loc : CELL_LOC) : CELL_LOC :=
  match loc with CELL_DEFAULT => getLocation f | _ => loc end.

Definition inside (xs xe ys ye x y : Z) : bool :=
  (xs <=? x) && (x <=? xe) && (ys <=? y) && (y <=? ye).

(** Second-order central differences over the points of [RGN_NOBNDRY];
    the cells outside hold zero. *)
Definition central_DDX (xs xe ys ye : Z) (f : @Field2D float) (loc : CELL_LOC)
    (_ : DIFF_METHOD) (_ : REGION) : @Field2D float :=
  mkField2D
    (fun x y =>
       if inside xs xe ys ye x y
       then (0.5 * (f (x + 1)%Z y - f (x - 1)%Z y))%float
       else 0%float)
    (out_loc f loc).

Definition central_DDY (xs xe ys ye : Z) (f : @Field2D float) (loc : CELL_LOC)
    (_ : DIFF_METHOD) (_ : REGION) : @Field2D float :=
  mkField2D
    (fun x y =>
       if inside xs xe ys ye x y
       then (0.5 * (f x (y + 1)%Z - f x (y - 1)%Z))%float
       else 0%float)
    (out_loc f loc).

Definition interp4 (mm m p pp : float) : float :=
  ((9 * (m + p) - mm - pp) / 16)%float.

(** [interp_to] of a cell-centred field: the stencil along the offset
    direction inside [RGN_NOBNDRY], the values of the argument elsewhere. *)
Definition interp_to4 (xs xe ys ye : Z) (f : @Field2D float) (loc : CELL_LOC)
    (_ : REGION) : @Field2D float :=
  match loc with
  | CELL_XLOW =>
      mkField2D
        (fun x y =>
           if inside xs xe ys ye x y
           then interp4 (f (x - 2) y) (f (x - 1) y) (f x y) (f (x + 1) y)
           else f x y) CELL_XLOW
  | CELL_YLOW =>
      mkField2D
        (fun x y =>
           if inside xs xe ys ye x y
           then interp4 (f x (y - 2)) (f x (y - 1)) (f x y) (f x (y + 1))
           else f x y) CELL_YLOW
  | _ => f
  end.

Definition column (x ys ye : Z) : list (Z * Z) :=
  map (fun y => (x, y)) (range ys (ye + 1)).
Definition row (y xs xe : Z) : list (Z * Z) :=
  map (fun x => (x, y)) (range xs (xe + 1)).

(** The boundary regions of a single-processor mesh: inner and outer x,
    lower and upper y, each starting at the first guard cell. *)
Definition four_boundaries (xs xe ys ye w : Z) : list BoundaryRegion :=
  [ mkBoundaryRegion (-1) 0 w (column (xs - 1) ys ye);
    mkBoundaryRegion 1 0 w (column (xe + 1) ys ye);
    mkBoundaryRegion 0 (-1) w (row (ys - 1) xs xe);
    mkBoundaryRegion 0 1 w (row (ye + 1) xs xe) ].

Definition single_mesh (nx ny guards : Z) : @Mesh float :=
  let xs := guards in let xe := nx - guards - 1 in
  let ys := guards in let ye := ny - guards - 1 in
  mkMesh nx ny nx ny 1 xs xe ys ye
    (four_boundaries xs xe ys ye guards)
    false (fun _ => false) (fun _ => false) false
    (fun f => f) (central_DDX xs xe ys ye) (central_DDY xs xe ys ye)
    (interp_to4 xs xe ys ye) interp4
    (fun _ => None) None.

Definition mesh7 : @Mesh float := single_mesh 7 7 2.

(** The flat metric on [mesh7], with [dx = dy = dz = 1]; the covariant
    components and every derived quantity are still unset. *)
Definition flat_input (m : @Mesh float) : @Coordinates float :=
  let one := Field2D_const 1%float in
  let zero := Field2D_const 0%float in
  set_contravariant
    (set_spacing (Coordinates_new m) one one 1%float 1)
    one one one zero zero zero.

(** The flat metric with both representations given. *)
Definition flat_both (m : @Mesh float) : @Coordinates float :=
  let one := Field2D_const 1%float in
  let zero := Field2D_const 0%float in
  set_covariant (flat_input m) one one one zero zero zero.

Definition flat7 : @Coordinates float := flat_both mesh7.

(** A symmetric tensor, given by its six components, is positive definite
    when its quadratic form is positive on every non-zero vector. *)
Definition positive_definite (m11 m22 m33 m12 m13 m23 : R) : Prop :=
  forall v1 v2 v3 : R,
    (v1 <> 0 \/ v2 <> 0 \/ v3 <> 0)%R ->
    (0 < m11 * v1 * v1 + m22 * v2 * v2 + m33 * v3 * v3
         + 2 * m12 * v1 * v2 + 2 * m13 * v1 * v3 + 2 * m23 * v2 * v3)%R.

Definition positive_definite_metric (c : @Coordinates R) : Prop :=
  forall x y, on_grid (localmesh c) x y ->
    positive_definite (g11 c x y) (g22 c x y) (g33 c x y)
                      (g12 c x y) (g13 c x y) (g23 c x y).

(** One point of a grid in exact arithmetic, for the flat metric. *)
Definition one_point_mesh : @Mesh R :=
  mkMesh 1 1 1 1 1 0 0 0 0 [] false (fun _ => false) (fun _ => false) false
    (fun f => f) (fun f _ _ _ => f) (fun f _ _ _ => f) (fun f _ _ => f)
    (fun _ _ p _ => p) (fun _ => None) None.

Definition flat_exact : @Coordinates R :=
  let one := Field2D_const 1%R in
  let zero := Field2D_const 0%R in
  set_contravariant (Coordinates_new one_point_mesh) one one one zero zero zero.

(** A sheared metric on a mesh: [g^23] grows with [y], the rest is flat. *)
Definition sheared_input (m : @Mesh float) : @Coordinates float :=
  let one := Field2D_const 1%float in
  let zero := Field2D_const 0%float in
  let shear := mkField2D (fun _ y => (0.125 * fz y)%float) CELL_CENTRE in
  set_contravariant
    (set_spacing (Coordinates_new m) one one 1%float 1)
    one one one zero zero shear.

(** Sample source fields. *)
Definition xcube : @Field2D float :=
  mkField2D (fun x _ => fz (x * x * x)) CELL_CENTRE.
Definition ycube : @Field2D float :=
  mkField2D (fun _ y => fz (y * y * y)) CELL_CENTRE.

(** A single-processor mesh with two interior points in x: six by seven
    points, two guard cells. *)
Definition mesh6 : @Mesh float := single_mesh 6 7 2.

Definition outer_x (m : @Mesh float) : BoundaryRegion :=
  mkBoundaryRegion 1 0 (xstart m) (column (xend m + 1) (ystart m) (yend m)).
Definition inner_x (m : @Mesh float) : BoundaryRegion :=
  mkBoundaryRegion (-1) 0 (xstart m) (column (xstart m - 1) (ystart m) (yend m)).

(** The innermost processor of a domain decomposed in x: [gnx] points in
    all, [lnx] of them local, one guard cell, five points in y; the only
    x boundary of this processor is the inner one. *)
Definition strip_mesh (gnx lnx : Z) : @Mesh float :=
  mkMesh gnx 5 lnx 5 1 1 (lnx - 2) 1 3
    [ mkBoundaryRegion (-1) 0 1 (column 0 1 3);
      mkBoundaryRegion 0 (-1) 1 (row 0 1 (lnx - 2));
      mkBoundaryRegion 0 1 1 (row 4 1 (lnx - 2)) ]
    false (fun _ => false) (fun _ => false) false
    (fun f => f) (central_DDX 1 (lnx - 2) 1 3) (central_DDY 1 (lnx - 2) 1 3)
    (interp_to4 1 (lnx - 2) 1 3) interp4
    (fun _ => None) None.

Definition strip_inner_x : BoundaryRegion :=
  mkBoundaryRegion (-1) 0 1 (column 0 1 3).

(** The message of the first assertion of [interpXLOWToXYCorner]. *)
Definition corner_precondition : string :=
  "Assertion failed: localmesh->xstart > 1 && localmesh->ystart > 1".

(** The x-staggered geometry of the flat metric on a mesh, and the corner
    geometry built from it. *)
Definition flat_xlow (m : @Mesh float) : Result (@Coordinates float) :=
  getCoordinatesStaggered RGN_NOBNDRY m CELL_XLOW (flat_both m).

Definition flat_corner (m : @Mesh float) : Result (@Coordinates float) :=
  coords_xlow <- flat_xlow m ;;
  getCoordinatesXYCorner RGN_NOBNDRY m coords_xlow.

Definition lower_y (m : @Mesh float) : BoundaryRegion :=
  mkBoundaryRegion 0 (-1) (ystart m) (row (ystart m - 1) (xstart m) (xend m)).

(** The flat geometry on [mesh7] with a shift field that grows as the cube
    of [y], and no shift angle (no branch cut). *)
Definition flat7_shifted : @Coordinates float := set_shift flat7 ycube [].

(** Two geometry objects of [mesh7] that differ in their normalisation:
    [Bxy = 1] at cell centre and [Bxy = 2] at [CELL_XLOW]. *)
Definition centre7 : @Coordinates float :=
  set_J_Bxy flat7 (Field2D_const 1%float) (Field2D_const 1%float).

Definition xlow7 : @Coordinates float :=
  let c := set_J_Bxy flat7 (Field2D_const 1%float) (Field2D_const 2%float) in
  mkCoordinates (localmesh c) CELL_XLOW (dx c) (dy c) (dz c) (nz c)
    (non_uniform c) (d1_dx c) (d1_dy c) (J c) (Bxy c)
    (g11 c) (g22 c) (g33 c) (g12 c) (g13 c) (g23 c)
    (g_11 c) (g_22 c) (g_33 c) (g_12 c) (g_13 c) (g_23 c)
    (G1_11 c) (G1_22 c) (G1_33 c) (G1_12 c) (G1_13 c) (G1_23 c)
    (G2_11 c) (G2_22 c) (G2_33 c) (G2_12 c) (G2_13 c) (G2_23 c)
    (G3_11 c) (G3_22 c) (G3_33 c) (G3_12 c) (G3_13 c) (G3_23 c)
    (G1 c) (G2 c) (G3 c)
    (ShiftTorsion c) (IntShiftTorsion c) (zShift c) (ShiftAngle c).

Definition coordinates7 (l : CELL_LOC) : @Coordinates float :=
  match l with CELL_XLOW => xlow7 | _ => centre7 end.

(** A store with one field, [xcube], owned by one object. *)
Definition store1 : gmap positive (@Block float) :=
  {[ 1%positive := mkBlock 1 (fval xcube) ]}.
Definition field1 : Field2D_obj := mkObj 1 CELL_CENTRE.

(** ** The geometry read from the grid file (lines 210-388) *)

Section GridInput.

Context {T : Type} {ops : BoutRealOps T}.

(** The regions the reductions [min] and [finite] range over when the
    call names none. *)
Variables rgn_min rgn_finite : REGION.

(** What [Coordinates::getCoordinates] asks of the mesh and the options
    besides the named [Field2D]s: whether x is periodic, a named scalar,
    whether the source has a variable, a named vector of a given length
    from a given offset, the global index of a local x index, the options
    [zperiod], [ZMIN] and [ZMAX] when they are set, the conversion of an
    [int] to [BoutReal], and the constant [TWOPI]. *)
Variable periodicX : @Mesh T -> bool.
Variable get_real : @Mesh T -> string -> option T.
Variable sourceHasVar : @Mesh T -> string -> bool.
Variable get_vector : @Mesh T -> string -> Z -> Z -> option (list T).
Variable XGLOBAL : @Mesh T -> Z -> Z.
Variable Options_zperiod : option Z.
Variables Options_ZMIN Options_ZMAX : option T.
Variable of_int : Z -> T.
Variable TWOPI : T.

(** [mesh->get(var, name, def)]: the named field, or the constant [def]
    when the grid file has none. *)
Definition get_or (m : @Mesh T) (name : string) (def : T) : @Field2D T :=
  match get m name with
  | Some v => v
  | None => Field2D_const def
  end.

(** Lines 227-246. *)
Definition grid_dz (m : @Mesh T) (nz : Z) : T :=
  match get_real m "dz" with
  | Some v => v
  | None =>
      let '(ZMIN, ZMAX) :=
        match Options_zperiod with
        | Some zperiod => (r0, (r1 / of_int zperiod)%B)
        | None =>
            (match Options_ZMIN with Some v => v | None => r0 end,
             match Options_ZMAX with Some v => v | None => r1 end)
        end in
      ((ZMAX - ZMIN) * TWOPI / of_int nz)%B
  end.

(** Lines 258-267. *)
Definition check_input_metric (c : @Coordinates T) : Result unit :=
  let m := localmesh c in
  let fin f := finite m f rgn_finite in
  if negb (fin (g11 c)) || negb (fin (g22 c)) || negb (fin (g33 c))
  then Throw "ERROR: Diagonal metrics are not finite!"
  else if (min rgn_min m (g11 c) <=? r0)%B || (min rgn_min m (g22 c) <=? r0)%B
          || (min rgn_min m (g33 c) <=? r0)%B
  then Throw "ERROR: Diagonal metrics are negative!"
  else if negb (fin (g12 c)) || negb (fin (g13 c)) || negb (fin (g23 c))
  then Throw "ERROR: Off-diagonal metrics are not finite!"
  else Ok tt.

Definition covariant_names : list string :=
  ["g_11"; "g_22"; "g_33"; "g_12"; "g_13"; "g_23"].

(** Lines 269-301: the covariant components are read when the source has
    all six, and computed from the contravariant ones otherwise. *)
Definition read_covariant (c : @Coordinates T) : Result (@Coordinates T) :=
  let m := localmesh c in
  if existsb (sourceHasVar m) covariant_names
     && forallb (sourceHasVar m) covariant_names
  then
    Ok (set_covariant c
          (get_or m "g_11" r0) (get_or m "g_22" r0) (get_or m "g_33" r0)
          (get_or m "g_12" r0) (get_or m "g_13" r0) (get_or m "g_23" r0))
  else
    let '(err, c) := calcCovariant c in
    if negb (err =? 0) then Throw "Error in calcCovariant call" else Ok c.

(** Lines 307-333: [J] and [Bxy] of the grid file replace the calculated
    ones. *)
Definition read_J_Bxy (c : @Coordinates T) : Result (@Coordinates T) :=
  let m := localmesh c in
  let c :=
    match get m "J" with
    | None => c
    | Some Jfile => set_J_Bxy c Jfile (fdiv (fsqrt (g_22 c)) Jfile)
    end in
  match get m "Bxy" with
  | None => Ok c
  | Some Bfile =>
      if negb (finite m Bfile rgn_finite)
      then Throw "ERROR: Bxy not finite everywhere!"
      else Ok (set_J_Bxy c (J c) Bfile)
  end.

(** Lines 349-378: the shift angle and the shift field. *)
Definition read_shift (m : @Mesh T) : @Field2D T * list T :=
  let ShiftAngle :=
    match get_vector m "ShiftAngle" (LocalNx m) (XGLOBAL m 0) with
    | Some v => v
    | None => []
    end in
  let zShift :=
    match get m "zShift" with
    | Some z => z
    | None => get_or m "qinty" r0
    end in
  let zShift := communicate m zShift in
  (correct_zShift m zShift ShiftAngle, ShiftAngle).

(** Lines 210-388. *)
Definition Coordinates_getCoordinates (mesh_in : @Mesh T)
    : Result (@Coordinates T) :=
  let result := Coordinates_new mesh_in in
  let dx' := get_or mesh_in "dx" r1 in
  let dx' := if periodicX mesh_in then communicate mesh_in dx' else dx' in
  let dy' := get_or mesh_in "dy" r1 in
  let nz' := LocalNz mesh_in in
  let dz' := grid_dz mesh_in nz' in
  let result := set_spacing result dx' dy' dz' nz' in
  let result :=
    set_contravariant result
      (get_or mesh_in "g11" r1) (get_or mesh_in "g22" r1)
      (get_or mesh_in "g33" r1) (get_or mesh_in "g12" r0)
      (get_or mesh_in "g13" r0) (get_or mesh_in "g23" r0) in
  check_input_metric result ;;;
  result <- read_covariant result ;;
  result <- jacobian rgn_min result ;;
  result <- read_J_Bxy result ;;
  result <- geometry rgn_min result ;;
  let ShiftTorsion' := get_or mesh_in "ShiftTorsion" r0 in
  let '(zShift', ShiftAngle') := read_shift mesh_in in
  let result := set_shift result zShift' ShiftAngle' in
  let IntShiftTorsion' :=
    if IncIntShear mesh_in then get_or mesh_in "IntShiftTorsion" r0
    else IntShiftTorsion result in
  Ok (set_torsion result ShiftTorsion' IntShiftTorsion').

End GridInput.

(** ** Further operators of the geometry object (lines 994-1262) *)

Section Operators.

Context {T : Type} {ops : BoutRealOps T}.

(** The free functions of the differencing engine ([derivs.hxx]) on a
    [Field2D], with the arguments the calls below pass; where a call
    leaves the method out it is the declared default [DIFF_DEFAULT]. *)
Variable VDDY : @Field2D T -> @Field2D T -> CELL_LOC -> DIFF_METHOD -> @Field2D T.
Variable D2DX2 : @Field2D T -> CELL_LOC -> DIFF_METHOD -> @Field2D T.
Variable D2DY2 : @Field2D T -> CELL_LOC -> DIFF_METHOD -> @Field2D T.
Variable D2DXDY : @Field2D T -> CELL_LOC -> @Field2D T.
Variable D2DYDX : @Field2D T -> CELL_LOC -> @Field2D T.

(** The two location tests of the operators. *)
Definition location_is (c : @Coordinates T) (outloc : CELL_LOC) : bool :=
  CELL_LOC_eqb (location c) outloc || CELL_LOC_eqb outloc CELL_DEFAULT.

Definition location_is_or_field (c : @Coordinates T) (outloc : CELL_LOC)
    (f : @Field2D T) : bool :=
  CELL_LOC_eqb (location c) outloc
  || (CELL_LOC_eqb outloc CELL_DEFAULT
      && CELL_LOC_eqb (location c) (getLocation f)).

(** Lines 994-999. *)
Definition Vpar_Grad_par (c : @Coordinates T) (v f : @Field2D T)
    (outloc : CELL_LOC) (method : DIFF_METHOD) : Result (@Field2D T) :=
  ASSERT1 (location_is_or_field c outloc f)
          "location == outloc || (outloc == CELL_DEFAULT && location == f.getLocation())" ;;;
  Ok (fdiv (VDDY v f outloc method) (fsqrt (g_22 c))).

(** Lines 1055-1063. *)
Definition Grad2_par2 (c : @Coordinates T) (f : @Field2D T)
    (outloc : CELL_LOC) (method : DIFF_METHOD) : Result (@Field2D T) :=
  ASSERT1 (location_is_or_field c outloc f)
          "location == outloc || (outloc == CELL_DEFAULT && location == f.getLocation())" ;;;
  let sg := fsqrt (g_22 c) in
  d1 <- DDY c (sdiv r1 sg) outloc method RGN_NOBNDRY ;;
  d2 <- DDY c f outloc method RGN_NOBNDRY ;;
  Ok (fadd (fdiv (fmul d1 d2) sg) (fdiv (D2DY2 f outloc method) (g_22 c))).

(** Lines 1095-1102. *)
Definition Delp2 (c : @Coordinates T) (f : @Field2D T) (outloc : CELL_LOC)
    : Result (@Field2D T) :=
  ASSERT1 (location_is c outloc)
          "location == outloc || outloc == CELL_DEFAULT" ;;;
  d <- DDX c f outloc DIFF_DEFAULT RGN_NOBNDRY ;;
  Ok (fadd (fmul (G1 c) d) (fmul (g11 c) (D2DX2 f outloc DIFF_DEFAULT))).

(** Lines 1226-1229. *)
Definition Laplace_par (c : @Coordinates T) (f : @Field2D T)
    (outloc : CELL_LOC) : Result (@Field2D T) :=
  ASSERT1 (location_is c outloc)
          "location == outloc || outloc == CELL_DEFAULT" ;;;
  d1 <- DDY c (fdiv (J c) (g_22 c)) outloc DIFF_DEFAULT RGN_NOBNDRY ;;
  d2 <- DDY c f outloc DIFF_DEFAULT RGN_NOBNDRY ;;
  Ok (fadd (fdiv (D2DY2 f outloc DIFF_DEFAULT) (g_22 c))
           (fdiv (fmul d1 d2) (J c))).

(** Lines 1238-1247. *)
Definition Laplace (c : @Coordinates T) (f : @Field2D T) (outloc : CELL_LOC)
    : Result (@Field2D T) :=
  ASSERT1 (location_is c outloc)
          "location == outloc || outloc == CELL_DEFAULT" ;;;
  dX <- DDX c f outloc DIFF_DEFAULT RGN_NOBNDRY ;;
  dY <- DDY c f outloc DIFF_DEFAULT RGN_NOBNDRY ;;
  Ok (fadd
        (fadd
           (fadd (fadd (fmul (G1 c) dX) (fmul (G2 c) dY))
                 (fmul (g11 c) (D2DX2 f outloc DIFF_DEFAULT)))
           (fmul (g22 c) (D2DY2 f outloc DIFF_DEFAULT)))
        (fmul (g12 c) (fadd (D2DXDY f outloc) (D2DYDX f outloc)))).

End Operators.

(** *** The perpendicular Laplacian by Fourier transform (lines
    1104-1224) *)

Section Delp2_FFT.

Context {T : Type} {ops : BoutRealOps T}.

(** [dcomplex] with its sum and product. *)
Variable dcomplex : Type.
Variables cadd cmul : dcomplex -> dcomplex -> dcomplex.

(** [rfft(in, length, out)] and [irfft(in, length, out)] of [fft.hxx]:
    [length] reals to [length / 2 + 1] coefficients, and back. *)
Variable rfft : (Z -> T) -> Z -> Z -> dcomplex.
Variable irfft : (Z -> dcomplex) -> Z -> Z -> T.

(** [laplace_tridag_coefs] of the inversion code, called with a location
    at line 1145 and without at line 1206; the three coefficients it
    returns through its reference arguments. *)
Variable laplace_tridag_coefs :
  Z -> Z -> Z -> CELL_LOC -> dcomplex * dcomplex * dcomplex.
Variable laplace_tridag_coefs_default :
  Z -> Z -> Z -> dcomplex * dcomplex * dcomplex.

Variable GlobalNz : @Mesh T -> Z.

(** The check level the program is built with; [ASSERT2] is active from
    level 2. *)
Variable CHECK : Z.

Definition ASSERT2 (cond : bool) (what : string) : Result unit :=
  if CHECK >=? 2 then ASSERT1 cond what else Ok tt.

(** What a field and a matrix hold when they have been allocated and not
    yet written. *)
Variable Field3D_allocated : Z -> Z -> Z -> T.
Variable FieldPerp_allocated : Z -> Z -> T.
Variables ft_allocated delft_allocated : Z -> Z -> dcomplex.

Record FieldPerp : Type := mkFieldPerp {
  pval :> Z -> Z -> T;
  getLocationPerp : CELL_LOC;
  getIndex : Z
}.

(** [result(x, y, z) = v] and [result(x, z) = v]. *)
Definition assign3 (f : @Field3D T) (x y z : Z) (v : T) : @Field3D T :=
  mkField3D
    (fun x' y' z' =>
       if (x' =? x) && (y' =? y) && (z' =? z) then v else f x' y' z')
    (getLocation3 f) (yupydown f).

Definition assignp (f : FieldPerp) (x z : Z) (v : T) : FieldPerp :=
  mkFieldPerp
    (fun x' z' => if (x' =? x) && (z' =? z) then v else f x' z')
    (getLocationPerp f) (getIndex f).

(** [f * 0] at line 1113. *)
Definition f3scale (f : @Field3D T) (k : T) : @Field3D T :=
  mkField3D (fun x y z => (f x y z * k)%B) (getLocation3 f) NoYupYdown.

(** [delft(jx, jz) = v] *)
Definition mset (a : Z -> Z -> dcomplex) (i j : Z) (v : dcomplex)
    : Z -> Z -> dcomplex :=
  fun i' j' => if (i' =? i) && (j' =? j) then v else a i' j'.

(** [rfft(in, ncz, &ft(jx, 0))] fills the row [jx] of [ft]. *)
Definition rfft_row (ft : Z -> Z -> dcomplex) (jx : Z) (inp : Z -> T)
    (ncz : Z) : Z -> Z -> dcomplex :=
  fun i k =>
    if (i =? jx) && (0 <=? k) && (k <=? ncz ÷ 2) then rfft inp ncz k
    else ft i k.

(** [irfft(&delft(jx, 0), ncz, &result(jx, jy, 0))] fills the [ncz]
    values of [result] at [(jx, jy)]. *)
Definition irfft_row3 (result : @Field3D T) (jx jy : Z)
    (inp : Z -> dcomplex) (ncz : Z) : @Field3D T :=
  mkField3D
    (fun x y z =>
       if (x =? jx) && (y =? jy) && (0 <=? z) && (z <? ncz)
       then irfft inp ncz z else result x y z)
    (getLocation3 result) (yupydown result).

Definition irfft_rowp (result : FieldPerp) (jx : Z) (inp : Z -> dcomplex)
    (ncz : Z) : FieldPerp :=
  mkFieldPerp
    (fun x z =>
       if (x =? jx) && (0 <=? z) && (z <? ncz)
       then irfft inp ncz z else result x z)
    (getLocationPerp result) (getIndex result).

(** The three-point combination of lines 1147 and 1208. *)
Definition tridiagonal (abc : dcomplex * dcomplex * dcomplex)
    (ft : Z -> Z -> dcomplex) (jx jz : Z) : dcomplex :=
  let '(a, b, c) := abc in
  cadd (cadd (cmul a (ft (jx - 1) jz)) (cmul b (ft jx jz)))
       (cmul c (ft (jx + 1) jz)).

(** Lines 1130-1165: one pass of the loop over [jy]. *)
Definition Delp2_plane (c : @Coordinates T) (f : @Field3D T)
    (outloc : CELL_LOC) (jy : Z)
    (st : @Field3D T * (Z -> Z -> dcomplex) * (Z -> Z -> dcomplex))
    : @Field3D T * (Z -> Z -> dcomplex) * (Z -> Z -> dcomplex) :=
  let '(result, ft, delft) := st in
  let m := localmesh c in
  let ncz := LocalNz m in
  let ft :=
    fold_left (fun ft jx => rfft_row ft jx (fun z => f jx jy z) ncz)
              (range 0 (LocalNx m)) ft in
  let delft :=
    fold_left
      (fun delft jz =>
         fold_left
           (fun delft jx =>
              mset delft jx jz
                (tridiagonal (laplace_tridag_coefs jx jy jz outloc) ft jx jz))
           (range (xstart m) (xend m + 1)) delft)
      (range 0 (ncz ÷ 2 + 1)) delft in
  let result :=
    fold_left
      (fun result jx => irfft_row3 result jx jy (fun k => delft jx k) ncz)
      (range (xstart m) (xend m + 1)) result in
  let result :=
    fold_left
      (fun result jz =>
         let result :=
           fold_left (fun result jx => assign3 result jx jy jz r0)
                     (range 0 (xstart m)) result in
         fold_left (fun result jx => assign3 result jx jy jz r0)
                   (range (xend m + 1) (LocalNx m)) result)
      (range 0 ncz) result in
  (result, ft, delft).

(** Lines 1104-1171. *)
Definition Delp2_Field3D (c : @Coordinates T) (f : @Field3D T)
    (outloc : CELL_LOC) : Result (@Field3D T) :=
  let outloc :=
    if CELL_LOC_eqb outloc CELL_DEFAULT then getLocation3 f else outloc in
  ASSERT1 (CELL_LOC_eqb (location c) outloc) "location == outloc" ;;;
  let m := localmesh c in
  if (GlobalNx m =? 1) && (GlobalNz m =? 1) then Ok (f3scale f r0)
  else
    ASSERT2 (xstart m >? 0) "localmesh->xstart > 0" ;;;
    ASSERT2 (CELL_LOC_eqb (getLocation3 f) outloc)
            "f.getLocation() == outloc" ;;;
    let result := mkField3D Field3D_allocated (getLocation3 f) NoYupYdown in
    let st :=
      fold_left (fun st jy => Delp2_plane c f outloc jy st)
                (range 0 (LocalNy m))
                (result, ft_allocated, delft_allocated) in
    let result := fst (fst st) in
    ASSERT2 (CELL_LOC_eqb (getLocation3 result) (getLocation3 f))
            "result.getLocation() == f.getLocation()" ;;;
    Ok result.

(** Lines 1173-1224. *)
Definition Delp2_FieldPerp (c : @Coordinates T) (f : FieldPerp)
    (outloc : CELL_LOC) : Result FieldPerp :=
  let outloc :=
    if CELL_LOC_eqb outloc CELL_DEFAULT then getLocationPerp f else outloc in
  ASSERT1 (CELL_LOC_eqb (location c) outloc) "location == outloc" ;;;
  ASSERT2 (CELL_LOC_eqb (getLocationPerp f) outloc)
          "f.getLocation() == outloc" ;;;
  let m := localmesh c in
  let jy := getIndex f in
  let result := mkFieldPerp FieldPerp_allocated outloc jy in
  let ncz := LocalNz m in
  let ft :=
    fold_left (fun ft jx => rfft_row ft jx (fun z => f jx z) ncz)
              (range 0 (LocalNx m)) ft_allocated in
  let delft :=
    fold_left
      (fun delft jz =>
         fold_left
           (fun delft jx =>
              mset delft jx jz
                (tridiagonal (laplace_tridag_coefs_default jx jy jz) ft jx jz))
           (range 2 (LocalNx m - 2)) delft)
      (range 0 (ncz ÷ 2 + 1)) delft_allocated in
  let result :=
    fold_left
      (fun result jx => irfft_rowp result jx (fun k => delft jx k) ncz)
      (range 1 (LocalNx m - 1)) result in
  let result :=
    fold_left
      (fun result jz =>
         assignp (assignp result 0 jz r0) (LocalNx m - 1) jz r0)
      (range 0 ncz) result in
  Ok result.

End Delp2_FFT.

(** ** Cells written by the guard-cell fill (lines 47-129) *)

Section WrittenCells.

Context {T : Type} {ops : BoutRealOps T}.

(** The cells of the four corner blocks, lines 122-128. *)
Definition corner_cell (m : @Mesh T) (x y : Z) : Prop :=
  exists i j, 0 <= i < xstart m /\ 0 <= j < ystart m
    /\ (x = i \/ x = LocalNx m - 1 - i) /\ (y = j \/ y = LocalNy m - 1 - j).

(** The cells written at the position [p] of the boundary [b], lines
    56-91: the position itself when the boundary point is interpolated,
    and the layers from [extrap_start] up to the width. *)
Definition written_by (loc : CELL_LOC) (b : BoundaryRegion) (p : Z * Z)
    (x y : Z) : Prop :=
  exists i, ((extrap_start loc b = 1 /\ i = 0)
             \/ extrap_start loc b <= i < bndry_width b)
    /\ x = fst p + i * bndry_bx b /\ y = snd p + i * bndry_by b.

(** The cells written at the branch cuts, lines 99-118: the rows
    [ystart - 1] down to 1 below, the rows from [yend] up above. *)
Definition branch_cut_cell (m : @Mesh T) (loc : CELL_LOC) (x y : Z) : Prop :=
  xstart m <= x <= xend m
  /\ ((hasBranchCutDown m x = true /\ 0 < y <= ystart m - 1)
      \/ (hasBranchCutUp m x = true
          /\ ((loc = CELL_YLOW /\ y = yend m) \/ yend m <= y < LocalNy m))).

(** The tests of lines 67, 68 and 74 together: the boundary asks for the
    cubic rule and the processor holds one point with one guard cell. *)
Definition starved (m : @Mesh T) (b : BoundaryRegion) : bool :=
  enough_points m b
  && ((negb (bndry_bx b =? 0) && (LocalNx m =? 1) && (bndry_width b =? 1))
      || (negb (bndry_by b =? 0) && (LocalNy m =? 1) && (bndry_width b =? 1))).

Definition no_positions (b : BoundaryRegion) : bool :=
  match bndry_positions b with [] => true | _ => false end.

End WrittenCells.

(** ** Rows of an outer x boundary (lines 186-195) *)

Section OuterRows.

Context {T : Type} {ops : BoutRealOps T}.

(** Some boundary region with [bx > 0] has a position in the row [y]. *)
Definition outer_x_row (m : @Mesh T) (y : Z) : bool :=
  existsb
    (fun b => (bndry_bx b >? 0)
              && existsb (fun p : Z * Z => y =? snd p) (bndry_positions b))
    (getBoundaries m).

End OuterRows.

(** ** A single-processor mesh in exact arithmetic

    The same layout as [single_mesh], without boundary regions: central
    differences over the points of [RGN_NOBNDRY], a halo exchange without
    neighbours. *)

Definition exact_central_DDX (xs xe ys ye : Z) (f : @Field2D R)
    (_ : CELL_LOC) (_ : DIFF_METHOD) (_ : REGION) : @Field2D R :=
  mkField2D
    (fun x y =>
       if inside xs xe ys ye x y
       then ((f (x + 1)%Z y - f (x - 1)%Z y) / 2)%R
       else 0%R)
    (getLocation f).

Definition exact_central_DDY (xs xe ys ye : Z) (f : @Field2D R)
    (_ : CELL_LOC) (_ : DIFF_METHOD) (_ : REGION) : @Field2D R :=
  mkField2D
    (fun x y =>
       if inside xs xe ys ye x y
       then ((f x (y + 1)%Z - f x (y - 1)%Z) / 2)%R
       else 0%R)
    (getLocation f).

Definition exact_mesh (nx ny guards : Z) : @Mesh R :=
  let xs := guards in let xe := nx - guards - 1 in
  let ys := guards in let ye := ny - guards - 1 in
  mkMesh nx ny nx ny 1 xs xe ys ye []
    false (fun _ => false) (fun _ => false) false
    (fun f => f) (exact_central_DDX xs xe ys ye) (exact_central_DDY xs xe ys ye)
    (fun f _ _ => f) (fun mm m p pp => ((9 * (m + p) - mm - pp) / 16)%R)
    (fun _ => None) None.

Definition exact_mesh7 : @Mesh R := exact_mesh 7 7 2.

(** The outer x boundary of [exact_mesh7], two cells wide. *)
Definition exact_outer_x : BoundaryRegion :=
  mkBoundaryRegion 1 0 2 (column 5 2 4).

(** Sample profiles: a square and a cube of the x index. *)
Definition xsquare_exact : @Field2D R :=
  mkField2D (fun x _ => (IZR x * IZR x)%R) CELL_CENTRE.
Definition xcube_exact : @Field2D R :=
  mkField2D (fun x _ => (IZR x * IZR x * IZR x)%R) CELL_CENTRE.

(** A metric that is constant over [exact_mesh7] and not the identity:
    [g^11 = 4], [g_11 = 1/4], [J = 1/2], unit spacing. *)
Definition stretched_exact : @Coordinates R :=
  let k v := Field2D_const (v : R) in
  set_J_Bxy
    (set_covariant
       (set_contravariant
          (set_spacing (Coordinates_new exact_mesh7) (k 1%R) (k 1%R) 1%R 1)
          (k 4%R) (k 1%R) (k 1%R) (k 0%R) (k 0%R) (k 0%R))
       (k (/ 4)%R) (k 1%R) (k 1%R) (k 0%R) (k 0%R) (k 0%R))
    (k (/ 2)%R) (k 2%R).

(** ** Fields that are constant over the grid *)

Section GridConstants.

Context {T : Type} {ops : BoutRealOps T}.

Definition constant_on_grid (m : @Mesh T) (f : @Field2D T) : Prop :=
  exists v, forall x y, on_grid m x y -> f x y = v.

(** The index derivatives of the differencing engine vanish, over the
    grid, on every field that is constant over the grid. *)
Definition annihilates_grid_constants (m : @Mesh T) : Prop :=
  forall f : @Field2D T, constant_on_grid m f ->
    forall x y, on_grid m x y ->
      indexDDX m f CELL_DEFAULT DIFF_DEFAULT RGN_NOBNDRY x y = r0
      /\ indexDDY m f CELL_DEFAULT DIFF_DEFAULT RGN_NOBNDRY x y = r0.

(** Both representations of the metric and the Jacobian are constant
    over the grid. *)
Definition constant_metric (c : @Coordinates T) : Prop :=
  Forall (constant_on_grid (localmesh c))
    [g11 c; g22 c; g33 c; g12 c; g13 c; g23 c;
     g_11 c; g_22 c; g_33 c; g_12 c; g_13 c; g_23 c; J c].

(** The inversion at the point [p] is reported to succeed: the return
    code of [invert3x3] tested at lines 825 and 885. *)
Definition inverts (c : @Coordinates T) (p : Z * Z) : bool :=
  fst (invert3x3 (contravariant_at c (fst p) (snd p))) =? 0.

Definition inverts_back (c : @Coordinates T) (p : Z * Z) : bool :=
  fst (invert3x3 (covariant_at c (fst p) (snd p))) =? 0.

(** The geometry is flat at the point [(x, y)]: unit diagonal metric,
    unit Jacobian, no contracted connection term. *)
Definition flat_at (c : @Coordinates T) (x y : Z) : Prop :=
  G1 c x y = r0 /\ G2 c x y = r0
  /\ g11 c x y = r1 /\ g22 c x y = r1 /\ g12 c x y = r0
  /\ g_22 c x y = r1 /\ J c x y = r1.

End GridConstants.

(** The flat metric on [mesh7] with [g^11] set to zero at the one point
    [(3, 3)], where the tensor is singular. *)
Definition singular7 : @Coordinates float :=
  let one := Field2D_const 1%float in
  let zero := Field2D_const 0%float in
  set_contravariant (flat_input mesh7)
    (assign one 3 3 0%float) one one zero zero zero.

(** [mesh7] with a branch cut below and above the interior columns. *)
Definition cut_mesh7 : @Mesh float :=
  mkMesh 7 7 7 7 1 2 4 2 4 (four_boundaries 2 4 2 4 2)
    true (fun x => (2 <=? x) && (x <=? 4)) (fun x => (2 <=? x) && (x <=? 4))
    false (fun f => f) (central_DDX 2 4 2 4) (central_DDY 2 4 2 4)
    (interp_to4 2 4 2 4) interp4 (fun _ => None) None.

(** The identity metric on [exact_mesh7], with unit spacing, unit
    Jacobian and no connection, and second differences in exact
    arithmetic. *)
Definition flat_exact7 : @Coordinates R :=
  let k v := Field2D_const (v : R) in
  set_J_Bxy
    (set_covariant
       (set_contravariant
          (set_spacing (Coordinates_new exact_mesh7) (k 1%R) (k 1%R) 1%R 1)
          (k 1%R) (k 1%R) (k 1%R) (k 0%R) (k 0%R) (k 0%R))
       (k 1%R) (k 1%R) (k 1%R) (k 0%R) (k 0%R) (k 0%R))
    (k 1%R) (k 1%R).

Definition exact_D2DX2 (f : @Field2D R) (_ : CELL_LOC) (_ : DIFF_METHOD)
    : @Field2D R :=
  mkField2D (fun x y => (f (x + 1)%Z y - 2 * f x y + f (x - 1)%Z y)%R)
            (getLocation f).

Definition exact_D2DY2 (f : @Field2D R) (_ : CELL_LOC) (_ : DIFF_METHOD)
    : @Field2D R :=
  mkField2D (fun x y => (f x (y + 1)%Z - 2 * f x y + f x (y - 1)%Z)%R)
            (getLocation f).

Definition exact_D2DXDY (f : @Field2D R) (_ : CELL_LOC) : @Field2D R :=
  mkField2D
    (fun x y =>
       ((f (x + 1)%Z (y + 1)%Z - f (x + 1)%Z (y - 1)%Z
         - f (x - 1)%Z (y + 1)%Z + f (x - 1)%Z (y - 1)%Z) / 4)%R)
    (getLocation f).

(** Complex numbers in binary64, and the Fourier transform of a single
    value, which is the value itself: [mesh7] has one point in z. *)
Definition cplx : Type := (float * float)%type.
Definition cplx_add (a b : cplx) : cplx :=
  (fst a + fst b, snd a + snd b)%float.
Definition cplx_mul (a b : cplx) : cplx :=
  (fst a * fst b - snd a * snd b, fst a * snd b + snd a * fst b)%float.
Definition rfft1 (inp : Z -> float) (_ k : Z) : cplx :=
  if k =? 0 then (inp 0, 0%float) else (0%float, 0%float).
Definition irfft1 (inp : Z -> cplx) (_ z : Z) : float :=
  if z =? 0 then fst (inp 0) else 0%float.

(** The coefficients of the second difference in x. *)
Definition second_difference : cplx * cplx * cplx :=
  ((1%float, 0%float), ((-2)%float, 0%float), (1%float, 0%float)).

Definition xsquare3 : @Field3D float :=
  mkField3D (fun x _ _ => fz (x * x)) CELL_CENTRE NoYupYdown.
Definition xsquare_perp : @FieldPerp float :=
  mkFieldPerp (fun x _ => fz (x * x)) CELL_CENTRE 3.

(** The two operators on [flat7], built with check level 1, where memory
    that was allocated and not written reads as not-a-number. *)
Abbreviation Delp2_Field3D_on_flat7 :=
  (Delp2_Field3D cplx cplx_add cplx_mul rfft1 irfft1
     (fun _ _ _ _ => second_difference) (fun _ => 1) 1
     (fun _ _ _ => PrimFloat.nan)
     (fun _ _ => (PrimFloat.nan, PrimFloat.nan))
     (fun _ _ => (PrimFloat.nan, PrimFloat.nan))
     flat7 xsquare3 CELL_DEFAULT).

Abbreviation Delp2_FieldPerp_on_flat7 :=
  (Delp2_FieldPerp cplx cplx_add cplx_mul rfft1 irfft1
     (fun _ _ _ => second_difference) 1
     (fun _ _ => PrimFloat.nan)
     (fun _ _ => (PrimFloat.nan, PrimFloat.nan))
     (fun _ _ => (PrimFloat.nan, PrimFloat.nan))
     flat7 xsquare_perp CELL_DEFAULT).

(** The geometry of [mesh7] built from a grid file that supplies
    nothing, with no option set. *)
Definition twopi64 : float := 6.283185307179586%float.

Abbreviation empty_grid_geometry :=
  (Coordinates_getCoordinates RGN_NOBNDRY RGN_ALL (fun _ => false)
     (fun _ _ => None) (fun _ _ => false) (fun _ _ _ _ => None) (fun _ x => x)
     None None None fz twopi64 mesh7).

(** [mesh7] with a grid file that holds one field: a Jacobian that is
    not a number everywhere. *)
Definition nan_J_mesh7 : @Mesh float :=
  mkMesh 7 7 7 7 1 2 4 2 4 (four_boundaries 2 4 2 4 2)
    false (fun _ => false) (fun _ => false) false
    (fun f => f) (central_DDX 2 4 2 4) (central_DDY 2 4 2 4)
    (interp_to4 2 4 2 4) interp4
    (fun name => if String.eqb name "J"
                 then Some (Field2D_const PrimFloat.nan) else None)
    None.

Abbreviation nan_J_geometry :=
  (Coordinates_getCoordinates RGN_NOBNDRY RGN_ALL (fun _ => false)
     (fun _ _ => None) (fun _ _ => false) (fun _ _ _ _ => None) (fun _ x => x)
     None None None fz twopi64 nan_J_mesh7).

(** [mesh7] with a grid file that holds the six covariant components of
    the identity metric and nothing else. *)
Definition covariant_file_mesh7 : @Mesh float :=
  mkMesh 7 7 7 7 1 2 4 2 4 (four_boundaries 2 4 2 4 2)
    false (fun _ => false) (fun _ => false) false
    (fun f => f) (central_DDX 2 4 2 4) (central_DDY 2 4 2 4)
    (interp_to4 2 4 2 4) interp4
    (fun name =>
       if existsb (String.eqb name) ["g_11"; "g_22"; "g_33"]
       then Some (Field2D_const 1%float)
       else if existsb (String.eqb name) ["g_12"; "g_13"; "g_23"]
       then Some (Field2D_const 0%float)
       else None)
    None.

Abbreviation covariant_file_geometry :=
  (Coordinates_getCoordinates RGN_NOBNDRY RGN_ALL (fun _ => false)
     (fun _ _ => None)
     (fun _ name => existsb (String.eqb name) covariant_names)
     (fun _ _ _ _ => None) (fun _ x => x)
     None None None fz twopi64 covariant_file_mesh7).

(** The flat metric on [mesh7] with [g^11 = -1] at the one point
    [(3, 3)], where the determinant is negative. *)
Definition negative_det7 : @Coordinates float :=
  let one := Field2D_const 1%float in
  let zero := Field2D_const 0%float in
  set_contravariant flat7
    (assign one 3 3 (-1)%float) one one zero zero zero.

(** The flat metric on [mesh7] with a covariant [g_22] that is not a
    number at [(2, 2)], the first point of [RGN_NOBNDRY], and [-1] at
    [(3, 3)]. *)
Definition hidden_negative7 : @Coordinates float :=
  let one := Field2D_const 1%float in
  let zero := Field2D_const 0%float in
  set_covariant flat7
    one (assign (assign one 2 2 PrimFloat.nan) 3 3 (-1)%float) one
    zero zero zero.

(** The diagonal metric [g^11 = g^22 = g^33 = 2^-400] on [mesh7]: symmetric
    and positive definite, with the determinant [2^-1200] below the
    smallest positive number of binary64. *)
Definition tiny_metric7 : @Coordinates float :=
  let t := Field2D_const 0x1p-400%float in
  let zero := Field2D_const 0%float in
  set_contravariant (flat_input mesh7) t t t zero zero zero.

(** * The diffusion example (examples/MMS/diffusion/diffusion.cxx)

    A test of [ddt(N) = mu_N * D2DX2(N)] by a manufactured solution,
    embedded in exact arithmetic.  The example is written for the
    interface in which the mesh holds the sizes [ngx], [ngy] and [ngz] of
    the local arrays and a field is indexed as [f[xi][yj][zk]]. *)

Module Diffusion.

Section Example.

(** [Cos], [Sin] and [Power] of [mathematica.h], which is not among the
    sources at hand. *)
Variables Cos Sin : R -> R.
Variable Power : R -> Z -> R.

(** The mesh: its index ranges, the sizes of the local arrays, the
    normalised global position of an index and the spacing in z. *)
Variable mesh : @Mesh R.
Variables ngx ngy ngz : Z.
Variables GlobalX GlobalY : Z -> R.
Variable mesh_dz : R.

(** The globals [Lx], [Ly] and [mu_N], set from the options. *)
Variables Lx Ly mu_N : R.

(** What [allocate()] hands out. *)
Variable Field3D_allocated : Z -> Z -> Z -> R.

(** The halo exchange, the boundary conditions at time [t] and the
    second x-derivative of the differencing engine, on a [Field3D]. *)
Variable communicate3 : @Field3D R -> @Field3D R.
Variable applyBoundary : @Field3D R -> R -> @Field3D R.
Variable D2DX2 : @Field3D R -> @Field3D R.

(** Lines 108-110. *)
Definition MS (t x y z : R) : R :=
  (0.9 + 0.9 * x + 0.2 * Cos (10 * t) * Sin (5 * Power x 2))%R.

(** Lines 113-115. *)
Definition dxMS (t x y z : R) : R :=
  (0.9 + 2 * x * Cos (10 * t) * Cos (5 * Power x 2))%R.

(** Lines 119-136; [D] is not used. *)
Definition solution (f : @Field3D R) (t D : R) : @Field3D R :=
  let bx := (ngx - (xend mesh - xstart mesh + 1)) ÷ 2 in
  let by' := (ngy - (yend mesh - ystart mesh + 1)) ÷ 2 in
  fold_left
    (fun f xi =>
       fold_left
         (fun f yj =>
            let x := (GlobalX xi * Lx)%R in
            let y := (GlobalY yj * Ly)%R in
            fold_left
              (fun f zk =>
                 let z := (mesh_dz * IZR zk)%R in
                 assign3 f xi yj zk (MS t x y z))
              (range 0 ngz) f)
         (range (ystart mesh - by') (yend mesh + by' + 1)) f)
    (range (xstart mesh - bx) (xend mesh + bx + 1)) f.

(** Lines 140-159. *)
Definition MMS_Source (t : R) : @Field3D R :=
  let result := mkField3D Field3D_allocated CELL_CENTRE NoYupYdown in
  fold_left
    (fun result xi =>
       fold_left
         (fun result yj =>
            fold_left
              (fun result zk =>
                 let x := (GlobalX xi * Lx)%R in
                 let y := (GlobalY yj * Ly)%R in
                 let z := (IZR zk * mesh_dz)%R in
                 assign3 result xi yj zk
                   ((-2) * Sin (10 * t) * Sin (5 * Power x 2)
                    + Cos (10 * t)
                      * ((-2) * Cos (5 * Power x 2)
                         + 20 * Power x 2 * Sin (5 * Power x 2)))%R)
              (range 0 ngz) result)
         (range (ystart mesh) (yend mesh + 1)) result)
    (range (xstart mesh) (xend mesh + 1)) result.

(** The fields the example keeps as globals: the evolving [N] with its
    time derivative [ddt(N)], the error [E_N], the solution [S] and the
    source. *)
Record Globals : Type := mkGlobals {
  N : @Field3D R;
  ddt_N : @Field3D R;
  E_N : @Field3D R;
  S : @Field3D R;
  source : @Field3D R
}.

(** Lines 92-104. *)
Definition physics_run (g : Globals) (t : R) : Z * Globals :=
  let N' := communicate3 (N g) in
  let N' := applyBoundary N' t in
  let d := D2DX2 N' in
  let ddt' :=
    mkField3D (fun x y z => (mu_N * d x y z)%R) (getLocation3 d) NoYupYdown in
  let src := MMS_Source t in
  let ddt' :=
    mkField3D (fun x y z => (ddt' x y z + src x y z)%R)
              (getLocation3 ddt') NoYupYdown in
  (0, mkGlobals N' ddt' (E_N g) (S g) (source g)).

(** Lines 161-175. *)
Definition error_monitor (g : Globals) (simtime : R) (iter NOUT : Z)
    : Z * Globals :=
  let S' := solution (S g) simtime mu_N in
  let E_N' :=
    mkField3D (fun _ _ _ => 0%R) (getLocation3 (E_N g)) NoYupYdown in
  let E_N' :=
    fold_left
      (fun E_N' xi =>
         fold_left
           (fun E_N' yj =>
              fold_left
                (fun E_N' zk =>
                   assign3 E_N' xi yj zk (N g xi yj zk - S' xi yj zk)%R)
                (range 0 (ngz - 1)) E_N')
           (range (ystart mesh) (yend mesh + 1)) E_N')
      (range (xstart mesh) (xend mesh + 1)) E_N' in
  let source' := MMS_Source simtime in
  (0, mkGlobals (N g) (ddt_N g) E_N' S' source').

End Example.

End Diffusion.

(** * Properties *)

(** ** Basic facts *)

Lemma CELL_LOC_eqb_eq (a b : CELL_LOC) : CELL_LOC_eqb a b = true <-> a = b.
Proof.
  destruct a, b; simpl; split; intro H; try reflexivity; discriminate H.
Qed.

Lemma CELL_LOC_eqb_refl (a : CELL_LOC) : CELL_LOC_eqb a a = true.
Proof. destruct a; reflexivity. Qed.

Lemma range_nil (lo hi : Z) : hi <= lo -> range lo hi = [].
Proof.
  intro H. unfold range.
  replace (Z.to_nat (hi - lo)) with 0%nat by lia. reflexivity.
Qed.

Lemma range_cons (lo hi : Z) : lo < hi -> range lo hi = lo :: range (lo + 1) hi.
Proof.
  intro H. unfold range.
  replace (Z.to_nat (hi - lo)) with (S (Z.to_nat (hi - (lo + 1)))) by lia.
  cbn [seq map]. f_equal; [lia|].
  rewrite <- seq_shift, map_map.
  apply map_ext. intro k. lia.
Qed.

Lemma in_range (lo hi i : Z) : In i (range lo hi) <-> lo <= i < hi.
Proof.
  unfold range. rewrite in_map_iff. split.
  - intros (k & <- & Hk). apply in_seq in Hk. lia.
  - intro H. exists (Z.to_nat (i - lo)). split; [lia|].
    apply in_seq. lia.
Qed.

Lemma in_region_all {T} (m : @Mesh T) (x y : Z) :
  In (x, y) (region m RGN_ALL) <-> (0 <= x < LocalNx m /\ 0 <= y < LocalNy m).
Proof. simpl. rewrite in_prod_iff, !in_range. reflexivity. Qed.

Lemma in_region_nobndry {T} (m : @Mesh T) (x y : Z) :
  In (x, y) (region m RGN_NOBNDRY)
  <-> (xstart m <= x <= xend m /\ ystart m <= y <= yend m).
Proof. simpl. rewrite in_prod_iff, !in_range. lia. Qed.

Section Reductions.

Context {T : Type} {ops : BoutRealOps T}.

Lemma min_over_const (pts : list (Z * Z)) (f : @Field2D T) (v : T) :
  pts <> [] ->
  (forall p, In p pts -> f (fst p) (snd p) = v) ->
  min_over pts f = v.
Proof.
  destruct pts as [|p ps]; [congruence|]. intros _ H. simpl.
  rewrite (H p (or_introl eq_refl)).
  assert (Hps : forall q, In q ps -> f (fst q) (snd q) = v)
    by (intros q Hq; apply H; right; exact Hq).
  clear H. induction ps as [|q ps IH]; simpl; [reflexivity|].
  rewrite (Hps q (or_introl eq_refl)).
  destruct (rltb v v); apply IH; intros q' Hq'; apply Hps; right; exact Hq'.
Qed.

Lemma below_exists (pts : list (Z * Z)) (f : Z -> Z -> T) (k : T) :
  below pts f k = true
  <-> exists x y, In (x, y) pts /\ (f x y <? k)%B = true.
Proof.
  unfold below. rewrite existsb_exists. split.
  - intros ([x y] & Hin & H). exists x, y. auto.
  - intros (x & y & Hin & H). exists (x, y). auto.
Qed.

Lemma finite_false_exists (m : Mesh) (f : @Field2D T) (rgn : REGION) :
  finite m f rgn = false
  <-> exists x y, In (x, y) (region m rgn) /\ rfinite (f x y) = false.
Proof.
  unfold finite. split.
  - intro H.
    assert (E : existsb (fun p => negb (rfinite (f (fst p) (snd p))))
                        (region m rgn) = true).
    { induction (region m rgn) as [|p l IH]; simpl in *; [discriminate|].
      destruct (rfinite (f (fst p) (snd p))); simpl in *; auto. }
    apply existsb_exists in E. destruct E as ([x y] & Hin & E).
    exists x, y. split; [exact Hin|].
    simpl in E. destruct (rfinite (f x y)); [discriminate|reflexivity].
  - intros (x & y & Hin & H).
    destruct (forallb _ _) eqn:E; [|reflexivity].
    rewrite forallb_forall in E. specialize (E _ Hin). simpl in E. congruence.
Qed.

Lemma jacobian_det_at (c : Coordinates) (x y : Z) :
  jacobian_det c x y = det_at c x y.
Proof. reflexivity. Qed.

(** Which check of [jacobian] fires, in the order of the source. *)
Lemma jacobian_cases (rgn : REGION) (c : Coordinates) :
  let m := localmesh c in
  let J' := sdiv r1 (fsqrt (jacobian_det c)) in
  jacobian rgn c =
    if (min rgn m (jacobian_det c) <? r0)%B
    then Throw "The determinant of g^ij is somewhere less than 0.0"
    else if negb (finite m J' RGN_NOBNDRY)
    then Throw "ERROR: Jacobian not finite everywhere!"
    else if (min rgn m (fabs J') <? r1em10)%B
    then Throw "ERROR: Jacobian becomes very small"
    else if (min rgn m (g_22 c) <? r0)%B
    then Throw "g_22 is somewhere less than 0.0"
    else Ok (set_J_Bxy c J' (fdiv (fsqrt (g_22 c)) J')).
Proof. reflexivity. Qed.

End Reductions.

(** ** Jacobian *)

Lemma min_over_const_all {T} {ops : BoutRealOps T} (pts : list (Z * Z))
    (f : @Field2D T) (v : T) :
  (forall x y, f x y = v) -> min_over pts f = v.
Proof.
  intro H. destruct pts as [|p ps]; [apply H|].
  apply min_over_const; [discriminate|]. intros q _. apply H.
Qed.

Lemma region_on_grid {T} (m : @Mesh T) (rgn : REGION) (x y : Z) :
  mesh_wf m -> In (x, y) (region m rgn) -> on_grid m x y.
Proof.
  intros (H1 & H2 & H3 & H4) Hin. unfold on_grid. destruct rgn.
  - apply in_region_all in Hin. exact Hin.
  - apply in_region_nobndry in Hin. lia.
Qed.

Lemma region_nonempty {T} (m : @Mesh T) (rgn : REGION) :
  mesh_wf m -> region m rgn <> [].
Proof.
  intros (H1 & H2 & H3 & H4) E.
  assert (Hin : In (xstart m, ystart m) (region m rgn)).
  { destruct rgn.
    - apply in_region_all. lia.
    - apply in_region_nobndry. lia. }
  rewrite E in Hin. exact Hin.
Qed.

Lemma min_const_on_grid {T} {ops : BoutRealOps T} (rgn_min : REGION)
    (m : @Mesh T) (f : @Field2D T) (v : T) :
  mesh_wf m ->
  (forall x y, on_grid m x y -> f x y = v) ->
  min rgn_min m f = v.
Proof.
  intros Hwf H. unfold min. apply min_over_const.
  - apply region_nonempty, Hwf.
  - intros [x y] Hin. apply H. eapply region_on_grid; eassumption.
Qed.

Lemma finite_on_grid {T} {ops : BoutRealOps T} (m : @Mesh T)
    (f : @Field2D T) (rgn : REGION) :
  mesh_wf m ->
  (forall x y, on_grid m x y -> rfinite (f x y) = true) ->
  finite m f rgn = true.
Proof.
  intros Hwf H. unfold finite. apply forallb_forall. intros [x y] Hin.
  apply H. eapply region_on_grid; eassumption.
Qed.

Lemma det_at_identity (c : @Coordinates float) (x y : Z) :
  (g11 c x y = r1 /\ g22 c x y = r1 /\ g33 c x y = r1 /\
   g12 c x y = r0 /\ g13 c x y = r0 /\ g23 c x y = r0) ->
  det_at c x y = r1.
Proof.
  intros (E1 & E2 & E3 & E4 & E5 & E6). unfold det_at.
  rewrite E1, E2, E3, E4, E5, E6. reflexivity.
Qed.

(** On a flat metric with [g_22 = 1] no check of [jacobian] fires. *)
Lemma jacobian_identity (rgn : REGION) (c : @Coordinates float) :
  mesh_wf (localmesh c) ->
  identity_contravariant c ->
  (forall x y, on_grid (localmesh c) x y -> g_22 c x y = r1) ->
  jacobian rgn c
  = Ok (set_J_Bxy c (sdiv r1 (fsqrt (jacobian_det c)))
          (fdiv (fsqrt (g_22 c)) (sdiv r1 (fsqrt (jacobian_det c))))).
Proof.
  intros Hwf Hup Hg.
  assert (HJ1 : forall x y, on_grid (localmesh c) x y ->
                  sdiv r1 (fsqrt (jacobian_det c)) x y = r1).
  { intros x y Hxy. change ((r1 / rsqrt (det_at c x y))%B = r1).
    rewrite (det_at_identity c x y (Hup x y Hxy)). reflexivity. }
  rewrite jacobian_cases. cbv zeta.
  rewrite (min_const_on_grid rgn _ (jacobian_det c) r1 Hwf).
  2:{ intros x y Hxy. apply det_at_identity, Hup, Hxy. }
  rewrite (finite_on_grid _ (sdiv r1 (fsqrt (jacobian_det c))) RGN_NOBNDRY Hwf).
  2:{ intros x y Hxy. rewrite (HJ1 x y Hxy). reflexivity. }
  rewrite (min_const_on_grid rgn _ (fabs (sdiv r1 (fsqrt (jacobian_det c)))) r1 Hwf).
  2:{ intros x y Hxy.
      change (rabs (sdiv r1 (fsqrt (jacobian_det c)) x y) = r1).
      rewrite (HJ1 x y Hxy). reflexivity. }
  rewrite (min_const_on_grid rgn _ (g_22 c) r1 Hwf Hg).
  reflexivity.
Qed.

(** ** Comparisons and reductions in binary64 *)

Lemma SFltb_min_step (A B K : spec_float) :
  A <> S754_nan -> B <> S754_nan ->
  SFltb (if SFltb B A then B else A) K = SFltb A K || SFltb B K.
Proof.
  intros HA HB.
  destruct A as [sa|sa| |sa ma ea]; [| |congruence|];
  (destruct B as [sb|sb| |sb mb eb]; [| |congruence|]);
  destruct K as [sk|sk| |sk mk ek];
  unfold SFltb, SFcompare;
  repeat match goal with s : bool |- _ => destruct s end;
  try reflexivity;
  change PosDef.Pos.compare_cont with Pos.compare_cont;
  repeat first
    [ rewrite Pos.compare_cont_spec
    | progress cbn [CompOpp orb Pos.switch_Eq]
    | match goal with
      | |- context [(?a ?= ?b)%Z] =>
          destruct (Z.compare_spec a b); try lia
      | |- context [(?a ?= ?b)%positive] =>
          destruct (Pos.compare_spec a b); try lia
      end ];
  try reflexivity; try lia.
Qed.

Lemma SFeqb_refl (A : spec_float) : A <> S754_nan -> SFeqb A A = true.
Proof.
  intro HA. destruct A as [s|s| |s m e]; [| |congruence|];
    unfold SFeqb, SFcompare; try destruct s; try reflexivity;
    change PosDef.Pos.compare_cont with Pos.compare_cont;
    rewrite Z.compare_refl, Pos.compare_cont_spec, Pos.compare_refl;
    reflexivity.
Qed.

Lemma is_nan_Prim2SF (x : float) :
  PrimFloat.is_nan x = false <-> Prim2SF x <> S754_nan.
Proof.
  unfold PrimFloat.is_nan. rewrite FloatAxioms.eqb_spec. split.
  - intros H E. rewrite E in H. discriminate H.
  - intro H. rewrite SFeqb_refl by exact H. reflexivity.
Qed.

Lemma float_min_step (a b k : float) :
  PrimFloat.is_nan a = false -> PrimFloat.is_nan b = false ->
  ((if b <? a then b else a) <? k)%float = ((a <? k) || (b <? k))%float.
Proof.
  intros Ha Hb. apply is_nan_Prim2SF in Ha, Hb.
  rewrite !FloatAxioms.ltb_spec.
  replace (Prim2SF (if SFltb (Prim2SF b) (Prim2SF a) then b else a))
    with (if SFltb (Prim2SF b) (Prim2SF a) then Prim2SF b else Prim2SF a)
    by (destruct (SFltb _ _); reflexivity).
  apply SFltb_min_step; assumption.
Qed.

(** The reduction [min] over values none of which is a NaN answers a
    threshold test as a minimum does. *)
Lemma min_over_decides (pts : list (Z * Z)) (f : @Field2D float) (k : float) :
  pts <> [] ->
  (forall x y, In (x, y) pts -> PrimFloat.is_nan (f x y) = false) ->
  (min_over pts f <? k)%B = below pts f k.
Proof.
  destruct pts as [|p ps]; [congruence|]. intros _ Hn.
  unfold min_over, below. cbn [existsb].
  assert (Hp : PrimFloat.is_nan (f (fst p) (snd p)) = false)
    by (apply Hn; left; destruct p; reflexivity).
  assert (Hps : forall q, In q ps ->
            PrimFloat.is_nan (f (fst q) (snd q)) = false)
    by (intros [x y] Hq; apply Hn; right; exact Hq).
  clear Hn. generalize dependent (f (fst p) (snd p)). clear p.
  induction ps as [|q ps IH]; intros acc Hacc; cbn [fold_left existsb].
  - rewrite orb_false_r. reflexivity.
  - rewrite IH.
    + cbn [rltb binary64].
      rewrite float_min_step
        by (first [exact Hacc | apply Hps; left; reflexivity]).
      rewrite orb_assoc. reflexivity.
    + intros q' Hq'. apply Hps. right. exact Hq'.
    + cbn [rltb binary64]. destruct (_ <? _)%float;
        [apply Hps; left; reflexivity|exact Hacc].
Qed.

(** ** No NaN from the inverse square root of a non-negative number *)

Lemma shr_1_nonneg (mrs : shr_record) :
  0 <= shr_m mrs -> 0 <= shr_m (shr_1 mrs).
Proof.
  destruct mrs as [m r s]. cbn [shr_m]. intro H.
  destruct m as [|p|p]; [| |lia]; try destruct p; cbn; lia.
Qed.

Lemma iter_pos_shr_1_nonneg (p : positive) (mrs : shr_record) :
  0 <= shr_m mrs -> 0 <= shr_m (@SpecFloat.iter_pos shr_record shr_1 p mrs).
Proof.
  revert mrs. induction p as [p IH|p IH|]; intros mrs H; cbn [SpecFloat.iter_pos].
  - apply IH, IH, shr_1_nonneg, H.
  - apply IH, IH, H.
  - apply shr_1_nonneg, H.
Qed.

Lemma shr_fexp_nonneg (m e : Z) (l : SpecFloat.location) :
  0 <= m -> 0 <= shr_m (fst (shr_fexp prec emax m e l)).
Proof.
  intro H. unfold shr_fexp, shr.
  assert (H0 : 0 <= shr_m (shr_record_of_loc m l))
    by (destruct l as [|[]]; exact H).
  destruct (fexp prec emax (Zdigits2 m + e) - e); cbn [fst];
    [exact H0|apply iter_pos_shr_1_nonneg, H0|exact H0].
Qed.

Lemma round_nearest_even_nonneg (m : Z) (l : SpecFloat.location) :
  0 <= m -> 0 <= round_nearest_even m l.
Proof.
  intro H. unfold round_nearest_even.
  destruct l as [|[]]; try destruct (IntDef.Z.even m); lia.
Qed.

Lemma binary_round_aux_not_nan (sx : bool) (m e : Z) (l : SpecFloat.location) :
  0 <= m -> binary_round_aux prec emax sx m e l <> S754_nan.
Proof.
  intro H. unfold binary_round_aux.
  pose proof (shr_fexp_nonneg m e l H) as H1.
  destruct (shr_fexp prec emax m e l) as [mrs' e']. cbn [fst] in H1.
  pose proof (shr_fexp_nonneg _ e' loc_Exact
                (round_nearest_even_nonneg _ (loc_of_shr_record mrs') H1))
    as H2.
  destruct (shr_fexp prec emax _ e' loc_Exact) as [mrs'' e''].
  cbn [fst] in H2.
  destruct (shr_m mrs'') as [|p|p]; [discriminate| |lia].
  destruct (e'' <=? emax - prec); discriminate.
Qed.

Lemma SFsqrt_core_nonneg (m : positive) (e : Z) :
  0 <= fst (fst (SFsqrt_core_binary prec emax (Z.pos m) e)).
Proof.
  unfold SFsqrt_core_binary. cbv zeta.
  set (s := e - 2 * _).
  set (m' := match s with 0 => Z.pos m | Z.pos _ => IntDef.Z.shiftl (Z.pos m) s
                     | Z.neg _ => 0 end).
  assert (Hm : 0 <= m').
  { unfold m'. destruct s; [lia| |lia].
    change IntDef.Z.shiftl with Z.shiftl. apply Z.shiftl_nonneg. lia. }
  pose proof (Z.sqrtrem_spec m' Hm) as H.
  change IntDef.Z.sqrtrem with Z.sqrtrem.
  destruct (Z.sqrtrem m') as [q r]. cbn [fst]. lia.
Qed.

Lemma SFdiv_core_nonneg (m1 m2 : positive) (e1 e2 : Z) :
  0 <= fst (fst (SFdiv_core_binary prec emax (Z.pos m1) e1 (Z.pos m2) e2)).
Proof.
  unfold SFdiv_core_binary. cbv zeta.
  set (s := e1 - e2 - _).
  set (m' := match s with 0 => Z.pos m1
                     | Z.pos _ => IntDef.Z.shiftl (Z.pos m1) s
                     | Z.neg _ => 0 end).
  assert (Hm : 0 <= m').
  { unfold m'. destruct s; [lia| |lia].
    change IntDef.Z.shiftl with Z.shiftl. apply Z.shiftl_nonneg. lia. }
  change IntDef.Z.div_eucl with Z.div_eucl.
  pose proof (Z.div_pos m' (Z.pos m2) Hm ltac:(lia)) as H.
  unfold Z.div in H.
  destruct (Z.div_eucl m' (Z.pos m2)) as [q r]. cbn [fst] in *. exact H.
Qed.

Lemma SF64sqrt_not_nan (D : spec_float) :
  D <> S754_nan -> SFltb D (S754_zero false) = false ->
  SF64sqrt D <> S754_nan.
Proof.
  intros HD Hlt. unfold SF64sqrt, SFsqrt.
  destruct D as [s|[|]| |[|] m e]; try congruence; try discriminate.
  pose proof (SFsqrt_core_nonneg m e) as H.
  destruct (SFsqrt_core_binary prec emax (Z.pos m) e) as [[mz ez] lz].
  cbn [fst] in H. apply binary_round_aux_not_nan. exact H.
Qed.

Lemma SF64div_one_not_nan (Y : spec_float) :
  Y <> S754_nan -> SF64div (Prim2SF 1%float) Y <> S754_nan.
Proof.
  intro HY.
  change (Prim2SF 1%float) with (S754_finite false 4503599627370496 (-52)).
  unfold SF64div, SFdiv.
  destruct Y as [s|s| |s m e]; try congruence; try discriminate.
  pose proof (SFdiv_core_nonneg 4503599627370496 m (-52) e) as H.
  destruct (SFdiv_core_binary prec emax _ _ _ _) as [[mz ez] lz].
  cbn [fst] in H. apply binary_round_aux_not_nan. exact H.
Qed.

(** [1 / sqrt d] is not a NaN when [d] is neither a NaN nor negative. *)
Lemma inverse_root_not_nan (d : float) :
  PrimFloat.is_nan d = false -> (d <? 0)%float = false ->
  PrimFloat.is_nan (abs (1 / PrimFloat.sqrt d)) = false.
Proof.
  intros Hd Hlt. apply is_nan_Prim2SF in Hd.
  rewrite FloatAxioms.ltb_spec in Hlt.
  change (Prim2SF 0%float) with (S754_zero false) in Hlt.
  apply is_nan_Prim2SF.
  rewrite abs_spec, div_spec, sqrt_spec.
  pose proof (SF64div_one_not_nan _ (SF64sqrt_not_nan _ Hd Hlt)) as H.
  destruct (SF64div _ _); try discriminate; congruence.
Qed.

(** C4 (as amended).  [Coordinates::jacobian] forms the determinant of the
    contravariant metric pointwise and tests the reductions [min(det)],
    [min(|J|)] and [min(g_22)].  On a mesh with a non-empty interior,
    when neither the determinant nor [g_22] is a NaN at a point [min]
    ranges over, it throws exactly when the determinant is negative at
    some such point, or [1/sqrt(det)] is not finite at some point of
    [RGN_NOBNDRY], or its magnitude is below [1e-10] at some point [min]
    ranges over, or [g_22] is negative at some such point.  Whenever it
    returns, [J = 1/sqrt(det)] and [Bxy = sqrt(g_22)/J]; for the identity
    metric it returns [J = 1]. *)
Theorem jacobian_fails_exactly (rgn : REGION) (c : @Coordinates float) :
  (mesh_wf (localmesh c) ->
   (forall x y, In (x, y) (region (localmesh c) rgn) ->
      PrimFloat.is_nan (det_at c x y) = false
      /\ PrimFloat.is_nan (g_22 c x y) = false) ->
   (succeeds (jacobian rgn c) = false <->
      (exists x y, In (x, y) (region (localmesh c) rgn)
                   /\ (det_at c x y <? r0)%B = true)
      \/ (exists x y, In (x, y) (region (localmesh c) RGN_NOBNDRY)
                      /\ rfinite (r1 / rsqrt (det_at c x y))%B = false)
      \/ (exists x y, In (x, y) (region (localmesh c) rgn)
                      /\ (rabs (r1 / rsqrt (det_at c x y)) <? r1em10)%B = true)
      \/ (exists x y, In (x, y) (region (localmesh c) rgn)
                      /\ (g_22 c x y <? r0)%B = true)))
  /\ (forall c', jacobian rgn c = Ok c' ->
        forall x y,
          J c' x y = (r1 / rsqrt (det_at c x y))%B
          /\ Bxy c' x y = (rsqrt (g_22 c x y) / J c' x y)%B)
  /\ (mesh_wf (localmesh c) ->
      identity_contravariant c -> identity_covariant c ->
        exists c', jacobian rgn c = Ok c'
                   /\ forall x y, on_grid (localmesh c) x y -> J c' x y = r1).
Proof.
  pose proof (jacobian_cases rgn c) as E. cbv zeta in E.
  split; [|split].
  - intros Hwf Hnan.
    pose proof (region_nonempty (localmesh c) rgn Hwf) as Hne.
    assert (Hdet : (min rgn (localmesh c) (jacobian_det c) <? r0)%B
                   = below (region (localmesh c) rgn) (jacobian_det c) r0).
    { apply min_over_decides; [exact Hne|].
      intros x y Hin. exact (proj1 (Hnan x y Hin)). }
    assert (Hg22 : (min rgn (localmesh c) (g_22 c) <? r0)%B
                   = below (region (localmesh c) rgn) (g_22 c) r0).
    { apply min_over_decides; [exact Hne|].
      intros x y Hin. exact (proj2 (Hnan x y Hin)). }
    assert (A1 : (exists x y, In (x, y) (region (localmesh c) rgn)
                              /\ (det_at c x y <? r0)%B = true)
                 <-> below (region (localmesh c) rgn) (jacobian_det c) r0 = true)
      by (symmetry; apply below_exists).
    assert (A2 : (exists x y, In (x, y) (region (localmesh c) RGN_NOBNDRY)
                              /\ rfinite (r1 / rsqrt (det_at c x y))%B = false)
                 <-> finite (localmesh c) (sdiv r1 (fsqrt (jacobian_det c)))
                       RGN_NOBNDRY = false)
      by (symmetry; apply finite_false_exists).
    assert (A3 : (exists x y, In (x, y) (region (localmesh c) rgn)
                    /\ (rabs (r1 / rsqrt (det_at c x y)) <? r1em10)%B = true)
                 <-> below (region (localmesh c) rgn)
                       (fabs (sdiv r1 (fsqrt (jacobian_det c)))) r1em10 = true)
      by (symmetry; apply below_exists).
    assert (A4 : (exists x y, In (x, y) (region (localmesh c) rgn)
                              /\ (g_22 c x y <? r0)%B = true)
                 <-> below (region (localmesh c) rgn) (g_22 c) r0 = true)
      by (symmetry; apply below_exists).
    rewrite E, Hdet, Hg22, A1, A2, A3, A4. clear E Hdet Hg22 A2 A3 A4.
    destruct (below (region (localmesh c) rgn) (jacobian_det c) r0) eqn:B1.
    { cbn [succeeds]. split; [intros _; left; reflexivity|reflexivity]. }
    assert (HJ : (min rgn (localmesh c)
                    (fabs (sdiv r1 (fsqrt (jacobian_det c)))) <? r1em10)%B
                 = below (region (localmesh c) rgn)
                     (fabs (sdiv r1 (fsqrt (jacobian_det c)))) r1em10).
    { apply min_over_decides; [exact Hne|].
      intros x y Hin.
      change (PrimFloat.is_nan
                (abs (1 / PrimFloat.sqrt (det_at c x y))) = false).
      apply inverse_root_not_nan; [exact (proj1 (Hnan x y Hin))|].
      destruct (det_at c x y <? 0)%float eqn:Hlt; [|reflexivity].
      exfalso.
      assert (B : false = true)
        by (apply A1; exists x, y; split; [exact Hin|exact Hlt]).
      discriminate B. }
    rewrite HJ. clear HJ A1 B1.
    set (b2 := finite (localmesh c) (sdiv r1 (fsqrt (jacobian_det c)))
                 RGN_NOBNDRY).
    set (b3 := below (region (localmesh c) rgn)
                 (fabs (sdiv r1 (fsqrt (jacobian_det c)))) r1em10).
    set (b4 := below (region (localmesh c) rgn) (g_22 c) r0).
    clearbody b2 b3 b4.
    destruct b2, b3, b4; cbn [negb succeeds]; split; intro H; auto 6;
      try discriminate H;
      destruct H as [H|[H|[H|H]]]; discriminate H.
  - intros c' Hc'. rewrite E in Hc'.
    repeat match type of Hc' with
           | (if ?b then _ else _) = _ => destruct b; [discriminate Hc'|]
           end.
    injection Hc' as <-. intros x y. split; reflexivity.
  - intros Hwf Hup Hlow.
    rewrite (jacobian_identity rgn c Hwf Hup (fun x y H => proj1 (proj2 (Hlow x y H)))).
    eexists. split; [reflexivity|].
    intros x y Hxy. cbn.
    change ((r1 / rsqrt (det_at c x y))%B = r1).
    rewrite (det_at_identity c x y (Hup x y Hxy)). reflexivity.
Qed.

Lemma mesh7_wf : mesh_wf mesh7.
Proof. unfold mesh_wf. cbn. lia. Qed.

Lemma jacobian_fails_exactly_witness :
  succeeds (jacobian RGN_NOBNDRY negative_det7) = false
  /\ exists c', jacobian RGN_NOBNDRY flat7 = Ok c'
                /\ forall x y, on_grid mesh7 x y -> J c' x y = r1.
Proof.
  split.
  - apply (proj1 (jacobian_fails_exactly RGN_NOBNDRY negative_det7)).
    + exact mesh7_wf.
    + intros x y Hin. apply in_region_nobndry in Hin. cbn in Hin.
      assert (Hx : x = 2 \/ x = 3 \/ x = 4) by lia.
      assert (Hy : y = 2 \/ y = 3 \/ y = 4) by lia.
      destruct Hx as [ -> | [ -> | -> ] ]; destruct Hy as [ -> | [ -> | -> ] ];
        split; vm_compute; reflexivity.
    + left. exists 3, 3. split; [apply in_region_nobndry; cbn; lia|].
      vm_compute. reflexivity.
  - apply (jacobian_fails_exactly RGN_NOBNDRY flat7).
    + exact mesh7_wf.
    + intros x y _. repeat split; reflexivity.
    + intros x y _. repeat split; reflexivity.
Defined.

(** C4, as stated, fails: a NaN hides a negative value from [min].  On
    [mesh7] with [g_22] not a number at the first point of
    [RGN_NOBNDRY] and [-1] at [(3, 3)], [g_22 < 0] holds at a point and
    [jacobian] returns. *)
Lemma jacobian_misses_negative_behind_NaN :
  In (3, 3) (region (localmesh hidden_negative7) RGN_NOBNDRY)
  /\ (g_22 hidden_negative7 3 3 <? r0)%B = true
  /\ succeeds (jacobian RGN_NOBNDRY hidden_negative7) = true.
Proof.
  split; [apply in_region_nobndry; cbn; lia|].
  split; vm_compute; reflexivity.
Qed.

(** ** Metric inversion *)

Section Inversion.

Context {T : Type} {ops : BoutRealOps T}.

Lemma calcCovariant_loop_ok (pts : list (Z * Z)) (c : @Coordinates T) :
  (forall x y, In (x, y) pts -> fst (invert3x3 (contravariant_at c x y)) = 0) ->
  exists n11 n22 n33 n12 n13 n23 : @Field2D T,
    calcCovariant_loop pts c = (0, set_covariant c n11 n22 n33 n12 n13 n23)
    /\ forall x y,
         (In (x, y) pts ->
            covariant_at (set_covariant c n11 n22 n33 n12 n13 n23) x y
            = (let a := snd (invert3x3 (contravariant_at c x y)) in
               symmetric (a00 a) (a11 a) (a22 a) (a01 a) (a02 a) (a12 a)))
         /\ (~ In (x, y) pts ->
             covariant_at (set_covariant c n11 n22 n33 n12 n13 n23) x y
             = covariant_at c x y).
Proof.
  revert c. induction pts as [|[jx jy] rest IH]; intros c Hok.
  - exists (g_11 c), (g_22 c), (g_33 c), (g_12 c), (g_13 c), (g_23 c).
    split; [destruct c; reflexivity|].
    intros x y. split; [intros []|reflexivity].
  - cbn [calcCovariant_loop].
    pose proof (Hok jx jy (or_introl eq_refl)) as H0.
    unfold contravariant_at in H0.
    destruct (invert3x3 (symmetric (g11 c jx jy) (g22 c jx jy) (g33 c jx jy)
                (g12 c jx jy) (g13 c jx jy) (g23 c jx jy))) as [err a] eqn:Ea.
    cbn [fst] in H0. subst err. cbn [Z.eqb negb].
    set (c1 := set_covariant c _ _ _ _ _ _).
    destruct (IH c1) as (n11 & n22 & n33 & n12 & n13 & n23 & Hrun & Hval).
    { intros x y Hin. apply (Hok x y). right. exact Hin. }
    exists n11, n22, n33, n12, n13, n23.
    split; [exact Hrun|].
    intros x y. specialize (Hval x y). destruct Hval as [Hin Hout].
    split.
    + intros [Hhd|Htl].
      * injection Hhd as -> ->.
        destruct (in_dec (fun p q : Z * Z => decide (p = q)) (x, y) rest)
          as [Hr|Hr].
        -- exact (Hin Hr).
        -- change (covariant_at (set_covariant c1 n11 n22 n33 n12 n13 n23) x y
                   = (let a := snd (invert3x3 (contravariant_at c x y)) in
                      symmetric (a00 a) (a11 a) (a22 a) (a01 a) (a02 a) (a12 a))).
           rewrite (Hout Hr). unfold contravariant_at. rewrite Ea.
           unfold covariant_at, c1. cbn.
           rewrite !Z.eqb_refl. reflexivity.
      * exact (Hin Htl).
    + intro Hn.
      change (covariant_at (set_covariant c1 n11 n22 n33 n12 n13 n23) x y
              = covariant_at c x y).
      rewrite Hout by (intro; apply Hn; right; assumption).
      unfold covariant_at, c1. cbn.
      assert (E : (x =? jx) && (y =? jy) = false).
      { destruct (Z.eqb_spec x jx), (Z.eqb_spec y jy); try reflexivity.
        subst. exfalso. apply Hn. left. reflexivity. }
      rewrite E. reflexivity.
Qed.


End Inversion.

(** *** In exact arithmetic *)







(** ** Flat space *)

Lemma geometry_connection_flat (c : @Coordinates float) (x y : Z) :
  (g11 c x y = r1 /\ g22 c x y = r1 /\ g33 c x y = r1 /\
   g12 c x y = r0 /\ g13 c x y = r0 /\ g23 c x y = r0) ->
  J c x y = r1 -> dx c x y = r1 -> dy c x y = r1 ->
  (forall f : @Field2D float,
     In f [g_11 c; g_22 c; g_33 c; g_12 c; g_13 c; g_23 c; g23 c;
           fmul (J c) (g11 c); fmul (J c) (g22 c); fmul (J c) (g33 c);
           fmul (J c) (g12 c); fmul (J c) (g13 c); fmul (J c) (g23 c)] ->
     indexDDX (localmesh c) f CELL_DEFAULT DIFF_DEFAULT RGN_NOBNDRY x y = r0
     /\ indexDDY (localmesh c) f CELL_DEFAULT DIFF_DEFAULT RGN_NOBNDRY x y = r0) ->
  connection_vanishes_at (geometry_connection c) x y.
Proof.
  intros (E11 & E22 & E33 & E12 & E13 & E23) EJ Edx Edy HD.
  destruct (HD (g_11 c) ltac:(simpl; tauto)) as [? ?].
  destruct (HD (g_22 c) ltac:(simpl; tauto)) as [? ?].
  destruct (HD (g_33 c) ltac:(simpl; tauto)) as [? ?].
  destruct (HD (g_12 c) ltac:(simpl; tauto)) as [? ?].
  destruct (HD (g_13 c) ltac:(simpl; tauto)) as [? ?].
  destruct (HD (g_23 c) ltac:(simpl; tauto)) as [? ?].
  destruct (HD (g23 c) ltac:(simpl; tauto)) as [? ?].
  destruct (HD (fmul (J c) (g11 c)) ltac:(simpl; tauto)) as [? ?].
  destruct (HD (fmul (J c) (g22 c)) ltac:(simpl; tauto)) as [? ?].
  destruct (HD (fmul (J c) (g33 c)) ltac:(simpl; tauto)) as [? ?].
  destruct (HD (fmul (J c) (g12 c)) ltac:(simpl; tauto)) as [? ?].
  destruct (HD (fmul (J c) (g13 c)) ltac:(simpl; tauto)) as [? ?].
  destruct (HD (fmul (J c) (g23 c)) ltac:(simpl; tauto)) as [? ?].
  clear HD.
  unfold connection_vanishes_at, geometry_connection. cbn.
  repeat match goal with H : _ = _ |- _ => rewrite H; clear H end.
  repeat split; reflexivity.
Qed.

Lemma geometry_checks_flat (rgn : REGION) (c : @Coordinates float) :
  mesh_wf (localmesh c) -> unit_spacing c ->
  identity_contravariant c -> identity_covariant c ->
  geometry_checks rgn c = Ok tt.
Proof.
  intros Hwf [Hsp Hdz] Hup Hlow. unfold geometry_checks. cbv zeta.
  assert (M : forall (f : @Field2D float) v,
            (forall x y, on_grid (localmesh c) x y -> f x y = v) ->
            min rgn (localmesh c) f = v)
    by (intros f v H; apply min_const_on_grid; assumption).
  assert (F : forall (f : @Field2D float) v, rfinite v = true ->
            (forall x y, on_grid (localmesh c) x y -> f x y = v) ->
            finite (localmesh c) f RGN_NOBNDRY = true).
  { intros f v Hv H. apply finite_on_grid; [assumption|].
    intros x y Hxy. rewrite (H x y Hxy). exact Hv. }
  rewrite (M (fabs (dx c)) r1), (M (fabs (dy c)) r1), Hdz.
  2:{ intros x y H. change (rabs (dy c x y) = r1).
      rewrite (proj2 (Hsp x y H)). reflexivity. }
  2:{ intros x y H. change (rabs (dx c x y) = r1).
      rewrite (proj1 (Hsp x y H)). reflexivity. }
  rewrite (M (g11 c) r1), (M (g22 c) r1), (M (g33 c) r1),
    (M (g_11 c) r1), (M (g_22 c) r1), (M (g_33 c) r1);
    try (intros x y H; first [apply (Hup x y H) | apply (Hlow x y H)]).
  rewrite (F (g11 c) r1), (F (g22 c) r1), (F (g33 c) r1),
    (F (g12 c) r0), (F (g13 c) r0), (F (g23 c) r0),
    (F (g_11 c) r1), (F (g_22 c) r1), (F (g_33 c) r1),
    (F (g_12 c) r0), (F (g_13 c) r0), (F (g_23 c) r0);
    try reflexivity;
    try (intros x y H; first [apply (Hup x y H) | apply (Hlow x y H)]).
Qed.

Lemma calcCovariant_flat (c : @Coordinates float) :
  identity_contravariant c ->
  exists n11 n22 n33 n12 n13 n23 : @Field2D float,
    calcCovariant c
    = (0, set_covariant c n11 n22 n33 n12 n13 n23)
    /\ identity_covariant (set_covariant c n11 n22 n33 n12 n13 n23).
Proof.
  intro Hup. unfold calcCovariant. cbv zeta.
  set (c0 := set_covariant c _ _ _ _ _ _).
  assert (Hinv : forall x y, on_grid (localmesh c) x y ->
            invert3x3 (contravariant_at c0 x y)
            = (0, symmetric r1 r1 r1 r0 r0 r0)).
  { intros x y Hxy. unfold contravariant_at. cbn.
    destruct (Hup x y Hxy) as (-> & -> & -> & -> & -> & ->). reflexivity. }
  destruct (calcCovariant_loop_ok (region (localmesh c0) RGN_ALL) c0)
    as (n11 & n22 & n33 & n12 & n13 & n23 & Hrun & Hval).
  { intros x y Hin. apply in_region_all in Hin. rewrite (Hinv x y Hin).
    reflexivity. }
  exists n11, n22, n33, n12, n13, n23. split; [exact Hrun|].
  intros x y Hxy.
  pose proof (proj1 (Hval x y) (proj2 (in_region_all (localmesh c0) x y) Hxy))
    as E.
  rewrite (Hinv x y Hxy) in E. cbn in E. unfold covariant_at, symmetric in E.
  cbn in E. injection E as E11 E12 E13 _ E22 E23 _ _ E33.
  cbn. repeat split; assumption.
Qed.

(** C8.  For the flat metric [g^ij = delta^ij] over the grid with
    [dx = dy = dz = 1], the construction of the geometry (covariant
    components, Jacobian, connection coefficients) succeeds; at every grid
    point [J = 1], [Bxy = 1], and the 18 coefficients [Gk_ij] and the 3
    contracted terms [G1], [G2], [G3] are zero.  The differencing engine is
    taken to annihilate constant fields and the halo exchange to return a
    zero field as it is. *)
Theorem flat_space_geometry (rgn : REGION) (c : @Coordinates float) :
  mesh_wf (localmesh c) ->
  identity_contravariant c ->
  unit_spacing c ->
  annihilates_constants (localmesh c) ->
  exchange_keeps_zero (localmesh c) ->
  exists c',
    derive_geometry rgn c = Ok c'
    /\ forall x y, on_grid (localmesh c) x y ->
         J c' x y = r1 /\ Bxy c' x y = r1 /\ connection_vanishes_at c' x y.
Proof.
  intros Hwf Hup Hsp Hann Hcomm.
  destruct (calcCovariant_flat c Hup)
    as (n11 & n22 & n33 & n12 & n13 & n23 & Hrun & Hlow).
  unfold derive_geometry. rewrite Hrun. cbn [Z.eqb negb].
  set (c1 := set_covariant c n11 n22 n33 n12 n13 n23) in *.
  assert (Hup1 : identity_contravariant c1) by exact Hup.
  rewrite (jacobian_identity rgn c1 Hwf Hup1
             (fun x y H => proj1 (proj2 (Hlow x y H)))).
  cbn [rbind].
  set (c2 := set_J_Bxy c1 _ _).
  assert (HJ : forall x y, on_grid (localmesh c) x y -> J c2 x y = r1).
  { intros x y Hxy. change ((r1 / rsqrt (det_at c1 x y))%B = r1).
    rewrite (det_at_identity c1 x y (Hup1 x y Hxy)). reflexivity. }
  assert (HB : forall x y, on_grid (localmesh c) x y -> Bxy c2 x y = r1).
  { intros x y Hxy.
    change ((rsqrt (g_22 c1 x y) / J c2 x y)%B = r1).
    rewrite (HJ x y Hxy), (proj1 (proj2 (Hlow x y Hxy))). reflexivity. }
  unfold geometry.
  rewrite (geometry_checks_flat rgn c2 Hwf Hsp Hup1 Hlow). cbn [rbind].
  assert (Hconn : forall x y, on_grid (localmesh c) x y ->
            connection_vanishes_at (geometry_connection c2) x y).
  { intros x y Hxy. apply geometry_connection_flat.
    - exact (Hup1 x y Hxy).
    - exact (HJ x y Hxy).
    - exact (proj1 (proj1 Hsp x y Hxy)).
    - exact (proj2 (proj1 Hsp x y Hxy)).
    - assert (K : forall (f : @Field2D float) v, v = r0 \/ v = r1 ->
                (forall x y, on_grid (localmesh c) x y -> f x y = v) ->
                indexDDX (localmesh c2) f CELL_DEFAULT DIFF_DEFAULT RGN_NOBNDRY
                  x y = r0
                /\ indexDDY (localmesh c2) f CELL_DEFAULT DIFF_DEFAULT
                     RGN_NOBNDRY x y = r0)
        by (intros f v Hv Hc; exact (Hann f v Hv Hc x y Hxy)).
      assert (P : forall (g : @Field2D float) v, v = r0 \/ v = r1 ->
                (forall x y, on_grid (localmesh c) x y -> g x y = v) ->
                forall x y, on_grid (localmesh c) x y ->
                  fmul (J c2) g x y = v).
      { intros g v Hcase Hg x' y' H'.
        change ((J c2 x' y' * g x' y')%B = v).
        rewrite (HJ x' y' H'), (Hg x' y' H').
        change (PrimFloat.mul 1 v = v).
        destruct Hcase as [-> | ->]; reflexivity. }
      intros f Hf. cbn [In] in Hf.
      destruct Hf as [<-|[<-|[<-|[<-|[<-|[<-|[<-|Hf]]]]]]].
      1-3: apply (K _ r1); [right; reflexivity|];
           intros x' y' H'; apply (Hlow x' y' H').
      1-3: apply (K _ r0); [left; reflexivity|];
           intros x' y' H'; apply (Hlow x' y' H').
      1: apply (K _ r0); [left; reflexivity|];
         intros x' y' H'; apply (Hup1 x' y' H').
      destruct Hf as [<-|[<-|[<-|[<-|[<-|[<-|[]]]]]]].
      1-3: apply (K _ r1); [right; reflexivity|];
           apply P; [right; reflexivity|];
           intros x' y' H'; apply (Hup1 x' y' H').
      1-3: apply (K _ r0); [left; reflexivity|];
           apply P; [left; reflexivity|];
           intros x' y' H'; apply (Hup1 x' y' H'). }
  eexists. split; [reflexivity|].
  intros x y Hxy. split; [exact (HJ x y Hxy)|]. split; [exact (HB x y Hxy)|].
  unfold connection_vanishes_at.
  cbn [geometry_non_uniform geometry_communicate set_non_uniform set_connection
       G1_11 G1_22 G1_33 G1_12 G1_13 G1_23 G2_11 G2_22 G2_33 G2_12 G2_13 G2_23
       G3_11 G3_22 G3_33 G3_12 G3_13 G3_23 G1 G2 G3 localmesh].
  repeat split;
    (apply Hcomm; [|exact Hxy]; intros x' y' H'; apply (Hconn x' y' H')).
Qed.

Lemma mesh7_annihilates_constants : annihilates_constants mesh7.
Proof.
  intros f v Hv Hf x y Hxy. cbn.
  change (7 - 2 - 1) with 4.
  destruct (inside 2 4 2 4 x y) eqn:E; [|split; reflexivity].
  unfold inside in E. unfold on_grid in *. cbn in Hxy, Hf.
  rewrite !(Hf (x + 1) y), !(Hf (x - 1) y), !(Hf x (y + 1)), !(Hf x (y - 1))
    by lia.
  destruct Hv as [-> | ->]; split; reflexivity.
Qed.

Lemma flat_space_geometry_witness :
  mesh_wf (localmesh (flat_input mesh7))
  /\ identity_contravariant (flat_input mesh7)
  /\ unit_spacing (flat_input mesh7)
  /\ annihilates_constants (localmesh (flat_input mesh7))
  /\ exchange_keeps_zero (localmesh (flat_input mesh7))
  /\ exists c',
       derive_geometry RGN_NOBNDRY (flat_input mesh7) = Ok c'
       /\ forall x y, on_grid mesh7 x y ->
            J c' x y = r1 /\ Bxy c' x y = r1 /\ connection_vanishes_at c' x y.
Proof.
  assert (H1 : mesh_wf (localmesh (flat_input mesh7))) by exact mesh7_wf.
  assert (H2 : identity_contravariant (flat_input mesh7))
    by (intros x y _; repeat split; reflexivity).
  assert (H3 : unit_spacing (flat_input mesh7))
    by (split; [intros x y _; split; reflexivity | reflexivity]).
  assert (H4 : annihilates_constants (localmesh (flat_input mesh7)))
    by exact mesh7_annihilates_constants.
  assert (H5 : exchange_keeps_zero (localmesh (flat_input mesh7)))
    by (intros f Hf x y Hxy; exact (Hf x y Hxy)).
  repeat (split; [assumption|]).
  exact (flat_space_geometry RGN_NOBNDRY (flat_input mesh7) H1 H2 H3 H4 H5).
Defined.

(** ** Connection coefficients *)

Ltac abstract_quotients :=
  repeat match goal with
         | |- context [Rdiv ?a ?b] =>
             let q := fresh "q" in
             generalize (Rdiv a b); intro q
         end.

(** In exact arithmetic the assignments of lines 670-726 are the closed
    form for every coefficient but [G2_22]. *)
Lemma connection_closed_form_exact (c : @Coordinates R) (k i j : Idx)
    (x y : Z) :
  (k, i, j) <> (I2, I2, I2) ->
  stored (geometry_connection c) k i j x y = christoffel c k i j x y.
Proof.
  intro Hne.
  destruct k, i, j; try (exfalso; apply Hne; reflexivity);
    unfold christoffel, christoffel_term; cbn;
    replace (1 / 2)%R with (/ 2)%R by lra;
    abstract_quotients; field.
Qed.

(** [G2_22] departs from it by [g23 * (DDY(g23) - DDY(g_23))]. *)
Lemma G2_22_discrepancy_exact (c : @Coordinates R) (x y : Z) :
  G2_22 (geometry_connection c) x y
  = (christoffel c I2 I2 I2 x y
     + g23 c x y * (DDY_ c (g23 c) x y - DDY_ c (g_23 c) x y))%R.
Proof.
  unfold christoffel, christoffel_term; cbn.
  replace (1 / 2)%R with (/ 2)%R by lra.
  abstract_quotients. field.
Qed.

(** A property of the value a computation returns, read off the
    computation. *)
Lemma via_result {A B} (r : Result A) (a : A) (f g : A -> B) (d : B) :
  r = Ok a ->
  match r with Ok c => f c | Throw _ => d end
  = match r with Ok c => g c | Throw _ => d end ->
  f a = g a.
Proof. intros -> H. exact H. Qed.

(** C1.  On the sheared metric of [mesh7] the geometry is constructed, and
    at the interior point (3, 3) the stored [G2_22] is positive while the
    closed form [Gamma^2_22] is negative; the 17 other stored coefficients
    equal their closed forms there. *)
Theorem G2_22_departs_from_closed_form :
  exists c',
    derive_geometry RGN_NOBNDRY (sheared_input mesh7) = Ok c'
    /\ (r0 <? G2_22 c' 3 3)%B = true
    /\ (christoffel c' I2 I2 I2 3 3 <? r0)%B = true
    /\ forall k i j, (k, i, j) <> (I2, I2, I2) ->
         stored c' k i j 3 3 = christoffel c' k i j 3 3.
Proof.
  destruct (derive_geometry RGN_NOBNDRY (sheared_input mesh7)) as [c'|e] eqn:E.
  2:{ exfalso.
      apply (f_equal succeeds) in E. vm_compute in E. discriminate E. }
  exists c'. split; [reflexivity|].
  split; [|split].
  - apply (via_result _ _ (fun c => (r0 <? G2_22 c 3 3)%B) (fun _ => true)
             false E).
    vm_compute. reflexivity.
  - apply (via_result _ _ (fun c => (christoffel c I2 I2 I2 3 3 <? r0)%B)
             (fun _ => true) false E).
    vm_compute. reflexivity.
  - intros k i j Hne.
    apply (via_result _ _ (fun c => stored c k i j 3 3)
             (fun c => christoffel c k i j 3 3) r0 E).
    destruct k, i, j; try (exfalso; apply Hne; reflexivity);
      vm_compute; reflexivity.
Qed.

(** ** Guard cells at a domain boundary *)

Lemma range_snoc (lo hi : Z) :
  lo <= hi -> range lo (hi + 1) = (range lo hi ++ [hi])%list.
Proof.
  intro H. unfold range.
  replace (Z.to_nat (hi + 1 - lo)) with (Z.to_nat (hi - lo) + 1)%nat by lia.
  rewrite seq_app, map_app. cbn [seq map]. do 2 f_equal. lia.
Qed.

Section Extrapolation.

Context {T : Type} {ops : BoutRealOps T}.

Lemma assign_same (f : @Field2D T) (x y : Z) (v : T) : assign f x y v x y = v.
Proof. cbn. rewrite !Z.eqb_refl. reflexivity. Qed.

Lemma assign_other (f : @Field2D T) (x y : Z) (v : T) (x' y' : Z) :
  (x', y') <> (x, y) -> assign f x y v x' y' = f x' y'.
Proof.
  intro H. cbn.
  destruct (Z.eqb_spec x' x), (Z.eqb_spec y' y); try reflexivity.
  subst. exfalso. apply H. reflexivity.
Qed.

(** The layers along the normal of [b] through [(x, y)] are distinct
    cells. *)
Lemma layers_distinct (b : BoundaryRegion) (x y i j : Z) :
  (bndry_bx b, bndry_by b) <> (0, 0) -> i <> j ->
  (x + i * bndry_bx b, y + i * bndry_by b)
  <> (x + j * bndry_bx b, y + j * bndry_by b).
Proof.
  intros Hb Hij E. injection E as Ex Ey.
  assert (Hx : (i - j) * bndry_bx b = 0) by lia.
  assert (Hy : (i - j) * bndry_by b = 0) by lia.
  apply Hb. f_equal; nia.
Qed.

Lemma at_layer_assign (r : @Field2D T) (b : BoundaryRegion) (x y k i : Z)
    (v : T) :
  (bndry_bx b, bndry_by b) <> (0, 0) ->
  at_layer (assign r (x + k * bndry_bx b) (y + k * bndry_by b) v) b x y i
  = if i =? k then v else at_layer r b x y i.
Proof.
  intro Hb. unfold at_layer. destruct (Z.eqb_spec i k) as [->|Hne].
  - apply assign_same.
  - apply assign_other. apply layers_distinct; assumption.
Qed.

Lemma extrapolate_cubic_step_eq (b : BoundaryRegion) (x y k : Z)
    (r : @Field2D T) :
  extrapolate_cubic_step b x y r k
  = assign r (x + k * bndry_bx b) (y + k * bndry_by b)
      (r3 * at_layer r b x y (k - 1) - r3 * at_layer r b x y (k - 2)
       + at_layer r b x y (k - 3))%B.
Proof.
  unfold extrapolate_cubic_step, at_layer. cbv zeta.
  replace (x + k * bndry_bx b - bndry_bx b) with (x + (k - 1) * bndry_bx b)
    by lia.
  replace (y + k * bndry_by b - bndry_by b) with (y + (k - 1) * bndry_by b)
    by lia.
  replace (x + k * bndry_bx b - 2 * bndry_bx b)
    with (x + (k - 2) * bndry_bx b) by lia.
  replace (y + k * bndry_by b - 2 * bndry_by b)
    with (y + (k - 2) * bndry_by b) by lia.
  replace (x + k * bndry_bx b - 3 * bndry_bx b)
    with (x + (k - 3) * bndry_bx b) by lia.
  replace (y + k * bndry_by b - 3 * bndry_by b)
    with (y + (k - 3) * bndry_by b) by lia.
  reflexivity.
Qed.

(** The cubic rule holds in the field the loop of lines 81-85 leaves. *)
Lemma extrapolate_cubic_spec (b : BoundaryRegion) (x y s : Z) (n : nat)
    (result : @Field2D T) :
  (bndry_bx b, bndry_by b) <> (0, 0) ->
  (forall i, s <= i < s + Z.of_nat n ->
     cubic_rule (fold_left (extrapolate_cubic_step b x y)
                           (range s (s + Z.of_nat n)) result) b x y i)
  /\ (forall i, i < s ->
        at_layer (fold_left (extrapolate_cubic_step b x y)
                            (range s (s + Z.of_nat n)) result) b x y i
        = at_layer result b x y i).
Proof.
  intro Hb. induction n as [|n IH].
  - rewrite Z.add_0_r, range_nil by lia. cbn. split; [lia|auto].
  - replace (s + Z.of_nat (S n)) with (s + Z.of_nat n + 1) by lia.
    rewrite range_snoc by lia. rewrite fold_left_app. cbn [fold_left].
    set (r := fold_left _ _ result) in *.
    destruct IH as [IH1 IH2].
    rewrite extrapolate_cubic_step_eq.
    split.
    + intros i Hi. unfold cubic_rule.
      rewrite !at_layer_assign by exact Hb.
      destruct (Z.eqb_spec (i - 1) (s + Z.of_nat n)); [lia|].
      destruct (Z.eqb_spec (i - 2) (s + Z.of_nat n)); [lia|].
      destruct (Z.eqb_spec (i - 3) (s + Z.of_nat n)); [lia|].
      destruct (Z.eqb_spec i (s + Z.of_nat n)) as [->|Hne].
      * reflexivity.
      * apply IH1. lia.
    + intros i Hi. rewrite at_layer_assign by exact Hb.
      destruct (Z.eqb_spec i (s + Z.of_nat n)); [lia|].
      apply IH2. exact Hi.
Qed.

Lemma extrapolate_constant_step_eq (b : BoundaryRegion) (x y k : Z)
    (r : @Field2D T) :
  extrapolate_constant_step b x y r k
  = assign r (x + k * bndry_bx b) (y + k * bndry_by b) (at_layer r b x y (-1)).
Proof.
  unfold extrapolate_constant_step, at_layer. cbv zeta.
  replace (x + -1 * bndry_bx b) with (x - bndry_bx b) by lia.
  replace (y + -1 * bndry_by b) with (y - bndry_by b) by lia.
  reflexivity.
Qed.

(** The loop of lines 88-90 repeats the value of layer -1. *)
Lemma extrapolate_constant_spec (b : BoundaryRegion) (x y s : Z) (n : nat)
    (result : @Field2D T) :
  0 <= s ->
  (forall i, s <= i < s + Z.of_nat n ->
     at_layer (fold_left (extrapolate_constant_step b x y)
                         (range s (s + Z.of_nat n)) result) b x y i
     = at_layer result b x y (-1))
  /\ at_layer (fold_left (extrapolate_constant_step b x y)
                         (range s (s + Z.of_nat n)) result) b x y (-1)
     = at_layer result b x y (-1).
Proof.
  intro Hs. induction n as [|n IH].
  - rewrite Z.add_0_r, range_nil by lia. cbn. split; [lia|reflexivity].
  - replace (s + Z.of_nat (S n)) with (s + Z.of_nat n + 1) by lia.
    rewrite range_snoc by lia. rewrite fold_left_app. cbn [fold_left].
    set (r := fold_left _ _ result) in *.
    destruct IH as [IH1 IH2].
    rewrite extrapolate_constant_step_eq, IH2.
    assert (A : forall i,
              at_layer (assign r (x + (s + Z.of_nat n) * bndry_bx b)
                          (y + (s + Z.of_nat n) * bndry_by b)
                          (at_layer result b x y (-1))) b x y i
              = at_layer result b x y (-1)
              \/ at_layer (assign r (x + (s + Z.of_nat n) * bndry_bx b)
                             (y + (s + Z.of_nat n) * bndry_by b)
                             (at_layer result b x y (-1))) b x y i
                 = at_layer r b x y i).
    { intro i. unfold at_layer at 1 3. cbn.
      destruct (_ && _); [left|right]; reflexivity. }
    split.
    + intros i Hi.
      destruct (Z.eq_dec i (s + Z.of_nat n)) as [->|Hne].
      * unfold at_layer at 1. apply assign_same.
      * destruct (A i) as [E|E]; [exact E|]. rewrite E. apply IH1. lia.
    + destruct (A (-1)) as [E|E]; [exact E|]. rewrite E. exact IH2.
Qed.

End Extrapolation.

Lemma range_as_nat (s w : Z) : range s w = range s (s + Z.of_nat (Z.to_nat (w - s))).
Proof.
  destruct (Z_lt_le_dec s w).
  - f_equal. lia.
  - rewrite !range_nil by lia. reflexivity.
Qed.

Section BoundaryPolicy.

Context {T : Type} {ops : BoutRealOps T}.

Lemma extrap_start_matches (loc : CELL_LOC) (b : BoundaryRegion) :
  offset_matches loc b -> extrap_start loc b = 1.
Proof.
  unfold extrap_start. intros [[-> H]|[-> H]].
  - cbn. destruct (Z.gtb_spec (bndry_bx b) 0); [reflexivity|lia].
  - cbn. destruct (Z.gtb_spec (bndry_by b) 0); [reflexivity|lia].
Qed.

Lemma extrap_start_range (loc : CELL_LOC) (b : BoundaryRegion) :
  extrap_start loc b = 0 \/ extrap_start loc b = 1.
Proof.
  unfold extrap_start.
  destruct (_ && _); [right; reflexivity|].
  destruct (_ && _); [right|left]; reflexivity.
Qed.

Lemma extrap_start_normal (loc : CELL_LOC) (b : BoundaryRegion) :
  extrap_start loc b = 1 -> (bndry_bx b, bndry_by b) <> (0, 0).
Proof.
  unfold extrap_start. intros H E. injection E as Ex Ey.
  rewrite Ex, Ey in H. cbn in H. rewrite !andb_false_r in H. discriminate H.
Qed.

Lemma enough_points_normal (m : @Mesh T) (b : BoundaryRegion) :
  enough_points m b = true -> (bndry_bx b, bndry_by b) <> (0, 0).
Proof.
  unfold enough_points. intros H E. injection E as Ex Ey.
  rewrite Ex, Ey in H. cbn in H. discriminate H.
Qed.

Lemma interpolate_bndry_point_eq (f result : @Field2D T) (b : BoundaryRegion)
    (x y : Z) :
  interpolate_bndry_point f result b x y
  = assign result (x + 0 * bndry_bx b) (y + 0 * bndry_by b)
      (four_point_average f b x y).
Proof.
  unfold interpolate_bndry_point, four_point_average, at_layer. cbv zeta.
  replace (x + 0 * bndry_bx b) with x by lia.
  replace (y + 0 * bndry_by b) with y by lia.
  replace (x + -1 * bndry_bx b) with (x - bndry_bx b) by lia.
  replace (y + -1 * bndry_by b) with (y - bndry_by b) by lia.
  replace (x + -2 * bndry_bx b) with (x - 2 * bndry_bx b) by lia.
  replace (y + -2 * bndry_by b) with (y - 2 * bndry_by b) by lia.
  replace (x + 1 * bndry_bx b) with (x + bndry_bx b) by lia.
  replace (y + 1 * bndry_by b) with (y + bndry_by b) by lia.
  reflexivity.
Qed.

(** The three outcomes of lines 66-91, by the tests that select them. *)
Lemma extrapolate_at_cases (m : @Mesh T) (loc : CELL_LOC) (f : @Field2D T)
    (b : BoundaryRegion) (result : @Field2D T) (x y : Z) :
  let start := extrap_start loc b in
  let result' :=
    if start >? 0 then interpolate_bndry_point f result b x y else result in
  (enough_points m b = false ->
     extrapolate_at m loc f b result (x, y)
     = Ok (fold_left (extrapolate_constant_step b x y)
                     (range start (bndry_width b)) result'))
  /\ (enough_points m b = true -> single_point_x m b ->
        extrapolate_at m loc f b result (x, y) = Throw not_enough_x)
  /\ (enough_points m b = true -> ~ single_point_x m b ->
        single_point_y m b ->
        extrapolate_at m loc f b result (x, y) = Throw not_enough_y)
  /\ (enough_points m b = true -> ~ single_point_x m b ->
        ~ single_point_y m b ->
        extrapolate_at m loc f b result (x, y)
        = Ok (fold_left (extrapolate_cubic_step b x y)
                        (range start (bndry_width b)) result')).
Proof.
  cbv zeta. unfold extrapolate_at, single_point_x, single_point_y.
  destruct (enough_points m b).
  2:{ repeat split; intro; try discriminate; reflexivity. }
  destruct (Z.eqb_spec (bndry_bx b) 0), (Z.eqb_spec (LocalNx m) 1),
    (Z.eqb_spec (bndry_width b) 1), (Z.eqb_spec (bndry_by b) 0),
    (Z.eqb_spec (LocalNy m) 1); cbn [negb andb];
    repeat split; intros; try discriminate; try reflexivity;
    exfalso; intuition lia.
Qed.

End BoundaryPolicy.

Section NarrowGrid.

Context {T : Type} {ops : BoutRealOps T}.

(** The loop of lines 88-90 leaves the layers below its first one. *)
Lemma extrapolate_constant_frame (b : BoundaryRegion) (x y s : Z) (n : nat)
    (result : @Field2D T) (i : Z) :
  (bndry_bx b, bndry_by b) <> (0, 0) -> i < s ->
  at_layer (fold_left (extrapolate_constant_step b x y)
                      (range s (s + Z.of_nat n)) result) b x y i
  = at_layer result b x y i.
Proof.
  intros Hb Hi. induction n as [|n IH].
  - rewrite Z.add_0_r, range_nil by lia. reflexivity.
  - replace (s + Z.of_nat (S n)) with (s + Z.of_nat n + 1) by lia.
    rewrite range_snoc by lia. rewrite fold_left_app. cbn [fold_left].
    rewrite extrapolate_constant_step_eq, at_layer_assign by exact Hb.
    destruct (Z.eqb_spec i (s + Z.of_nat n)); [lia|exact IH].
Qed.

End NarrowGrid.

(** C7.  At a position of a domain boundary whose normal is the offset
    direction of the staggered target (outer x for [CELL_XLOW], upper y
    for [CELL_YLOW]), whenever the call returns: the position itself holds
    the four-point average [(9 (a + b) - c - d) / 16] of the source
    field, on every grid; and every further guard layer [n] obeys
    [result[n] = 3 result[n-1] - 3 result[n-2] + result[n-3]] when the
    grid has at least 3 points beyond the two boundary widths along the
    normal, the case that is left to the cubic rule. *)
Theorem boundary_point_then_cubic {T} {ops : BoutRealOps T} (m : @Mesh T)
    (loc : CELL_LOC) (f : @Field2D T) (b : BoundaryRegion)
    (result : @Field2D T) (x y : Z) (r : @Field2D T) :
  offset_matches loc b ->
  extrapolate_at m loc f b result (x, y) = Ok r ->
  at_layer r b x y 0 = four_point_average f b x y
  /\ (enough_points m b = true ->
      forall n, 1 <= n < bndry_width b -> cubic_rule r b x y n).
Proof.
  intros Hm Hr.
  pose proof (extrap_start_matches loc b Hm) as Hs.
  pose proof (extrap_start_normal loc b Hs) as Hb.
  destruct (extrapolate_at_cases m loc f b result x y)
    as (Hn & Hx & Hy & Hc). cbv zeta in *.
  rewrite Hs in Hn, Hc. change (1 >? 0) with true in Hn, Hc. cbv iota in Hn, Hc.
  assert (H0 : at_layer (interpolate_bndry_point f result b x y) b x y 0
               = four_point_average f b x y).
  { rewrite interpolate_bndry_point_eq. unfold at_layer at 1.
    apply assign_same. }
  destruct (enough_points m b) eqn:He.
  - destruct (decide (bndry_bx b <> 0 /\ LocalNx m = 1 /\ bndry_width b = 1))
      as [Sx|Sx]; [rewrite (Hx eq_refl Sx) in Hr; discriminate Hr|].
    destruct (decide (bndry_by b <> 0 /\ LocalNy m = 1 /\ bndry_width b = 1))
      as [Sy|Sy]; [rewrite (Hy eq_refl Sx Sy) in Hr; discriminate Hr|].
    rewrite (Hc eq_refl Sx Sy) in Hr. injection Hr as <-.
    rewrite range_as_nat.
    destruct (extrapolate_cubic_spec b x y 1 (Z.to_nat (bndry_width b - 1))
                (interpolate_bndry_point f result b x y) Hb) as [H1 H2].
    split.
    + rewrite (H2 0) by lia. exact H0.
    + intros _ n Hn'. apply H1. lia.
  - rewrite (Hn eq_refl) in Hr. injection Hr as <-.
    split; [|discriminate].
    rewrite range_as_nat.
    rewrite extrapolate_constant_frame by (first [exact Hb|lia]).
    exact H0.
Qed.

(** C5 (as amended).  The fill of the guard layers at a boundary position
    is selected by the global grid: with fewer than 3 global points beyond
    the two boundary widths along the normal, every layer repeats the last
    interior value and nothing is thrown; otherwise the not-enough-points
    error is thrown when the local grid has a single point along the normal
    and the boundary width is 1, and the cubic rule fills the layers in
    every other case. *)
Theorem guard_fill_policy {T} {ops : BoutRealOps T} (m : @Mesh T)
    (loc : CELL_LOC) (f : @Field2D T) (b : BoundaryRegion)
    (result : @Field2D T) (x y : Z) :
  (enough_points m b = false ->
     exists r, extrapolate_at m loc f b result (x, y) = Ok r
       /\ forall n, extrap_start loc b <= n < bndry_width b ->
            at_layer r b x y n = at_layer r b x y (-1))
  /\ (enough_points m b = true ->
        (single_point_x m b ->
           extrapolate_at m loc f b result (x, y) = Throw not_enough_x)
        /\ (~ single_point_x m b -> single_point_y m b ->
              extrapolate_at m loc f b result (x, y) = Throw not_enough_y)
        /\ (~ single_point_x m b -> ~ single_point_y m b ->
              exists r, extrapolate_at m loc f b result (x, y) = Ok r
                /\ forall n, extrap_start loc b <= n < bndry_width b ->
                     cubic_rule r b x y n)).
Proof.
  destruct (extrapolate_at_cases m loc f b result x y)
    as (Hk & Hx & Hy & Hc). cbv zeta in *.
  split.
  - intro He. eexists. split; [exact (Hk He)|].
    rewrite range_as_nat.
    destruct (extrapolate_constant_spec b x y (extrap_start loc b)
                (Z.to_nat (bndry_width b - extrap_start loc b))
                (if extrap_start loc b >? 0
                 then interpolate_bndry_point f result b x y else result))
      as [H1 H2].
    { destruct (extrap_start_range loc b) as [-> | ->]; lia. }
    intros n Hn. rewrite H2. apply H1. lia.
  - intro He. split; [exact (Hx He)|]. split; [exact (Hy He)|].
    intros Sx Sy. eexists. split; [exact (Hc He Sx Sy)|].
    rewrite range_as_nat.
    destruct (extrapolate_cubic_spec b x y (extrap_start loc b)
                (Z.to_nat (bndry_width b - extrap_start loc b))
                (if extrap_start loc b >? 0
                 then interpolate_bndry_point f result b x y else result)
                (enough_points_normal m b He)) as [H1 _].
    intros n Hn. apply H1. lia.
Qed.

Lemma boundary_point_then_cubic_witness :
  offset_matches CELL_XLOW (outer_x mesh7)
  /\ (exists r,
        extrapolate_at mesh7 CELL_XLOW xcube (outer_x mesh7) xcube (5, 3)
        = Ok r
        /\ at_layer r (outer_x mesh7) 5 3 0
           = four_point_average xcube (outer_x mesh7) 5 3
        /\ cubic_rule r (outer_x mesh7) 5 3 1)
  /\ (exists r,
        extrapolate_at mesh6 CELL_XLOW xcube (outer_x mesh6) xcube (4, 3)
        = Ok r
        /\ at_layer r (outer_x mesh6) 4 3 0
           = four_point_average xcube (outer_x mesh6) 4 3).
Proof.
  assert (H1 : offset_matches CELL_XLOW (outer_x mesh7))
    by (left; split; [reflexivity | cbn; lia]).
  assert (H2 : offset_matches CELL_XLOW (outer_x mesh6))
    by (left; split; [reflexivity | cbn; lia]).
  split; [exact H1|]. split.
  - eexists. split; [reflexivity|].
    destruct (boundary_point_then_cubic mesh7 CELL_XLOW xcube (outer_x mesh7)
                xcube 5 3 _ H1 eq_refl) as [Ha Hc].
    split; [exact Ha|]. apply Hc; [reflexivity|cbn; lia].
  - eexists. split; [reflexivity|].
    exact (proj1 (boundary_point_then_cubic mesh6 CELL_XLOW xcube
                    (outer_x mesh6) xcube 4 3 _ H2 eq_refl)).
Defined.

Lemma guard_fill_policy_witness :
  enough_points (strip_mesh 4 1) strip_inner_x = false
  /\ exists r,
       extrapolate_at (strip_mesh 4 1) CELL_CENTRE xcube strip_inner_x xcube
         (0, 2) = Ok r
       /\ at_layer r strip_inner_x 0 2 0 = at_layer r strip_inner_x 0 2 (-1).
Proof.
  assert (H : enough_points (strip_mesh 4 1) strip_inner_x = false)
    by reflexivity.
  split; [exact H|].
  destruct (proj1 (guard_fill_policy (strip_mesh 4 1) CELL_CENTRE xcube
                     strip_inner_x xcube 0 2) H) as (r & Hr & Hn).
  exists r. split; [exact Hr|]. apply Hn. cbn. lia.
Defined.

(** C5, as stated, fails on a decomposed domain: a processor with 2
    interior points in x (fewer than 3) of a grid with 6 has its inner-x
    guard cell filled by the cubic rule, not by the last interior value;
    and a processor with no interior point in x raises no error. *)
Lemma constant_fill_is_not_per_processor :
  In strip_inner_x (getBoundaries (strip_mesh 8 4))
  /\ local_interior_points (strip_mesh 8 4) strip_inner_x = 2
  /\ (exists r,
        interpolateAndExtrapolate (strip_mesh 8 4) xcube CELL_CENTRE false = Ok r
        /\ cubic_rule r strip_inner_x 0 2 0
        /\ at_layer r strip_inner_x 0 2 0 <> at_layer r strip_inner_x 0 2 (-1))
  /\ local_interior_points (strip_mesh 8 2) strip_inner_x = 0
  /\ succeeds (interpolateAndExtrapolate (strip_mesh 8 2) xcube CELL_CENTRE
                 false) = true.
Proof.
  split; [left; reflexivity|]. split; [reflexivity|].
  split; [|split; [reflexivity | vm_compute; reflexivity]].
  destruct (interpolateAndExtrapolate (strip_mesh 8 4) xcube CELL_CENTRE false)
    as [r|e] eqn:E.
  2:{ exfalso. apply (f_equal succeeds) in E. vm_compute in E. discriminate E. }
  exists r. split; [reflexivity|].
  assert (V : forall n v,
            match interpolateAndExtrapolate (strip_mesh 8 4) xcube CELL_CENTRE
                    false with
            | Ok c => at_layer c strip_inner_x 0 2 n
            | Throw _ => v
            end = v ->
            at_layer r strip_inner_x 0 2 n = v).
  { intros n v H.
    exact (via_result _ _ (fun c => at_layer c strip_inner_x 0 2 n)
             (fun _ => v) v E H). }
  assert (V0 := V 0 6%float eq_refl).
  assert (Vm1 := V (-1) 1%float eq_refl).
  assert (Vm2 := V (-2) 8%float eq_refl).
  assert (Vm3 := V (-3) 27%float eq_refl).
  split.
  - unfold cubic_rule. change (0 - 1) with (-1). change (0 - 2) with (-2).
    change (0 - 3) with (-3). rewrite V0, Vm1, Vm2, Vm3. reflexivity.
  - rewrite V0, Vm1. intro H.
    apply (f_equal (fun v => PrimFloat.ltb v 2)) in H. vm_compute in H.
    discriminate H.
Qed.

(** ** Corner builder *)

Section Corner.

Context {T : Type} {ops : BoutRealOps T}.

Lemma foldM_throw {A B} (P : string -> Prop) (body : B -> A -> Result B)
    (l : list A) (b : B) (e : string) :
  (forall b a e, body b a = Throw e -> P e) ->
  foldM body l b = Throw e -> P e.
Proof.
  intro Hbody. revert b. induction l as [|a l IH]; intros b H.
  - discriminate H.
  - cbn in H. destruct (body b a) as [b'|e'] eqn:E; cbn in H.
    + exact (IH b' H).
    + injection H as <-. exact (Hbody b a e' E).
Qed.

Lemma extrapolate_at_throw (m : @Mesh T) (loc : CELL_LOC) (f : @Field2D T)
    (b : BoundaryRegion) (result : @Field2D T) (p : Z * Z) (e : string) :
  extrapolate_at m loc f b result p = Throw e ->
  e = not_enough_x \/ e = not_enough_y.
Proof.
  destruct p as [x y]. unfold extrapolate_at.
  destruct (enough_points m b); [|discriminate].
  destruct (_ && _); [intro H; injection H as <-; left; reflexivity|].
  destruct (_ && _); [intro H; injection H as <-; right; reflexivity|].
  discriminate.
Qed.

Lemma interpolateAndExtrapolate_throw (m : @Mesh T) (f : @Field2D T)
    (loc : CELL_LOC) (flag : bool) (e : string) :
  interpolateAndExtrapolate m f loc flag = Throw e ->
  e = not_enough_x \/ e = not_enough_y.
Proof.
  unfold interpolateAndExtrapolate, extrapolate_boundaries. cbv zeta.
  destruct (foldM _ (getBoundaries m) _) as [r|e'] eqn:E; cbn [rbind];
    [discriminate|].
  intro H. injection H as <-. revert E.
  apply (foldM_throw (fun e => e = not_enough_x \/ e = not_enough_y)).
  intros r b e.
  apply (foldM_throw (fun e => e = not_enough_x \/ e = not_enough_y)).
  intros r' p e0. apply extrapolate_at_throw.
Qed.

Lemma interpXLOWToXYCorner_precondition (m : @Mesh T) (f : @Field2D T)
    (flag : bool) :
  interpXLOWToXYCorner m f flag = Throw corner_precondition
  <-> (xstart m <= 1 \/ ystart m <= 1).
Proof.
  unfold interpXLOWToXYCorner.
  destruct (Z.gtb_spec (xstart m) 1), (Z.gtb_spec (ystart m) 1);
    cbn [andb ASSERT1 rbind];
    try (split; [intros _; lia | intros _; reflexivity]).
  split; [|lia]. intro Hthrow. exfalso.
  destruct (CELL_LOC_eqb (getLocation f) CELL_XLOW); cbn [ASSERT1 rbind] in Hthrow;
    [|discriminate Hthrow].
  destruct (interpolateAndExtrapolate m _ CELL_YLOW flag) as [r|e] eqn:E1;
    cbn [rbind] in Hthrow.
  - destruct (interpolateAndExtrapolate m _ CELL_YLOW flag) as [t|e] eqn:E2
      in Hthrow; cbn [rbind] in Hthrow; [discriminate Hthrow|].
    injection Hthrow as ->.
    destruct (interpolateAndExtrapolate_throw _ _ _ _ _ E2) as [E|E];
      discriminate E.
  - injection Hthrow as ->.
    destruct (interpolateAndExtrapolate_throw _ _ _ _ _ E1) as [E|E];
      discriminate E.
Qed.

Lemma interpXLOWToXYCorner_other_throw (m : @Mesh T) (f : @Field2D T)
    (flag : bool) (e : string) :
  xstart m > 1 /\ ystart m > 1 ->
  interpXLOWToXYCorner m f flag = Throw e -> e <> corner_precondition.
Proof.
  intros Hg H ->.
  apply interpXLOWToXYCorner_precondition in H. lia.
Qed.

Lemma check_interpolated_metric_throw (rgn : REGION) (c : @Coordinates T)
    (e : string) :
  check_interpolated_metric rgn c = Throw e -> e <> corner_precondition.
Proof.
  unfold check_interpolated_metric. cbv zeta.
  repeat (destruct (_ || _); [intro H; injection H as <-; discriminate|]).
  discriminate.
Qed.

Lemma jacobian_throw (rgn : REGION) (c : @Coordinates T) (e : string) :
  jacobian rgn c = Throw e -> e <> corner_precondition.
Proof.
  rewrite jacobian_cases. cbv zeta.
  repeat match goal with
         | |- (if ?b then _ else _) = _ -> _ =>
             destruct b; [intro H; injection H as <-; discriminate|]
         end.
  discriminate.
Qed.

Lemma geometry_throw (rgn : REGION) (c : @Coordinates T) (e : string) :
  geometry rgn c = Throw e -> e <> corner_precondition.
Proof.
  unfold geometry, geometry_checks. cbv zeta.
  repeat match goal with
         | |- rbind (if ?b then _ else _) _ = _ -> _ =>
             destruct b; [intro H; injection H as <-; discriminate|]
         end.
  discriminate.
Qed.

Lemma derive_geometry_throw (rgn : REGION) (c : @Coordinates T) (e : string) :
  derive_geometry rgn c = Throw e -> e <> corner_precondition.
Proof.
  unfold derive_geometry. destruct (calcCovariant c) as [err c1].
  destruct (negb (err =? 0)); [intro H; injection H as <-; discriminate|].
  destruct (jacobian rgn c1) as [c2|e2] eqn:E; cbn [rbind].
  - apply geometry_throw.
  - intro H. injection H as <-. exact (jacobian_throw _ _ _ E).
Qed.

End Corner.

(** C3 (as amended).  The corner builder fails with the precondition error
    exactly when the mesh has fewer than 2 guard cells in one of the two
    in-surface directions ([xstart <= 1] or [ystart <= 1]); it returns only
    when both have at least 2.  The number of interior points is not
    tested. *)
Theorem corner_builder_precondition {T} {ops : BoutRealOps T} (rgn : REGION)
    (m : @Mesh T) (coords_xlow : @Coordinates T) :
  (getCoordinatesXYCorner rgn m coords_xlow = Throw corner_precondition
   <-> xstart m <= 1 \/ ystart m <= 1)
  /\ (forall c, getCoordinatesXYCorner rgn m coords_xlow = Ok c ->
        xstart m > 1 /\ ystart m > 1).
Proof.
  assert (Hfail : xstart m <= 1 \/ ystart m <= 1 ->
            getCoordinatesXYCorner rgn m coords_xlow
            = Throw corner_precondition).
  { intro H. unfold getCoordinatesXYCorner. cbv zeta.
    rewrite (proj2 (interpXLOWToXYCorner_precondition m (dx coords_xlow)
                      false) H).
    reflexivity. }
  split.
  - split; [|exact Hfail].
    intro H.
    destruct (Z_le_gt_dec (xstart m) 1) as [Hx|Hx]; [left; exact Hx|].
    destruct (Z_le_gt_dec (ystart m) 1) as [Hy|Hy]; [right; exact Hy|].
    exfalso. revert H. unfold getCoordinatesXYCorner. cbv zeta.
    repeat match goal with
           | |- rbind (interpXLOWToXYCorner ?m' ?f ?fl) _ = _ -> _ =>
               let E := fresh "E" in
               destruct (interpXLOWToXYCorner m' f fl) eqn:E; cbn [rbind];
               [|intro H; injection H as ->;
                 exact (interpXLOWToXYCorner_other_throw _ _ _ _
                          (conj Hx Hy) E eq_refl)]
           end.
    match goal with
    | |- rbind ?c _ = _ -> _ => destruct c eqn:Ec; cbn [rbind]
    end.
    2:{ intro H. injection H as ->.
        exact (check_interpolated_metric_throw _ _ _ Ec eq_refl). }
    match goal with
    | |- rbind ?c _ = _ -> _ => destruct c eqn:Ed; cbn [rbind]
    end.
    2:{ intro H. injection H as ->.
        exact (derive_geometry_throw _ _ _ Ed eq_refl). }
    match goal with
    | |- rbind ?c _ = _ -> _ => destruct c eqn:Et; cbn [rbind]
    end.
    2:{ intro H. injection H as ->.
        exact (interpXLOWToXYCorner_other_throw _ _ _ _
                 (conj Hx Hy) Et eq_refl). }
    destruct (IncIntShear m).
    + match goal with
      | |- rbind ?c _ = _ -> _ => destruct c eqn:Ei; cbn [rbind]
      end; [discriminate|].
      intro H. injection H as ->.
      exact (interpXLOWToXYCorner_other_throw _ _ _ _
               (conj Hx Hy) Ei eq_refl).
    + cbn [rbind]. discriminate.
  - intros c Hc.
    destruct (Z_le_gt_dec (xstart m) 1) as [Hx|Hx];
      [rewrite (Hfail (or_introl Hx)) in Hc; discriminate Hc|].
    destruct (Z_le_gt_dec (ystart m) 1) as [Hy|Hy];
      [rewrite (Hfail (or_intror Hy)) in Hc; discriminate Hc|].
    split; assumption.
Qed.

(** C3, as stated, fails in both directions: on a mesh with a single
    interior point in x and in y and two guard cells the corner builder
    returns, and on a mesh with five interior points in x and in y and one
    guard cell it fails with the precondition error. *)
Lemma corner_builder_ignores_interior_points :
  interior_points_x (single_mesh 5 5 2) = 1
  /\ interior_points_y (single_mesh 5 5 2) = 1
  /\ succeeds (flat_corner (single_mesh 5 5 2)) = true
  /\ interior_points_x (single_mesh 7 7 1) = 5
  /\ interior_points_y (single_mesh 7 7 1) = 5
  /\ flat_corner (single_mesh 7 7 1) = Throw corner_precondition.
Proof.
  repeat split; vm_compute; reflexivity.
Qed.

(** ** Staggered builder *)

Section Staggered.

Context {T : Type} {ops : BoutRealOps T}.

Lemma calcCovariant_loop_frame (pts : list (Z * Z)) (c : @Coordinates T) :
  exists n11 n22 n33 n12 n13 n23 : @Field2D T,
    snd (calcCovariant_loop pts c) = set_covariant c n11 n22 n33 n12 n13 n23.
Proof.
  revert c. induction pts as [|[jx jy] rest IH]; intro c.
  - exists (g_11 c), (g_22 c), (g_33 c), (g_12 c), (g_13 c), (g_23 c).
    destruct c; reflexivity.
  - cbn [calcCovariant_loop].
    destruct (invert3x3 _) as [err a].
    destruct (negb (err =? 0)).
    + exists (g_11 c), (g_22 c), (g_33 c), (g_12 c), (g_13 c), (g_23 c).
      destruct c; reflexivity.
    + destruct (IH (set_covariant c
                      (assign (g_11 c) jx jy (a00 a))
                      (assign (g_22 c) jx jy (a11 a))
                      (assign (g_33 c) jx jy (a22 a))
                      (assign (g_12 c) jx jy (a01 a))
                      (assign (g_13 c) jx jy (a02 a))
                      (assign (g_23 c) jx jy (a12 a))))
        as (n11 & n22 & n33 & n12 & n13 & n23 & E).
      exists n11, n22, n33, n12, n13, n23. rewrite E. reflexivity.
Qed.

(** What [derive_geometry] leaves as it found it. *)
Lemma derive_geometry_frame (rgn : REGION) (c c' : @Coordinates T) :
  derive_geometry rgn c = Ok c' ->
  zShift c' = zShift c /\ ShiftAngle c' = ShiftAngle c
  /\ dx c' = dx c /\ dy c' = dy c
  /\ g11 c' = g11 c /\ g22 c' = g22 c /\ g33 c' = g33 c
  /\ g12 c' = g12 c /\ g13 c' = g13 c /\ g23 c' = g23 c.
Proof.
  unfold derive_geometry, calcCovariant. cbv zeta.
  set (c0 := set_covariant c _ _ _ _ _ _).
  destruct (calcCovariant_loop_frame (region (localmesh c0) RGN_ALL) c0)
    as (n11 & n22 & n33 & n12 & n13 & n23 & E).
  destruct (calcCovariant_loop _ c0) as [err c1]. cbn [snd] in E. subst c1.
  destruct (negb (err =? 0)); [discriminate|].
  rewrite jacobian_cases. cbv zeta.
  repeat match goal with
         | |- rbind (if ?b then _ else _) _ = _ -> _ =>
             destruct b; [discriminate|]
         end.
  cbn [rbind]. unfold geometry.
  destruct (geometry_checks rgn _); [|discriminate].
  cbn [rbind]. intro H. injection H as <-.
  repeat split; reflexivity.
Qed.

End Staggered.

(** C2 (as amended).  In the staggered builder the shift field goes
    through the boundary extrapolation of [interpolateAndExtrapolate] like
    every other field ([dx], or [g11]); only the re-extrapolation at branch
    cuts is switched off for it, and the result is then halo-exchanged and
    corrected by the shift angle. *)
Theorem staggered_zShift_is_extrapolated {T} {ops : BoutRealOps T}
    (rgn : REGION) (m : @Mesh T) (loc : CELL_LOC) (coords_in c : @Coordinates T) :
  getCoordinatesStaggered rgn m loc coords_in = Ok c ->
  exists rz rd rg : @Field2D T,
    extrapolate_boundaries m loc (zShift coords_in)
      (communicate m (interp_to m (zShift coords_in) loc RGN_NOBNDRY)) = Ok rz
    /\ zShift c
       = correct_zShift m (communicate m (set_corner_guard_cells m rz))
           (ShiftAngle c)
    /\ extrapolate_boundaries m loc (dx coords_in)
         (communicate m (interp_to m (dx coords_in) loc RGN_NOBNDRY)) = Ok rd
    /\ dx c = set_corner_guard_cells m rd
    /\ extrapolate_boundaries m loc (g11 coords_in)
         (communicate m (interp_to m (g11 coords_in) loc RGN_NOBNDRY)) = Ok rg
    /\ g11 c
       = set_corner_guard_cells m
           (if hasBranchCut m
            then extrapolate_branch_cut m loc (g11 coords_in) rg else rg).
Proof.
  unfold getCoordinatesStaggered, staggered_zShift. cbv zeta.
  unfold interpolateAndExtrapolate at 1 3 9. cbv zeta.
  intro H.
  repeat match type of H with
         | rbind (rbind ?a ?k) _ = Ok _ =>
             let E := fresh "E" in
             destruct a eqn:E; cbn [rbind] in H; [|discriminate H]
         | rbind ?a _ = Ok _ =>
             let E := fresh "E" in
             destruct a eqn:E; cbn [rbind] in H; [|discriminate H]
         end.
  match goal with
  | E : derive_geometry _ _ = Ok _ |- _ =>
      apply derive_geometry_frame in E; cbn in E;
      destruct E as (Ez & Ea & Edx & _ & Eg & _)
  end.
  injection H as <-.
  change (zShift (set_torsion a9 a13 a14)) with (zShift a9).
  change (ShiftAngle (set_torsion a9 a13 a14)) with (ShiftAngle a9).
  change (dx (set_torsion a9 a13 a14)) with (dx a9).
  change (g11 (set_torsion a9 a13 a14)) with (g11 a9).
  rewrite Ez, Ea, Edx, Eg.
  destruct (extrapolate_boundaries m loc (zShift coords_in) _) as [rz|]
    eqn:Erz; cbn [rbind] in E7; [|discriminate E7].
  injection E7 as <-.
  exists rz, a, a1. repeat split; reflexivity.
Qed.

Lemma staggered_zShift_is_extrapolated_witness :
  exists c,
    getCoordinatesStaggered RGN_NOBNDRY mesh7 CELL_YLOW flat7_shifted = Ok c
    /\ exists rz : @Field2D float,
         extrapolate_boundaries mesh7 CELL_YLOW (zShift flat7_shifted)
           (communicate mesh7
              (interp_to mesh7 (zShift flat7_shifted) CELL_YLOW RGN_NOBNDRY))
         = Ok rz
         /\ zShift c
            = correct_zShift mesh7
                (communicate mesh7 (set_corner_guard_cells mesh7 rz))
                (ShiftAngle c).
Proof.
  destruct (getCoordinatesStaggered RGN_NOBNDRY mesh7 CELL_YLOW flat7_shifted)
    as [c|e] eqn:E.
  2:{ exfalso. apply (f_equal succeeds) in E. vm_compute in E. discriminate E. }
  exists c. split; [reflexivity|].
  destruct (staggered_zShift_is_extrapolated RGN_NOBNDRY mesh7 CELL_YLOW
              flat7_shifted c E) as (rz & rd & rg & H1 & H2 & _).
  exists rz. split; assumption.
Defined.

(** C2, as stated, fails: on [mesh7], which has no branch cut, the guard
    cells of the staggered shift field at the lower y boundary obey the
    cubic rule of the boundary extrapolation, as those of [g11] do, and
    differ from the interpolated and halo-exchanged values. *)
Lemma zShift_boundary_guard_cells_are_extrapolated :
  In (lower_y mesh7) (getBoundaries mesh7)
  /\ In (3, 1) (bndry_positions (lower_y mesh7))
  /\ hasBranchCut mesh7 = false
  /\ exists c,
       getCoordinatesStaggered RGN_NOBNDRY mesh7 CELL_YLOW flat7_shifted = Ok c
       /\ cubic_rule (zShift c) (lower_y mesh7) 3 1 0
       /\ cubic_rule (zShift c) (lower_y mesh7) 3 1 1
       /\ cubic_rule (g11 c) (lower_y mesh7) 3 1 0
       /\ zShift c 3 1
          <> zShift_without_extrapolation mesh7 CELL_YLOW
               (zShift flat7_shifted) (ShiftAngle c) 3 1.
Proof.
  split; [right; right; left; reflexivity|].
  split; [right; left; reflexivity|]. split; [reflexivity|].
  destruct (getCoordinatesStaggered RGN_NOBNDRY mesh7 CELL_YLOW flat7_shifted)
    as [c|e] eqn:E.
  2:{ exfalso. apply (f_equal succeeds) in E. vm_compute in E. discriminate E. }
  exists c. split; [reflexivity|].
  assert (V : forall (g : @Coordinates float -> float) v,
            match getCoordinatesStaggered RGN_NOBNDRY mesh7 CELL_YLOW
                    flat7_shifted with
            | Ok c => g c
            | Throw _ => v
            end = v -> g c = v).
  { intros g v H. exact (via_result _ _ g (fun _ => v) v E H). }
  assert (Z0 := V (fun c => at_layer (zShift c) (lower_y mesh7) 3 1 0)
                  6.125%float ltac:(vm_compute; reflexivity)).
  assert (Z1 := V (fun c => at_layer (zShift c) (lower_y mesh7) 3 1 1)
                  23.875%float ltac:(vm_compute; reflexivity)).
  assert (Zm1 := V (fun c => at_layer (zShift c) (lower_y mesh7) 3 1 (-1))
                  3.375%float ltac:(vm_compute; reflexivity)).
  assert (Zm2 := V (fun c => at_layer (zShift c) (lower_y mesh7) 3 1 (-2))
                  15.625%float ltac:(vm_compute; reflexivity)).
  assert (Zm3 := V (fun c => at_layer (zShift c) (lower_y mesh7) 3 1 (-3))
                  42.875%float ltac:(vm_compute; reflexivity)).
  assert (G : forall n, In n [0; -1; -2; -3] ->
            at_layer (g11 c) (lower_y mesh7) 3 1 n = 1%float).
  { intros n Hn.
    apply (V (fun c => at_layer (g11 c) (lower_y mesh7) 3 1 n) 1%float).
    cbn [In] in Hn. destruct Hn as [<-|[<-|[<-|[<-|[]]]]]; vm_compute; reflexivity. }
  assert (W := V (fun c => zShift_without_extrapolation mesh7 CELL_YLOW
                             (zShift flat7_shifted) (ShiftAngle c) 3 1)
                  1%float ltac:(vm_compute; reflexivity)).
  cbv beta in *.
  unfold cubic_rule.
  change (0 - 1) with (-1). change (0 - 2) with (-2). change (0 - 3) with (-3).
  change (1 - 1) with 0. change (1 - 2) with (-1). change (1 - 3) with (-2).
  rewrite Z0, Z1, Zm1, Zm2, Zm3, W, !G by (cbn; auto 10).
  repeat split; try reflexivity.
  change (zShift c 3 1) with (at_layer (zShift c) (lower_y mesh7) 3 1 0).
  rewrite Z0. intro H.
  apply (f_equal (fun v => PrimFloat.ltb v 2)) in H. vm_compute in H.
  discriminate H.
Qed.

(** ** Parallel divergence *)

(** C9.  [Div_par(f)] is [Bxy * Grad_par(f / Bxy_floc)], for a [Field2D]
    and for a [Field3D] (whose [yup] and [ydown] fields are divided too):
    either call returns exactly when the other does, with this value.  The
    divisor [Bxy_floc] is the normalisation of the geometry object the mesh
    keeps for the location tag of [f]; the multiplier is the one of the
    operator's own object. *)
Theorem Div_par_rescales_at_argument {T} {ops : BoutRealOps T}
    (mesh_getCoordinates : CELL_LOC -> @Coordinates T)
    (DDY_Field3D : @Field3D T -> CELL_LOC -> DIFF_METHOD -> @Field3D T)
    (c : @Coordinates T) (outloc : CELL_LOC) (method : DIFF_METHOD) :
  (forall (f r : @Field2D T),
     let Bxy_floc := Bxy (mesh_getCoordinates (getLocation f)) in
     (Div_par mesh_getCoordinates c f outloc method = Ok r
      <-> exists g, Grad_par c (fdiv f Bxy_floc) outloc method = Ok g
                    /\ r = fmul (Bxy c) g)
     /\ (Div_par mesh_getCoordinates c f outloc method = Ok r ->
         forall x y,
           r x y
           = (Bxy c x y
              * (indexDDY (localmesh c) (fdiv f Bxy_floc) outloc method
                   RGN_NOBNDRY x y / dy c x y / rsqrt (g_22 c x y)))%B))
  /\ (forall (f r : @Field3D T),
        let Bxy_floc := Bxy (mesh_getCoordinates (getLocation3 f)) in
        Div_par3 mesh_getCoordinates DDY_Field3D c f outloc method = Ok r
        <-> exists g, Grad_par3 DDY_Field3D c (f3_over f Bxy_floc) outloc method
                      = Ok g
                      /\ r = f3mul_l (Bxy c) g).
Proof.
  split.
  - intros f r Bxy_floc.
    assert (A : Div_par mesh_getCoordinates c f outloc method = Ok r
                <-> exists g, Grad_par c (fdiv f Bxy_floc) outloc method = Ok g
                              /\ r = fmul (Bxy c) g).
    { unfold Div_par, getCoordinates. fold Bxy_floc. cbv zeta.
      destruct (CELL_LOC_eqb (location c) outloc) eqn:El; cbn [orb].
      - cbn [ASSERT1 rbind].
        destruct (Grad_par c (fdiv f Bxy_floc) outloc method) as [g|e];
          cbn [rbind].
        + split.
          * intro H. injection H as <-. exists g. split; reflexivity.
          * intros (g' & H & ->). injection H as <-. reflexivity.
        + split; [discriminate|]. intros (g' & H & _). discriminate H.
      - destruct (CELL_LOC_eqb outloc CELL_DEFAULT) eqn:Ed;
          cbn [andb ASSERT1 rbind].
        + destruct (Grad_par c (fdiv f Bxy_floc) outloc method) as [g|e];
            cbn [rbind].
          * split.
            -- intro H. injection H as <-. exists g. split; reflexivity.
            -- intros (g' & H & ->). injection H as <-. reflexivity.
          * split; [discriminate|]. intros (g' & H & _). discriminate H.
        + split; [discriminate|].
          intros (g' & H & _). revert H. unfold Grad_par.
          rewrite El, Ed. cbn. discriminate. }
    split; [exact A|].
    intros H x y. apply A in H. destruct H as (g & Hg & ->).
    revert Hg. unfold Grad_par, DDY.
    destruct (ASSERT1 _ _); cbn [rbind]; [|discriminate].
    destruct (ASSERT1 _ _); cbn [rbind]; [|discriminate].
    intro Hg. injection Hg as <-. reflexivity.
  - intros f r Bxy_floc.
    unfold Div_par3, getCoordinates3. fold Bxy_floc. cbv zeta.
    unfold Grad_par3.
    destruct (CELL_LOC_eqb (location c) outloc || CELL_LOC_eqb outloc CELL_DEFAULT);
      cbn [ASSERT1 rbind].
    2:{ split; [discriminate|]. intros (g & H & _). discriminate H. }
    unfold hasYupYdown, f3_over, f3div.
    destruct (yupydown f) as [| |up down]; cbn [negb];
      (split;
       [intro H; injection H as <-; eexists; split; reflexivity
       |intros (g & H & ->); injection H as <-; reflexivity]).
Qed.

(** A field at [CELL_XLOW] under the operator of the cell-centred geometry:
    the divisor is the [Bxy = 2] of the staggered object, the multiplier
    the [Bxy = 1] of the operator's. *)
Lemma Div_par_two_geometries :
  exists r,
    Div_par coordinates7 centre7 (setLocation ycube CELL_XLOW) CELL_CENTRE
      DIFF_DEFAULT = Ok r
    /\ r 3 3 = 14%float
    /\ exists g,
         Grad_par centre7 (fdiv (setLocation ycube CELL_XLOW) (Bxy centre7))
           CELL_CENTRE DIFF_DEFAULT = Ok g
         /\ fmul (Bxy centre7) g 3 3 = 28%float.
Proof.
  eexists. split; [reflexivity|]. split; [reflexivity|].
  eexists. split; reflexivity.
Qed.

(** ** The input field is left alone *)

Section Frame.

Context {T : Type} {ops : BoutRealOps T}.

Lemma keeps_ret {A} (k : positive) (a : A) : keeps k (@st_ret T A a).
Proof. intros h b H. exists b. split; [exact H|reflexivity]. Qed.

Lemma keeps_throw {A} (k : positive) (msg : string) :
  keeps k (@st_throw T A msg).
Proof. intros h b H. exists b. split; [exact H|reflexivity]. Qed.

Lemma keeps_bind {A B} (k : positive) (c : @St T A) (f : A -> @St T B) :
  keeps k c -> (forall a, keeps k (f a)) -> keeps k (st_bind c f).
Proof.
  intros Hc Hf h b H. unfold st_bind.
  destruct (Hc h b H) as (b1 & H1 & E1).
  destruct (c h) as [[a|e] h1]; cbn [snd] in *.
  - destruct (Hf a h1 b1 H1) as (b2 & H2 & E2).
    exists b2. split; [exact H2|congruence].
  - exists b1. split; assumption.
Qed.

Lemma keeps_for {A} (k : positive) (l : list A) (body : A -> @St T unit) :
  (forall a, keeps k (body a)) -> keeps k (st_for l body).
Proof.
  intro Hb. induction l as [|a l IH]; cbn [st_for].
  - apply keeps_ret.
  - apply keeps_bind; [apply Hb|intros _; exact IH].
Qed.

Lemma keeps_rd (k : positive) (o : Field2D_obj) (x y : Z) :
  keeps k (@rd T o x y).
Proof.
  intros h b H. unfold rd. exists b.
  destruct (h !! data o); split; first [exact H|reflexivity].
Qed.

Lemma keeps_wr (k : positive) (o : Field2D_obj) (x y : Z) (v : T) :
  data o <> k -> keeps k (wr o x y v).
Proof.
  intros Hne h b H. unfold wr. exists b.
  destruct (h !! data o); cbn [snd]; split; try reflexivity; try exact H.
  rewrite lookup_insert_ne by exact Hne. exact H.
Qed.

Lemma keeps_communicate (k : positive) (m : @Mesh T) (o : Field2D_obj) :
  data o <> k -> keeps k (communicate_st m o).
Proof.
  intros Hne h b H. unfold communicate_st. exists b.
  destruct (h !! data o); cbn [snd]; split; try reflexivity; try exact H.
  rewrite lookup_insert_ne by exact Hne. exact H.
Qed.

Lemma keeps_if {A} (k : positive) (t : bool) (c1 c2 : @St T A) :
  keeps k c1 -> keeps k c2 -> keeps k (if t then c1 else c2).
Proof. destruct t; auto. Qed.

Ltac keeps_step Hne :=
  first
    [ apply keeps_ret | apply keeps_throw | apply keeps_rd
    | apply keeps_wr; exact Hne
    | apply keeps_communicate; exact Hne
    | apply keeps_bind; [|intro]
    | apply keeps_for; intro
    | apply keeps_if ].

(** Every statement after [result.allocate()] keeps a block that is not
    the one of [result]. *)
Lemma fill_guard_cells_keeps (k : positive) (m : @Mesh T) (loc : CELL_LOC)
    (flag : bool) (f result : Field2D_obj) :
  data result <> k -> keeps k (fill_guard_cells_st m loc flag f result).
Proof.
  intro Hne.
  unfold fill_guard_cells_st, extrapolate_branch_cut_st,
    set_corner_guard_cells_st.
  apply keeps_bind; [|intros _; apply keeps_bind; [|intros _]].
  - apply keeps_for. intro b. apply keeps_for. intros [x y].
    unfold extrapolate_at_st. repeat keeps_step Hne.
  - repeat keeps_step Hne.
  - repeat keeps_step Hne.
Qed.

(** After [interp_to] and [allocate] the result owns a block of its own,
    and the block of [f] holds what it held. *)
Lemma result_is_private (shares : @Field2D T -> CELL_LOC -> bool)
    (m : @Mesh T) (f : Field2D_obj) (loc : CELL_LOC)
    (h : gmap positive (@Block T)) (b : @Block T) :
  h !! data f = Some b -> (1 <= refs b)%nat ->
  exists result h1 b1,
    st_bind (interp_to_st shares m f loc RGN_NOBNDRY) allocate h
    = (Ok result, h1)
    /\ data result <> data f
    /\ h1 !! data f = Some b1 /\ bdata b1 = bdata b.
Proof.
  intros Hf Hrefs.
  assert (Hfresh : forall h' : gmap positive (@Block T),
            data f ∈ dom h' -> fresh (dom h') <> data f).
  { intros h' Hin E. apply (is_fresh (dom h')). rewrite E. exact Hin. }
  unfold st_bind at 1, interp_to_st, st_bind, value_of. rewrite Hf.
  destruct (shares _ loc).
  - unfold copy. rewrite Hf. unfold allocate.
    rewrite lookup_insert_eq. cbn [refs bdata].
    destruct (Nat.ltb_spec 1 (S (refs b))) as [_|Hlt]; [|lia].
    eexists _, _, _. split; [reflexivity|]. cbn [data].
    assert (Hin : data f ∈ dom (<[data f := mkBlock (S (refs b)) (bdata b)]> h)).
    { apply elem_of_dom. rewrite lookup_insert_eq. eexists. reflexivity. }
    split; [exact (Hfresh _ Hin)|].
    rewrite lookup_insert_ne by exact (Hfresh _ Hin).
    rewrite lookup_insert_eq. split; reflexivity.
  - unfold new_field, allocate. cbn [data].
    rewrite lookup_insert_eq. cbn [refs].
    assert (Hin : data f ∈ dom h).
    { apply elem_of_dom. rewrite Hf. eexists. reflexivity. }
    eexists _, _, b. split; [reflexivity|]. cbn [data].
    split; [exact (Hfresh _ Hin)|].
    rewrite lookup_insert_ne by exact (Hfresh _ Hin).
    split; [exact Hf|reflexivity].
Qed.

End Frame.

(** C10.  [interpolateAndExtrapolate] does not modify its input: whatever
    [interp_to] returns (the argument itself, sharing its block, or a new
    field), whatever the target location and the branch-cut flag, and
    whether the call returns or throws, the block of [f] holds the same
    value at every index afterwards, and the field returned has a block of
    its own. *)
Theorem interpolateAndExtrapolate_leaves_input {T} {ops : BoutRealOps T}
    (interp_to_returns_argument : @Field2D T -> CELL_LOC -> bool)
    (m : @Mesh T) (f : Field2D_obj) (loc : CELL_LOC)
    (extrap_at_branch_cut : bool)
    (h : gmap positive (@Block T)) (b : @Block T) :
  h !! data f = Some b -> (1 <= refs b)%nat ->
  (exists b',
     snd (interpolateAndExtrapolate_st interp_to_returns_argument m f loc
            extrap_at_branch_cut h) !! data f = Some b'
     /\ forall x y, bdata b' x y = bdata b x y)
  /\ (forall result,
        fst (interpolateAndExtrapolate_st interp_to_returns_argument m f loc
               extrap_at_branch_cut h) = Ok result ->
        data result <> data f).
Proof.
  intros Hf Hrefs.
  destruct (result_is_private interp_to_returns_argument m f loc h b Hf Hrefs)
    as (result & h1 & b1 & Hrun & Hne & Hb1 & Eb1).
  assert (Hrest : keeps (data f)
            (st_bind (communicate_st m result)
               (fun _ => st_bind (fill_guard_cells_st m loc
                                    extrap_at_branch_cut f result)
                           (fun _ => st_ret result)))).
  { apply keeps_bind; [apply keeps_communicate; exact Hne|intros _].
    apply keeps_bind; [apply fill_guard_cells_keeps; exact Hne|intros _].
    apply keeps_ret. }
  assert (E : interpolateAndExtrapolate_st interp_to_returns_argument m f loc
                extrap_at_branch_cut h
              = st_bind (communicate_st m result)
                  (fun _ => st_bind (fill_guard_cells_st m loc
                                       extrap_at_branch_cut f result)
                              (fun _ => st_ret result)) h1).
  { unfold interpolateAndExtrapolate_st.
    unfold st_bind at 1. unfold st_bind at 1 in Hrun.
    destruct (interp_to_st interp_to_returns_argument m f loc RGN_NOBNDRY h)
      as [[r0|e0] h0]; [|discriminate Hrun].
    unfold st_bind at 1. rewrite Hrun. reflexivity. }
  rewrite E. split.
  - destruct (Hrest h1 b1 Hb1) as (b' & Hb' & Eb').
    exists b'. split; [exact Hb'|]. intros x y. rewrite Eb', Eb1. reflexivity.
  - intros r Hr. unfold st_bind in Hr.
    destruct (communicate_st m result h1) as [[[]|e] h2]; [|discriminate Hr].
    destruct (fill_guard_cells_st m loc extrap_at_branch_cut f result h2)
      as [[[]|e] h3]; [|discriminate Hr].
    cbn in Hr. injection Hr as <-. exact Hne.
Qed.

Lemma interpolateAndExtrapolate_leaves_input_witness :
  store1 !! data field1 = Some (mkBlock 1 (fval xcube))
  /\ (1 <= refs (mkBlock 1 (fval xcube)))%nat
  /\ exists b',
       snd (interpolateAndExtrapolate_st (fun _ _ => true) mesh7 field1
              CELL_CENTRE false store1) !! data field1 = Some b'
       /\ forall x y, bdata b' x y = xcube x y.
Proof.
  assert (H1 : store1 !! data field1 = Some (mkBlock 1 (fval xcube)))
    by reflexivity.
  assert (H2 : (1 <= refs (mkBlock 1 (fval xcube)))%nat) by (cbn; lia).
  split; [exact H1|]. split; [exact H2|].
  exact (proj1 (interpolateAndExtrapolate_leaves_input (fun _ _ => true) mesh7
                  field1 CELL_CENTRE false store1 _ H1 H2)).
Defined.

(** Without [allocate] a copy shares the block: a write through the copy
    is read through the original. *)
Lemma write_through_copy_is_shared {T} {ops : BoutRealOps T}
    (f : Field2D_obj) (x y : Z) (v : T) (h : gmap positive (@Block T))
    (b : @Block T) :
  h !! data f = Some b ->
  fst (st_bind (copy f)
         (fun result => st_bind (wr result x y v) (fun _ => rd f x y)) h)
  = Ok v.
Proof.
  intro Hf. unfold st_bind, copy, wr, rd. rewrite Hf.
  rewrite lookup_insert_eq. rewrite lookup_insert_eq. cbn.
  rewrite !Z.eqb_refl. reflexivity.
Qed.

(** ** The store and the values agree *)

Section Refinement.

Context {T : Type} {ops : BoutRealOps T}.
Variables (fo ro : Field2D_obj) (f : @Field2D T).
Hypothesis Hdistinct : data ro <> data fo.

Local Abbreviation sim := (simulates (data fo) (data ro) f).

Lemma simulates_ret : sim (st_ret tt) (fun R => Ok R).
Proof.
  intros h bf br R Hf Ef Hr Er. unfold st_ret. f_equal.
  symmetry. apply insert_id. rewrite Hr, <- Er. destruct br; reflexivity.
Qed.

Lemma simulates_throw (msg : string) :
  sim (st_throw msg) (fun _ => Throw msg).
Proof. intros h bf br R Hf Ef Hr Er. exists h. reflexivity. Qed.

Lemma simulates_bind (c1 c2 : @St T unit)
    (F1 F2 : @Field2D T -> Result (@Field2D T)) :
  sim c1 F1 -> sim c2 F2 ->
  sim (st_bind c1 (fun _ => c2)) (fun R => rbind (F1 R) F2).
Proof.
  intros H1 H2 h bf br R Hf Ef Hr Er. unfold st_bind.
  specialize (H1 h bf br R Hf Ef Hr Er).
  destruct (F1 R) as [R1|e]; cbn [rbind].
  - rewrite H1.
    specialize (H2 (<[data ro := mkBlock (refs br) (fval R1)]> h) bf
                   (mkBlock (refs br) (fval R1)) R1).
    rewrite lookup_insert_ne in H2 by exact Hdistinct.
    rewrite lookup_insert_eq in H2.
    specialize (H2 Hf Ef eq_refl eq_refl). cbn [refs] in H2.
    destruct (F2 R1) as [R2|e].
    + rewrite H2, insert_insert_eq. reflexivity.
    + exact H2.
  - destruct H1 as (h' & ->). exists h'. reflexivity.
Qed.

(** A step that cannot fail, then the rest. *)
Lemma simulates_seq (c1 c2 : @St T unit) (g1 : @Field2D T -> @Field2D T)
    (F2 : @Field2D T -> Result (@Field2D T)) :
  sim c1 (fun R => Ok (g1 R)) -> sim c2 F2 ->
  sim (st_bind c1 (fun _ => c2)) (fun R => F2 (g1 R)).
Proof. intros H1 H2. exact (simulates_bind _ _ _ _ H1 H2). Qed.

Lemma simulates_for {A} (l : list A) (body : A -> @St T unit)
    (Fb : @Field2D T -> A -> Result (@Field2D T)) :
  (forall a, sim (body a) (fun R => Fb R a)) ->
  sim (st_for l body) (foldM Fb l).
Proof.
  intro Hb. induction l as [|a l IH]; cbn [st_for foldM].
  - apply simulates_ret.
  - exact (simulates_bind _ _ _ _ (Hb a) IH).
Qed.

Lemma foldM_pure {A} (step : @Field2D T -> A -> @Field2D T) (l : list A)
    (R : @Field2D T) :
  foldM (fun R a => Ok (step R a)) l R = Ok (fold_left step l R).
Proof.
  revert R. induction l as [|a l IH]; intro R; cbn; [reflexivity|apply IH].
Qed.

Lemma simulates_ext (c : @St T unit)
    (F G : @Field2D T -> Result (@Field2D T)) :
  (forall R, F R = G R) -> sim c F -> sim c G.
Proof.
  intros E H h bf br R Hf Ef Hr Er. rewrite <- E.
  exact (H h bf br R Hf Ef Hr Er).
Qed.

Lemma simulates_for_pure {A} (l : list A) (body : A -> @St T unit)
    (step : @Field2D T -> A -> @Field2D T) :
  (forall a, sim (body a) (fun R => Ok (step R a))) ->
  sim (st_for l body) (fun R => Ok (fold_left step l R)).
Proof.
  intro Hb.
  apply (simulates_ext _ (foldM (fun R a => Ok (step R a)) l)).
  - intro R. apply foldM_pure.
  - apply simulates_for. exact Hb.
Qed.

Lemma simulates_if (t : bool) (c1 c2 : @St T unit)
    (F1 F2 : @Field2D T -> Result (@Field2D T)) :
  sim c1 F1 -> sim c2 F2 ->
  sim (if t then c1 else c2) (fun R => if t then F1 R else F2 R).
Proof. destruct t; auto. Qed.

Lemma simulates_if_pure (t : bool) (c1 c2 : @St T unit)
    (g1 g2 : @Field2D T -> @Field2D T) :
  sim c1 (fun R => Ok (g1 R)) -> sim c2 (fun R => Ok (g2 R)) ->
  sim (if t then c1 else c2) (fun R => Ok (if t then g1 R else g2 R)).
Proof. destruct t; auto. Qed.

(** Reads of the source and of the result, and the write. *)
Lemma rd_source (x y : Z) (h : gmap positive (@Block T)) (bf : @Block T) :
  h !! data fo = Some bf -> bdata bf = fval f ->
  rd fo x y h = (Ok (f x y), h).
Proof. intros Hf Ef. unfold rd. rewrite Hf, Ef. reflexivity. Qed.

Lemma rd_result (x y : Z) (h : gmap positive (@Block T)) (br : @Block T)
    (R : @Field2D T) :
  h !! data ro = Some br -> bdata br = fval R ->
  rd ro x y h = (Ok (R x y), h).
Proof. intros Hr Er. unfold rd. rewrite Hr, Er. reflexivity. Qed.

Lemma wr_result (x y : Z) (v : T) (h : gmap positive (@Block T))
    (br : @Block T) (R : @Field2D T) :
  h !! data ro = Some br -> bdata br = fval R ->
  wr ro x y v h
  = (Ok tt, <[ data ro := mkBlock (refs br) (fval (assign R x y v)) ]> h).
Proof. intros Hr Er. unfold wr. rewrite Hr, Er. reflexivity. Qed.

(** Some reads, then one write to the result. *)
Ltac sim_write :=
  let h := fresh "h" in
  let bf := fresh "bf" in
  let br := fresh "br" in
  let R := fresh "R" in
  let Hf := fresh "Hf" in
  let Ef := fresh "Ef" in
  let Hr := fresh "Hr" in
  let Er := fresh "Er" in
  intros h bf br R Hf Ef Hr Er; cbv zeta; unfold st_bind;
  repeat first
    [ rewrite (rd_source _ _ h bf Hf Ef)
    | rewrite (rd_result _ _ h br R Hr Er) ];
  rewrite (wr_result _ _ _ h br R Hr Er); reflexivity.

Lemma simulates_wr (x y : Z) (v : T) :
  sim (wr ro x y v) (fun R => Ok (assign R x y v)).
Proof. sim_write. Qed.

Lemma extrapolate_at_simulated (m : @Mesh T) (loc : CELL_LOC)
    (b : BoundaryRegion) (p : Z * Z) :
  sim (extrapolate_at_st m loc fo b ro p)
      (fun R => extrapolate_at m loc f b R p).
Proof.
  destruct p as [x y]. unfold extrapolate_at_st, extrapolate_at. cbv zeta.
  apply (simulates_seq _ _
           (fun R => if extrap_start loc b >? 0
                     then interpolate_bndry_point f R b x y else R)
           (fun R =>
              if enough_points m b then
                if negb (bndry_bx b =? 0) && (LocalNx m =? 1)
                   && (bndry_width b =? 1)
                then Throw not_enough_x
                else if negb (bndry_by b =? 0) && (LocalNy m =? 1)
                        && (bndry_width b =? 1)
                then Throw not_enough_y
                else Ok (fold_left (extrapolate_cubic_step b x y)
                           (range (extrap_start loc b) (bndry_width b)) R)
              else Ok (fold_left (extrapolate_constant_step b x y)
                         (range (extrap_start loc b) (bndry_width b)) R))).
  - apply simulates_if_pure; [|apply simulates_ret].
    unfold interpolate_bndry_point. sim_write.
  - apply simulates_if.
    + apply simulates_if; [apply simulates_throw|].
      apply simulates_if; [apply simulates_throw|].
      apply simulates_for_pure. intro i.
      unfold extrapolate_cubic_step. sim_write.
    + apply simulates_for_pure. intro i.
      unfold extrapolate_constant_step. sim_write.
Qed.

Lemma extrapolate_boundaries_simulated (m : @Mesh T) (loc : CELL_LOC) :
  sim (st_for (getBoundaries m)
         (fun b => st_for (bndry_positions b)
                     (extrapolate_at_st m loc fo b ro)))
      (extrapolate_boundaries m loc f).
Proof.
  unfold extrapolate_boundaries.
  apply (simulates_for (getBoundaries m) _
           (fun R b => foldM (extrapolate_at m loc f b) (bndry_positions b) R)).
  intro b.
  apply (simulates_for (bndry_positions b) _ (extrapolate_at m loc f b)).
  intro p. apply extrapolate_at_simulated.
Qed.

Lemma extrapolate_branch_cut_simulated (m : @Mesh T) (loc : CELL_LOC) :
  sim (extrapolate_branch_cut_st m loc fo ro)
      (fun R => Ok (extrapolate_branch_cut m loc f R)).
Proof.
  unfold extrapolate_branch_cut_st, extrapolate_branch_cut. cbv zeta.
  apply simulates_for_pure. intro i.
  apply (simulates_seq _ _
           (fun R =>
              if hasBranchCutDown m i then
                fold_left
                  (fun result j =>
                     assign result i j
                       (r3 * result i (j + 1)%Z - r3 * result i (j + 2)%Z
                        + result i (j + 3)%Z)%B)
                  (range_down (ystart m - 1) 0) R
              else R)
           (fun R =>
              Ok (if hasBranchCutUp m i then
                    fold_left
                      (fun result j =>
                         assign result i j
                           (r3 * result i (j - 1)%Z - r3 * result i (j - 2)%Z
                            + result i (j - 3)%Z)%B)
                      (range (if CELL_LOC_eqb loc CELL_YLOW
                              then yend m + 1 else yend m) (LocalNy m))
                      (if CELL_LOC_eqb loc CELL_YLOW then
                         assign R i (yend m)
                           ((r9 * (f i (yend m - 1)%Z + f i (yend m))
                             - f i (yend m - 2)%Z
                             - f i (yend m + 1)%Z) / r16)%B
                       else R)
                  else R))).
  - apply simulates_if_pure; [|apply simulates_ret].
    apply simulates_for_pure. intro j. sim_write.
  - apply simulates_if_pure; [|apply simulates_ret].
    apply (simulates_seq _ _
             (fun R =>
                if CELL_LOC_eqb loc CELL_YLOW then
                  assign R i (yend m)
                    ((r9 * (f i (yend m - 1)%Z + f i (yend m))
                      - f i (yend m - 2)%Z
                      - f i (yend m + 1)%Z) / r16)%B
                else R)
             (fun R =>
                Ok (fold_left
                      (fun result j =>
                         assign result i j
                           (r3 * result i (j - 1)%Z - r3 * result i (j - 2)%Z
                            + result i (j - 3)%Z)%B)
                      (range (if CELL_LOC_eqb loc CELL_YLOW
                              then yend m + 1 else yend m) (LocalNy m)) R))).
    + apply simulates_if_pure; [|apply simulates_ret]. sim_write.
    + apply simulates_for_pure. intro j. sim_write.
Qed.

Lemma set_corner_guard_cells_simulated (m : @Mesh T) :
  sim (set_corner_guard_cells_st m ro)
      (fun R => Ok (set_corner_guard_cells m R)).
Proof.
  unfold set_corner_guard_cells_st, set_corner_guard_cells. cbv zeta.
  apply simulates_for_pure. intro i.
  apply simulates_for_pure. intro j.
  apply (simulates_seq _ _ (fun R => assign R i j BoutNaN)
           (fun R =>
              Ok (assign
                    (assign (assign R i (LocalNy m - 1 - j) BoutNaN)
                       (LocalNx m - 1 - i) j BoutNaN)
                    (LocalNx m - 1 - i) (LocalNy m - 1 - j) BoutNaN)));
    [apply simulates_wr|].
  apply (simulates_seq _ _ (fun R => assign R i (LocalNy m - 1 - j) BoutNaN)
           (fun R =>
              Ok (assign (assign R (LocalNx m - 1 - i) j BoutNaN)
                    (LocalNx m - 1 - i) (LocalNy m - 1 - j) BoutNaN)));
    [apply simulates_wr|].
  apply (simulates_seq _ _ (fun R => assign R (LocalNx m - 1 - i) j BoutNaN)
           (fun R =>
              Ok (assign R (LocalNx m - 1 - i) (LocalNy m - 1 - j) BoutNaN)));
    apply simulates_wr.
Qed.

(** Lines 47-131: the statements on the store compute the value the
    function on field values returns. *)
Lemma fill_guard_cells_simulated (m : @Mesh T) (loc : CELL_LOC)
    (flag : bool) :
  sim (fill_guard_cells_st m loc flag fo ro)
      (fun R =>
         rbind (extrapolate_boundaries m loc f R)
           (fun R1 =>
              Ok (set_corner_guard_cells m
                    (if flag then extrapolate_branch_cut m loc f R1
                     else R1)))).
Proof.
  unfold fill_guard_cells_st.
  apply simulates_bind; [apply extrapolate_boundaries_simulated|].
  apply (simulates_seq _ _
           (fun R => if flag then extrapolate_branch_cut m loc f R else R)
           (fun R => Ok (set_corner_guard_cells m R))).
  - apply simulates_if_pure;
      [apply extrapolate_branch_cut_simulated|apply simulates_ret].
  - apply set_corner_guard_cells_simulated.
Qed.

End Refinement.

(** After [interp_to] and [allocate] the block of the result holds the
    value [interp_to] returns. *)
Lemma result_holds_interpolation {T} {ops : BoutRealOps T}
    (shares : @Field2D T -> CELL_LOC -> bool)
    (m : @Mesh T) (f : Field2D_obj) (loc : CELL_LOC)
    (h : gmap positive (@Block T)) (b : @Block T) :
  h !! data f = Some b -> (1 <= refs b)%nat ->
  (shares (mkField2D (bdata b) (tag f)) loc = true ->
   interp_to m (mkField2D (bdata b) (tag f)) loc RGN_NOBNDRY
   = mkField2D (bdata b) (tag f)) ->
  exists result h1 b1 br,
    st_bind (interp_to_st shares m f loc RGN_NOBNDRY) allocate h
    = (Ok result, h1)
    /\ data result <> data f
    /\ h1 !! data f = Some b1 /\ bdata b1 = bdata b
    /\ h1 !! data result = Some br
    /\ mkField2D (bdata br) (tag result)
       = interp_to m (mkField2D (bdata b) (tag f)) loc RGN_NOBNDRY.
Proof.
  intros Hf Hrefs Hshare.
  assert (Hfresh : forall h' : gmap positive (@Block T),
            data f ∈ dom h' -> fresh (dom h') <> data f).
  { intros h' Hin E. apply (is_fresh (dom h')). rewrite E. exact Hin. }
  unfold st_bind at 1, interp_to_st, st_bind, value_of. rewrite Hf.
  destruct (shares _ loc) eqn:Es.
  - unfold copy. rewrite Hf. unfold allocate.
    rewrite lookup_insert_eq. cbn [refs bdata].
    destruct (Nat.ltb_spec 1 (S (refs b))) as [_|Hlt]; [|lia].
    eexists _, _, _, _. split; [reflexivity|]. cbn [data tag].
    assert (Hin : data f ∈ dom (<[data f := mkBlock (S (refs b)) (bdata b)]> h)).
    { apply elem_of_dom. rewrite lookup_insert_eq. eexists. reflexivity. }
    split; [exact (Hfresh _ Hin)|].
    rewrite lookup_insert_ne by exact (Hfresh _ Hin).
    rewrite !lookup_insert_eq. cbn [bdata].
    repeat split. symmetry. exact (Hshare eq_refl).
  - unfold new_field, allocate. cbn [data].
    rewrite lookup_insert_eq. cbn [refs].
    assert (Hin : data f ∈ dom h).
    { apply elem_of_dom. rewrite Hf. eexists. reflexivity. }
    eexists _, _, b, _. split; [reflexivity|]. cbn [data tag].
    split; [exact (Hfresh _ Hin)|].
    rewrite lookup_insert_ne by exact (Hfresh _ Hin).
    rewrite lookup_insert_eq. cbn [bdata].
    repeat split; try exact Hf.
    destruct (interp_to m _ loc RGN_NOBNDRY); reflexivity.
Qed.

(** X14.  The function on field values is what the statements on the store
    compute: run on a store where [f] holds the value [v], the statements
    return an object holding [interpolateAndExtrapolate v], and they throw
    the same message when it throws. *)
Theorem interpolateAndExtrapolate_refines {T} {ops : BoutRealOps T}
    (shares : @Field2D T -> CELL_LOC -> bool)
    (m : @Mesh T) (f : Field2D_obj) (loc : CELL_LOC)
    (extrap_at_branch_cut : bool)
    (h : gmap positive (@Block T)) (b : @Block T) :
  h !! data f = Some b -> (1 <= refs b)%nat ->
  (shares (mkField2D (bdata b) (tag f)) loc = true ->
   interp_to m (mkField2D (bdata b) (tag f)) loc RGN_NOBNDRY
   = mkField2D (bdata b) (tag f)) ->
  match interpolateAndExtrapolate m (mkField2D (bdata b) (tag f)) loc
          extrap_at_branch_cut with
  | Ok R =>
      exists result h' br,
        interpolateAndExtrapolate_st shares m f loc extrap_at_branch_cut h
        = (Ok result, h')
        /\ h' !! data result = Some br
        /\ bdata br = fval R
  | Throw e =>
      exists h',
        interpolateAndExtrapolate_st shares m f loc extrap_at_branch_cut h
        = (Throw e, h')
  end.
Proof.
  intros Hf Hrefs Hshare.
  destruct (result_holds_interpolation shares m f loc h b Hf Hrefs Hshare)
    as (result & h1 & b1 & br & Hrun & Hne & Hb1 & Eb1 & Hbr & Ebr).
  assert (E : interpolateAndExtrapolate_st shares m f loc
                extrap_at_branch_cut h
              = st_bind (communicate_st m result)
                  (fun _ => st_bind (fill_guard_cells_st m loc
                                       extrap_at_branch_cut f result)
                              (fun _ => st_ret result)) h1).
  { unfold interpolateAndExtrapolate_st.
    unfold st_bind at 1. unfold st_bind at 1 in Hrun.
    destruct (interp_to_st shares m f loc RGN_NOBNDRY h)
      as [[r0|e0] h0]; [|discriminate Hrun].
    unfold st_bind at 1. rewrite Hrun. reflexivity. }
  set (v := mkField2D (bdata b) (tag f)) in *.
  set (R0 := communicate m (interp_to m v loc RGN_NOBNDRY)).
  set (h2 := <[data result := mkBlock (refs br) (fval R0)]> h1).
  assert (E2 : interpolateAndExtrapolate_st shares m f loc
                 extrap_at_branch_cut h
               = st_bind (fill_guard_cells_st m loc extrap_at_branch_cut
                            f result)
                   (fun _ => st_ret result) h2).
  { rewrite E. unfold st_bind at 1, communicate_st.
    rewrite Hbr, Ebr. reflexivity. }
  rewrite E2. clear E E2 Hrun.
  assert (Hf2 : h2 !! data f = Some b1).
  { unfold h2. rewrite lookup_insert_ne by exact Hne. exact Hb1. }
  assert (Hr2 : h2 !! data result = Some (mkBlock (refs br) (fval R0))).
  { unfold h2. apply lookup_insert_eq. }
  pose proof (fill_guard_cells_simulated f result v Hne m loc
                extrap_at_branch_cut h2 b1 _ R0 Hf2 Eb1 Hr2 eq_refl) as Hsim.
  cbv beta in Hsim. cbn [refs] in Hsim.
  unfold interpolateAndExtrapolate. cbv zeta. fold v. fold R0.
  unfold st_bind.
  destruct (extrapolate_boundaries m loc v R0) as [R1|e]; cbn [rbind] in *.
  - rewrite Hsim. eexists _, _, _. split; [reflexivity|].
    split; [apply lookup_insert_eq|reflexivity].
  - destruct Hsim as (h' & ->). exists h'. reflexivity.
Qed.

(** Lines 142-143: [Field2D result = f; result.allocate();] leaves the
    result with a block of its own holding the values of [f], and [f] with
    the block and the owners it had. *)
Lemma private_copy_is_private {T} {ops : BoutRealOps T}
    (f : Field2D_obj) (h : gmap positive (@Block T)) (b : @Block T) :
  h !! data f = Some b -> (1 <= refs b)%nat ->
  exists result h1,
    private_copy_st f h = (Ok result, h1)
    /\ data result <> data f
    /\ tag result = tag f
    /\ h1 !! data f = Some b
    /\ h1 !! data result = Some (mkBlock 1 (bdata b)).
Proof.
  intros Hf Hrefs.
  unfold private_copy_st, st_bind, copy. rewrite Hf. unfold allocate.
  rewrite lookup_insert_eq. cbn [refs bdata].
  destruct (Nat.ltb_spec 1 (S (refs b))) as [_|Hlt]; [|lia].
  eexists _, _. split; [reflexivity|]. cbn [data tag].
  assert (Hne : fresh (dom (<[data f := mkBlock (S (refs b)) (bdata b)]> h))
                <> data f).
  { intro E.
    apply (is_fresh (dom (<[data f := mkBlock (S (refs b)) (bdata b)]> h))).
    rewrite E. apply elem_of_dom. rewrite lookup_insert_eq.
    eexists. reflexivity. }
  split; [exact Hne|]. split; [reflexivity|].
  rewrite lookup_insert_ne by exact Hne.
  rewrite !lookup_insert_eq. split; [|reflexivity].
  f_equal. destruct b as [n d]. cbn [refs bdata]. f_equal. lia.
Qed.

(** * Further properties *)

(** ** What the guard-cell fill writes *)

Section GuardCellFill.

Context {T : Type} {ops : BoutRealOps T}.

Lemma fold_assign_frame {A} (step : @Field2D T -> A -> @Field2D T)
    (l : list A) (R : @Field2D T) (x y : Z) :
  (forall R a, In a l -> step R a x y = R x y) ->
  fold_left step l R x y = R x y.
Proof.
  revert R. induction l as [|a l IH]; intros R H; cbn [fold_left].
  - reflexivity.
  - rewrite IH by (intros; apply H; right; assumption).
    apply H. left. reflexivity.
Qed.

Lemma fold_assign_stays {A} (step : @Field2D T -> A -> @Field2D T)
    (l : list A) (R : @Field2D T) (x y : Z) (v : T) :
  (forall (R : @Field2D T) a, R x y = v -> step R a x y = v) ->
  R x y = v -> fold_left step l R x y = v.
Proof.
  intro Hkeep. revert R.
  induction l as [|a l IH]; intros R E; cbn [fold_left];
    [exact E|apply IH, Hkeep, E].
Qed.

Lemma fold_assign_hit {A} (step : @Field2D T -> A -> @Field2D T)
    (l : list A) (R : @Field2D T) (x y : Z) (v : T) (a : A) :
  In a l -> (forall R, step R a x y = v) ->
  (forall (R : @Field2D T) a', R x y = v -> step R a' x y = v) ->
  fold_left step l R x y = v.
Proof.
  intros Hin Hhit Hkeep.
  revert R. induction l as [|a0 l IH]; intro R; [destruct Hin|].
  cbn [fold_left]. destruct Hin as [->|Hin].
  - apply fold_assign_stays; [exact Hkeep|apply Hhit].
  - apply IH, Hin.
Qed.

Lemma assign_at (f : @Field2D T) (x y : Z) (v : T) (x' y' : Z) :
  assign f x y v x' y'
  = if (x' =? x) && (y' =? y) then v else f x' y'.
Proof. reflexivity. Qed.

Lemma set_corner_guard_cells_spec (m : @Mesh T) (R : @Field2D T) (x y : Z) :
  (corner_cell m x y -> set_corner_guard_cells m R x y = BoutNaN)
  /\ (~ corner_cell m x y -> set_corner_guard_cells m R x y = R x y).
Proof.
  unfold set_corner_guard_cells. cbv zeta. split.
  - intros (i & j & Hi & Hj & Hx & Hy).
    apply (fold_assign_hit _ _ _ _ _ _ i).
    + apply in_range. exact Hi.
    + intro R0. apply (fold_assign_hit _ _ _ _ _ _ j).
      * apply in_range. exact Hj.
      * intro R1. rewrite !assign_at.
        destruct Hx as [->| ->], Hy as [->| ->]; rewrite ?Z.eqb_refl; cbn;
          repeat match goal with
                 | |- (if ?c then _ else _) = _ => destruct c
                 end; reflexivity.
      * intros R1 a' E. rewrite !assign_at, E.
        repeat match goal with
               | |- (if ?c then _ else _) = _ => destruct c
               end; reflexivity.
    + intros R0 a' E. apply fold_assign_stays; [|exact E].
      intros R1 a'' E1. rewrite !assign_at, E1.
      repeat match goal with
             | |- (if ?c then _ else _) = _ => destruct c
             end; reflexivity.
  - intro Hn. apply fold_assign_frame. intros R0 i Hi.
    apply fold_assign_frame. intros R1 j Hj.
    apply in_range in Hi. apply in_range in Hj.
    rewrite !assign_at.
    repeat match goal with
           | |- (if ?c then _ else _) = _ =>
               destruct c eqn:?; [exfalso|]
           end; try reflexivity;
      match goal with
      | E : _ && _ = true |- _ =>
          apply andb_true_iff in E; destruct E as [Ex Ey];
          apply Z.eqb_eq in Ex; apply Z.eqb_eq in Ey
      end;
      apply Hn; exists i, j; repeat split; try lia; auto.
Qed.

Lemma foldM_frame {A} (body : @Field2D T -> A -> Result (@Field2D T))
    (l : list A) (R R' : @Field2D T) (x y : Z) :
  (forall R0 a R1, In a l -> body R0 a = Ok R1 -> R1 x y = R0 x y) ->
  foldM body l R = Ok R' -> R' x y = R x y.
Proof.
  revert R. induction l as [|a l IH]; intros R Hb H; cbn [foldM] in H.
  - injection H as <-. reflexivity.
  - destruct (body R a) as [R1|e] eqn:E; cbn [rbind] in H; [|discriminate H].
    rewrite (IH R1) by (try exact H; intros; eapply Hb; eauto; right; assumption).
    apply (Hb R a R1); [left; reflexivity|exact E].
Qed.

Lemma extrapolate_at_frame (m : @Mesh T) (loc : CELL_LOC) (f : @Field2D T)
    (b : BoundaryRegion) (R R' : @Field2D T) (p : Z * Z) (x y : Z) :
  extrapolate_at m loc f b R p = Ok R' ->
  ~ written_by loc b p x y -> R' x y = R x y.
Proof.
  destruct p as [px py]. intros H Hn.
  assert (Hlayer : forall (R0 : @Field2D T) k v,
            (extrap_start loc b = 1 /\ k = 0)
            \/ extrap_start loc b <= k < bndry_width b ->
            assign R0 (px + k * bndry_bx b) (py + k * bndry_by b) v x y
            = R0 x y).
  { intros R0 k v Hk. rewrite assign_at.
    destruct ((x =? px + k * bndry_bx b) && (y =? py + k * bndry_by b)) eqn:E;
      [|reflexivity].
    apply andb_true_iff in E. destruct E as [Ex Ey].
    apply Z.eqb_eq in Ex. apply Z.eqb_eq in Ey.
    exfalso. apply Hn. exists k. cbn [fst snd]. auto. }
  assert (Hstart : (if extrap_start loc b >? 0
                    then interpolate_bndry_point f R b px py else R) x y
                   = R x y).
  { destruct (extrap_start loc b >? 0) eqn:E; [|reflexivity].
    rewrite interpolate_bndry_point_eq. apply Hlayer. left.
    split; [|reflexivity].
    destruct (extrap_start_range loc b) as [E0|E1]; [|exact E1].
    rewrite E0 in E. discriminate E. }
  assert (Hfold : forall step : @Field2D T -> Z -> @Field2D T,
            (forall R0 k, exists v,
               step R0 k
               = assign R0 (px + k * bndry_bx b) (py + k * bndry_by b) v) ->
            forall R0,
              fold_left step (range (extrap_start loc b) (bndry_width b)) R0 x y
              = R0 x y).
  { intros step Hstep R0. apply fold_assign_frame. intros R1 k Hk.
    destruct (Hstep R1 k) as (v & ->). apply Hlayer. right.
    apply in_range. exact Hk. }
  unfold extrapolate_at in H. cbv zeta in H.
  repeat match type of H with
         | (if ?c then _ else _) = Ok _ => destruct c; try discriminate H
         end;
    injection H as <-; rewrite Hfold; try exact Hstart; intros R0 k;
    eexists.
  - apply extrapolate_cubic_step_eq.
  - apply extrapolate_constant_step_eq.
Qed.

Lemma extrapolate_boundaries_frame (m : @Mesh T) (loc : CELL_LOC)
    (f R R' : @Field2D T) (x y : Z) :
  extrapolate_boundaries m loc f R = Ok R' ->
  (forall b p, In b (getBoundaries m) -> In p (bndry_positions b) ->
     ~ written_by loc b p x y) ->
  R' x y = R x y.
Proof.
  intros H Hn. unfold extrapolate_boundaries in H.
  apply (foldM_frame _ _ _ _ x y) in H; [exact H|].
  intros R0 b R1 Hb H1.
  apply (foldM_frame _ _ _ _ x y) in H1; [exact H1|].
  intros R2 p R3 Hp H2.
  exact (extrapolate_at_frame m loc f b R2 R3 p x y H2 (Hn b p Hb Hp)).
Qed.

Lemma extrapolate_branch_cut_frame (m : @Mesh T) (loc : CELL_LOC)
    (f R : @Field2D T) (x y : Z) :
  ~ branch_cut_cell m loc x y ->
  extrapolate_branch_cut m loc f R x y = R x y.
Proof.
  intro Hn. unfold extrapolate_branch_cut. cbv zeta.
  apply fold_assign_frame. intros R0 i Hi. apply in_range in Hi.
  assert (Hcell : forall (R1 : @Field2D T) j v,
            (hasBranchCutDown m i = true /\ 0 < j <= ystart m - 1)
            \/ (hasBranchCutUp m i = true
                /\ ((loc = CELL_YLOW /\ j = yend m)
                    \/ yend m <= j < LocalNy m)) ->
            assign R1 i j v x y = R1 x y).
  { intros R1 j v Hj. rewrite assign_at.
    destruct ((x =? i) && (y =? j)) eqn:E; [|reflexivity].
    apply andb_true_iff in E. destruct E as [Ex Ey].
    apply Z.eqb_eq in Ex. apply Z.eqb_eq in Ey. subst x y.
    exfalso. apply Hn. split; [lia|exact Hj]. }
  assert (Hdown : (if hasBranchCutDown m i then
                     fold_left
                       (fun result j =>
                          assign result i j
                            (r3 * result i (j + 1)%Z - r3 * result i (j + 2)%Z
                             + result i (j + 3)%Z)%B)
                       (range_down (ystart m - 1) 0) R0
                   else R0) x y = R0 x y).
  { destruct (hasBranchCutDown m i) eqn:Ed; [|reflexivity].
    apply fold_assign_frame. intros R1 j Hj. apply Hcell. left.
    split; [reflexivity|].
    unfold range_down in Hj. apply in_map_iff in Hj.
    destruct Hj as (k & <- & Hk). apply in_seq in Hk. lia. }
  destruct (hasBranchCutUp m i) eqn:Eu; [|exact Hdown].
  rewrite fold_assign_frame.
  - destruct (CELL_LOC_eqb loc CELL_YLOW) eqn:El; [|exact Hdown].
    rewrite Hcell; [exact Hdown|]. right. split; [reflexivity|]. left.
    split; [apply CELL_LOC_eqb_eq; exact El|reflexivity].
  - intros R1 j Hj. apply Hcell. right. split; [reflexivity|]. right.
    apply in_range in Hj. destruct (CELL_LOC_eqb loc CELL_YLOW); lia.
Qed.

Lemma extrapolate_at_succeeds (m : @Mesh T) (loc : CELL_LOC) (f : @Field2D T)
    (b : BoundaryRegion) (R : @Field2D T) (p : Z * Z) :
  succeeds (extrapolate_at m loc f b R p) = negb (starved m b).
Proof.
  destruct p as [px py]. unfold extrapolate_at, starved. cbv zeta.
  destruct (enough_points m b); cbn [andb negb]; [|reflexivity].
  destruct (negb (bndry_bx b =? 0) && (LocalNx m =? 1) && (bndry_width b =? 1));
    cbn [orb negb succeeds]; [reflexivity|].
  destruct (negb (bndry_by b =? 0) && (LocalNy m =? 1) && (bndry_width b =? 1));
    reflexivity.
Qed.

Lemma extrapolate_positions_succeeds (m : @Mesh T) (loc : CELL_LOC)
    (f : @Field2D T) (b : BoundaryRegion) (ps : list (Z * Z))
    (R : @Field2D T) :
  succeeds (foldM (extrapolate_at m loc f b) ps R)
  = negb (starved m b) || match ps with [] => true | _ => false end.
Proof.
  revert R. induction ps as [|p ps IH]; intro R; cbn [foldM].
  - cbn. apply eq_sym, orb_true_r.
  - pose proof (extrapolate_at_succeeds m loc f b R p) as Hs.
    destruct (extrapolate_at m loc f b R p) as [R1|e]; cbn [rbind succeeds] in *.
    + rewrite IH, <- Hs. reflexivity.
    + rewrite <- Hs. reflexivity.
Qed.

Lemma extrapolate_boundaries_succeeds (m : @Mesh T) (loc : CELL_LOC)
    (f R : @Field2D T) :
  succeeds (extrapolate_boundaries m loc f R)
  = forallb (fun b => negb (starved m b) || no_positions b) (getBoundaries m).
Proof.
  unfold extrapolate_boundaries. revert R.
  induction (getBoundaries m) as [|b bs IH]; intro R; cbn [foldM forallb].
  - reflexivity.
  - pose proof (extrapolate_positions_succeeds m loc f b (bndry_positions b) R)
      as Hs.
    fold (no_positions b) in Hs.
    destruct (foldM (extrapolate_at m loc f b) (bndry_positions b) R)
      as [R1|e]; cbn [rbind succeeds] in *.
    + rewrite IH, <- Hs. reflexivity.
    + rewrite <- Hs. reflexivity.
Qed.

Lemma interpolateAndExtrapolate_succeeds (m : @Mesh T) (f : @Field2D T)
    (loc : CELL_LOC) (flag : bool) :
  succeeds (interpolateAndExtrapolate m f loc flag)
  = forallb (fun b => negb (starved m b) || no_positions b) (getBoundaries m).
Proof.
  rewrite <- (extrapolate_boundaries_succeeds m loc f
                (communicate m (interp_to m f loc RGN_NOBNDRY))).
  unfold interpolateAndExtrapolate. cbv zeta.
  destruct (extrapolate_boundaries m loc f _); reflexivity.
Qed.

End GuardCellFill.

(** X1.  The corner guard cells of the field [interpolateAndExtrapolate]
    returns hold the not-a-number sentinel, whatever the boundary fill
    wrote there before. *)
Theorem corner_guard_cells_are_NaN {T} {ops : BoutRealOps T} (m : @Mesh T)
    (f : @Field2D T) (loc : CELL_LOC) (flag : bool) (r : @Field2D T)
    (x y : Z) :
  interpolateAndExtrapolate m f loc flag = Ok r ->
  corner_cell m x y -> r x y = BoutNaN.
Proof.
  unfold interpolateAndExtrapolate. cbv zeta. intros H Hc.
  destruct (extrapolate_boundaries m loc f _) as [R1|e];
    cbn [rbind] in H; [|discriminate H].
  injection H as <-.
  apply (proj1 (set_corner_guard_cells_spec m _ x y) Hc).
Qed.

Lemma corner_guard_cells_are_NaN_witness :
  exists r,
    interpolateAndExtrapolate mesh7 xcube CELL_XLOW false = Ok r
    /\ corner_cell mesh7 1 5 /\ r 1 5 = BoutNaN.
Proof.
  destruct (interpolateAndExtrapolate mesh7 xcube CELL_XLOW false)
    as [r|e] eqn:E.
  2:{ exfalso. apply (f_equal succeeds) in E. vm_compute in E. discriminate E. }
  assert (Hc : corner_cell mesh7 1 5).
  { exists 1, 1. cbn. repeat split; try lia; auto. }
  exists r. split; [reflexivity|]. split; [exact Hc|].
  exact (corner_guard_cells_are_NaN mesh7 xcube CELL_XLOW false r 1 5 E Hc).
Defined.

(** X2.  Outside the corner blocks, the layers of the boundary positions and
    the branch-cut rows, the field [interpolateAndExtrapolate] returns
    holds what [interp_to] and the halo exchange gave: nothing else is
    written.  In particular the row [y = 0] below a branch cut is not
    extrapolated. *)
Theorem guard_cell_fill_writes_nothing_else {T} {ops : BoutRealOps T}
    (m : @Mesh T) (f : @Field2D T) (loc : CELL_LOC) (flag : bool)
    (r : @Field2D T) (x y : Z) :
  interpolateAndExtrapolate m f loc flag = Ok r ->
  ~ corner_cell m x y ->
  (forall b p, In b (getBoundaries m) -> In p (bndry_positions b) ->
     ~ written_by loc b p x y) ->
  (flag = true -> ~ branch_cut_cell m loc x y) ->
  r x y = communicate m (interp_to m f loc RGN_NOBNDRY) x y.
Proof.
  unfold interpolateAndExtrapolate. cbv zeta. intros H Hc Hb Hbc.
  destruct (extrapolate_boundaries m loc f _) as [R1|e] eqn:E;
    cbn [rbind] in H; [|discriminate H].
  injection H as <-.
  rewrite (proj2 (set_corner_guard_cells_spec m _ x y) Hc).
  rewrite <- (extrapolate_boundaries_frame m loc f _ R1 x y E Hb).
  destruct flag; [|reflexivity].
  apply extrapolate_branch_cut_frame. apply Hbc. reflexivity.
Qed.

Lemma guard_cell_fill_writes_nothing_else_witness :
  exists r,
    interpolateAndExtrapolate mesh7 xcube CELL_XLOW false = Ok r
    /\ r 3 3
       = communicate mesh7 (interp_to mesh7 xcube CELL_XLOW RGN_NOBNDRY) 3 3.
Proof.
  destruct (interpolateAndExtrapolate mesh7 xcube CELL_XLOW false)
    as [r|e] eqn:E.
  2:{ exfalso. apply (f_equal succeeds) in E. vm_compute in E. discriminate E. }
  exists r. split; [reflexivity|].
  apply (guard_cell_fill_writes_nothing_else mesh7 xcube CELL_XLOW false r 3 3 E).
  - intros (i & j & Hi & Hj & Hx & Hy). cbn in *. lia.
  - intros b p Hb Hp (i & Hi & Hx & Hy).
    cbn in Hb.
    destruct Hb as [<-|[<-|[<-|[<-|[]]]]]; cbn in Hp;
      repeat (destruct Hp as [<-|Hp]; [cbn in *; lia|]); destruct Hp.
  - discriminate.
Defined.

(** X3.  Whether [interpolateAndExtrapolate] throws is decided by the mesh
    alone: it throws exactly when some boundary with at least one position
    asks for the cubic rule while the processor holds a single point and a
    single guard cell along its normal; the field, the target location and
    the branch-cut flag play no part. *)
Theorem guard_cell_fill_fails_by_mesh_only {T} {ops : BoutRealOps T}
    (m : @Mesh T) (f : @Field2D T) (loc : CELL_LOC) (flag : bool) :
  (succeeds (interpolateAndExtrapolate m f loc flag) = false
   <-> exists b, In b (getBoundaries m) /\ bndry_positions b <> []
                 /\ enough_points m b = true
                 /\ (single_point_x m b \/ single_point_y m b))
  /\ (forall (f' : @Field2D T) (loc' : CELL_LOC) (flag' : bool),
        succeeds (interpolateAndExtrapolate m f' loc' flag')
        = succeeds (interpolateAndExtrapolate m f loc flag)).
Proof.
  split.
  2:{ intros f' loc' flag'. rewrite !interpolateAndExtrapolate_succeeds.
      reflexivity. }
  rewrite interpolateAndExtrapolate_succeeds.
  assert (Hb : forall b,
            negb (starved m b) || no_positions b = false
            <-> bndry_positions b <> [] /\ enough_points m b = true
                /\ (single_point_x m b \/ single_point_y m b)).
  { intro b. unfold starved, no_positions, single_point_x, single_point_y.
    destruct (bndry_positions b) as [|p ps];
      [rewrite orb_true_r; split; [discriminate|intros [H _]; congruence]|].
    rewrite orb_false_r, negb_false_iff, andb_true_iff, orb_true_iff,
      !andb_true_iff, !negb_true_iff, !Z.eqb_eq, !Z.eqb_neq.
    split.
    - intros (He & Hs). split; [discriminate|]. split; [exact He|tauto].
    - intros (_ & He & Hs). split; [exact He|tauto]. }
  split.
  - intro H.
    induction (getBoundaries m) as [|b bs IH]; cbn [forallb] in H;
      [discriminate H|].
    apply andb_false_iff in H. destruct H as [H|H].
    + exists b. split; [left; reflexivity|]. apply Hb, H.
    + destruct (IH H) as (b' & Hin & Hrest).
      exists b'. split; [right; exact Hin|exact Hrest].
  - intros (b & Hin & Hrest). apply Hb in Hrest.
    induction (getBoundaries m) as [|b0 bs IH]; [destruct Hin|].
    cbn [forallb]. apply andb_false_iff. destruct Hin as [->|Hin].
    + left. exact Hrest.
    + right. exact (IH Hin).
Qed.

(** ** Accuracy of the boundary formulas, in exact arithmetic *)

(** X4.  The boundary point is interpolated exactly for every profile that is
    a cubic of the layer index along the normal: the four-point formula
    returns the value of the cubic half a cell towards the interior. *)
Theorem boundary_interpolation_exact_for_cubics (f result : @Field2D R)
    (b : BoundaryRegion) (x y : Z) (a0 a1 a2 a3 : R) :
  (forall i, -2 <= i <= 1 ->
     at_layer f b x y i
     = (a3 * IZR i * IZR i * IZR i + a2 * IZR i * IZR i + a1 * IZR i + a0)%R) ->
  interpolate_bndry_point f result b x y x y
  = (a3 * (- / 2) * (- / 2) * (- / 2) + a2 * (- / 2) * (- / 2)
     + a1 * (- / 2) + a0)%R.
Proof.
  intro H. rewrite interpolate_bndry_point_eq.
  replace (x + 0 * bndry_bx b) with x by lia.
  replace (y + 0 * bndry_by b) with y by lia.
  rewrite assign_same. unfold four_point_average.
  rewrite (H (-1)), (H 0), (H (-2)), (H 1) by lia.
  cbn [radd rsub rmul rdiv r9 r16 exact]. field.
Qed.

Lemma boundary_interpolation_exact_for_cubics_witness :
  interpolate_bndry_point xcube_exact xsquare_exact exact_outer_x 5 3 5 3
  = (1 * (- / 2) * (- / 2) * (- / 2) + 15 * (- / 2) * (- / 2)
     + 75 * (- / 2) + 125)%R.
Proof.
  apply (boundary_interpolation_exact_for_cubics xcube_exact xsquare_exact
           exact_outer_x 5 3 125 75 15 1).
  intros i Hi. unfold at_layer, xcube_exact, exact_outer_x. cbn.
  rewrite plus_IZR, mult_IZR. ring.
Defined.

(** X5.  The cubic rule continues every profile that is a quadratic of the
    layer index along the normal without error: the guard cells it fills
    lie on the same quadratic as the three layers it starts from. *)
Theorem cubic_extrapolation_exact_for_quadratics (m : @Mesh R)
    (loc : CELL_LOC) (f : @Field2D R) (b : BoundaryRegion)
    (result : @Field2D R) (x y : Z) (r : @Field2D R) (a0 a1 a2 : R) :
  extrap_start loc b = 0 ->
  enough_points m b = true ->
  extrapolate_at m loc f b result (x, y) = Ok r ->
  (forall i, -3 <= i < 0 ->
     at_layer result b x y i = (a2 * IZR i * IZR i + a1 * IZR i + a0)%R) ->
  forall i, -3 <= i < bndry_width b ->
    at_layer r b x y i = (a2 * IZR i * IZR i + a1 * IZR i + a0)%R.
Proof.
  intros Hs He Hr Hq.
  assert (Er : r = fold_left (extrapolate_cubic_step b x y)
                     (range 0 (bndry_width b)) result).
  { unfold extrapolate_at in Hr. cbv zeta in Hr. rewrite Hs, He in Hr.
    cbn [Z.gtb Z.compare] in Hr.
    repeat match type of Hr with
           | (if ?c then _ else _) = Ok _ => destruct c; try discriminate Hr
           end.
    injection Hr as <-. reflexivity. }
  rewrite (range_as_nat 0 (bndry_width b)) in Er.
  destruct (extrapolate_cubic_spec b x y 0 (Z.to_nat (bndry_width b - 0)) result
              (enough_points_normal m b He)) as [Hcubic Hold].
  rewrite <- Er in Hcubic, Hold.
  assert (Hall : forall n : nat, forall i,
            -3 <= i < -3 + Z.of_nat n -> i < bndry_width b ->
            at_layer r b x y i
            = (a2 * IZR i * IZR i + a1 * IZR i + a0)%R).
  { induction n as [|n IH]; intros i Hi Hw; [lia|].
    destruct (Z_lt_dec i 0) as [Hneg|Hpos].
    - rewrite Hold by exact Hneg. apply Hq. lia.
    - assert (Hc : cubic_rule r b x y i) by (apply Hcubic; lia).
      unfold cubic_rule in Hc. rewrite Hc.
      assert (Hrange : i = -3 + Z.of_nat n \/ i < -3 + Z.of_nat n) by lia.
      rewrite (IH (i - 1)), (IH (i - 2)), (IH (i - 3)) by lia.
      rewrite !minus_IZR. cbn [radd rsub rmul r3 exact]. ring. }
  intros i Hi. apply (Hall (Z.to_nat (i + 4))); lia.
Qed.

Lemma cubic_extrapolation_exact_for_quadratics_witness :
  exists r,
    extrapolate_at exact_mesh7 CELL_CENTRE xsquare_exact exact_outer_x
      xsquare_exact (5, 3) = Ok r
    /\ at_layer r exact_outer_x 5 3 1 = (1 * 1 * 1 + 10 * 1 + 25)%R.
Proof.
  eexists. split; [reflexivity|].
  apply (cubic_extrapolation_exact_for_quadratics exact_mesh7 CELL_CENTRE
           xsquare_exact exact_outer_x xsquare_exact 5 3 _ 25 10 1);
    try reflexivity; [|cbn; lia].
  intros i Hi. unfold at_layer, xsquare_exact, exact_outer_x. cbn.
  rewrite plus_IZR, mult_IZR. ring.
Defined.

(** ** Jacobian and connection in exact arithmetic *)

Lemma Rltb_false (a b : R) : (b <= a)%R -> Rltb a b = false.
Proof. intro H. unfold Rltb. destruct (Rlt_dec a b); [lra|reflexivity]. Qed.

Lemma Rltb_false_inv (a b : R) : Rltb a b = false -> (b <= a)%R.
Proof. unfold Rltb. destruct (Rlt_dec a b); [discriminate|lra]. Qed.

Lemma Rleb_false (a b : R) : (b < a)%R -> Rleb a b = false.
Proof. intro H. unfold Rleb. destruct (Rle_dec a b); [lra|reflexivity]. Qed.

Lemma min_over_exact_le (pts : list (Z * Z)) (f : @Field2D R) (p : Z * Z) :
  In p pts -> (min_over pts f <= f (fst p) (snd p))%R.
Proof.
  assert (Hfold : forall ps acc,
            let r := fold_left
                       (fun acc q => if (f (fst q) (snd q) <? acc)%B
                                     then f (fst q) (snd q) else acc) ps acc in
            (r <= acc)%R /\ forall q, In q ps -> (r <= f (fst q) (snd q))%R).
  { induction ps as [|q ps IH]; intro acc; cbn [fold_left].
    - split; [lra|intros q []].
    - cbv zeta in IH.
      match goal with
      | |- context [fold_left ?g ps ?a] =>
          destruct (IH a) as [H1 H2]
      end.
      cbn [rltb exact] in *. unfold Rltb in *.
      destruct (Rlt_dec (f (fst q) (snd q)) acc) as [Hlt|Hge].
      + split; [lra|]. intros q' [<-|Hq']; [exact H1|exact (H2 q' Hq')].
      + split; [exact H1|]. intros q' [<-|Hq']; [lra|exact (H2 q' Hq')]. }
  intro Hin. destruct pts as [|p0 ps]; [destruct Hin|].
  cbn [min_over]. destruct (Hfold ps (f (fst p0) (snd p0))) as [H1 H2].
  destruct Hin as [<-|Hin]; [exact H1|exact (H2 p Hin)].
Qed.

Lemma finite_exact (m : @Mesh R) (f : @Field2D R) (rgn : REGION) :
  finite m f rgn = true.
Proof. unfold finite. apply forallb_forall. reflexivity. Qed.

(** X6.  In exact arithmetic a Jacobian that [jacobian] accepts is the inverse
    square root of the determinant: at every point the reductions range
    over where the determinant of [g^ij] is not zero, the determinant is
    positive, [J] is positive, [J^2 det = 1] and [Bxy J = sqrt g_22].
    (Where the determinant is zero the program divides by zero, which
    real arithmetic does not describe.) *)
Theorem jacobian_exact_relations (rgn : REGION) (c c' : @Coordinates R)
    (x y : Z) :
  jacobian rgn c = Ok c' ->
  In (x, y) (region (localmesh c) rgn) ->
  det_at c x y <> 0%R ->
  (0 < det_at c x y /\ 0 < J c' x y
   /\ J c' x y * J c' x y * det_at c x y = 1
   /\ 0 <= g_22 c x y
   /\ Bxy c' x y * J c' x y = R_sqrt.sqrt (g_22 c x y))%R.
Proof.
  intros H Hin Hnz. rewrite jacobian_cases in H. cbv zeta in H.
  destruct (min rgn (localmesh c) (jacobian_det c) <? r0)%B eqn:E1;
    [discriminate H|].
  destruct (negb (finite _ _ _)); [discriminate H|].
  destruct (min rgn (localmesh c) (fabs _) <? r1em10)%B eqn:E3;
    [discriminate H|].
  destruct (min rgn (localmesh c) (g_22 c) <? r0)%B eqn:E4;
    [discriminate H|].
  injection H as <-.
  apply Rltb_false_inv in E1, E3, E4.
  pose proof (min_over_exact_le _ (jacobian_det c) (x, y) Hin) as L1.
  pose proof (min_over_exact_le _
                (fabs (sdiv r1 (fsqrt (jacobian_det c)))) (x, y) Hin) as L3.
  pose proof (min_over_exact_le _ (g_22 c) (x, y) Hin) as L4.
  unfold min in E1, E3, E4. cbn [fst snd] in L1, L3, L4.
  rewrite jacobian_det_at in L1.
  change (fabs (sdiv r1 (fsqrt (jacobian_det c))) x y)
    with (Rabs (1 / R_sqrt.sqrt (jacobian_det c x y))) in L3.
  rewrite jacobian_det_at in L3.
  unfold set_J_Bxy. cbn [J Bxy].
  unfold sdiv, fdiv, fsqrt, fmap1, fmap2. cbn [fval].
  rewrite !jacobian_det_at.
  cbn [r0 r1 r1em10 rdiv rsqrt exact] in *.
  set (d := det_at c x y) in *.
  assert (Hd : (0 < d)%R).
  { destruct (Rtotal_order d 0) as [Hlt|[E0|Hgt]];
      [lra|contradiction|exact Hgt]. }
  assert (Hs : (0 < R_sqrt.sqrt d)%R) by (apply R_sqrt.sqrt_lt_R0; exact Hd).
  assert (Hss : (R_sqrt.sqrt d * R_sqrt.sqrt d = d)%R) by (apply R_sqrt.sqrt_sqrt; lra).
  split; [exact Hd|]. split.
  { apply Rdiv_lt_0_compat; lra. }
  split.
  { rewrite <- Hss at 3. field. lra. }
  split; [lra|]. field. lra.
Qed.

Lemma exact_mesh7_wf : mesh_wf exact_mesh7.
Proof. unfold mesh_wf. cbn. lia. Qed.

Lemma sqrt_4 : R_sqrt.sqrt 4 = 2%R.
Proof.
  replace 4%R with (2 * 2)%R by ring. apply R_sqrt.sqrt_square. lra.
Qed.

Lemma jacobian_stretched :
  exists c', jacobian RGN_NOBNDRY stretched_exact = Ok c'.
Proof.
  rewrite jacobian_cases. cbv zeta. unfold min.
  rewrite (min_over_const_all _ (jacobian_det stretched_exact) 4%R)
    by (intros; cbn; ring).
  rewrite (min_over_const_all _ (g_22 stretched_exact) 1%R)
    by (intros; reflexivity).
  rewrite (min_over_const_all _
             (fabs (sdiv r1 (fsqrt (jacobian_det stretched_exact))))
             (/ 2)%R).
  2:{ intros x y. cbn.
      replace (4 * 1 * 1 + 2 * 0 * 0 * 0 - 4 * 0 * 0 - 1 * 0 * 0 - 1 * 0 * 0)%R
        with 4%R by ring.
      rewrite sqrt_4. rewrite Rabs_pos_eq by lra. lra. }
  rewrite finite_exact. cbn [negb rltb r0 r1em10 exact].
  rewrite !Rltb_false by lra.
  eexists. reflexivity.
Qed.

Lemma jacobian_exact_relations_witness :
  exists c',
    jacobian RGN_NOBNDRY stretched_exact = Ok c'
    /\ In (3, 3) (region (localmesh stretched_exact) RGN_NOBNDRY)
    /\ (J c' 3%Z 3%Z * J c' 3%Z 3%Z * det_at stretched_exact 3%Z 3%Z = 1)%R.
Proof.
  destruct jacobian_stretched as (c' & H).
  assert (Hin : In (3, 3) (region (localmesh stretched_exact) RGN_NOBNDRY))
    by (apply in_region_nobndry; cbn; lia).
  exists c'. split; [exact H|]. split; [exact Hin|].
  assert (Hnz : det_at stretched_exact 3 3 <> 0%R) by (cbn; lra).
  exact (proj1 (proj2 (proj2
           (jacobian_exact_relations RGN_NOBNDRY stretched_exact c' 3 3 H Hin
              Hnz)))).
Defined.

Lemma geometry_connection_exact (c : @Coordinates R) (x y : Z) :
  (forall f : @Field2D R,
     In f [g_11 c; g_22 c; g_33 c; g_12 c; g_13 c; g_23 c; g23 c;
           fmul (J c) (g11 c); fmul (J c) (g22 c); fmul (J c) (g33 c);
           fmul (J c) (g12 c); fmul (J c) (g13 c); fmul (J c) (g23 c)] ->
     indexDDX (localmesh c) f CELL_DEFAULT DIFF_DEFAULT RGN_NOBNDRY x y = 0%R
     /\ indexDDY (localmesh c) f CELL_DEFAULT DIFF_DEFAULT RGN_NOBNDRY x y
        = 0%R) ->
  connection_vanishes_at (geometry_connection c) x y.
Proof.
  intro HD.
  destruct (HD (g_11 c) ltac:(simpl; tauto)) as [? ?].
  destruct (HD (g_22 c) ltac:(simpl; tauto)) as [? ?].
  destruct (HD (g_33 c) ltac:(simpl; tauto)) as [? ?].
  destruct (HD (g_12 c) ltac:(simpl; tauto)) as [? ?].
  destruct (HD (g_13 c) ltac:(simpl; tauto)) as [? ?].
  destruct (HD (g_23 c) ltac:(simpl; tauto)) as [? ?].
  destruct (HD (g23 c) ltac:(simpl; tauto)) as [? ?].
  destruct (HD (fmul (J c) (g11 c)) ltac:(simpl; tauto)) as [? ?].
  destruct (HD (fmul (J c) (g22 c)) ltac:(simpl; tauto)) as [? ?].
  destruct (HD (fmul (J c) (g33 c)) ltac:(simpl; tauto)) as [? ?].
  destruct (HD (fmul (J c) (g12 c)) ltac:(simpl; tauto)) as [? ?].
  destruct (HD (fmul (J c) (g13 c)) ltac:(simpl; tauto)) as [? ?].
  destruct (HD (fmul (J c) (g23 c)) ltac:(simpl; tauto)) as [? ?].
  clear HD.
  unfold connection_vanishes_at, geometry_connection. cbn.
  repeat match goal with H : _ = _ |- _ => rewrite H; clear H end.
  unfold Rdiv. repeat split; ring.
Qed.

(** X7.  In exact arithmetic a metric that is constant over the grid, whatever
    its components, has no connection: when the Jacobian and the spacings
    [dx] and [dy] are nowhere zero on the grid (the three values the
    connection terms divide by), the differencing engine annihilates grid
    constants and the halo exchange keeps zero fields, all 18 coefficients
    and the 3 contracted terms that [geometry] stores vanish at every grid
    point. *)
Theorem constant_metric_has_no_connection (rgn : REGION)
    (c c' : @Coordinates R) :
  geometry rgn c = Ok c' ->
  constant_metric c ->
  (forall x y, on_grid (localmesh c) x y ->
     J c x y <> 0%R /\ dx c x y <> 0%R /\ dy c x y <> 0%R) ->
  annihilates_grid_constants (localmesh c) ->
  exchange_keeps_zero (localmesh c) ->
  forall x y, on_grid (localmesh c) x y -> connection_vanishes_at c' x y.
Proof.
  intros H Hc Hnz Hann Hcomm.
  unfold geometry in H.
  destruct (geometry_checks rgn c); cbn [rbind] in H; [|discriminate H].
  injection H as <-.
  unfold constant_metric in Hc.
  repeat match goal with
         | H : Forall _ (_ :: _) |- _ =>
             let Hh := fresh "K" in
             apply Forall_cons_iff in H; destruct H as [Hh H]
         end.
  assert (Hprod : forall g : @Field2D R,
            constant_on_grid (localmesh c) g ->
            constant_on_grid (localmesh c) (fmul (J c) g)).
  { intros g (v & Hv).
    match goal with
    | HJ : constant_on_grid _ (J c) |- _ => destruct HJ as (j & Hj)
    end.
    exists (j * v)%R. intros x y Hxy.
    change ((J c x y * g x y)%R = (j * v)%R).
    rewrite (Hj x y Hxy), (Hv x y Hxy). reflexivity. }
  assert (Hconn : forall x y, on_grid (localmesh c) x y ->
            connection_vanishes_at (geometry_connection c) x y).
  { intros x y Hxy. apply geometry_connection_exact.
    intros f Hf. apply (Hann f); [|exact Hxy].
    cbn [In] in Hf.
    repeat (destruct Hf as [<-|Hf]; [first [assumption|apply Hprod; assumption]|]).
    destruct Hf. }
  intros x y Hxy.
  unfold connection_vanishes_at.
  cbn [geometry_non_uniform geometry_communicate set_non_uniform set_connection
       G1_11 G1_22 G1_33 G1_12 G1_13 G1_23 G2_11 G2_22 G2_33 G2_12 G2_13 G2_23
       G3_11 G3_22 G3_33 G3_12 G3_13 G3_23 G1 G2 G3 localmesh].
  repeat split;
    (apply Hcomm; [|exact Hxy]; intros x' y' H'; apply (Hconn x' y' H')).
Qed.

Lemma exact_mesh7_annihilates : annihilates_grid_constants exact_mesh7.
Proof.
  intros f (v & Hv) x y Hxy. unfold on_grid in *. cbn in *.
  change (7 - 2 - 1) with 4.
  destruct (inside 2 4 2 4 x y) eqn:E; [|split; reflexivity].
  unfold inside in E. rewrite !andb_true_iff, !Z.leb_le in E.
  rewrite !Hv by lia. split; field.
Qed.

Lemma geometry_checks_stretched :
  geometry_checks RGN_NOBNDRY stretched_exact = Ok tt.
Proof.
  unfold geometry_checks. cbv zeta. unfold min.
  rewrite !finite_exact.
  rewrite (min_over_const_all _ (fabs (dx stretched_exact)) 1%R)
    by (intros; cbn; apply Rabs_R1).
  rewrite (min_over_const_all _ (fabs (dy stretched_exact)) 1%R)
    by (intros; cbn; apply Rabs_R1).
  rewrite (min_over_const_all _ (g11 stretched_exact) 4%R)
    by (intros; reflexivity).
  rewrite (min_over_const_all _ (g22 stretched_exact) 1%R)
    by (intros; reflexivity).
  rewrite (min_over_const_all _ (g33 stretched_exact) 1%R)
    by (intros; reflexivity).
  rewrite (min_over_const_all _ (g_11 stretched_exact) (/ 4)%R)
    by (intros; reflexivity).
  rewrite (min_over_const_all _ (g_22 stretched_exact) 1%R)
    by (intros; reflexivity).
  rewrite (min_over_const_all _ (g_33 stretched_exact) 1%R)
    by (intros; reflexivity).
  cbn [dz stretched_exact set_J_Bxy set_covariant set_contravariant
       set_spacing rabs rltb rleb r0 r1em8 exact negb orb].
  rewrite Rabs_R1.
  rewrite !Rltb_false, !Rleb_false by lra. reflexivity.
Qed.

Lemma constant_metric_has_no_connection_witness :
  exists c',
    geometry RGN_NOBNDRY stretched_exact = Ok c'
    /\ constant_metric stretched_exact
    /\ G1_11 c' 3 3 = 0%R /\ G2_22 c' 3 3 = 0%R /\ G1 c' 3 3 = 0%R.
Proof.
  assert (H : geometry RGN_NOBNDRY stretched_exact
              = Ok (geometry_non_uniform
                      (geometry_communicate
                         (geometry_connection stretched_exact)))).
  { unfold geometry. rewrite geometry_checks_stretched. reflexivity. }
  assert (Hc : constant_metric stretched_exact).
  { unfold constant_metric.
    repeat (apply List.Forall_cons;
            [unfold constant_on_grid; eexists; intros; cbn; reflexivity|]).
    apply List.Forall_nil. }
  eexists. split; [exact H|]. split; [exact Hc|].
  assert (Hg : on_grid (localmesh stretched_exact) 3 3)
    by (unfold on_grid; cbn; lia).
  assert (Hnz : forall x y, on_grid (localmesh stretched_exact) x y ->
            J stretched_exact x y <> 0%R /\ dx stretched_exact x y <> 0%R
            /\ dy stretched_exact x y <> 0%R)
    by (intros x y _; cbn; repeat split; lra).
  pose proof (constant_metric_has_no_connection RGN_NOBNDRY stretched_exact _
                H Hc Hnz exact_mesh7_annihilates
                (fun f Hf x y Hxy => Hf x y Hxy) 3 3 Hg) as V.
  unfold connection_vanishes_at in V. tauto.
Defined.

(** ** Return codes of the metric inversion *)

Section InversionCodes.

Context {T : Type} {ops : BoutRealOps T}.

Lemma calcCovariant_loop_code (pts : list (Z * Z)) (c : @Coordinates T) :
  fst (calcCovariant_loop pts c) = if forallb (inverts c) pts then 0 else 1.
Proof.
  revert c. induction pts as [|[jx jy] rest IH]; intro c;
    cbn [calcCovariant_loop forallb]; [reflexivity|].
  unfold inverts at 1. cbn [fst snd]. unfold contravariant_at at 1.
  destruct (invert3x3 _) as [err a]. cbn [fst].
  destruct (err =? 0); cbn [negb andb]; [|reflexivity].
  rewrite IH. reflexivity.
Qed.

Lemma calcContravariant_loop_code (pts : list (Z * Z)) (c : @Coordinates T) :
  fst (calcContravariant_loop pts c)
  = if forallb (inverts_back c) pts then 0 else 1.
Proof.
  revert c. induction pts as [|[jx jy] rest IH]; intro c;
    cbn [calcContravariant_loop forallb]; [reflexivity|].
  unfold inverts_back at 1. cbn [fst snd]. unfold covariant_at at 1.
  destruct (invert3x3 _) as [err a]. cbn [fst].
  destruct (err =? 0); cbn [negb andb]; [|reflexivity].
  rewrite IH. reflexivity.
Qed.

Lemma calcContravariant_loop_frame (pts : list (Z * Z)) (c : @Coordinates T) :
  exists n11 n22 n33 n12 n13 n23 : @Field2D T,
    snd (calcContravariant_loop pts c)
    = set_contravariant c n11 n22 n33 n12 n13 n23.
Proof.
  revert c. induction pts as [|[jx jy] rest IH]; intro c.
  - exists (g11 c), (g22 c), (g33 c), (g12 c), (g13 c), (g23 c).
    destruct c; reflexivity.
  - cbn [calcContravariant_loop].
    destruct (invert3x3 _) as [err a].
    destruct (negb (err =? 0)).
    + exists (g11 c), (g22 c), (g33 c), (g12 c), (g13 c), (g23 c).
      destruct c; reflexivity.
    + destruct (IH (set_contravariant c
                      (assign (g11 c) jx jy (a00 a))
                      (assign (g22 c) jx jy (a11 a))
                      (assign (g33 c) jx jy (a22 a))
                      (assign (g12 c) jx jy (a01 a))
                      (assign (g13 c) jx jy (a02 a))
                      (assign (g23 c) jx jy (a12 a))))
        as (n11 & n22 & n33 & n12 & n13 & n23 & E).
      exists n11, n22, n33, n12, n13, n23. rewrite E. reflexivity.
Qed.

Lemma forallb_grid (m : @Mesh T) (P : Z * Z -> bool) :
  forallb P (region m RGN_ALL) = true
  <-> forall x y, on_grid m x y -> P (x, y) = true.
Proof.
  rewrite forallb_forall. split.
  - intros H x y Hxy. apply H, in_region_all, Hxy.
  - intros H [x y] Hin. apply H, in_region_all, Hin.
Qed.

Lemma forallb_false_first {A} (P : A -> bool) (l : list A) :
  forallb P l = false ->
  exists l1 p l2, l = (l1 ++ p :: l2)%list
                  /\ forallb P l1 = true /\ P p = false.
Proof.
  induction l as [|a l IH]; cbn [forallb]; [discriminate|].
  destruct (P a) eqn:Ea; cbn [andb].
  - intro H. destruct (IH H) as (l1 & p & l2 & -> & H1 & Hp).
    exists (a :: l1), p, l2. cbn [forallb]. rewrite Ea.
    repeat split; assumption.
  - intros _. exists [], a, l. repeat split. exact Ea.
Qed.

Lemma calcCovariant_loop_app (l1 l2 : list (Z * Z)) (c : @Coordinates T) :
  forallb (inverts c) l1 = true ->
  calcCovariant_loop (l1 ++ l2) c
  = calcCovariant_loop l2 (snd (calcCovariant_loop l1 c)).
Proof.
  revert c. induction l1 as [|[jx jy] l1 IH]; intros c H;
    cbn [app calcCovariant_loop forallb] in *; [reflexivity|].
  apply andb_true_iff in H. destruct H as [Hp H].
  unfold inverts in Hp. cbn [fst snd] in Hp. unfold contravariant_at in Hp.
  destruct (invert3x3 _) as [err a]. cbn [fst] in Hp. rewrite Hp.
  cbn [negb]. apply IH. exact H.
Qed.

End InversionCodes.

(** X8.  [calcCovariant] and [calcContravariant] return 1 exactly when the
    inversion is reported singular at some point of the local grid and 0
    otherwise, and in either case change nothing but the components they
    compute. *)
Theorem metric_inversion_return_code {T} {ops : BoutRealOps T}
    (c : @Coordinates T) :
  (fst (calcCovariant c)
   = if forallb (inverts c) (region (localmesh c) RGN_ALL) then 0 else 1)
  /\ (fst (calcCovariant c) = 0
      <-> forall x y, on_grid (localmesh c) x y ->
            fst (invert3x3 (contravariant_at c x y)) = 0)
  /\ (exists n11 n22 n33 n12 n13 n23 : @Field2D T,
        snd (calcCovariant c) = set_covariant c n11 n22 n33 n12 n13 n23)
  /\ (fst (calcContravariant c)
      = if forallb (inverts_back c) (region (localmesh c) RGN_ALL)
        then 0 else 1)
  /\ (fst (calcContravariant c) = 0
      <-> forall x y, on_grid (localmesh c) x y ->
            fst (invert3x3 (covariant_at c x y)) = 0)
  /\ (exists n11 n22 n33 n12 n13 n23 : @Field2D T,
        snd (calcContravariant c)
        = set_contravariant c n11 n22 n33 n12 n13 n23).
Proof.
  assert (Hcode : fst (calcCovariant c)
                  = if forallb (inverts c) (region (localmesh c) RGN_ALL)
                    then 0 else 1).
  { unfold calcCovariant. cbv zeta. rewrite calcCovariant_loop_code.
    reflexivity. }
  assert (Hback : fst (calcContravariant c)
                  = if forallb (inverts_back c) (region (localmesh c) RGN_ALL)
                    then 0 else 1).
  { unfold calcContravariant. apply calcContravariant_loop_code. }
  split; [exact Hcode|]. split.
  { rewrite Hcode.
    pose proof (forallb_grid (localmesh c) (inverts c)) as G.
    clear Hcode Hback.
    destruct (forallb (inverts c) _).
    - split; [|reflexivity]. intros _ x y Hxy.
      apply Z.eqb_eq. exact (proj1 G eq_refl x y Hxy).
    - split; [discriminate|]. intro H.
      assert (E : false = true); [|discriminate E].
      apply (proj2 G). intros x y Hxy. apply Z.eqb_eq. exact (H x y Hxy). }
  split.
  { unfold calcCovariant. cbv zeta.
    set (c0 := set_covariant c _ _ _ _ _ _).
    destruct (calcCovariant_loop_frame (region (localmesh c0) RGN_ALL) c0)
      as (n11 & n22 & n33 & n12 & n13 & n23 & E).
    exists n11, n22, n33, n12, n13, n23. rewrite E. reflexivity. }
  split; [exact Hback|]. split.
  { rewrite Hback.
    pose proof (forallb_grid (localmesh c) (inverts_back c)) as G.
    clear Hcode Hback.
    destruct (forallb (inverts_back c) _).
    - split; [|reflexivity]. intros _ x y Hxy.
      apply Z.eqb_eq. exact (proj1 G eq_refl x y Hxy).
    - split; [discriminate|]. intro H.
      assert (E : false = true); [|discriminate E].
      apply (proj2 G). intros x y Hxy. apply Z.eqb_eq. exact (H x y Hxy). }
  unfold calcContravariant. apply calcContravariant_loop_frame.
Qed.

(** X9.  When [calcCovariant] returns 1 it has stopped at the first singular
    point of its traversal: the points visited before it already hold the
    inverse, every other point holds the covariant components it held
    before the call. *)
Theorem calcCovariant_failure_is_partial {T} {ops : BoutRealOps T}
    (c : @Coordinates T) :
  fst (calcCovariant c) = 1 ->
  exists (before : list (Z * Z)) (p : Z * Z) (rest : list (Z * Z)),
    region (localmesh c) RGN_ALL = (before ++ p :: rest)%list
    /\ (forall q, In q before -> inverts c q = true)
    /\ inverts c p = false
    /\ forall x y,
         (In (x, y) before ->
            covariant_at (snd (calcCovariant c)) x y
            = (let a := snd (invert3x3 (contravariant_at c x y)) in
               symmetric (a00 a) (a11 a) (a22 a) (a01 a) (a02 a) (a12 a)))
         /\ (~ In (x, y) before ->
             covariant_at (snd (calcCovariant c)) x y = covariant_at c x y).
Proof.
  intro H.
  assert (Hcode : forallb (inverts c) (region (localmesh c) RGN_ALL) = false).
  { unfold calcCovariant in H. cbv zeta in H.
    rewrite calcCovariant_loop_code in H.
    change (forallb (inverts c) (region (localmesh c) RGN_ALL))
      with (forallb
              (inverts
                 (set_covariant c
                    (setLocation (g_11 c) (location c))
                    (setLocation (g_22 c) (location c))
                    (setLocation (g_33 c) (location c))
                    (setLocation (g_12 c) (location c))
                    (setLocation (g_13 c) (location c))
                    (setLocation (g_23 c) (location c))))
              (region
                 (localmesh
                    (set_covariant c
                       (setLocation (g_11 c) (location c))
                       (setLocation (g_22 c) (location c))
                       (setLocation (g_33 c) (location c))
                       (setLocation (g_12 c) (location c))
                       (setLocation (g_13 c) (location c))
                       (setLocation (g_23 c) (location c)))) RGN_ALL)).
    destruct (forallb _ _); [discriminate H|reflexivity]. }
  destruct (forallb_false_first _ _ Hcode) as (l1 & p & l2 & Hsplit & H1 & Hp).
  exists l1, p, l2. split; [exact Hsplit|].
  split; [intros q Hq; exact (proj1 (forallb_forall _ _) H1 q Hq)|].
  split; [exact Hp|].
  unfold calcCovariant. cbv zeta.
  set (c0 := set_covariant c _ _ _ _ _ _).
  change (region (localmesh c0) RGN_ALL) with (region (localmesh c) RGN_ALL).
  rewrite Hsplit.
  rewrite (calcCovariant_loop_app l1 (p :: l2) c0) by exact H1.
  destruct (calcCovariant_loop_ok l1 c0)
    as (n11 & n22 & n33 & n12 & n13 & n23 & Hrun & Hval).
  { intros x y Hin. apply Z.eqb_eq.
    exact (proj1 (forallb_forall _ _) H1 (x, y) Hin). }
  rewrite Hrun. cbn [snd].
  destruct p as [px py]. cbn [calcCovariant_loop].
  unfold inverts in Hp. cbn [fst snd] in Hp. unfold contravariant_at in Hp.
  change ((fst (invert3x3
                 (symmetric
                    (g11 (set_covariant c0 n11 n22 n33 n12 n13 n23) px py)
                    (g22 (set_covariant c0 n11 n22 n33 n12 n13 n23) px py)
                    (g33 (set_covariant c0 n11 n22 n33 n12 n13 n23) px py)
                    (g12 (set_covariant c0 n11 n22 n33 n12 n13 n23) px py)
                    (g13 (set_covariant c0 n11 n22 n33 n12 n13 n23) px py)
                    (g23 (set_covariant c0 n11 n22 n33 n12 n13 n23) px py)))
           =? 0) = false) in Hp.
  destruct (invert3x3 _) as [err a]. cbn [fst] in Hp. rewrite Hp.
  cbn [negb snd]. exact Hval.
Qed.

Lemma calcCovariant_failure_is_partial_witness :
  fst (calcCovariant singular7) = 1
  /\ exists (before : list (Z * Z)) (p : Z * Z) (rest : list (Z * Z)),
       region (localmesh singular7) RGN_ALL = (before ++ p :: rest)%list
       /\ inverts singular7 p = false.
Proof.
  assert (H : fst (calcCovariant singular7) = 1) by (vm_compute; reflexivity).
  split; [exact H|].
  destruct (calcCovariant_failure_is_partial singular7 H)
    as (l1 & p & l2 & E & _ & Hp & _).
  exists l1, p, l2. split; [exact E|exact Hp].
Defined.

(** ** The shift field at a branch cut *)

Section ShiftCorrection.

Context {T : Type} {ops : BoutRealOps T}.

Lemma NoDup_range (lo hi : Z) : List.NoDup (range lo hi).
Proof.
  remember (Z.to_nat (hi - lo)) as n eqn:En. revert lo En.
  induction n as [|n IH]; intros lo En.
  - rewrite range_nil by lia. constructor.
  - rewrite range_cons by lia. constructor.
    + rewrite in_range. lia.
    + apply IH. lia.
Qed.

Lemma fold_single_writer {A} (step : @Field2D T -> A -> @Field2D T)
    (l : list A) (R : @Field2D T) (x y : Z) (a : A) :
  List.NoDup l -> In a l ->
  (forall R a', a' <> a -> step R a' x y = R x y) ->
  (forall R R' : @Field2D T, R x y = R' x y -> step R a x y = step R' a x y) ->
  fold_left step l R x y = step R a x y.
Proof.
  intros Hnd Hin Hother Hdep. revert R.
  induction l as [|a0 l IH]; intro R; [destruct Hin|].
  apply List.NoDup_cons_iff in Hnd. destruct Hnd as [Hnot Hnd].
  cbn [fold_left]. destruct Hin as [->|Hin].
  - apply fold_assign_frame. intros R0 a' Ha'. apply Hother.
    intros ->. exact (Hnot Ha').
  - rewrite (IH Hnd Hin). apply Hdep, Hother.
    intros ->. exact (Hnot Hin).
Qed.

(** One column loop of the correction: every cell [(x', y')] with
    [lo <= y' < hi] is replaced by [op] of its value. *)
Lemma column_update (op : T -> T) (x' lo hi : Z) (z : @Field2D T) (x y : Z) :
  fold_left (fun z y' => assign z x' y' (op (z x' y'))) (range lo hi) z x y
  = if decide (x = x' /\ lo <= y < hi) then op (z x y) else z x y.
Proof.
  destruct (decide (x = x' /\ lo <= y < hi)) as [[-> Hin]|Hn].
  - rewrite (fold_single_writer _ (range lo hi) z x' y y (NoDup_range lo hi)).
    + apply assign_same.
    + apply in_range. exact Hin.
    + intros R a' Ha. apply assign_other. congruence.
    + intros R R' E. rewrite !assign_same, E. reflexivity.
  - apply fold_assign_frame. intros R a Ha. apply in_range in Ha.
    apply assign_other.
    intros E. injection E as -> ->. apply Hn. split; [reflexivity|exact Ha].
Qed.

End ShiftCorrection.

(** X10.  With a shift angle that has an entry for every column of the
    local grid, [zShift] is corrected in the y guard cells of the columns
    at a branch cut and nowhere else: the angle of the column is
    subtracted below a lower cut, added above an upper cut, and every
    other cell keeps its value.  Without a shift angle nothing changes. *)
Theorem correct_zShift_cells {T} {ops : BoutRealOps T} (m : @Mesh T)
    (z : @Field2D T) (sa : list T) (x y : Z) :
  correct_zShift m z [] = z
  /\ (sa <> [] -> LocalNx m <= Z.of_nat (length sa) ->
      ystart m <= yend m + 1 ->
      let lower := 0 <= x < LocalNx m /\ hasBranchCutDown m x = true
                   /\ 0 <= y < ystart m in
      let upper := 0 <= x < LocalNx m /\ hasBranchCutUp m x = true
                   /\ yend m + 1 <= y < LocalNy m in
      (lower -> correct_zShift m z sa x y = (z x y - vec_at sa x)%B)
      /\ (upper -> correct_zShift m z sa x y = (z x y + vec_at sa x)%B)
      /\ (~ lower -> ~ upper -> correct_zShift m z sa x y = z x y)).
Proof.
  split; [reflexivity|]. intros Hsa _ Hy. cbv zeta.
  assert (Hunf : correct_zShift m z sa
                 = fold_left
                     (fun (z : @Field2D T) (x : Z) =>
                        let z :=
                          if hasBranchCutDown m x then
                            fold_left
                              (fun z y => assign z x y (z x y - vec_at sa x)%B)
                              (range 0 (ystart m)) z
                          else z in
                        if hasBranchCutUp m x then
                          fold_left
                            (fun z y => assign z x y (z x y + vec_at sa x)%B)
                            (range (yend m + 1) (LocalNy m)) z
                        else z)
                     (range 0 (LocalNx m)) z)
    by (destruct sa; [congruence|reflexivity]).
  rewrite Hunf. clear Hunf Hsa.
  match goal with
  | |- context [fold_left ?f (range 0 (LocalNx m)) z] => set (step := f)
  end.
  assert (Hstep : forall (R : @Field2D T) x',
            step R x' x y
            = let v := if decide (x = x' /\ hasBranchCutDown m x' = true
                                  /\ 0 <= y < ystart m)
                       then (R x y - vec_at sa x')%B else R x y in
              if decide (x = x' /\ hasBranchCutUp m x' = true
                         /\ yend m + 1 <= y < LocalNy m)
              then (v + vec_at sa x')%B else v).
  { intros R x'. unfold step. cbv zeta.
    assert (Hd : (if hasBranchCutDown m x' then
                    fold_left
                      (fun z y => assign z x' y (z x' y - vec_at sa x')%B)
                      (range 0 (ystart m)) R
                  else R) x y
                 = if decide (x = x' /\ hasBranchCutDown m x' = true
                              /\ 0 <= y < ystart m)
                   then (R x y - vec_at sa x')%B else R x y).
    { destruct (hasBranchCutDown m x').
      - rewrite (column_update (fun v => (v - vec_at sa x')%B)).
        repeat destruct (decide _); try reflexivity; exfalso; tauto.
      - destruct (decide _) as [(_ & E & _)|_]; [discriminate E|reflexivity]. }
    destruct (hasBranchCutUp m x').
    - rewrite (column_update (fun v => (v + vec_at sa x')%B)).
      rewrite Hd.
      repeat destruct (decide _); try reflexivity; exfalso; tauto.
    - rewrite Hd.
      destruct (decide (x = x' /\ false = true /\ _)) as [(_ & E & _)|_];
        [discriminate E|reflexivity]. }
  assert (Hfold : fold_left step (range 0 (LocalNx m)) z x y
                  = if decide (0 <= x < LocalNx m) then step z x x y
                    else z x y).
  { destruct (decide (0 <= x < LocalNx m)) as [Hx|Hx].
    - apply fold_single_writer.
      + apply NoDup_range.
      + apply in_range. exact Hx.
      + intros R a' Ha. rewrite Hstep. cbv zeta.
        repeat destruct (decide _); try reflexivity; exfalso; intuition congruence.
      + intros R R' E. rewrite !Hstep. cbv zeta. rewrite E. reflexivity.
    - apply fold_assign_frame. intros R a Ha. apply in_range in Ha.
      rewrite Hstep. cbv zeta.
      repeat destruct (decide _); try reflexivity; exfalso; intuition lia. }
  rewrite Hfold, Hstep. cbv zeta.
  repeat split; intros;
    repeat destruct (decide _); try reflexivity; exfalso; intuition lia.
Qed.

Lemma correct_zShift_cells_witness :
  ycube 3 1 = 1%float
  /\ correct_zShift cut_mesh7 ycube (repeat 0.25%float 7) 3 1 = 0.75%float
  /\ correct_zShift cut_mesh7 ycube (repeat 0.25%float 7) 3 5 = 125.25%float
  /\ correct_zShift cut_mesh7 ycube (repeat 0.25%float 7) 3 3 = ycube 3 3.
Proof.
  destruct (proj2 (correct_zShift_cells cut_mesh7 ycube
                     (repeat 0.25%float 7) 3 1)) as (Hl & _ & _).
  { discriminate. }
  { cbn. lia. }
  { cbn. lia. }
  destruct (proj2 (correct_zShift_cells cut_mesh7 ycube
                     (repeat 0.25%float 7) 3 5)) as (_ & Hu & _).
  { discriminate. }
  { cbn. lia. }
  { cbn. lia. }
  destruct (proj2 (correct_zShift_cells cut_mesh7 ycube
                     (repeat 0.25%float 7) 3 3)) as (_ & _ & Hn).
  { discriminate. }
  { cbn. lia. }
  { cbn. lia. }
  split; [reflexivity|]. split.
  - apply Hl. cbn. repeat split; lia.
  - split.
    + apply Hu. cbn. repeat split; lia.
    + apply Hn; cbn; intros (_ & _ & Hy); lia.
Defined.

(** ** The shift angle of the x-staggered geometry *)

Section ShiftAngleEntries.

Context {T : Type} {ops : BoutRealOps T}.

Lemma length_list_insert (l : list T) (i : nat) (v : T) :
  length (<[ i := v ]> l) = length l.
Proof.
  revert i. induction l as [|a l IH]; intros [|i]; cbn; try reflexivity.
  rewrite IH. reflexivity.
Qed.

Lemma nth_list_insert (l : list T) (i j : nat) (v d : T) :
  nth j (<[ i := v ]> l) d
  = if decide (i = j /\ (i < length l)%nat) then v else nth j l d.
Proof.
  revert i j. induction l as [|a l IH]; intros [|i] [|j]; cbn;
    try (destruct (decide _) as [[? ?]|?]; first [reflexivity|lia|exfalso; lia]).
  rewrite IH.
  repeat destruct (decide _); try reflexivity; exfalso; lia.
Qed.

Lemma fold_insert_entries (g : Z -> T) (d : T) (xs : list Z) (v : list T) :
  (forall a, In a xs -> 0 <= a /\ (Z.to_nat a < length v)%nat) ->
  length (fold_left (fun v x => <[ Z.to_nat x := g x ]> v) xs v) = length v
  /\ forall k, 0 <= k ->
       (In k xs ->
          nth (Z.to_nat k)
            (fold_left (fun v x => <[ Z.to_nat x := g x ]> v) xs v) d = g k)
       /\ (~ In k xs ->
           nth (Z.to_nat k)
             (fold_left (fun v x => <[ Z.to_nat x := g x ]> v) xs v) d
           = nth (Z.to_nat k) v d).
Proof.
  revert v. induction xs as [|a xs IH]; intros v Hr; cbn [fold_left].
  - split; [reflexivity|]. intros k _. split; [intros []|reflexivity].
  - destruct (IH (<[ Z.to_nat a := g a ]> v)) as [Hlen Hval].
    { intros a' Ha'. rewrite length_list_insert. apply Hr. right. exact Ha'. }
    rewrite length_list_insert in Hlen. split; [exact Hlen|].
    intros k Hk. destruct (Hval k Hk) as [Hin Hout].
    destruct (Hr a (or_introl eq_refl)) as [Ha0 Hal].
    assert (Hhere : nth (Z.to_nat k) (<[ Z.to_nat a := g a ]> v) d
                    = if decide (a = k) then g k else nth (Z.to_nat k) v d).
    { rewrite nth_list_insert.
      repeat destruct (decide _); subst; try reflexivity; exfalso; lia. }
    split.
    + intros [->|Hk'].
      * destruct (in_dec Z.eq_dec k xs) as [Hi|Hn]; [exact (Hin Hi)|].
        rewrite (Hout Hn), Hhere. destruct (decide (k = k)); congruence.
      * exact (Hin Hk').
    + intro Hn. rewrite Hout by (intro Hi; apply Hn; right; exact Hi).
      rewrite Hhere. destruct (decide (a = k)) as [->|_]; [|reflexivity].
      exfalso. apply Hn. left. reflexivity.
Qed.

End ShiftAngleEntries.

(** X11.  The shift angle of a staggered geometry is the one of the cell-centred
    geometry unless the target is [CELL_XLOW]; there, for a vector whose
    entries [xstart - 2 .. xend + 1] exist, the result has [LocalNx]
    entries, the stencil value at the interior points and zero in the x
    guard cells. *)
Theorem interpolate_ShiftAngle_entries {T} {ops : BoutRealOps T}
    (m : @Mesh T) (loc : CELL_LOC) (sa : list T) :
  interpolate_ShiftAngle m loc [] = []
  /\ (loc <> CELL_XLOW -> interpolate_ShiftAngle m loc sa = sa)
  /\ (loc = CELL_XLOW -> sa <> [] ->
      2 <= xstart m -> xend m < LocalNx m ->
      xend m + 1 < Z.of_nat (length sa) ->
      length (interpolate_ShiftAngle m loc sa) = Z.to_nat (LocalNx m)
      /\ forall x, 0 <= x < LocalNx m ->
           vec_at (interpolate_ShiftAngle m loc sa) x
           = if decide (xstart m <= x <= xend m)
             then interp m (vec_at sa (x - 2)) (vec_at sa (x - 1))
                           (vec_at sa x) (vec_at sa (x + 1))
             else r0).
Proof.
  split; [reflexivity|]. split.
  { intro Hl. unfold interpolate_ShiftAngle. destruct sa; [reflexivity|].
    destruct (CELL_LOC_eqb loc CELL_XLOW) eqn:E; [|reflexivity].
    apply CELL_LOC_eqb_eq in E. contradiction. }
  intros -> Hsa Hxs Hxe _.
  assert (Hunf : interpolate_ShiftAngle m CELL_XLOW sa
                 = fold_left
                     (fun v x =>
                        <[ Z.to_nat x :=
                             interp m (vec_at sa (x - 2)) (vec_at sa (x - 1))
                                      (vec_at sa x) (vec_at sa (x + 1)) ]> v)
                     (range (xstart m) (xend m + 1))
                     (repeat r0 (Z.to_nat (LocalNx m))))
    by (destruct sa; [congruence|reflexivity]).
  rewrite Hunf. clear Hunf.
  destruct (fold_insert_entries
              (fun x => interp m (vec_at sa (x - 2)) (vec_at sa (x - 1))
                                 (vec_at sa x) (vec_at sa (x + 1)))
              r0 (range (xstart m) (xend m + 1))
              (repeat r0 (Z.to_nat (LocalNx m)))) as [Hlen Hval].
  { intros a Ha. apply in_range in Ha. rewrite repeat_length. lia. }
  rewrite repeat_length in Hlen. split; [exact Hlen|].
  intros x Hx. unfold vec_at at 1.
  destruct (Hval x (proj1 Hx)) as [Hin Hout].
  destruct (decide (xstart m <= x <= xend m)) as [Hi|Hn].
  - apply Hin, in_range. lia.
  - rewrite Hout by (rewrite in_range; lia). apply nth_repeat.
Qed.

Lemma interpolate_ShiftAngle_entries_witness :
  length (interpolate_ShiftAngle mesh7 CELL_XLOW
            [0; 1; 2; 3; 4; 5; 6]%float) = 7%nat
  /\ vec_at (interpolate_ShiftAngle mesh7 CELL_XLOW
               [0; 1; 2; 3; 4; 5; 6]%float) 1 = r0.
Proof.
  destruct (proj2 (proj2 (interpolate_ShiftAngle_entries mesh7 CELL_XLOW
                            [0; 1; 2; 3; 4; 5; 6]%float)))
    as [Hlen Hval]; try reflexivity; try discriminate; try (cbn; lia).
  split; [exact Hlen|].
  rewrite (Hval 1) by (cbn; lia).
  destruct (decide _) as [H|_]; [cbn in H; lia|reflexivity].
Defined.

(** ** The corner interpolation and the two builders *)

(** X12.  [interpXLOWToXYCorner] returns a field exactly when the mesh has two
    guard cells in x and in y, the argument is tagged [CELL_XLOW] and no
    boundary is starved of points; the field values and the flag play no
    part, and the field it returns is tagged [CELL_CENTRE]. *)
Theorem interpXLOWToXYCorner_succeeds_iff {T} {ops : BoutRealOps T}
    (m : @Mesh T) (f : @Field2D T) (flag : bool) :
  succeeds (interpXLOWToXYCorner m f flag)
  = (xstart m >? 1) && (ystart m >? 1)
    && CELL_LOC_eqb (getLocation f) CELL_XLOW
    && forallb (fun b => negb (starved m b) || no_positions b)
               (getBoundaries m)
  /\ forall r, interpXLOWToXYCorner m f flag = Ok r ->
       getLocation r = CELL_CENTRE.
Proof.
  unfold interpXLOWToXYCorner, ASSERT1. cbv zeta.
  destruct ((xstart m >? 1) && (ystart m >? 1));
    cbn [rbind andb succeeds]; [|split; [reflexivity|discriminate]].
  destruct (CELL_LOC_eqb (getLocation f) CELL_XLOW);
    cbn [rbind andb succeeds]; [|split; [reflexivity|discriminate]].
  set (res := setLocation f CELL_CENTRE).
  set (tmp := setLocation _ CELL_CENTRE).
  pose proof (interpolateAndExtrapolate_succeeds m res CELL_YLOW flag) as H1.
  pose proof (interpolateAndExtrapolate_succeeds m tmp CELL_YLOW flag) as H2.
  destruct (interpolateAndExtrapolate m res CELL_YLOW flag) as [r1|e1];
    cbn [rbind succeeds] in *;
    [|split; [exact H1|discriminate]].
  destruct (interpolateAndExtrapolate m tmp CELL_YLOW flag) as [r2|e2];
    cbn [rbind succeeds] in *.
  - split; [exact H1|]. intros r E. injection E as <-. reflexivity.
  - split; [exact H2|discriminate].
Qed.

Lemma derive_geometry_keeps {T} {ops : BoutRealOps T} (rgn : REGION)
    (c c' : @Coordinates T) :
  derive_geometry rgn c = Ok c' ->
  localmesh c' = localmesh c /\ location c' = location c
  /\ dz c' = dz c /\ nz c' = nz c.
Proof.
  unfold derive_geometry, calcCovariant. cbv zeta.
  set (c0 := set_covariant c _ _ _ _ _ _).
  destruct (calcCovariant_loop_frame (region (localmesh c0) RGN_ALL) c0)
    as (n11 & n22 & n33 & n12 & n13 & n23 & E).
  destruct (calcCovariant_loop _ c0) as [err c1]. cbn [snd] in E. subst c1.
  destruct (negb (err =? 0)); [discriminate|].
  rewrite jacobian_cases. cbv zeta.
  repeat match goal with
         | |- rbind (if ?b then _ else _) _ = _ -> _ =>
             destruct b; [discriminate|]
         end.
  cbn [rbind]. unfold geometry.
  destruct (geometry_checks rgn _); [|discriminate].
  cbn [rbind]. intro H. injection H as <-.
  repeat split; reflexivity.
Qed.

(** X13.  What the two builders take over unchanged: the geometry they return
    belongs to the mesh, has [nz] from the mesh and [dz] from the geometry
    it is built from; the staggered one is tagged with the requested
    location and carries the interpolated shift angle, the corner one the
    shift angle of the [CELL_XLOW] geometry. *)
Theorem builders_take_over {T} {ops : BoutRealOps T} (rgn : REGION)
    (m : @Mesh T) (loc : CELL_LOC) (coords_in : @Coordinates T) :
  (forall c, getCoordinatesStaggered rgn m loc coords_in = Ok c ->
     localmesh c = m /\ location c = loc /\ nz c = LocalNz m
     /\ dz c = dz coords_in
     /\ ShiftAngle c = interpolate_ShiftAngle m loc (ShiftAngle coords_in))
  /\ (forall c, getCoordinatesXYCorner rgn m coords_in = Ok c ->
        localmesh c = m /\ nz c = LocalNz m /\ dz c = dz coords_in
        /\ ShiftAngle c = ShiftAngle coords_in).
Proof.
  split; intros c H.
  - unfold getCoordinatesStaggered in H. cbv zeta in H.
    repeat match type of H with
           | rbind ?a _ = Ok _ =>
               let E := fresh "E" in
               destruct a eqn:E; cbn [rbind] in H; [|discriminate H]
           end.
    injection H as <-.
    match goal with
    | E : derive_geometry _ _ = Ok _ |- _ =>
        pose proof (derive_geometry_keeps _ _ _ E) as (K1 & K2 & K3 & K4);
        apply derive_geometry_frame in E;
        destruct E as (_ & Ea & _)
    end.
    cbn [localmesh location nz dz ShiftAngle set_torsion] in *.
    repeat split; assumption.
  - unfold getCoordinatesXYCorner in H. cbv zeta in H.
    repeat match type of H with
           | rbind ?a _ = Ok _ =>
               let E := fresh "E" in
               destruct a eqn:E; cbn [rbind] in H; [|discriminate H]
           end.
    injection H as <-.
    match goal with
    | E : derive_geometry _ _ = Ok _ |- _ =>
        pose proof (derive_geometry_keeps _ _ _ E) as (K1 & K2 & K3 & K4);
        apply derive_geometry_frame in E;
        destruct E as (_ & Ea & _)
    end.
    cbn [localmesh location nz dz ShiftAngle set_torsion] in *.
    repeat split; assumption.
Qed.

(** ** Operators *)



(** ** The perpendicular Laplacian by Fourier transform *)

Lemma fold_left_preserve {S A} (Q : S -> Prop) (step : S -> A -> S)
    (l : list A) (s : S) :
  (forall s a, Q s -> Q (step s a)) -> Q s -> Q (fold_left step l s).
Proof.
  intro Hp. revert s. induction l as [|a l IH]; intros s Hs; cbn [fold_left];
    [exact Hs|apply IH, Hp, Hs].
Qed.

Lemma fold_left_preserve_in {S A} (Q : S -> Prop) (step : S -> A -> S)
    (l : list A) (s : S) :
  (forall s a, In a l -> Q s -> Q (step s a)) -> Q s -> Q (fold_left step l s).
Proof.
  revert s. induction l as [|a l IH]; intros s Hp Hs; cbn [fold_left];
    [exact Hs|].
  apply IH.
  - intros s' a' Hin. apply Hp. right. exact Hin.
  - apply Hp; [left; reflexivity|exact Hs].
Qed.

Lemma fold_left_establish {S A} (Q : S -> Prop) (step : S -> A -> S)
    (l : list A) (s : S) (a : A) :
  In a l -> (forall s, Q (step s a)) ->
  (forall s a', Q s -> Q (step s a')) -> Q (fold_left step l s).
Proof.
  intros Hin He Hp. revert s.
  induction l as [|a0 l IH]; intro s; [destruct Hin|].
  cbn [fold_left]. destruct Hin as [->|Hin].
  - apply fold_left_preserve; [exact Hp|apply He].
  - apply IH, Hin.
Qed.

Section Delp2Properties.

Context {T : Type} {ops : BoutRealOps T}.
Variable dcomplex : Type.
Variables cadd cmul : dcomplex -> dcomplex -> dcomplex.
Variable rfft : (Z -> T) -> Z -> Z -> dcomplex.
Variable irfft : (Z -> dcomplex) -> Z -> Z -> T.
Variable laplace_tridag_coefs :
  Z -> Z -> Z -> CELL_LOC -> dcomplex * dcomplex * dcomplex.
Variable laplace_tridag_coefs_default :
  Z -> Z -> Z -> dcomplex * dcomplex * dcomplex.
Variable GlobalNz : @Mesh T -> Z.
Variable CHECK : Z.
Variable Field3D_allocated : Z -> Z -> Z -> T.
Variable FieldPerp_allocated : Z -> Z -> T.
Variables ft_allocated delft_allocated : Z -> Z -> dcomplex.

Local Abbreviation plane :=
  (Delp2_plane dcomplex cadd cmul rfft irfft laplace_tridag_coefs).

Lemma assign3_at (f : @Field3D T) (x y z : Z) (v : T) (x' y' z' : Z) :
  assign3 f x y z v x' y' z'
  = if (x' =? x) && (y' =? y) && (z' =? z) then v else f x' y' z'.
Proof. reflexivity. Qed.

(** One pass over [jy] leaves zero in the x guard cells of its plane. *)
Lemma Delp2_plane_guard (c : @Coordinates T) (f : @Field3D T)
    (outloc : CELL_LOC) (jy : Z)
    (st : @Field3D T * (Z -> Z -> dcomplex) * (Z -> Z -> dcomplex))
    (jx jz : Z) :
  0 <= jz < LocalNz (localmesh c) ->
  0 <= jx < xstart (localmesh c)
  \/ xend (localmesh c) < jx < LocalNx (localmesh c) ->
  fst (fst (plane c f outloc jy st)) jx jy jz = r0.
Proof.
  intros Hz Hx. destruct st as [[result ft] delft].
  unfold Delp2_plane. cbv zeta. cbn [fst].
  apply (fold_left_establish (fun r : @Field3D T => r jx jy jz = r0) _ _ _ jz).
  - apply in_range. exact Hz.
  - intro r. destruct Hx as [Hx|Hx].
    + apply (fold_left_preserve (fun r : @Field3D T => r jx jy jz = r0)).
      * intros r' a E. rewrite assign3_at, E. destruct (_ && _); reflexivity.
      * apply (fold_left_establish
                 (fun r : @Field3D T => r jx jy jz = r0) _ _ _ jx).
        -- apply in_range. exact Hx.
        -- intro r'. rewrite assign3_at, !Z.eqb_refl. reflexivity.
        -- intros r' a E. rewrite assign3_at, E.
           destruct (_ && _); reflexivity.
    + apply (fold_left_establish
               (fun r : @Field3D T => r jx jy jz = r0) _ _ _ jx).
      * apply in_range. lia.
      * intro r'. rewrite assign3_at, !Z.eqb_refl. reflexivity.
      * intros r' a E. rewrite assign3_at, E. destruct (_ && _); reflexivity.
  - intros r a E.
    apply (fold_left_preserve (fun r : @Field3D T => r jx jy jz = r0)).
    + intros r' a' E'. rewrite assign3_at, E'. destruct (_ && _); reflexivity.
    + apply (fold_left_preserve (fun r : @Field3D T => r jx jy jz = r0)).
      * intros r' a' E'. rewrite assign3_at, E'.
        destruct (_ && _); reflexivity.
      * exact E.
Qed.

(** A pass over another plane leaves the plane [jy] as it is. *)
Lemma Delp2_plane_frame (c : @Coordinates T) (f : @Field3D T)
    (outloc : CELL_LOC) (jy' : Z)
    (st : @Field3D T * (Z -> Z -> dcomplex) * (Z -> Z -> dcomplex))
    (jx jy jz : Z) :
  jy' <> jy ->
  fst (fst (plane c f outloc jy' st)) jx jy jz = fst (fst st) jx jy jz.
Proof.
  intro Hne. destruct st as [[result ft] delft].
  unfold Delp2_plane. cbv zeta. cbn [fst].
  assert (Hy : (jy =? jy') = false) by (apply Z.eqb_neq; congruence).
  set (v := result jx jy jz).
  apply (fold_left_preserve (fun r : @Field3D T => r jx jy jz = v)).
  { intros r a E.
    apply (fold_left_preserve (fun r : @Field3D T => r jx jy jz = v)).
    - intros r' a' E'. rewrite assign3_at, Hy, andb_false_r. exact E'.
    - apply (fold_left_preserve (fun r : @Field3D T => r jx jy jz = v)).
      + intros r' a' E'. rewrite assign3_at, Hy, andb_false_r. exact E'.
      + exact E. }
  apply (fold_left_preserve (fun r : @Field3D T => r jx jy jz = v)).
  - intros r a E. unfold irfft_row3. cbn [f3val].
    rewrite Hy, andb_false_r. exact E.
  - reflexivity.
Qed.

End Delp2Properties.

Section Delp2Theorems.

Context {T : Type} {ops : BoutRealOps T}.
Variable dcomplex : Type.
Variables cadd cmul : dcomplex -> dcomplex -> dcomplex.
Variable rfft : (Z -> T) -> Z -> Z -> dcomplex.
Variable irfft : (Z -> dcomplex) -> Z -> Z -> T.
Variable laplace_tridag_coefs :
  Z -> Z -> Z -> CELL_LOC -> dcomplex * dcomplex * dcomplex.
Variable laplace_tridag_coefs_default :
  Z -> Z -> Z -> dcomplex * dcomplex * dcomplex.
Variable GlobalNz : @Mesh T -> Z.
Variable CHECK : Z.
Variable Field3D_allocated : Z -> Z -> Z -> T.
Variable FieldPerp_allocated : Z -> Z -> T.
Variables ft_allocated delft_allocated : Z -> Z -> dcomplex.

(** X17.  [Delp2] of a [Field3D] returns [f * 0] on a grid with a single point
    in x and in z; otherwise the field it returns is zero in the x guard
    cells of every plane [jy] and every [jz] of the local grid. *)
Theorem Delp2_Field3D_guard_cells (c : @Coordinates T) (f : @Field3D T)
    (outloc : CELL_LOC) (r : @Field3D T) :
  Delp2_Field3D dcomplex cadd cmul rfft irfft laplace_tridag_coefs GlobalNz
    CHECK Field3D_allocated ft_allocated delft_allocated c f outloc = Ok r ->
  let m := localmesh c in
  (GlobalNx m = 1 /\ GlobalNz m = 1 -> r = f3scale f r0)
  /\ (~ (GlobalNx m = 1 /\ GlobalNz m = 1) ->
      forall jx jy jz,
        0 <= jy < LocalNy m -> 0 <= jz < LocalNz m ->
        0 <= jx < xstart m \/ xend m < jx < LocalNx m ->
        r jx jy jz = r0).
Proof.
  unfold Delp2_Field3D. cbv zeta. intro H.
  destruct (ASSERT1 _ _); cbn [rbind] in H; [|discriminate H].
  destruct ((GlobalNx (localmesh c) =? 1) && (GlobalNz (localmesh c) =? 1))
    eqn:E1.
  - injection H as <-. split; [reflexivity|].
    intro Hn. exfalso. apply Hn.
    apply andb_true_iff in E1. rewrite !Z.eqb_eq in E1. exact E1.
  - split.
    { intros [Ea Eb]. rewrite Ea, Eb in E1. discriminate E1. }
    intros _ jx jy jz Hy Hz Hx.
    repeat (destruct (ASSERT2 _ _ _); cbn [rbind] in H; [|discriminate H]).
    injection H as <-.
    apply (fold_left_establish
             (fun st : @Field3D T * (Z -> Z -> dcomplex)
                       * (Z -> Z -> dcomplex) =>
                fst (fst st) jx jy jz = r0) _ _ _ jy).
    + apply in_range. exact Hy.
    + intro st. apply Delp2_plane_guard; assumption.
    + intros st jy' E.
      destruct (Z.eq_dec jy' jy) as [->|Hne].
      * apply Delp2_plane_guard; assumption.
      * rewrite Delp2_plane_frame by exact Hne. exact E.
Qed.

(** X18.  [Delp2] of a [FieldPerp] returns a field that is zero in the first
    and the last x row, and whose rows next to them are the inverse
    transform of rows of [delft] that were never written: for a grid with
    at least three points in x they do not depend on [f]. *)
Theorem Delp2_FieldPerp_rows (c : @Coordinates T) (f : @FieldPerp T)
    (outloc : CELL_LOC) (r : @FieldPerp T) (jz : Z) :
  Delp2_FieldPerp dcomplex cadd cmul rfft irfft laplace_tridag_coefs_default
    CHECK FieldPerp_allocated ft_allocated delft_allocated c f outloc = Ok r ->
  0 <= jz < LocalNz (localmesh c) ->
  let nx := LocalNx (localmesh c) in
  r 0 jz = r0 /\ r (nx - 1) jz = r0
  /\ (3 <= nx ->
      r 1 jz = irfft (fun k => delft_allocated 1 k) (LocalNz (localmesh c)) jz
      /\ r (nx - 2) jz
         = irfft (fun k => delft_allocated (nx - 2) k)
                 (LocalNz (localmesh c)) jz).
Proof.
  unfold Delp2_FieldPerp. cbv zeta. intros H Hz.
  destruct (ASSERT1 _ _) as [[]|]; cbn [rbind] in H; [|discriminate H].
  destruct (ASSERT2 _ _ _) as [[]|]; cbn [rbind] in H; [|discriminate H].
  injection H as <-.
  set (m := localmesh c) in *.
  set (delft := fold_left _ (range 0 (LocalNz m ÷ 2 + 1)) delft_allocated).
  set (res := fold_left _ (range 1 (LocalNx m - 1)) _).
  assert (Hedge : forall (r0' : @FieldPerp T) x,
            x = 0 \/ x = LocalNx m - 1 ->
            fold_left
              (fun result jz =>
                 assignp (assignp result 0 jz r0) (LocalNx m - 1) jz r0)
              (range 0 (LocalNz m)) r0' x jz = r0).
  { intros r0' x Hx.
    apply (fold_left_establish (fun r : @FieldPerp T => r x jz = r0) _ _ _ jz).
    - apply in_range. exact Hz.
    - intro s. unfold assignp. cbn [pval]. rewrite !Z.eqb_refl.
      destruct Hx as [->| ->]; rewrite ?Z.eqb_refl; cbn [andb];
        [destruct (0 =? LocalNx m - 1)|]; reflexivity.
    - intros s k E. unfold assignp. cbn [pval]. rewrite E.
      repeat destruct (_ && _); reflexivity. }
  assert (Hinner : forall (r0' : @FieldPerp T) x,
            x <> 0 -> x <> LocalNx m - 1 ->
            fold_left
              (fun result jz =>
                 assignp (assignp result 0 jz r0) (LocalNx m - 1) jz r0)
              (range 0 (LocalNz m)) r0' x jz = r0' x jz).
  { intros r0' x H0 H1.
    apply (fold_left_preserve (fun r : @FieldPerp T => r x jz = r0' x jz));
      [|reflexivity].
    intros s k E. unfold assignp. cbn [pval].
    rewrite (proj2 (Z.eqb_neq x 0) H0),
      (proj2 (Z.eqb_neq x (LocalNx m - 1)) H1).
    exact E. }
  split; [apply Hedge; left; reflexivity|].
  split; [apply Hedge; right; reflexivity|].
  intro Hnx.
  assert (Hdelft : forall x k, x = 1 \/ x = LocalNx m - 2 ->
            delft x k = delft_allocated x k).
  { intros x k Hx. unfold delft.
    apply (fold_left_preserve
             (fun d : Z -> Z -> dcomplex => d x k = delft_allocated x k));
      [|reflexivity].
    intros d k' E.
    apply (fold_left_preserve_in
             (fun d : Z -> Z -> dcomplex => d x k = delft_allocated x k));
      [|exact E].
    intros d' jx Hjx E'. apply in_range in Hjx. unfold mset.
    destruct ((x =? jx) && (k =? k')) eqn:Eh; [|exact E'].
    exfalso. apply andb_true_iff in Eh. destruct Eh as [Eh _].
    apply Z.eqb_eq in Eh. subst jx. lia. }
  assert (Hres : forall x, x = 1 \/ x = LocalNx m - 2 ->
            res x jz = irfft (fun k => delft_allocated x k) (LocalNz m) jz).
  { intros x Hx. unfold res.
    apply (fold_left_establish
             (fun r : @FieldPerp T =>
                r x jz = irfft (fun k => delft_allocated x k) (LocalNz m) jz)
             _ _ _ x).
    - apply in_range. lia.
    - intro s. unfold irfft_rowp. cbn [pval]. rewrite Z.eqb_refl.
      rewrite (proj2 (Z.leb_le 0 jz) (proj1 Hz)),
        (proj2 (Z.ltb_lt jz (LocalNz m)) (proj2 Hz)).
      cbn [andb]. f_equal. apply functional_extensionality. intro k.
      apply Hdelft. exact Hx.
    - intros s jx E. unfold irfft_rowp. cbn [pval].
      destruct ((x =? jx) && (0 <=? jz) && (jz <? LocalNz m)) eqn:Eh;
        [|exact E].
      apply andb_true_iff in Eh. destruct Eh as [Eh _].
      apply andb_true_iff in Eh. destruct Eh as [Eh _].
      apply Z.eqb_eq in Eh. subst jx.
      f_equal. apply functional_extensionality. intro k.
      apply Hdelft. exact Hx. }
  split.
  - rewrite Hinner by lia. apply Hres. left. reflexivity.
  - rewrite Hinner by lia. apply Hres. right. reflexivity.
Qed.

End Delp2Theorems.

Lemma Delp2_Field3D_guard_cells_witness :
  exists r,
    Delp2_Field3D_on_flat7 = Ok r
    /\ r 1 3 0 = r0 /\ r 5 3 0 = r0.
Proof.
  destruct Delp2_Field3D_on_flat7 as [r|e] eqn:E.
  2:{ exfalso. apply (f_equal succeeds) in E. vm_compute in E. discriminate E. }
  exists r. split; [reflexivity|].
  destruct (Delp2_Field3D_guard_cells _ _ _ _ _ _ _ _ _ _ _ _ _ _ _ E)
    as [_ H].
  assert (Hn : ~ (GlobalNx (localmesh flat7) = 1 /\ 1 = 1))
    by (intros [H1 _]; discriminate H1).
  split; apply (H Hn); cbn; lia.
Defined.

Lemma Delp2_FieldPerp_rows_witness :
  exists r,
    Delp2_FieldPerp_on_flat7 = Ok r
    /\ r 0 0 = r0
    /\ r 1 0 = irfft1 (fun _ => (PrimFloat.nan, PrimFloat.nan)) 1 0.
Proof.
  destruct Delp2_FieldPerp_on_flat7 as [r|e] eqn:E.
  2:{ exfalso. apply (f_equal succeeds) in E. vm_compute in E. discriminate E. }
  exists r. split; [reflexivity|].
  destruct (Delp2_FieldPerp_rows _ _ _ _ _ _ _ _ _ _ _ _ _ _ 0 E)
    as (H0 & _ & H1); [cbn; lia|].
  split; [exact H0|]. apply H1. cbn. lia.
Defined.

(** ** The geometry read from the grid file *)

Section GridInputProperties.

Context {T : Type} {ops : BoutRealOps T}.
Variables rgn_min rgn_finite : REGION.
Variable periodicX : @Mesh T -> bool.
Variable get_real : @Mesh T -> string -> option T.
Variable get_vector : @Mesh T -> string -> Z -> Z -> option (list T).
Variable XGLOBAL : @Mesh T -> Z -> Z.
Variable Options_zperiod : option Z.
Variables Options_ZMIN Options_ZMAX : option T.
Variable of_int : Z -> T.
Variable TWOPI : T.

Local Abbreviation build shv :=
  (Coordinates_getCoordinates rgn_min rgn_finite periodicX get_real shv
     get_vector XGLOBAL Options_zperiod Options_ZMIN Options_ZMAX of_int
     TWOPI).

Lemma jacobian_frame (rgn : REGION) (c c' : @Coordinates T) :
  jacobian rgn c = Ok c' -> c' = set_J_Bxy c (J c') (Bxy c').
Proof.
  rewrite jacobian_cases. cbv zeta.
  repeat match goal with
         | |- (if ?b then _ else _) = _ -> _ => destruct b; [discriminate|]
         end.
  intro H. injection H as <-. reflexivity.
Qed.

Lemma geometry_frame (rgn : REGION) (c c' : @Coordinates T) :
  geometry rgn c = Ok c' ->
  c' = geometry_non_uniform (geometry_communicate (geometry_connection c)).
Proof.
  unfold geometry. destruct (geometry_checks rgn c); cbn [rbind];
    [|discriminate].
  intro H. injection H as <-. reflexivity.
Qed.

Lemma read_J_Bxy_frame (c c' : @Coordinates T) :
  read_J_Bxy rgn_finite c = Ok c' -> c' = set_J_Bxy c (J c') (Bxy c').
Proof.
  unfold read_J_Bxy. cbv zeta.
  destruct (get (localmesh c) "J") as [Jf|];
    destruct (get _ "Bxy") as [Bf|];
    try destruct (negb (finite _ _ _)); intro H; try discriminate H;
    injection H as <-; destruct c; reflexivity.
Qed.

(** X19.  The covariant components of the grid file are used only as a
    complete set.  When the source has all six, the geometry object holds
    them as they were read; when it has some of them and not all, they
    are ignored: the geometry object is the one built from a source that
    has none. *)
Theorem covariant_input_is_all_or_nothing
    (sourceHasVar : @Mesh T -> string -> bool) (mesh_in : @Mesh T) :
  (forallb (sourceHasVar mesh_in) covariant_names = true ->
   forall c, build sourceHasVar mesh_in = Ok c ->
     g_11 c = get_or mesh_in "g_11" r0 /\ g_22 c = get_or mesh_in "g_22" r0
     /\ g_33 c = get_or mesh_in "g_33" r0 /\ g_12 c = get_or mesh_in "g_12" r0
     /\ g_13 c = get_or mesh_in "g_13" r0
     /\ g_23 c = get_or mesh_in "g_23" r0)
  /\ (forallb (sourceHasVar mesh_in) covariant_names = false ->
      build sourceHasVar mesh_in = build (fun _ _ => false) mesh_in).
Proof.
  split.
  - intros Hall c H. unfold Coordinates_getCoordinates in H. cbv zeta in H.
    destruct (check_input_metric _ _ _); cbn [rbind] in H; [|discriminate H].
    unfold read_covariant in H. cbv zeta in H.
    cbn [localmesh set_contravariant set_spacing Coordinates_new] in H.
    rewrite Hall in H.
    replace (existsb (sourceHasVar mesh_in) covariant_names) with true in H.
    2:{ cbn [forallb covariant_names] in Hall.
        apply andb_true_iff in Hall. destruct Hall as [H1 _].
        cbn [existsb covariant_names]. rewrite H1. reflexivity. }
    cbn [andb rbind] in H.
    destruct (jacobian rgn_min _) as [c1|] eqn:E1; cbn [rbind] in H;
      [|discriminate H].
    destruct (read_J_Bxy rgn_finite c1) as [c2|] eqn:E2; cbn [rbind] in H;
      [|discriminate H].
    destruct (geometry rgn_min c2) as [c3|] eqn:E3; cbn [rbind] in H;
      [|discriminate H].
    destruct (read_shift _ _ _) as [z sa]. injection H as <-.
    apply jacobian_frame in E1. apply read_J_Bxy_frame in E2.
    apply geometry_frame in E3.
    rewrite E3, E2, E1. cbn. repeat split; reflexivity.
  - intro Hn. unfold Coordinates_getCoordinates. cbv zeta.
    unfold read_covariant. cbv zeta.
    cbn [localmesh set_contravariant set_spacing Coordinates_new].
    rewrite Hn, andb_false_r. reflexivity.
Qed.

End GridInputProperties.

Lemma geometry_checks_spaced (rgn : REGION) (c : @Coordinates float) :
  mesh_wf (localmesh c) ->
  (forall x y, on_grid (localmesh c) x y -> dx c x y = r1 /\ dy c x y = r1) ->
  (rabs (dz c) <? r1em8)%B = false ->
  identity_contravariant c -> identity_covariant c ->
  geometry_checks rgn c = Ok tt.
Proof.
  intros Hwf Hsp Hdz Hup Hlow. unfold geometry_checks. cbv zeta.
  assert (M : forall (f : @Field2D float) v,
            (forall x y, on_grid (localmesh c) x y -> f x y = v) ->
            min rgn (localmesh c) f = v)
    by (intros f v H; apply min_const_on_grid; assumption).
  assert (F : forall (f : @Field2D float) v, rfinite v = true ->
            (forall x y, on_grid (localmesh c) x y -> f x y = v) ->
            finite (localmesh c) f RGN_NOBNDRY = true).
  { intros f v Hv H. apply finite_on_grid; [assumption|].
    intros x y Hxy. rewrite (H x y Hxy). exact Hv. }
  rewrite (M (fabs (dx c)) r1), (M (fabs (dy c)) r1), Hdz.
  2:{ intros x y H. change (rabs (dy c x y) = r1).
      rewrite (proj2 (Hsp x y H)). reflexivity. }
  2:{ intros x y H. change (rabs (dx c x y) = r1).
      rewrite (proj1 (Hsp x y H)). reflexivity. }
  rewrite (M (g11 c) r1), (M (g22 c) r1), (M (g33 c) r1),
    (M (g_11 c) r1), (M (g_22 c) r1), (M (g_33 c) r1);
    try (intros x y H; first [apply (Hup x y H) | apply (Hlow x y H)]).
  rewrite (F (g11 c) r1), (F (g22 c) r1), (F (g33 c) r1),
    (F (g12 c) r0), (F (g13 c) r0), (F (g23 c) r0),
    (F (g_11 c) r1), (F (g_22 c) r1), (F (g_33 c) r1),
    (F (g_12 c) r0), (F (g_13 c) r0), (F (g_23 c) r0);
    try reflexivity;
    try (intros x y H; first [apply (Hup x y H) | apply (Hlow x y H)]).
Qed.

(** The connection of a geometry with the identity metric, unit Jacobian
    and unit spacing in x and y vanishes over the grid. *)
Lemma geometry_connection_identity (c : @Coordinates float) :
  identity_contravariant c -> identity_covariant c ->
  (forall x y, on_grid (localmesh c) x y ->
     J c x y = r1 /\ dx c x y = r1 /\ dy c x y = r1) ->
  annihilates_constants (localmesh c) ->
  forall x y, on_grid (localmesh c) x y ->
    connection_vanishes_at (geometry_connection c) x y.
Proof.
  intros Hup Hlow Hsp Hann x y Hxy.
  destruct (Hsp x y Hxy) as (HJ & Hdx & Hdy).
  apply geometry_connection_flat; try assumption; [exact (Hup x y Hxy)|].
  assert (K : forall (f : @Field2D float) v, v = r0 \/ v = r1 ->
            (forall x y, on_grid (localmesh c) x y -> f x y = v) ->
            indexDDX (localmesh c) f CELL_DEFAULT DIFF_DEFAULT RGN_NOBNDRY
              x y = r0
            /\ indexDDY (localmesh c) f CELL_DEFAULT DIFF_DEFAULT
                 RGN_NOBNDRY x y = r0)
    by (intros f v Hv Hc; exact (Hann f v Hv Hc x y Hxy)).
  assert (P : forall (g : @Field2D float) v, v = r0 \/ v = r1 ->
            (forall x y, on_grid (localmesh c) x y -> g x y = v) ->
            forall x y, on_grid (localmesh c) x y ->
              fmul (J c) g x y = v).
  { intros g v Hcase Hg x' y' H'.
    change ((J c x' y' * g x' y')%B = v).
    rewrite (proj1 (Hsp x' y' H')), (Hg x' y' H').
    change (PrimFloat.mul 1 v = v).
    destruct Hcase as [-> | ->]; reflexivity. }
  intros f Hf. cbn [In] in Hf.
  destruct Hf as [<-|[<-|[<-|[<-|[<-|[<-|[<-|Hf]]]]]]].
  1-3: apply (K _ r1); [right; reflexivity|];
       intros x' y' H'; apply (Hlow x' y' H').
  1-3: apply (K _ r0); [left; reflexivity|];
       intros x' y' H'; apply (Hlow x' y' H').
  1: apply (K _ r0); [left; reflexivity|];
     intros x' y' H'; apply (Hup x' y' H').
  destruct Hf as [<-|[<-|[<-|[<-|[<-|[<-|[]]]]]]].
  1-3: apply (K _ r1); [right; reflexivity|];
       apply P; [right; reflexivity|];
       intros x' y' H'; apply (Hup x' y' H').
  1-3: apply (K _ r0); [left; reflexivity|];
       apply P; [left; reflexivity|];
       intros x' y' H'; apply (Hup x' y' H').
Qed.

Lemma check_input_metric_identity (rgn_min rgn_finite : REGION)
    (c : @Coordinates float) :
  mesh_wf (localmesh c) -> identity_contravariant c ->
  check_input_metric rgn_min rgn_finite c = Ok tt.
Proof.
  intros Hwf Hup. unfold check_input_metric. cbv zeta.
  assert (M : forall (f : @Field2D float) v,
            (forall x y, on_grid (localmesh c) x y -> f x y = v) ->
            min rgn_min (localmesh c) f = v)
    by (intros f v H; apply min_const_on_grid; assumption).
  assert (F : forall (f : @Field2D float) v, rfinite v = true ->
            (forall x y, on_grid (localmesh c) x y -> f x y = v) ->
            finite (localmesh c) f rgn_finite = true).
  { intros f v Hv H. apply finite_on_grid; [assumption|].
    intros x y Hxy. rewrite (H x y Hxy). exact Hv. }
  rewrite (M (g11 c) r1), (M (g22 c) r1), (M (g33 c) r1);
    try (intros x y H; apply (Hup x y H)).
  rewrite (F (g11 c) r1), (F (g22 c) r1), (F (g33 c) r1),
    (F (g12 c) r0), (F (g13 c) r0), (F (g23 c) r0);
    try reflexivity;
    try (intros x y H; apply (Hup x y H)).
Qed.

Section DefaultGeometry.

Variables rgn_min rgn_finite : REGION.
Variable periodicX : @Mesh float -> bool.
Variable get_real : @Mesh float -> string -> option float.
Variable sourceHasVar : @Mesh float -> string -> bool.
Variable get_vector : @Mesh float -> string -> Z -> Z -> option (list float).
Variable XGLOBAL : @Mesh float -> Z -> Z.
Variable Options_zperiod : option Z.
Variables Options_ZMIN Options_ZMAX : option float.
Variable of_int : Z -> float.
Variable TWOPI : float.

(** X20.  A grid file that supplies no field gives the flat geometry: unit
    spacing in x and y, the identity metric in both representations, unit
    Jacobian and field strength, no connection and no torsion, provided
    the z spacing computed from the options is not below [1e-8], x is not
    periodic, the differencing engine annihilates constants and the halo
    exchange keeps zero fields. *)
Theorem empty_grid_file_gives_flat_geometry (m : @Mesh float) :
  mesh_wf m ->
  (forall name, get m name = None) ->
  periodicX m = false ->
  forallb (sourceHasVar m) covariant_names = false ->
  (rabs (grid_dz get_real Options_zperiod Options_ZMIN Options_ZMAX of_int
           TWOPI m (LocalNz m)) <? r1em8)%B = false ->
  annihilates_constants m ->
  exchange_keeps_zero m ->
  exists c,
    Coordinates_getCoordinates rgn_min rgn_finite periodicX get_real
      sourceHasVar get_vector XGLOBAL Options_zperiod Options_ZMIN
      Options_ZMAX of_int TWOPI m = Ok c
    /\ localmesh c = m
    /\ identity_contravariant c /\ identity_covariant c
    /\ ShiftTorsion c = Field2D_const r0
    /\ forall x y, on_grid m x y ->
         dx c x y = r1 /\ dy c x y = r1 /\ J c x y = r1 /\ Bxy c x y = r1
         /\ connection_vanishes_at c x y.
Proof.
  intros Hwf Hget Hper Hshv Hdz Hann Hcomm.
  unfold Coordinates_getCoordinates. cbv zeta.
  unfold get_or. rewrite !Hget, Hper.
  set (dzv := grid_dz _ _ _ _ _ _ m (LocalNz m)) in *.
  set (c0 := set_contravariant _ _ _ _ _ _ _).
  assert (Hup0 : identity_contravariant c0)
    by (intros x y _; repeat split; reflexivity).
  rewrite (check_input_metric_identity rgn_min rgn_finite c0 Hwf Hup0).
  cbn [rbind].
  unfold read_covariant. cbv zeta.
  change (localmesh c0) with m. rewrite Hshv, andb_false_r.
  destruct (calcCovariant_flat c0 Hup0)
    as (n11 & n22 & n33 & n12 & n13 & n23 & Hrun & Hlow).
  rewrite Hrun. cbn [Z.eqb negb rbind].
  set (c1 := set_covariant c0 n11 n22 n33 n12 n13 n23) in *.
  assert (Hup1 : identity_contravariant c1) by exact Hup0.
  rewrite (jacobian_identity rgn_min c1 Hwf Hup1
             (fun x y H => proj1 (proj2 (Hlow x y H)))).
  cbn [rbind].
  set (c2 := set_J_Bxy c1 _ _).
  assert (HJ : forall x y, on_grid m x y -> J c2 x y = r1).
  { intros x y Hxy. change ((r1 / rsqrt (det_at c1 x y))%B = r1).
    rewrite (det_at_identity c1 x y (Hup1 x y Hxy)). reflexivity. }
  assert (HB : forall x y, on_grid m x y -> Bxy c2 x y = r1).
  { intros x y Hxy.
    change ((rsqrt (g_22 c1 x y) / J c2 x y)%B = r1).
    rewrite (HJ x y Hxy), (proj1 (proj2 (Hlow x y Hxy))). reflexivity. }
  unfold read_J_Bxy. cbv zeta. change (localmesh c2) with m.
  rewrite !Hget. cbn [rbind].
  assert (Hsp : forall x y, on_grid m x y -> dx c2 x y = r1 /\ dy c2 x y = r1)
    by (intros x y _; split; reflexivity).
  unfold geometry.
  rewrite (geometry_checks_spaced rgn_min c2 Hwf Hsp Hdz Hup1 Hlow).
  cbn [rbind].
  destruct (read_shift _ _ m) as [z sa].
  eexists. split; [reflexivity|].
  split; [reflexivity|]. split; [exact Hup1|]. split; [exact Hlow|].
  split; [reflexivity|].
  intros x y Hxy.
  split; [reflexivity|]. split; [reflexivity|].
  split; [exact (HJ x y Hxy)|]. split; [exact (HB x y Hxy)|].
  assert (Hconn : forall x y, on_grid m x y ->
            connection_vanishes_at (geometry_connection c2) x y).
  { apply (geometry_connection_identity c2 Hup1 Hlow); [|exact Hann].
    intros x' y' H'. split; [exact (HJ x' y' H')|split; reflexivity]. }
  unfold connection_vanishes_at.
  cbn [geometry_non_uniform geometry_communicate set_non_uniform set_connection
       set_shift set_torsion
       G1_11 G1_22 G1_33 G1_12 G1_13 G1_23 G2_11 G2_22 G2_33 G2_12 G2_13 G2_23
       G3_11 G3_22 G3_33 G3_12 G3_13 G3_23 G1 G2 G3 localmesh].
  repeat split;
    (apply Hcomm; [|exact Hxy]; intros x' y' H'; apply (Hconn x' y' H')).
Qed.

End DefaultGeometry.

Lemma empty_grid_file_gives_flat_geometry_witness :
  exists c,
    empty_grid_geometry = Ok c
    /\ J c 3 3 = r1 /\ dx c 3 3 = r1 /\ connection_vanishes_at c 3 3.
Proof.
  destruct (empty_grid_file_gives_flat_geometry RGN_NOBNDRY RGN_ALL
              (fun _ => false) (fun _ _ => None) (fun _ _ => false)
              (fun _ _ _ _ => None) (fun _ x => x) None None None fz twopi64
              mesh7)
    as (c & Hc & _ & _ & _ & _ & Hval).
  - exact mesh7_wf.
  - reflexivity.
  - reflexivity.
  - reflexivity.
  - vm_compute. reflexivity.
  - exact mesh7_annihilates_constants.
  - intros f Hf x y Hxy. exact (Hf x y Hxy).
  - exists c. split; [exact Hc|].
    destruct (Hval 3 3) as (Hdx & _ & HJ & _ & Hconn);
      [unfold on_grid; cbn; lia|].
    split; [exact HJ|]. split; [exact Hdx|exact Hconn].
Defined.

Lemma calcCovariant_frame {T} {ops : BoutRealOps T} (c : @Coordinates T) :
  exists n11 n22 n33 n12 n13 n23 : @Field2D T,
    snd (calcCovariant c) = set_covariant c n11 n22 n33 n12 n13 n23.
Proof.
  unfold calcCovariant. cbv zeta.
  set (c0 := set_covariant c _ _ _ _ _ _).
  destruct (calcCovariant_loop_frame (region (localmesh c0) RGN_ALL) c0)
    as (n11 & n22 & n33 & n12 & n13 & n23 & E).
  exists n11, n22, n33, n12, n13, n23. rewrite E. reflexivity.
Qed.

Section GridJacobian.

Context {T : Type} {ops : BoutRealOps T}.
Variables rgn_min rgn_finite : REGION.
Variable periodicX : @Mesh T -> bool.
Variable get_real : @Mesh T -> string -> option T.
Variable sourceHasVar : @Mesh T -> string -> bool.
Variable get_vector : @Mesh T -> string -> Z -> Z -> option (list T).
Variable XGLOBAL : @Mesh T -> Z -> Z.
Variable Options_zperiod : option Z.
Variables Options_ZMIN Options_ZMAX : option T.
Variable of_int : Z -> T.
Variable TWOPI : T.

(** X21.  A Jacobian in the grid file replaces the calculated one as it is,
    with no test of its values, and [Bxy] is then [sqrt g_22 / J] of the
    file; a [Bxy] in the grid file replaces that in turn, and is the only
    one of the two that is tested, for finiteness. *)
Theorem grid_Jacobian_replaces_calculated (mesh_in : @Mesh T)
    (c : @Coordinates T) :
  Coordinates_getCoordinates rgn_min rgn_finite periodicX get_real
    sourceHasVar get_vector XGLOBAL Options_zperiod Options_ZMIN Options_ZMAX
    of_int TWOPI mesh_in = Ok c ->
  (forall Jfile, get mesh_in "J" = Some Jfile ->
     J c = Jfile
     /\ (get mesh_in "Bxy" = None -> Bxy c = fdiv (fsqrt (g_22 c)) Jfile))
  /\ (forall Bfile, get mesh_in "Bxy" = Some Bfile ->
        Bxy c = Bfile /\ finite mesh_in Bfile rgn_finite = true).
Proof.
  intro H. unfold Coordinates_getCoordinates in H. cbv zeta in H.
  destruct (check_input_metric _ _ _); cbn [rbind] in H; [|discriminate H].
  destruct (read_covariant _ _) as [c0|] eqn:E0; cbn [rbind] in H;
    [|discriminate H].
  assert (Hm0 : localmesh c0 = mesh_in).
  { unfold read_covariant in E0. cbv zeta in E0.
    destruct (_ && _).
    - injection E0 as <-. reflexivity.
    - destruct (calcCovariant _) as [err c'] eqn:Ec.
      destruct (negb (err =? 0)); [discriminate E0|]. injection E0 as <-.
      match type of Ec with
      | calcCovariant ?c0 = _ =>
          destruct (calcCovariant_frame c0)
            as (n11 & n22 & n33 & n12 & n13 & n23 & Ef)
      end.
      rewrite Ec in Ef. cbn [snd] in Ef. rewrite Ef. reflexivity. }
  destruct (jacobian rgn_min c0) as [c1|] eqn:E1; cbn [rbind] in H;
    [|discriminate H].
  destruct (read_J_Bxy rgn_finite c1) as [c2|] eqn:E2; cbn [rbind] in H;
    [|discriminate H].
  destruct (geometry rgn_min c2) as [c3|] eqn:E3; cbn [rbind] in H;
    [|discriminate H].
  destruct (read_shift _ _ _) as [z sa]. injection H as <-.
  apply jacobian_frame in E1. apply geometry_frame in E3.
  assert (Hm1 : localmesh c1 = mesh_in) by (rewrite E1; exact Hm0).
  unfold read_J_Bxy in E2. cbv zeta in E2. rewrite Hm1 in E2.
  rewrite E3.
  cbn [J Bxy g_22 set_torsion set_shift geometry_non_uniform
       geometry_communicate geometry_connection set_non_uniform
       set_connection].
  split.
  - intros Jfile EJ. rewrite EJ in E2.
    destruct (get mesh_in "Bxy") as [Bf|].
    + destruct (negb (finite _ _ _)); [discriminate E2|].
      injection E2 as <-. split; [reflexivity|discriminate].
    + injection E2 as <-. split; [reflexivity|]. intros _. reflexivity.
  - intros Bfile EB. rewrite EB in E2.
    destruct (get mesh_in "J") as [Jf|];
      cbn [localmesh set_J_Bxy] in E2; rewrite ?Hm1 in E2;
      destruct (finite mesh_in Bfile rgn_finite); cbn [negb] in E2;
      try discriminate E2; injection E2 as <-; split; reflexivity.
Qed.

End GridJacobian.

Lemma grid_Jacobian_replaces_calculated_witness :
  exists c,
    nan_J_geometry = Ok c
    /\ J c = Field2D_const PrimFloat.nan
    /\ Bxy c = fdiv (fsqrt (g_22 c)) (Field2D_const PrimFloat.nan).
Proof.
  destruct nan_J_geometry as [c|e] eqn:E.
  2:{ exfalso. apply (f_equal succeeds) in E. vm_compute in E. discriminate E. }
  exists c. split; [reflexivity|].
  destruct (proj1 (grid_Jacobian_replaces_calculated _ _ _ _ _ _ _ _ _ _ _ _
                     _ _ E) (Field2D_const PrimFloat.nan) eq_refl) as [HJ HB].
  split; [exact HJ|]. apply HB. reflexivity.
Defined.

Lemma builders_take_over_witness :
  exists c,
    getCoordinatesStaggered RGN_NOBNDRY mesh7 CELL_YLOW flat7_shifted = Ok c
    /\ location c = CELL_YLOW /\ nz c = 1 /\ dz c = dz flat7_shifted.
Proof.
  destruct (getCoordinatesStaggered RGN_NOBNDRY mesh7 CELL_YLOW flat7_shifted)
    as [c|e] eqn:E.
  2:{ exfalso. apply (f_equal succeeds) in E. vm_compute in E. discriminate E. }
  exists c. split; [reflexivity|].
  destruct (proj1 (builders_take_over RGN_NOBNDRY mesh7 CELL_YLOW flat7_shifted)
              c E) as (_ & Hl & Hn & Hd & _).
  split; [exact Hl|]. split; [exact Hn|exact Hd].
Defined.

Lemma interpolateAndExtrapolate_refines_witness :
  match interpolateAndExtrapolate mesh7
          (mkField2D (bdata (mkBlock 1 (fval xcube))) (tag field1))
          CELL_CENTRE false with
  | Ok R =>
      exists result h' br,
        interpolateAndExtrapolate_st (fun _ _ => true) mesh7 field1
          CELL_CENTRE false store1 = (Ok result, h')
        /\ h' !! data result = Some br
        /\ bdata br = fval R
  | Throw e =>
      exists h',
        interpolateAndExtrapolate_st (fun _ _ => true) mesh7 field1
          CELL_CENTRE false store1 = (Throw e, h')
  end.
Proof.
  apply (interpolateAndExtrapolate_refines (fun _ _ => true) mesh7 field1
           CELL_CENTRE false store1 (mkBlock 1 (fval xcube))).
  - reflexivity.
  - cbn. lia.
  - intros _. reflexivity.
Defined.

(** ** The diffusion example *)

(** A loop nest that assigns [v xi yj zk] to the cell [(xi, yj, zk)] for
    the indices of three lists leaves exactly those cells changed. *)
Lemma fold_assign3_z {T} (v : Z -> T) (xi yj : Z) (lz : list Z)
    (f : @Field3D T) (x y z : Z) :
  fold_left (fun f zk => assign3 f xi yj zk (v zk)) lz f x y z
  = if (x =? xi) && (y =? yj) && existsb (Z.eqb z) lz then v z
    else f x y z.
Proof.
  revert f. induction lz as [|k lz IH]; intro f; cbn [fold_left existsb].
  - rewrite andb_false_r. reflexivity.
  - rewrite IH, assign3_at.
    destruct (x =? xi), (y =? yj); cbn [andb]; try reflexivity.
    destruct (existsb (Z.eqb z) lz).
    + rewrite orb_true_r. reflexivity.
    + rewrite orb_false_r. destruct (z =? k) eqn:Ez; [|reflexivity].
      apply Z.eqb_eq in Ez. subst k. reflexivity.
Qed.

Lemma fold_assign3_yz {T} (v : Z -> Z -> T) (xi : Z) (ly lz : list Z)
    (f : @Field3D T) (x y z : Z) :
  fold_left
    (fun f yj => fold_left (fun f zk => assign3 f xi yj zk (v yj zk)) lz f)
    ly f x y z
  = if (x =? xi) && existsb (Z.eqb y) ly && existsb (Z.eqb z) lz
    then v y z else f x y z.
Proof.
  revert f. induction ly as [|k ly IH]; intro f; cbn [fold_left existsb].
  - rewrite andb_false_r. reflexivity.
  - rewrite IH, (fold_assign3_z (v k)).
    destruct (x =? xi); cbn [andb]; [|destruct (existsb _ ly); reflexivity].
    destruct (existsb (Z.eqb z) lz);
      [|rewrite !andb_false_r; reflexivity].
    rewrite !andb_true_r.
    destruct (existsb (Z.eqb y) ly).
    + rewrite orb_true_r. reflexivity.
    + rewrite orb_false_r. destruct (y =? k) eqn:Ey; [|reflexivity].
      apply Z.eqb_eq in Ey. subst k. reflexivity.
Qed.

Lemma fold_assign3_xyz {T} (v : Z -> Z -> Z -> T) (lx ly lz : list Z)
    (f : @Field3D T) (x y z : Z) :
  fold_left
    (fun f xi =>
       fold_left
         (fun f yj =>
            fold_left (fun f zk => assign3 f xi yj zk (v xi yj zk)) lz f)
         ly f)
    lx f x y z
  = if existsb (Z.eqb x) lx && existsb (Z.eqb y) ly && existsb (Z.eqb z) lz
    then v x y z else f x y z.
Proof.
  revert f. induction lx as [|k lx IH]; intro f; cbn [fold_left existsb].
  - reflexivity.
  - rewrite IH, (fold_assign3_yz (v k)).
    destruct (existsb (Z.eqb y) ly);
      [|rewrite !andb_false_r; reflexivity].
    destruct (existsb (Z.eqb z) lz);
      [|rewrite !andb_false_r; reflexivity].
    rewrite !andb_true_r.
    destruct (existsb (Z.eqb x) lx).
    + rewrite orb_true_r. reflexivity.
    + rewrite orb_false_r. destruct (x =? k) eqn:Ex; [|reflexivity].
      apply Z.eqb_eq in Ex. subst k. reflexivity.
Qed.

Lemma existsb_range (lo hi z : Z) :
  existsb (Z.eqb z) (range lo hi) = (lo <=? z) && (z <? hi).
Proof.
  apply eq_true_iff_eq.
  rewrite existsb_exists, andb_true_iff, Z.leb_le, Z.ltb_lt. split.
  - intros [k [Hin Hk]]. apply Z.eqb_eq in Hk. subst k.
    apply in_range in Hin. exact Hin.
  - intros H. exists z. split; [apply in_range; exact H|apply Z.eqb_refl].
Qed.

(** Derivatives in the form the example's expressions have. *)
Lemma derivable_pt_lim_eq (f : R -> R) (x a b : R) :
  derivable_pt_lim f x a -> a = b -> derivable_pt_lim f x b.
Proof. intros H E. rewrite <- E. exact H. Qed.

Lemma derivable_pt_lim_affine (a b x : R) :
  derivable_pt_lim (fun u => a + b * u)%R x b.
Proof.
  apply (derivable_pt_lim_eq _ _ (0 + b * 1)%R); [|ring].
  apply (derivable_pt_lim_plus (fct_cte a) (mult_real_fct b id)).
  - apply derivable_pt_lim_const.
  - apply derivable_pt_lim_scal, derivable_pt_lim_id.
Qed.

Lemma derivable_pt_lim_5_square (x : R) :
  derivable_pt_lim (fun u => 5 * (u * u))%R x (10 * x)%R.
Proof.
  apply (derivable_pt_lim_eq _ _ (5 * (1 * x + x * 1))%R); [|ring].
  apply (derivable_pt_lim_scal (id * id)%F).
  apply derivable_pt_lim_mult; apply derivable_pt_lim_id.
Qed.

Section DiffusionTheorems.

Variables Cos Sin : R -> R.
Variable Power : R -> Z -> R.

Hypothesis Sin_Cos : forall x, derivable_pt_lim Sin x (Cos x).
Hypothesis Cos_Sin : forall x, derivable_pt_lim Cos x (- Sin x)%R.
Hypothesis Power_2 : forall x, Power x 2 = (x * x)%R.

Local Abbreviation MS := (Diffusion.MS Cos Sin Power).
Local Abbreviation dxMS := (Diffusion.dxMS Cos Power).

Lemma derivable_pt_lim_Sin_5_Power (x : R) :
  derivable_pt_lim (fun u => Sin (5 * Power u 2)) x
    (Cos (5 * Power x 2) * (10 * x))%R.
Proof.
  apply (derivable_pt_lim_ext (comp Sin (fun u => 5 * (u * u))%R)).
  - intro u. unfold comp. rewrite Power_2. reflexivity.
  - rewrite Power_2.
    apply (derivable_pt_lim_comp (fun u => 5 * (u * u))%R Sin).
    + apply derivable_pt_lim_5_square.
    + apply Sin_Cos.
Qed.

Lemma derivable_pt_lim_Cos_5_Power (x : R) :
  derivable_pt_lim (fun u => Cos (5 * Power u 2)) x
    (- Sin (5 * Power x 2) * (10 * x))%R.
Proof.
  apply (derivable_pt_lim_ext (comp Cos (fun u => 5 * (u * u))%R)).
  - intro u. unfold comp. rewrite Power_2. reflexivity.
  - rewrite Power_2.
    apply (derivable_pt_lim_comp (fun u => 5 * (u * u))%R Cos).
    + apply derivable_pt_lim_5_square.
    + apply Cos_Sin.
Qed.

Lemma derivable_pt_lim_Sin_10 (t : R) :
  derivable_pt_lim (fun u => Sin (10 * u)) t (Cos (10 * t) * 10)%R.
Proof.
  apply (derivable_pt_lim_comp (fun u => 10 * u)%R Sin).
  - apply (derivable_pt_lim_eq _ _ (10 * 1)%R); [|ring].
    apply (derivable_pt_lim_scal id), derivable_pt_lim_id.
  - apply Sin_Cos.
Qed.

Lemma derivable_pt_lim_Cos_10 (t : R) :
  derivable_pt_lim (fun u => Cos (10 * u)) t (- Sin (10 * t) * 10)%R.
Proof.
  apply (derivable_pt_lim_comp (fun u => 10 * u)%R Cos).
  - apply (derivable_pt_lim_eq _ _ (10 * 1)%R); [|ring].
    apply (derivable_pt_lim_scal id), derivable_pt_lim_id.
  - apply Cos_Sin.
Qed.

(** X22.  [dxMS], the function given as the Neumann condition at the inner x
    boundary, is the derivative of the manufactured solution [MS] with
    respect to [x], at every time and position. *)
Theorem dxMS_is_the_x_derivative_of_MS (t x y z : R) :
  derivable_pt_lim (fun x' => MS t x' y z) x (dxMS t x y z).
Proof.
  unfold Diffusion.MS, Diffusion.dxMS.
  apply (derivable_pt_lim_eq _ _
           (0.9 + 0.2 * Cos (10 * t) * (Cos (5 * Power x 2) * (10 * x)))%R);
    [|lra].
  apply (derivable_pt_lim_plus (fun u => 0.9 + 0.9 * u)%R
           (fun u => 0.2 * Cos (10 * t) * Sin (5 * Power u 2))%R).
  - apply derivable_pt_lim_affine.
  - apply (derivable_pt_lim_scal (fun u => Sin (5 * Power u 2))).
    apply derivable_pt_lim_Sin_5_Power.
Qed.

Variable mesh : @Mesh R.
Variables ngx ngy ngz : Z.
Variables GlobalX GlobalY : Z -> R.
Variables mesh_dz Lx Ly mu_N : R.
Variable Field3D_allocated : Z -> Z -> Z -> R.
Variable communicate3 : @Field3D R -> @Field3D R.
Variable applyBoundary : @Field3D R -> R -> @Field3D R.
Variable D2DX2 : @Field3D R -> @Field3D R.

Local Abbreviation solution :=
  (Diffusion.solution Cos Sin Power mesh ngx ngy ngz GlobalX GlobalY
     mesh_dz Lx Ly).
Local Abbreviation MMS_Source :=
  (Diffusion.MMS_Source Cos Sin Power mesh ngz GlobalX GlobalY mesh_dz Lx Ly
     Field3D_allocated).
Local Abbreviation physics_run :=
  (Diffusion.physics_run Cos Sin Power mesh ngz GlobalX GlobalY mesh_dz
     Lx Ly mu_N Field3D_allocated communicate3 applyBoundary D2DX2).
Local Abbreviation error_monitor :=
  (Diffusion.error_monitor Cos Sin Power mesh ngx ngy ngz GlobalX GlobalY
     mesh_dz Lx Ly mu_N Field3D_allocated).

Ltac index_cases :=
  repeat match goal with
         | |- context [?a <=? ?b] => destruct (Z.leb_spec a b)
         | |- context [?a <? ?b] => destruct (Z.ltb_spec a b)
         end;
  cbn [andb]; try reflexivity; try lia.

(** The cells [solution] writes and the value it writes there. *)
Lemma solution_at (f : @Field3D R) (t D : R) (xi yj zk : Z) :
  let bx := (ngx - (xend mesh - xstart mesh + 1)) ÷ 2 in
  let by' := (ngy - (yend mesh - ystart mesh + 1)) ÷ 2 in
  solution f t D xi yj zk
  = if (xstart mesh - bx <=? xi) && (xi <=? xend mesh + bx)
       && (ystart mesh - by' <=? yj) && (yj <=? yend mesh + by')
       && (0 <=? zk) && (zk <? ngz)
    then MS t (GlobalX xi * Lx) (GlobalY yj * Ly) (mesh_dz * IZR zk)
    else f xi yj zk.
Proof.
  intros bx by'. unfold Diffusion.solution. cbv zeta.
  rewrite (fold_assign3_xyz
             (fun xi yj zk =>
                MS t (GlobalX xi * Lx) (GlobalY yj * Ly) (mesh_dz * IZR zk))).
  rewrite !existsb_range. fold bx by'. index_cases.
Qed.

(** The cells [MMS_Source] writes and the value it writes there. *)
Lemma MMS_Source_at (t : R) (xi yj zk : Z) :
  MMS_Source t xi yj zk
  = if (xstart mesh <=? xi) && (xi <=? xend mesh)
       && (ystart mesh <=? yj) && (yj <=? yend mesh)
       && (0 <=? zk) && (zk <? ngz)
    then ((-2) * Sin (10 * t) * Sin (5 * Power (GlobalX xi * Lx) 2)
          + Cos (10 * t)
            * ((-2) * Cos (5 * Power (GlobalX xi * Lx) 2)
               + 20 * Power (GlobalX xi * Lx) 2
                 * Sin (5 * Power (GlobalX xi * Lx) 2)))%R
    else Field3D_allocated xi yj zk.
Proof.
  unfold Diffusion.MMS_Source. cbv zeta.
  rewrite (fold_assign3_xyz
             (fun xi yj zk =>
                ((-2) * Sin (10 * t) * Sin (5 * Power (GlobalX xi * Lx) 2)
                 + Cos (10 * t)
                   * ((-2) * Cos (5 * Power (GlobalX xi * Lx) 2)
                      + 20 * Power (GlobalX xi * Lx) 2
                        * Sin (5 * Power (GlobalX xi * Lx) 2)))%R)).
  rewrite !existsb_range. cbn [f3val]. index_cases.
Qed.

(** X23.  At every interior cell [MMS_Source(t)] holds the time derivative
    of [MS] minus its second x-derivative at the cell's position, with no
    factor [mu_N].  So the time derivative [physics_run] stores there is
    [mu_N * D2DX2(N)] plus that difference; where [D2DX2(N)] is the second
    x-derivative of [MS], it is the time derivative of [MS] exactly when
    [mu_N] is one or the second derivative vanishes. *)
Theorem MMS_Source_balances_unit_diffusion (t : R) (xi yj zk : Z) :
  xstart mesh <= xi <= xend mesh ->
  ystart mesh <= yj <= yend mesh ->
  0 <= zk < ngz ->
  exists MSt MSxx : R,
    derivable_pt_lim
      (fun t' => MS t' (GlobalX xi * Lx) (GlobalY yj * Ly) (IZR zk * mesh_dz))
      t MSt
    /\ derivable_pt_lim
         (fun x' => dxMS t x' (GlobalY yj * Ly) (IZR zk * mesh_dz))
         (GlobalX xi * Lx) MSxx
    /\ MMS_Source t xi yj zk = (MSt - MSxx)%R
    /\ forall g : Diffusion.Globals,
         let N' := applyBoundary (communicate3 (Diffusion.N g)) t in
         let ddt' := Diffusion.ddt_N (snd (physics_run g t)) in
         ddt' xi yj zk = (mu_N * D2DX2 N' xi yj zk + (MSt - MSxx))%R
         /\ (D2DX2 N' xi yj zk = MSxx ->
             ddt' xi yj zk = MSt <-> mu_N = 1%R \/ MSxx = 0%R).
Proof.
  intros Hx Hy Hz.
  set (x := (GlobalX xi * Lx)%R).
  set (MSt := (0.2 * (- Sin (10 * t) * 10) * Sin (5 * Power x 2))%R).
  set (MSxx := (2 * Cos (10 * t)
                * (Cos (5 * Power x 2)
                   + x * (- Sin (5 * Power x 2) * (10 * x))))%R).
  assert (Hsrc : MMS_Source t xi yj zk = (MSt - MSxx)%R).
  { rewrite MMS_Source_at.
    replace ((xstart mesh <=? xi) && (xi <=? xend mesh)
             && (ystart mesh <=? yj) && (yj <=? yend mesh)
             && (0 <=? zk) && (zk <? ngz)) with true by (symmetry; index_cases).
    fold x. unfold MSt, MSxx. rewrite Power_2. lra. }
  exists MSt, MSxx. split; [|split; [|split; [exact Hsrc|]]].
  - unfold Diffusion.MS.
    apply (derivable_pt_lim_eq _ _
             (0 + 0.2 * (- Sin (10 * t) * 10) * Sin (5 * Power x 2))%R);
      [|unfold MSt; lra].
    apply (derivable_pt_lim_plus (fct_cte (0.9 + 0.9 * x))%R
             (fun u => 0.2 * Cos (10 * u) * Sin (5 * Power x 2))%R).
    + apply derivable_pt_lim_const.
    + apply (derivable_pt_lim_eq _ _
               (0.2 * (- Sin (10 * t) * 10 * Sin (5 * Power x 2)
                       + Cos (10 * t) * 0))%R); [|ring].
      apply (derivable_pt_lim_ext
               (mult_real_fct 0.2
                  ((fun u => Cos (10 * u)) * fct_cte (Sin (5 * Power x 2)))%F)).
      * intro u. unfold mult_real_fct, mult_fct, fct_cte. ring.
      * apply derivable_pt_lim_scal.
        apply (derivable_pt_lim_mult (fun u => Cos (10 * u))
                 (fct_cte (Sin (5 * Power x 2)))).
        -- apply derivable_pt_lim_Cos_10.
        -- apply derivable_pt_lim_const.
  - unfold Diffusion.dxMS.
    apply (derivable_pt_lim_eq _ _ (0 + MSxx)%R); [|ring].
    apply (derivable_pt_lim_plus (fct_cte 0.9)
             (fun u => 2 * u * Cos (10 * t) * Cos (5 * Power u 2))%R).
    + apply derivable_pt_lim_const.
    + apply (derivable_pt_lim_eq _ _
               (2 * Cos (10 * t)
                * (1 * Cos (5 * Power x 2)
                   + x * (- Sin (5 * Power x 2) * (10 * x))))%R);
        [|unfold MSxx; ring].
      apply (derivable_pt_lim_ext
               (mult_real_fct (2 * Cos (10 * t))
                  (id * (fun u => Cos (5 * Power u 2)))%F)).
      * intro u. unfold mult_real_fct, mult_fct, id. ring.
      * apply derivable_pt_lim_scal.
        apply (derivable_pt_lim_mult id (fun u => Cos (5 * Power u 2))).
        -- apply derivable_pt_lim_id.
        -- apply derivable_pt_lim_Cos_5_Power.
  - intros g N' ddt'.
    assert (Hddt : ddt' xi yj zk
                   = (mu_N * D2DX2 N' xi yj zk + (MSt - MSxx))%R).
    { unfold ddt', Diffusion.physics_run. cbn [snd Diffusion.ddt_N f3val].
      rewrite Hsrc. reflexivity. }
    split; [exact Hddt|].
    intro HD. rewrite Hddt, HD. split.
    + intro E. assert (E' : ((mu_N - 1) * MSxx = 0)%R) by lra.
      apply Rmult_integral in E'. destruct E' as [E'|E']; [left; lra|right; exact E'].
    + intros [E|E]; rewrite E; ring.
Qed.

(** X24.  When the guard cells are as wide on both sides of the interior
    ([ngx - (xend - xstart + 1) = 2 xstart], and the same in y),
    [solution] writes the manufactured solution at the position of the
    cell into every cell of the local array, guard cells included, and
    into no other; its argument [D] is not used. *)
Theorem solution_fills_the_local_array (f : @Field3D R) (t D D' : R) :
  ngx - (xend mesh - xstart mesh + 1) = 2 * xstart mesh ->
  ngy - (yend mesh - ystart mesh + 1) = 2 * ystart mesh ->
  f3val (solution f t D) = f3val (solution f t D')
  /\ forall xi yj zk,
       solution f t D xi yj zk
       = if (0 <=? xi) && (xi <? ngx) && (0 <=? yj) && (yj <? ngy)
            && (0 <=? zk) && (zk <? ngz)
         then MS t (GlobalX xi * Lx) (GlobalY yj * Ly) (mesh_dz * IZR zk)
         else f xi yj zk.
Proof.
  intros Hx Hy. split; [reflexivity|].
  intros xi yj zk. rewrite solution_at. cbv zeta.
  rewrite Hx, Hy, !(Z.mul_comm 2), !Z.quot_mul by lia.
  index_cases.
Qed.

(** X25.  After [error_monitor] the error field holds [N] minus the
    manufactured solution at the monitored time in the interior cells of
    the planes [zk = 0 .. ngz-2], and zero in every other cell: the plane
    [zk = ngz-1] is not compared, the solution is taken at the cell's own
    position, and [N] is left as it was.  The interior must fit the local
    array. *)
Theorem error_monitor_error_field (g : Diffusion.Globals) (simtime : R)
    (iter NOUT : Z) :
  xend mesh - xstart mesh + 1 <= ngx ->
  yend mesh - ystart mesh + 1 <= ngy ->
  let g' := snd (error_monitor g simtime iter NOUT) in
  fst (error_monitor g simtime iter NOUT) = 0
  /\ f3val (Diffusion.N g') = f3val (Diffusion.N g)
  /\ forall xi yj zk,
       Diffusion.E_N g' xi yj zk
       = if (xstart mesh <=? xi) && (xi <=? xend mesh)
            && (ystart mesh <=? yj) && (yj <=? yend mesh)
            && (0 <=? zk) && (zk <? ngz - 1)
         then (Diffusion.N g xi yj zk
               - MS simtime (GlobalX xi * Lx) (GlobalY yj * Ly)
                   (mesh_dz * IZR zk))%R
         else 0%R.
Proof.
  intros Hx Hy g'. split; [reflexivity|]. split; [reflexivity|].
  intros xi yj zk. unfold g', Diffusion.error_monitor.
  cbn [snd Diffusion.E_N].
  rewrite (fold_assign3_xyz
             (fun xi yj zk =>
                (Diffusion.N g xi yj zk
                 - solution (Diffusion.S g) simtime mu_N xi yj zk)%R)).
  rewrite !existsb_range. cbn [f3val].
  assert (Hbx := Z.quot_pos (ngx - (xend mesh - xstart mesh + 1)) 2).
  assert (Hby := Z.quot_pos (ngy - (yend mesh - ystart mesh + 1)) 2).
  destruct ((xstart mesh <=? xi) && (xi <=? xend mesh)
            && (ystart mesh <=? yj) && (yj <=? yend mesh)
            && (0 <=? zk) && (zk <? ngz - 1)) eqn:Hin.
  - apply andb_prop in Hin. destruct Hin as [Hin Hz2].
    apply andb_prop in Hin. destruct Hin as [Hin Hz1].
    apply andb_prop in Hin. destruct Hin as [Hin Hy2].
    apply andb_prop in Hin. destruct Hin as [Hin Hy1].
    apply andb_prop in Hin. destruct Hin as [Hx1 Hx2].
    apply Z.leb_le in Hx1, Hx2, Hy1, Hy2, Hz1. apply Z.ltb_lt in Hz2.
    replace ((xstart mesh <=? xi) && (xi <? xend mesh + 1)
             && ((ystart mesh <=? yj) && (yj <? yend mesh + 1))
             && ((0 <=? zk) && (zk <? ngz - 1))) with true
      by (symmetry; index_cases).
    rewrite solution_at. cbv zeta.
    replace (_ && _) with true; [reflexivity|].
    symmetry. index_cases.
  - replace ((xstart mesh <=? xi) && (xi <? xend mesh + 1)
             && ((ystart mesh <=? yj) && (yj <? yend mesh + 1))
             && ((0 <=? zk) && (zk <? ngz - 1))) with false; [reflexivity|].
    rewrite <- Hin. index_cases.
Qed.

End DiffusionTheorems.

Lemma powerRZ_2 (x : R) : powerRZ x 2 = (x * x)%R.
Proof.
  unfold powerRZ. change (Pos.to_nat 2) with 2%nat. cbn [pow]. ring.
Qed.

Lemma dxMS_is_the_x_derivative_of_MS_witness :
  derivable_pt_lim (fun x' => Diffusion.MS cos sin powerRZ 0 x' 0 0) 1
    (Diffusion.dxMS cos powerRZ 0 1 0 0).
Proof.
  apply (dxMS_is_the_x_derivative_of_MS cos sin powerRZ
           derivable_pt_lim_sin powerRZ_2).
Defined.

Lemma MMS_Source_balances_unit_diffusion_witness :
  exists MSt MSxx : R,
    derivable_pt_lim
      (fun t' => Diffusion.MS cos sin powerRZ t' (IZR 2 * 1) (IZR 2 * 1)
                   (IZR 0 * 1)) 0 MSt
    /\ derivable_pt_lim
         (fun x' => Diffusion.dxMS cos powerRZ 0 x' (IZR 2 * 1) (IZR 0 * 1))
         (IZR 2 * 1) MSxx
    /\ Diffusion.MMS_Source cos sin powerRZ exact_mesh7 2 IZR IZR 1 1 1
         (fun _ _ _ => 0%R) 0 2 2 0
       = (MSt - MSxx)%R.
Proof.
  destruct (MMS_Source_balances_unit_diffusion cos sin powerRZ
              derivable_pt_lim_cos powerRZ_2
              exact_mesh7 2 IZR IZR 1 1 1 1 (fun _ _ _ => 0%R)
              (fun f => f) (fun f _ => f) (fun f => f) 0 2 2 0)
    as [MSt [MSxx [Ht [Hxx [Hsrc _]]]]].
  - cbn. lia.
  - cbn. lia.
  - lia.
  - exists MSt, MSxx. split; [exact Ht|]. split; [exact Hxx|exact Hsrc].
Defined.

Lemma solution_fills_the_local_array_witness :
  Diffusion.solution cos sin powerRZ exact_mesh7 7 7 2 IZR IZR 1 1 1
    (mkField3D (fun _ _ _ => 0%R) CELL_CENTRE NoYupYdown) 0 1 0 6 1
  = Diffusion.MS cos sin powerRZ 0 (IZR 0 * 1) (IZR 6 * 1) (1 * IZR 1).
Proof.
  exact (proj2 (solution_fills_the_local_array cos sin powerRZ exact_mesh7
                  7 7 2 IZR IZR 1 1 1
                  (mkField3D (fun _ _ _ => 0%R) CELL_CENTRE NoYupYdown)
                  0 1 1 eq_refl eq_refl) 0 6 1).
Defined.

Lemma error_monitor_error_field_witness :
  let g :=
    Diffusion.mkGlobals
      (mkField3D (fun x _ _ => IZR x) CELL_CENTRE NoYupYdown)
      (mkField3D (fun _ _ _ => 0%R) CELL_CENTRE NoYupYdown)
      (mkField3D (fun _ _ _ => 0%R) CELL_CENTRE NoYupYdown)
      (mkField3D (fun _ _ _ => 0%R) CELL_CENTRE NoYupYdown)
      (mkField3D (fun _ _ _ => 0%R) CELL_CENTRE NoYupYdown) in
  let g' :=
    snd (Diffusion.error_monitor cos sin powerRZ exact_mesh7 7 7 2 IZR IZR
           1 1 1 1 (fun _ _ _ => 0%R) g 0 0 0) in
  Diffusion.E_N g' 3 3 1 = 0%R
  /\ Diffusion.E_N g' 3 3 0
     = (3 - Diffusion.MS cos sin powerRZ 0 (IZR 3 * 1) (IZR 3 * 1) (1 * IZR 0))%R.
Proof.
  intros g g'.
  destruct (error_monitor_error_field cos sin powerRZ exact_mesh7 7 7 2
              IZR IZR 1 1 1 1 (fun _ _ _ => 0%R) g 0 0 0)
    as [_ [_ H]].
  - cbn. lia.
  - cbn. lia.
  - split.
    + exact (H 3 3 1).
    + exact (H 3 3 0).
Defined.

(** ** Invariants of a geometry that has been built *)

Section BuiltGeometry.

Context {T : Type} {ops : BoutRealOps T}.

Variables rgn_min rgn_finite : REGION.
Variable periodicX : @Mesh T -> bool.
Variable get_real : @Mesh T -> string -> option T.
Variable sourceHasVar : @Mesh T -> string -> bool.
Variable get_vector : @Mesh T -> string -> Z -> Z -> option (list T).
Variable XGLOBAL : @Mesh T -> Z -> Z.
Variable Options_zperiod : option Z.
Variables Options_ZMIN Options_ZMAX : option T.
Variable of_int : Z -> T.
Variable TWOPI : T.

Local Abbreviation build :=
  (Coordinates_getCoordinates rgn_min rgn_finite periodicX get_real
     sourceHasVar get_vector XGLOBAL Options_zperiod Options_ZMIN
     Options_ZMAX of_int TWOPI).

(** The checks of [geometry()] read the spacing and the two
    representations of the metric, which nothing after them writes. *)
Lemma geometry_checks_after (rgn : REGION) (c c' : @Coordinates T) :
  geometry rgn c = Ok c' ->
  geometry_checks rgn c = Ok tt
  /\ forall zs sa st ist,
       geometry_checks rgn (set_torsion (set_shift c' zs sa) st ist) = Ok tt
       /\ geometry_checks rgn (set_torsion c' st ist) = Ok tt.
Proof.
  unfold geometry. destruct (geometry_checks rgn c) as [[]|e] eqn:E;
    cbn [rbind]; [|discriminate].
  intro H. injection H as <-. split; [reflexivity|].
  intros zs sa st ist. split; exact E.
Qed.

Lemma derive_geometry_checks (rgn : REGION) (c c' : @Coordinates T) :
  derive_geometry rgn c = Ok c' ->
  forall st ist, geometry_checks rgn (set_torsion c' st ist) = Ok tt.
Proof.
  unfold derive_geometry.
  destruct (calcCovariant c) as [err c1].
  destruct (negb (err =? 0)); [discriminate|].
  destruct (jacobian rgn c1) as [c2|e]; cbn [rbind]; [|discriminate].
  intros H st ist.
  exact (proj2 (proj2 (geometry_checks_after rgn c2 c' H) (zShift c') [] st ist)).
Qed.

(** X26.  A geometry object that one of the three builders returns passes
    the checks of [geometry()]: nothing the builders do after the checks
    writes the spacing or either representation of the metric, so
    [geometry()] called again on the object does not throw. *)
Theorem built_geometry_passes_checks (rgn : REGION) (m : @Mesh T)
    (loc : CELL_LOC) (coords_in : @Coordinates T) :
  (forall c, build m = Ok c ->
     geometry_checks rgn_min c = Ok tt /\ succeeds (geometry rgn_min c) = true)
  /\ (forall c, getCoordinatesStaggered rgn m loc coords_in = Ok c ->
        geometry_checks rgn c = Ok tt /\ succeeds (geometry rgn c) = true)
  /\ (forall c, getCoordinatesXYCorner rgn m coords_in = Ok c ->
        geometry_checks rgn c = Ok tt /\ succeeds (geometry rgn c) = true).
Proof.
  assert (Hag : forall r (c : @Coordinates T),
            geometry_checks r c = Ok tt ->
            geometry_checks r c = Ok tt /\ succeeds (geometry r c) = true).
  { intros r c E. split; [exact E|]. unfold geometry. rewrite E. reflexivity. }
  split; [|split]; intros c H; apply Hag.
  - unfold Coordinates_getCoordinates in H. cbv zeta in H.
    repeat match type of H with
           | rbind ?a _ = Ok _ =>
               let E := fresh "E" in
               destruct a eqn:E; cbn [rbind] in H; [|discriminate H]
           end.
    destruct (read_shift _ _ _) as [zs sa]. injection H as <-.
    match goal with
    | E : geometry _ _ = Ok _ |- _ =>
        exact (proj1 (proj2 (geometry_checks_after _ _ _ E) zs sa _ _))
    end.
  - unfold getCoordinatesStaggered in H. cbv zeta in H.
    repeat match type of H with
           | rbind ?a _ = Ok _ =>
               let E := fresh "E" in
               destruct a eqn:E; cbn [rbind] in H; [|discriminate H]
           end.
    injection H as <-.
    match goal with
    | E : derive_geometry _ _ = Ok _ |- _ =>
        exact (derive_geometry_checks _ _ _ E _ _)
    end.
  - unfold getCoordinatesXYCorner in H. cbv zeta in H.
    repeat match type of H with
           | rbind ?a _ = Ok _ =>
               let E := fresh "E" in
               destruct a eqn:E; cbn [rbind] in H; [|discriminate H]
           end.
    injection H as <-.
    match goal with
    | E : derive_geometry _ _ = Ok _ |- _ =>
        exact (derive_geometry_checks _ _ _ E _ _)
    end.
Qed.

Lemma read_covariant_frame (c c' : @Coordinates T) :
  read_covariant sourceHasVar c = Ok c' ->
  exists n11 n22 n33 n12 n13 n23 : @Field2D T,
    c' = set_covariant c n11 n22 n33 n12 n13 n23.
Proof.
  unfold read_covariant. cbv zeta.
  destruct (existsb _ _ && forallb _ _).
  - intro H. injection H as <-. repeat eexists.
  - destruct (calcCovariant_frame c) as (n11 & n22 & n33 & n12 & n13 & n23 & E).
    destruct (calcCovariant c) as [err c1]. cbn [snd] in E.
    destruct (negb (err =? 0)); [discriminate|].
    intro H. injection H as <-.
    exists n11, n22, n33, n12, n13, n23. exact E.
Qed.

(** X27.  What [Coordinates::getCoordinates] reads of the spacing and the
    contravariant metric is what the geometry it returns holds: nothing
    later in the build writes them.  [dx] goes through the halo exchange
    only when x is periodic, [dy] never; [dz] is the one of the grid file
    when it has one, otherwise [(1/zperiod - 0) * TWOPI / nz] when the
    option [zperiod] is set, whatever [ZMIN] and [ZMAX] are, and
    [(ZMAX - ZMIN) * TWOPI / nz] with the defaults 0 and 1 otherwise. *)
Theorem grid_spacing_is_kept_as_read (m : @Mesh T) (c : @Coordinates T) :
  build m = Ok c ->
  let read name def :=
    match get m name with Some v => v | None => Field2D_const def end in
  localmesh c = m /\ nz c = LocalNz m
  /\ dx c = (if periodicX m then communicate m (read "dx" r1)
             else read "dx" r1)
  /\ dy c = read "dy" r1
  /\ dz c = match get_real m "dz", Options_zperiod with
            | Some v, _ => v
            | None, Some zperiod =>
                rdiv (rmul (rsub (rdiv r1 (of_int zperiod)) r0) TWOPI)
                     (of_int (LocalNz m))
            | None, None =>
                rdiv (rmul (rsub (match Options_ZMAX with
                                  | Some v => v | None => r1 end)
                                 (match Options_ZMIN with
                                  | Some v => v | None => r0 end))
                           TWOPI)
                     (of_int (LocalNz m))
            end
  /\ g11 c = read "g11" r1 /\ g22 c = read "g22" r1
  /\ g33 c = read "g33" r1 /\ g12 c = read "g12" r0
  /\ g13 c = read "g13" r0 /\ g23 c = read "g23" r0.
Proof.
  intros H read.
  unfold Coordinates_getCoordinates in H. cbv zeta in H.
  repeat match type of H with
         | rbind ?a _ = Ok _ =>
             let E := fresh "E" in
             destruct a eqn:E; cbn [rbind] in H; [|discriminate H]
         end.
  destruct (read_shift _ _ _) as [zs sa]. injection H as <-.
  repeat match goal with
         | E : geometry _ _ = Ok _ |- _ => apply geometry_frame in E
         | E : read_J_Bxy _ _ = Ok _ |- _ => apply read_J_Bxy_frame in E
         | E : jacobian _ _ = Ok _ |- _ => apply jacobian_frame in E
         | E : read_covariant _ _ = Ok _ |- _ =>
             apply read_covariant_frame in E;
             destruct E as (n11 & n22 & n33 & n12 & n13 & n23 & E)
         end.
  assert (Hdz : grid_dz get_real Options_zperiod Options_ZMIN Options_ZMAX
                  of_int TWOPI m (LocalNz m)
                = match get_real m "dz", Options_zperiod with
                  | Some v, _ => v
                  | None, Some zperiod =>
                      rdiv (rmul (rsub (rdiv r1 (of_int zperiod)) r0) TWOPI)
                           (of_int (LocalNz m))
                  | None, None =>
                      rdiv (rmul (rsub (match Options_ZMAX with
                                        | Some v => v | None => r1 end)
                                       (match Options_ZMIN with
                                        | Some v => v | None => r0 end))
                                 TWOPI)
                           (of_int (LocalNz m))
                  end).
  { unfold grid_dz. destruct (get_real m "dz"); [reflexivity|].
    destruct Options_zperiod; reflexivity. }
  rewrite <- Hdz.
  cbn [localmesh nz dx dy dz g11 g22 g33 g12 g13 g23 set_torsion set_shift].
  repeat match goal with
         | E : ?c' = _ |- context [?c'] =>
             is_var c'; rewrite E; clear E;
             cbn [localmesh nz dx dy dz g11 g22 g33 g12 g13 g23
                  set_J_Bxy set_covariant set_contravariant set_spacing
                  geometry_non_uniform geometry_communicate
                  geometry_connection set_connection set_non_uniform]
         end.
  unfold read, get_or. cbn [localmesh Coordinates_new].
  repeat split; reflexivity.
Qed.

End BuiltGeometry.

Lemma built_geometry_passes_checks_witness :
  exists c,
    getCoordinatesStaggered RGN_NOBNDRY mesh7 CELL_YLOW flat7_shifted = Ok c
    /\ geometry_checks RGN_NOBNDRY c = Ok tt.
Proof.
  destruct (getCoordinatesStaggered RGN_NOBNDRY mesh7 CELL_YLOW flat7_shifted)
    as [c|e] eqn:E.
  2:{ exfalso. apply (f_equal succeeds) in E. vm_compute in E. discriminate E. }
  exists c. split; [reflexivity|].
  exact (proj1
           (proj1 (proj2 (built_geometry_passes_checks RGN_NOBNDRY RGN_ALL
                            (fun _ => false) (fun _ _ => None)
                            (fun _ _ => false) (fun _ _ _ _ => None)
                            (fun _ x => x) None None None fz twopi64
                            RGN_NOBNDRY mesh7 CELL_YLOW flat7_shifted))
              c E)).
Defined.

Lemma grid_spacing_is_kept_as_read_witness :
  exists c,
    empty_grid_geometry = Ok c
    /\ nz c = 1 /\ dy c = Field2D_const r1
    /\ dz c = ((1 - 0) * twopi64 / fz 1)%float.
Proof.
  destruct empty_grid_geometry as [c|e] eqn:E.
  2:{ exfalso. apply (f_equal succeeds) in E. vm_compute in E. discriminate E. }
  exists c. split; [reflexivity|].
  destruct (grid_spacing_is_kept_as_read RGN_NOBNDRY RGN_ALL
              (fun _ => false) (fun _ _ => None) (fun _ _ => false)
              (fun _ _ _ _ => None) (fun _ x => x) None None None fz twopi64
              mesh7 c E) as (_ & Hn & _ & Hdy & Hdz & _).
  split; [exact Hn|]. split; [exact Hdy|exact Hdz].
Defined.

(** ** The values of the corner interpolation *)

Section CornerValues.

Context {T : Type} {ops : BoutRealOps T}.

Lemma copy_columns_at (temp : @Field2D T) (li : list Z) (y0 : Z)
    (r : @Field2D T) (x y : Z) :
  fold_left (fun result i => assign result i y0 (temp (i - 1) y0)) li r x y
  = if existsb (Z.eqb x) li && (y =? y0) then temp (x - 1) y else r x y.
Proof.
  revert r. induction li as [|i li IH]; intro r; cbn [fold_left existsb].
  - reflexivity.
  - rewrite IH, assign_at.
    destruct (y =? y0) eqn:Ey; [|rewrite !andb_false_r; reflexivity].
    rewrite !andb_true_r. apply Z.eqb_eq in Ey. subst y0.
    destruct (existsb (Z.eqb x) li).
    + rewrite orb_true_r. reflexivity.
    + rewrite orb_false_r. destruct (x =? i) eqn:Ex; [|reflexivity].
      apply Z.eqb_eq in Ex. subst i. reflexivity.
Qed.

Lemma copy_rows_at (temp : @Field2D T) (li : list Z) (ps : list (Z * Z))
    (r : @Field2D T) (x y : Z) :
  fold_left
    (fun result p =>
       fold_left
         (fun result i => assign result i (snd p) (temp (i - 1) (snd p)))
         li result)
    ps r x y
  = if existsb (Z.eqb x) li && existsb (fun p : Z * Z => y =? snd p) ps
    then temp (x - 1) y else r x y.
Proof.
  revert r. induction ps as [|p ps IH]; intro r; cbn [fold_left existsb].
  - rewrite andb_false_r. reflexivity.
  - rewrite IH, copy_columns_at.
    destruct (existsb (Z.eqb x) li); cbn [andb]; [|reflexivity].
    destruct (existsb _ ps).
    + rewrite orb_true_r. reflexivity.
    + rewrite orb_false_r. reflexivity.
Qed.

Lemma copy_outer_x_back_at (m : @Mesh T) (result temp : @Field2D T)
    (x y : Z) :
  copy_outer_x_back m result temp x y
  = if (xend m - 1 <=? x) && (x <? LocalNx m) && outer_x_row m y
    then temp (x - 1) y else result x y.
Proof.
  unfold copy_outer_x_back, outer_x_row.
  rewrite <- existsb_range.
  generalize (getBoundaries m). intro bs. revert result.
  induction bs as [|b bs IH]; intro result; cbn [fold_left existsb].
  - rewrite andb_false_r. reflexivity.
  - rewrite IH. destruct (bndry_bx b >? 0); cbn [andb orb]; [|reflexivity].
    rewrite copy_rows_at.
    destruct (existsb (Z.eqb x) _); cbn [andb]; [|reflexivity].
    destruct (existsb _ bs).
    + rewrite orb_true_r. reflexivity.
    + rewrite orb_false_r. reflexivity.
Qed.

(** X28.  The field [interpXLOWToXYCorner] returns is, cell by cell,
    [interpolateAndExtrapolate] to [CELL_YLOW] of the argument retagged
    [CELL_CENTRE], except in the columns [xend-1 .. LocalNx-1] of the rows
    that hold a position of an outer x boundary: there it is the same
    interpolation of the auxiliary field, taken one column further in.
    The two interior columns [xend-1] and [xend] are among those
    replaced. *)
Theorem interpXLOWToXYCorner_values (m : @Mesh T) (f : @Field2D T)
    (flag : bool) (r : @Field2D T) :
  interpXLOWToXYCorner m f flag = Ok r ->
  exists ry rt : @Field2D T,
    interpolateAndExtrapolate m (setLocation f CELL_CENTRE) CELL_YLOW flag
    = Ok ry
    /\ interpolateAndExtrapolate m
         (setLocation
            (communicate m (shift_outer_x_inwards m f (Field2D_const r0)))
            CELL_CENTRE)
         CELL_YLOW flag
       = Ok rt
    /\ forall x y,
         r x y = if (xend m - 1 <=? x) && (x <? LocalNx m) && outer_x_row m y
                 then rt (x - 1) y else ry x y.
Proof.
  unfold interpXLOWToXYCorner, ASSERT1. cbv zeta.
  destruct ((xstart m >? 1) && (ystart m >? 1)); cbn [rbind];
    [|discriminate].
  destruct (CELL_LOC_eqb (getLocation f) CELL_XLOW); cbn [rbind];
    [|discriminate].
  destruct (interpolateAndExtrapolate m (setLocation f CELL_CENTRE)
              CELL_YLOW flag) as [ry|e1]; cbn [rbind]; [|discriminate].
  destruct (interpolateAndExtrapolate m _ CELL_YLOW flag) as [rt|e2];
    cbn [rbind]; [|discriminate].
  intro H. injection H as <-.
  exists ry, rt. split; [reflexivity|]. split; [reflexivity|].
  intros x y. exact (copy_outer_x_back_at m ry rt x y).
Qed.

End CornerValues.

Lemma interpXLOWToXYCorner_values_witness :
  exists r ry rt : @Field2D float,
    interpXLOWToXYCorner mesh7 (setLocation xcube CELL_XLOW) false = Ok r
    /\ interpolateAndExtrapolate mesh7
         (setLocation (setLocation xcube CELL_XLOW) CELL_CENTRE)
         CELL_YLOW false = Ok ry
    /\ r 1 3 = ry 1 3 /\ r 4 3 = rt 3 3.
Proof.
  destruct (interpXLOWToXYCorner mesh7 (setLocation xcube CELL_XLOW) false)
    as [r|e] eqn:E.
  2:{ exfalso. apply (f_equal succeeds) in E. vm_compute in E. discriminate E. }
  destruct (interpXLOWToXYCorner_values mesh7 (setLocation xcube CELL_XLOW)
              false r E) as (ry & rt & Hy & _ & Hv).
  exists r, ry, rt. split; [reflexivity|]. split; [exact Hy|].
  split; [exact (Hv 1 3)|exact (Hv 4 3)].
Defined.

(** ** The last interior row at an upper branch cut *)

Section BranchCutRow.

Context {T : Type} {ops : BoutRealOps T}.

(** One pass of the loop over the columns at lines 99-118 writes in its
    own column only. *)
Lemma branch_cut_column_only (m : @Mesh T) (loc : CELL_LOC)
    (f s : @Field2D T) (a x y : Z) :
  a <> x ->
  (let result :=
     if hasBranchCutDown m a then
       fold_left
         (fun result j =>
            assign result a j
              (r3 * result a (j + 1)%Z - r3 * result a (j + 2)%Z
               + result a (j + 3)%Z)%B)
         (range_down (ystart m - 1) 0) s
     else s in
   if hasBranchCutUp m a then
     let result :=
       if CELL_LOC_eqb loc CELL_YLOW then
         assign result a (yend m)
           ((r9 * (f a (yend m - 1)%Z + f a (yend m)) - f a (yend m - 2)%Z
             - f a (yend m + 1)%Z) / r16)%B
       else result in
     fold_left
       (fun result j =>
          assign result a j
            (r3 * result a (j - 1)%Z - r3 * result a (j - 2)%Z
             + result a (j - 3)%Z)%B)
       (range (if CELL_LOC_eqb loc CELL_YLOW then yend m + 1 else yend m)
              (LocalNy m)) result
   else result) x y
  = s x y.
Proof.
  intro Hax. cbv zeta.
  assert (Hw : forall (R : @Field2D T) j v, assign R a j v x y = R x y).
  { intros R j v. rewrite assign_at.
    replace (x =? a) with false by (symmetry; apply Z.eqb_neq; lia).
    reflexivity. }
  assert (Hdown : (if hasBranchCutDown m a then
                     fold_left
                       (fun result j =>
                          assign result a j
                            (r3 * result a (j + 1)%Z
                             - r3 * result a (j + 2)%Z
                             + result a (j + 3)%Z)%B)
                       (range_down (ystart m - 1) 0) s
                   else s) x y = s x y).
  { destruct (hasBranchCutDown m a); [|reflexivity].
    apply fold_assign_frame. intros R j _. apply Hw. }
  destruct (hasBranchCutUp m a); [|exact Hdown].
  rewrite fold_assign_frame by (intros R j _; apply Hw).
  destruct (CELL_LOC_eqb loc CELL_YLOW); [rewrite Hw|]; exact Hdown.
Qed.

(** The cubic continuation upwards from the row [j0] leaves the rows
    below [j0] as they are. *)
Lemma cubic_upwards_frame (m : @Mesh T) (s : @Field2D T) (x j0 y : Z) :
  y < j0 ->
  fold_left
    (fun result j =>
       assign result x j
         (r3 * result x (j - 1)%Z - r3 * result x (j - 2)%Z
          + result x (j - 3)%Z)%B)
    (range j0 (LocalNy m)) s x y
  = s x y.
Proof.
  intro Hy. apply fold_assign_frame. intros R j Hj.
  apply in_range in Hj. rewrite assign_at.
  replace (y =? j) with false by (symmetry; apply Z.eqb_neq; lia).
  rewrite andb_false_r. reflexivity.
Qed.

(** X29.  The row [yend] in a column with a branch cut above, when
    [interpolateAndExtrapolate] is asked to extrapolate at branch cuts.
    For the target [CELL_YLOW] it holds the four-point interpolation of
    the argument.  For any other target the upper loop starts at
    [j = yend]: this last interior row does not hold the interpolated
    value but the cubic continuation of the three rows below it. *)
Theorem branch_cut_replaces_last_interior_row (m : @Mesh T) (f : @Field2D T)
    (loc : CELL_LOC) (r : @Field2D T) (x : Z) :
  interpolateAndExtrapolate m f loc true = Ok r ->
  hasBranchCutUp m x = true ->
  xstart m <= x <= xend m ->
  xend m < LocalNx m - xstart m ->
  yend m < LocalNy m ->
  (loc = CELL_YLOW ->
   r x (yend m)
   = ((r9 * (f x (yend m - 1)%Z + f x (yend m)) - f x (yend m - 2)%Z
       - f x (yend m + 1)%Z) / r16)%B)
  /\ (loc <> CELL_YLOW ->
      r x (yend m)
      = (r3 * r x (yend m - 1)%Z - r3 * r x (yend m - 2)%Z
         + r x (yend m - 3)%Z)%B).
Proof.
  intros H Hup Hx Hnx Hny.
  unfold interpolateAndExtrapolate in H. cbv zeta in H.
  destruct (extrapolate_boundaries m loc f _) as [r1|e]; cbn [rbind] in H;
    [|discriminate H].
  injection H as <-.
  assert (Hnc : forall y, ~ corner_cell m x y).
  { intros y (i & j & Hi & _ & [Hxi|Hxi] & _); lia. }
  rewrite !(proj2 (set_corner_guard_cells_spec m _ x _) (Hnc _)).
  unfold extrapolate_branch_cut. cbv zeta.
  match goal with
  | |- context [fold_left ?st (range (xstart m) (xend m + 1)) r1] =>
      set (step := st)
  end.
  assert (Hcol : forall s a y, a <> x -> step s a x y = s x y).
  { intros s a y Hax. exact (branch_cut_column_only m loc f s a x y Hax). }
  split.
  - intro Hloc. subst loc.
    apply (fold_assign_hit step _ _ _ _ _ x).
    + apply in_range. lia.
    + intro s. unfold step. rewrite Hup. cbn [CELL_LOC_eqb].
      rewrite cubic_upwards_frame by lia.
      rewrite assign_at, !Z.eqb_refl. reflexivity.
    + intros s a Hs. destruct (Z.eq_dec a x) as [->|Hax].
      * unfold step. rewrite Hup. cbn [CELL_LOC_eqb].
        rewrite cubic_upwards_frame by lia.
        rewrite assign_at, !Z.eqb_refl. reflexivity.
      * rewrite Hcol by exact Hax. exact Hs.
  - intro Hloc.
    assert (El : CELL_LOC_eqb loc CELL_YLOW = false).
    { destruct (CELL_LOC_eqb loc CELL_YLOW) eqn:E; [|reflexivity].
      apply CELL_LOC_eqb_eq in E. contradiction. }
    set (Q := fun R : @Field2D T =>
                R x (yend m)
                = (r3 * R x (yend m - 1)%Z - r3 * R x (yend m - 2)%Z
                   + R x (yend m - 3)%Z)%B).
    change (Q (fold_left step (range (xstart m) (xend m + 1)) r1)).
    assert (He : forall s, Q (step s x)).
    { intro s. unfold Q, step. rewrite Hup, El.
      set (s' := if hasBranchCutDown m x then _ else s).
      rewrite (range_cons (yend m)) by lia. cbn [fold_left].
      rewrite !cubic_upwards_frame by lia.
      rewrite !assign_at, !Z.eqb_refl.
      replace (yend m - 1 =? yend m) with false
        by (symmetry; apply Z.eqb_neq; lia).
      replace (yend m - 2 =? yend m) with false
        by (symmetry; apply Z.eqb_neq; lia).
      replace (yend m - 3 =? yend m) with false
        by (symmetry; apply Z.eqb_neq; lia).
      reflexivity. }
    apply (fold_left_establish Q step _ _ x).
    + apply in_range. lia.
    + exact He.
    + intros s a Hs. destruct (Z.eq_dec a x) as [->|Hax]; [apply He|].
      unfold Q. rewrite !Hcol by exact Hax. exact Hs.
Qed.

End BranchCutRow.

Lemma branch_cut_replaces_last_interior_row_witness :
  exists r : @Field2D float,
    interpolateAndExtrapolate cut_mesh7 xcube CELL_CENTRE true = Ok r
    /\ r 3 4 = (r3 * r 3%Z 3%Z - r3 * r 3%Z 2%Z + r 3%Z 1%Z)%B.
Proof.
  destruct (interpolateAndExtrapolate cut_mesh7 xcube CELL_CENTRE true)
    as [r|e] eqn:E.
  2:{ exfalso. apply (f_equal succeeds) in E. vm_compute in E. discriminate E. }
  exists r. split; [reflexivity|].
  apply (branch_cut_replaces_last_interior_row cut_mesh7 xcube CELL_CENTRE r 3 E).
  - reflexivity.
  - cbn. lia.
  - cbn. lia.
  - cbn. lia.
  - discriminate.
Defined.

(** ** Further instances *)

Lemma interpXLOWToXYCorner_succeeds_iff_witness :
  exists r : @Field2D float,
    interpXLOWToXYCorner mesh7 (setLocation xcube CELL_XLOW) false = Ok r
    /\ getLocation r = CELL_CENTRE.
Proof.
  destruct (interpXLOWToXYCorner mesh7 (setLocation xcube CELL_XLOW) false)
    as [r|e] eqn:E.
  2:{ exfalso. apply (f_equal succeeds) in E. vm_compute in E. discriminate E. }
  exists r. split; [reflexivity|].
  exact (proj2 (interpXLOWToXYCorner_succeeds_iff mesh7
                  (setLocation xcube CELL_XLOW) false) r E).
Defined.

Lemma covariant_input_is_all_or_nothing_witness :
  exists c,
    covariant_file_geometry = Ok c
    /\ g_11 c = Field2D_const 1%float /\ g_12 c = Field2D_const 0%float.
Proof.
  destruct covariant_file_geometry as [c|e] eqn:E.
  2:{ exfalso. apply (f_equal succeeds) in E. vm_compute in E. discriminate E. }
  exists c. split; [reflexivity|].
  destruct (proj1 (covariant_input_is_all_or_nothing RGN_NOBNDRY RGN_ALL
                     (fun _ => false) (fun _ _ => None) (fun _ _ _ _ => None)
                     (fun _ x => x) None None None fz twopi64
                     (fun _ name => existsb (String.eqb name) covariant_names)
                     covariant_file_mesh7) eq_refl c E)
    as (H11 & _ & _ & H12 & _).
  split; [exact H11|exact H12].
Defined.
